(** * Rightmove property scraper: extraction and normalisation pipeline

    A shallow embedding of [src/main.js] and the properties of its
    primitive normalisers, payload locator, merge engine, pagination
    resolver and crawl loop.

    Conventions of the embedding.
    - A JavaScript string is a [list ascii]; every [ascii] stands for one
      UTF-16 code unit below 256 (the Latin-1 range).  Literals are written
      [str "..."]; the pound sign is the code unit 163, [pound].
    - [null] and [undefined] are both [None] where the code does not
      distinguish them.
    - A JavaScript number is a binary64 [float].
    - The DOM (cheerio) and the network are collaborators: a page is given
      by the answers of the queries the code makes on it. *)

From Stdlib Require Import ZArith List Ascii String Floats Lia Bool DecimalString.
From stdpp Require Import gmap strings list.

(* ====================================================================== *)
(** ** Strings *)
(* ====================================================================== *)

Abbreviation jsstring := (list ascii).

Definition str (s : string) : jsstring := list_ascii_of_string s.

Definition pound : ascii := ascii_of_nat 163.

Definition code (c : ascii) : nat := nat_of_ascii c.

(** [\s] and the characters removed by [String.prototype.trim], restricted
    to code units below 256: TAB, LF, VT, FF, CR, SPACE and NBSP. *)
Definition is_ws (c : ascii) : bool :=
  match code c with
  | 9 | 10 | 11 | 12 | 13 | 32 | 160 => true
  | _ => false
  end.

(** [\d] *)
Definition is_digit (c : ascii) : bool :=
  (48 <=? code c) && (code c <=? 57).

Definition is_upper (c : ascii) : bool :=
  (65 <=? code c) && (code c <=? 90).

Definition is_lower (c : ascii) : bool :=
  (97 <=? code c) && (code c <=? 122).

(** [\w]: letters, digits and underscore. *)
Definition is_word (c : ascii) : bool :=
  is_digit c || is_upper c || is_lower c || (code c =? 95).

(** One code unit of [String.prototype.toLowerCase]: A-Z, and the Latin-1
    capitals 192..222 except the multiplication sign 215. *)
Definition lower_char (c : ascii) : ascii :=
  let n := code c in
  if is_upper c then ascii_of_nat (n + 32)
  else if (192 <=? n) && (n <=? 222) && negb (n =? 215) then ascii_of_nat (n + 32)
  else c.

Definition toLowerCase (s : jsstring) : jsstring := map lower_char s.

(** Canonicalisation of the [i] flag (non-unicode mode) compares upper-cased
    code units and never lets a code unit of 128 or more meet an ASCII one;
    the patterns of this program are ASCII, for which that is comparison of
    the ASCII-lowered code units. *)
Definition ascii_lower (c : ascii) : ascii :=
  if is_upper c then ascii_of_nat (code c + 32) else c.

Definition char_eqb (a b : ascii) : bool := Ascii.eqb a b.

Definition char_eq_ci (a b : ascii) : bool :=
  Ascii.eqb (ascii_lower a) (ascii_lower b).

Arguments char_eqb : simpl never.
Arguments char_eq_ci : simpl never.

Fixpoint dropWhile {A} (p : A -> bool) (l : list A) : list A :=
  match l with
  | [] => []
  | x :: l' => if p x then dropWhile p l' else l
  end.

(** [s.trim()] *)
Definition trim (s : jsstring) : jsstring :=
  rev (dropWhile is_ws (rev (dropWhile is_ws s))).

(** [s.replace(/\s+/g, ' ')]: [in_run] tells that the previous code unit
    belonged to the whitespace run being replaced. *)
Fixpoint replace_ws_runs (in_run : bool) (s : jsstring) : jsstring :=
  match s with
  | [] => []
  | c :: s' =>
      if is_ws c
      then (if in_run then replace_ws_runs true s' else " "%char :: replace_ws_runs true s')
      else c :: replace_ws_runs false s'
  end.

(** [s.startsWith(p)] *)
Fixpoint startsWith (s p : jsstring) {struct p} : bool :=
  match p, s with
  | [], _ => true
  | _ :: _, [] => false
  | a :: p', b :: s' => char_eqb a b && startsWith s' p'
  end.

(** [s.includes(p)] *)
Fixpoint includes (s p : jsstring) : bool :=
  startsWith s p ||
  match s with
  | [] => false
  | _ :: s' => includes s' p
  end.

Definition is_nil {A} (l : list A) : bool :=
  match l with
  | [] => true
  | _ => false
  end.

(** Truthiness of a string value that may be [null]/[undefined]. *)
Definition truthy_str (o : option jsstring) : bool :=
  match o with
  | Some (_ :: _) => true
  | _ => false
  end.

(** [a || b] on string-or-null operands. *)
Definition or_str (a b : option jsstring) : option jsstring :=
  if truthy_str a then a else b.

(* ====================================================================== *)
(** ** Regular expressions *)
(* ====================================================================== *)

(** The fragment of ECMAScript patterns the program uses.  Quantifiers are
    greedy, alternatives are tried left to right, and a match is searched
    from the leftmost start position, as in a backtracking matcher. *)
Inductive regex : Type :=
| RClass (p : ascii -> bool)     (* one code unit of a class *)
| REmpty
| RSeq (r1 r2 : regex)
| RAlt (r1 r2 : regex)
| RStar (r : regex)
| RWordBoundary.                 (* \b *)

Definition ROpt (r : regex) : regex := RAlt r REmpty.
Definition RPlus (r : regex) : regex := RSeq r (RStar r).

(** A literal, under the [i] flag when [ci] is set. *)
Fixpoint RLit (ci : bool) (s : jsstring) : regex :=
  match s with
  | [] => REmpty
  | c :: s' => RSeq (RClass (if ci then char_eq_ci c else char_eqb c)) (RLit ci s')
  end.

Definition is_word_opt (c : option ascii) : bool :=
  match c with
  | Some a => is_word a
  | None => false
  end.

(** [\b] holds between [prev] and the head of [s]. *)
Definition at_boundary (prev : option ascii) (s : jsstring) : bool :=
  xorb (is_word_opt prev) (is_word_opt (head s)).

(** The iterations of a greedy star whose body is matched by [body]: try
    one more iteration, which must consume something, before leaving the
    star; [n] bounds the iterations that are left. *)
Fixpoint star_iter {A}
    (body : option ascii -> jsstring -> (option ascii -> jsstring -> option A) -> option A)
    (k : option ascii -> jsstring -> option A)
    (n : nat) (prev : option ascii) (s : jsstring) : option A :=
  match n with
  | O => k prev s
  | S n' =>
      match body prev s
              (fun p' s' => if (length s' <? length s)%nat then star_iter body k n' p' s' else None) with
      | Some x => Some x
      | None => k prev s
      end
  end.

(** [rmatch r prev s k]: match [r] at the front of [s], [prev] being the
    code unit before it, then continue with [k] on what is left; the first
    success in backtracking order is returned.  An iteration of a star that
    consumes nothing is rejected, as the language prescribes. *)
Fixpoint rmatch {A} (r : regex) (prev : option ascii) (s : jsstring)
    (k : option ascii -> jsstring -> option A) : option A :=
  match r with
  | RClass p =>
      match s with
      | c :: s' => if p c then k (Some c) s' else None
      | [] => None
      end
  | REmpty => k prev s
  | RSeq r1 r2 => rmatch r1 prev s (fun p' s' => rmatch r2 p' s' k)
  | RAlt r1 r2 =>
      match rmatch r1 prev s k with
      | Some x => Some x
      | None => rmatch r2 prev s k
      end
  | RStar r' => star_iter (rmatch r') k (length s) prev s
  | RWordBoundary => if at_boundary prev s then k prev s else None
  end.

(** The text matched by the leftmost match of [r] in [s]. *)
Fixpoint re_find_from (r : regex) (prev : option ascii) (s : jsstring) : option jsstring :=
  match rmatch r prev s (fun _ s' => Some s') with
  | Some s' => Some (take (length s - length s') s)
  | None =>
      match s with
      | [] => None
      | c :: s' => re_find_from r (Some c) s'
      end
  end.

(** [s.match(r)[0]] for a pattern without the [g] flag. *)
Definition re_find (r : regex) (s : jsstring) : option jsstring := re_find_from r None s.

(** [r.test(s)] *)
Definition re_test (r : regex) (s : jsstring) : bool :=
  match re_find r s with
  | Some _ => true
  | None => false
  end.

Definition chr (c : string) : ascii :=
  match c with
  | String a _ => a
  | EmptyString => Ascii.zero
  end.

(** [\d+(?:\.\d+)?] *)
Definition re_number : regex :=
  RSeq (RPlus (RClass is_digit))
       (ROpt (RSeq (RClass (char_eqb (chr "."))) (RPlus (RClass is_digit)))).

(** [/\b\d+(?:\.\d+)?\s*X\b/i] for the letter [X]. *)
Definition re_suffix (x : ascii) : regex :=
  RSeq RWordBoundary
    (RSeq re_number
       (RSeq (RStar (RClass is_ws))
          (RSeq (RClass (char_eq_ci x)) RWordBoundary))).

(** [/\bWORD\b/i] *)
Definition re_word (w : jsstring) : regex :=
  RSeq RWordBoundary (RSeq (RLit true w) RWordBoundary).

(** [/semi[-\s]?detached/i] *)
Definition re_semi_detached : regex :=
  RSeq (RLit true (str "semi"))
    (RSeq (ROpt (RClass (fun c => char_eqb (chr "-") c || is_ws c)))
       (RLit true (str "detached"))).

Definition PROPERTY_TYPE_PATTERNS : list (regex * jsstring) :=
  [ (re_semi_detached, str "Semi-Detached");
    (re_word (str "detached"), str "Detached");
    (re_word (str "terraced"), str "Terraced");
    (re_word (str "bungalow"), str "Bungalow");
    (re_word (str "maisonette"), str "Maisonette");
    (re_word (str "apartment"), str "Apartment");
    (re_word (str "flat"), str "Flat");
    (re_word (str "studio"), str "Studio");
    (re_word (str "duplex"), str "Duplex");
    (re_word (str "penthouse"), str "Penthouse");
    (re_word (str "house"), str "House") ].

(* ====================================================================== *)
(** ** Primitive normalisers *)
(* ====================================================================== *)

Definition BASE_URL : jsstring := str "https://www.rightmove.co.uk".

Definition DEFAULT_PROPERTIES_PER_PAGE : float := 24.
Definition DATASET_BATCH_SIZE : nat := 15.

(** [cleanText] *)
Definition cleanText (text : option jsstring) : option jsstring :=
  match text with
  | None => None
  | Some t =>
      let cleaned := trim (replace_ws_runs false t) in
      if (0 <? length cleaned)%nat then Some cleaned else None
  end.

(** [uniqueArray] on an array of strings (or null entries); [seen] is the
    [Set] of keys, [result] is returned in push order. *)
Fixpoint uniqueArray_loop (items : list (option jsstring)) (seen : gset jsstring)
    (result : list jsstring) : list jsstring :=
  match items with
  | [] => result
  | item :: rest =>
      if negb (truthy_str item) then uniqueArray_loop rest seen result
      else match cleanText item with
           | None => uniqueArray_loop rest seen result
           | Some value =>
               if decide (value ∈ seen) then uniqueArray_loop rest seen result
               else uniqueArray_loop rest ({[value]} ∪ seen) (result ++ [value])
           end
  end.

Definition uniqueArray (items : list (option jsstring)) : list jsstring :=
  uniqueArray_loop items ∅ [].

(** [ensureAbsoluteUrl] *)
Definition ensureAbsoluteUrl (url : option jsstring) : option jsstring :=
  match url with
  | None => None
  | Some [] => None
  | Some u =>
      if startsWith u (str "http") then Some u
      else if startsWith u (str "//") then Some (str "https:" ++ u)
      else Some (BASE_URL ++ (if startsWith u (str "/") then [] else str "/") ++ u)
  end.

(* ====================================================================== *)
(** ** Values and the configuration limits *)
(* ====================================================================== *)

(** A value of the language, as far as this program looks at it: a raw
    input value, the price of a linked-data offer, the amount of a price.
    [JsObject s] is an object or array whose primitive value is the string
    [s]. *)
Inductive js_input : Type :=
| JsUndefined
| JsNull
| JsBool (b : bool)
| JsNumber (f : float)
| JsString (s : jsstring)
| JsObject (s : jsstring).

(** Truthiness of a value. *)
Definition truthy_input (v : js_input) : bool :=
  match v with
  | JsUndefined | JsNull => false
  | JsBool b => b
  | JsNumber f => negb (PrimFloat.is_zero f || PrimFloat.is_nan f)
  | JsString s => negb (is_nil s)
  | JsObject _ => true
  end.

(** [Math.max] and [Math.min] on two numbers. *)
Definition Math_max (a b : float) : float :=
  if PrimFloat.is_nan a || PrimFloat.is_nan b then nan
  else if (a <? b)%float then b
  else if (b <? a)%float then a
  else if PrimFloat.get_sign a then b else a.

Definition Math_min (a b : float) : float :=
  if PrimFloat.is_nan a || PrimFloat.is_nan b then nan
  else if (a <? b)%float then a
  else if (b <? a)%float then b
  else if PrimFloat.get_sign a then a else b.

(** [x || d] on numbers. *)
Definition or_num (x d : float) : float :=
  if PrimFloat.is_zero x || PrimFloat.is_nan x then d else x.

Section Limits.
(** The conversion of a string to a number belongs to the language
    runtime. *)
Variable StringToNumber : jsstring -> float.

(** [Number(v)] *)
Definition Number (v : js_input) : float :=
  match v with
  | JsUndefined => nan
  | JsNull => 0%float
  | JsBool b => if b then 1%float else 0%float
  | JsNumber f => f
  | JsString s => StringToNumber s
  | JsObject s => StringToNumber s
  end.

(** A destructuring default: [{ key: raw = dflt } = input]. *)
Definition with_default (raw : js_input) (dflt : float) : js_input :=
  match raw with
  | JsUndefined => JsNumber dflt
  | _ => raw
  end.

(** [Math.min(Math.max(Number(raw) || dflt, 1), hi)] *)
Definition clamp_limit (raw : js_input) (dflt hi : float) : float :=
  Math_min (Math_max (or_num (Number (with_default raw dflt)) dflt) 1) hi.

Definition effective_maxResults (rawMaxResults : js_input) : float :=
  clamp_limit rawMaxResults 50 1000.

Definition effective_maxPages (rawMaxPages : js_input) : float :=
  clamp_limit rawMaxPages 5 50.
End Limits.

(* ====================================================================== *)
(** ** Numbers *)
(* ====================================================================== *)

Definition digit_value (c : ascii) : Z := Z.of_nat (code c) - 48.

Definition digits_value (ds : jsstring) : Z :=
  fold_left (fun acc c => 10 * acc + digit_value c)%Z ds 0%Z.

Fixpoint takeWhile {A} (p : A -> bool) (l : list A) : list A :=
  match l with
  | [] => []
  | x :: l' => if p x then x :: takeWhile p l' else []
  end.

(** The binary64 number nearest to [m / 10^e] (ties to even). *)
Definition decimal_to_float (m : Z) (e : nat) : float :=
  match m with
  | Zpos p =>
      SF2Prim (SFdiv prec emax (S754_finite false p 0)
                 (S754_finite false (Z.to_pos (10 ^ Z.of_nat e)) 0))
  | _ => 0%float
  end.

(** [parseFloat] on a token of the shape [\d+(?:\.\d+)?]. *)
Definition parseFloat (tok : jsstring) : float :=
  let int_part := takeWhile is_digit tok in
  let frac_part :=
    match dropWhile is_digit tok with
    | c :: f => if char_eqb (chr ".") c then takeWhile is_digit f else []
    | [] => []
    end in
  decimal_to_float (digits_value (int_part ++ frac_part)) (length frac_part).

(** A price object.  [amount] is whatever value was stored under that key
    ([JsUndefined] for a missing key; every price the program builds has
    the key); [displayPrice] holds the value as a string. *)
Record price_t : Type := mkPrice {
  amount : js_input;
  currency : option jsstring;
  displayPrice : option jsstring
}.

(** [priceText.replace(/,/g, '')] *)
Definition remove_commas (s : jsstring) : jsstring :=
  filter (fun c => c ≠ chr ",") s.

(** [parsePrice] *)
Definition parsePrice (priceText : option jsstring) : option price_t :=
  match priceText with
  | None | Some [] => None
  | Some t =>
      let normalized := remove_commas t in
      match re_find re_number normalized with
      | None => None
      | Some tok =>
          let amount0 := parseFloat tok in
          let lower := toLowerCase normalized in
          let amount1 :=
            if re_test (re_suffix (chr "m")) lower || includes lower (str "million")
            then (amount0 * 1000000)%float
            else if re_test (re_suffix (chr "k")) lower
                 then (amount0 * 1000)%float
                 else amount0 in
          Some {| amount := JsNumber amount1;
                  currency := Some (str "GBP");
                  displayPrice := cleanText priceText |}
      end
  end.

(** The loop of [inferPropertyType] over the rule table. *)
Fixpoint first_rule (rules : list (regex * jsstring)) (text : jsstring) : option jsstring :=
  match rules with
  | [] => None
  | (re, value) :: rest => if re_test re text then Some value else first_rule rest text
  end.

(** [inferPropertyType] *)
Definition inferPropertyType (text : option jsstring) : option jsstring :=
  match text with
  | None | Some [] => None
  | Some t => first_rule PROPERTY_TYPE_PATTERNS t
  end.

(** [extractPropertyId]: the pattern
    [/\/properties\/(\d+)|propertyId[=:](\d+)|#properties[=/](\d+)/i]; each
    alternative ends in its only group, whose text is what follows the last
    code unit of the match that is not a digit. *)
Definition re_property_id : regex :=
  let digits := RPlus (RClass is_digit) in
  let one_of (a b : string) := RClass (fun c => char_eqb (chr a) c || char_eqb (chr b) c) in
  RAlt (RSeq (RLit true (str "/properties/")) digits)
    (RAlt (RSeq (RLit true (str "propertyId")) (RSeq (one_of "=" ":") digits))
       (RSeq (RLit true (str "#properties")) (RSeq (one_of "=" "/") digits))).

Definition extractPropertyId (url : option jsstring) : option jsstring :=
  match url with
  | None | Some [] => None
  | Some u =>
      match re_find re_property_id u with
      | Some m => Some (rev (takeWhile is_digit (rev m)))
      | None => None
      end
  end.

(* ====================================================================== *)
(** ** Listing records *)
(* ====================================================================== *)

(** A plain object used as a string map, as the list of its entries in
    [Object.entries] order (keys that look like array indices, which the
    language would move to the front, are not told apart). *)
Abbreviation jsobject := (list (jsstring * jsstring)).

Fixpoint obj_get (k : jsstring) (o : jsobject) : option jsstring :=
  match o with
  | [] => None
  | (k', v) :: o' => if decide (k' = k) then Some v else obj_get k o'
  end.

(** [o[k] = v] *)
Fixpoint obj_set (k v : jsstring) (o : jsobject) : jsobject :=
  match o with
  | [] => [(k, v)]
  | (k', v') :: o' => if decide (k' = k) then (k, v) :: o' else (k', v') :: obj_set k v o'
  end.

(** [{ ...a, ...b }] *)
Definition obj_spread (a b : jsobject) : jsobject :=
  fold_left (fun acc kv => obj_set (fst kv) (snd kv) acc) b a.

(** The agent object built by [extractAgentFromPayload] and
    [extractAgentFromHtml]. *)
Record agent_t : Type := mkAgent {
  agent_name : option jsstring;
  agent_phone : option jsstring;
  agent_address : option jsstring;
  agent_website : option jsstring
}.

(** The record a listing is accumulated in.  A field that is absent,
    [undefined] or [null] is [None]. *)
Record property : Type := mkProperty {
  propertyId : option jsstring;
  url : option jsstring;
  address : option jsstring;
  title : option jsstring;
  description : option jsstring;
  propertyType : option jsstring;
  bedrooms : option float;
  bathrooms : option float;
  agent : option jsstring;
  agentDetails : option agent_t;
  price : option price_t;
  images : option (list jsstring);
  floorplans : option (list jsstring);
  keyFeatures : option (list jsstring);
  features : option (list jsstring);
  details : option jsobject;
  image : option jsstring;
  isNewHome : option bool;
  scrapedAt : option jsstring;
  extractionMethod : option jsstring
}.

(** [{}] *)
Definition empty_property : property :=
  mkProperty None None None None None None None None None None
             None None None None None None None None None None.

(** [setIfMissing(key, value)], as the new value of [merged[key]];
    [blank] recognises the empty string (or empty array) of the field's
    type. *)
Definition setIfMissing {A} (blank : A -> bool) (current value : option A) : option A :=
  match value with
  | None => current
  | Some _ =>
      match current with
      | None => value
      | Some c => if blank c then value else current
      end
  end.

Definition never {A} (_ : A) : bool := false.

(** [uniqueArray([...(mine || []), ...theirs])] *)
Definition union_lists (mine : option (list jsstring)) (theirs : list jsstring) : list jsstring :=
  uniqueArray (map Some (default [] mine ++ theirs)).

Definition merge_list (mine theirs : option (list jsstring)) : option (list jsstring) :=
  match theirs with
  | Some l => Some (union_lists mine l)
  | None => mine
  end.

(** The price of the accumulator counts as missing when it has neither a
    truthy amount nor a truthy display text. *)
Definition price_missing (p : option price_t) : bool :=
  match p with
  | None => true
  | Some q => negb (truthy_input (amount q)) && negb (truthy_str (displayPrice q))
  end.

Definition merge_price (mine theirs : option price_t) : option price_t :=
  match theirs with
  | Some _ => if price_missing mine then theirs else mine
  | None => mine
  end.

Definition merge_details (mine theirs : option jsobject) : option jsobject :=
  match theirs with
  | Some d => Some (obj_spread d (default [] mine))
  | None => mine
  end.

(** [mergePropertyData] *)
Definition mergePropertyData (base : property) (extra : option property) : property :=
  match extra with
  | None => base
  | Some e =>
      {| propertyId := propertyId base;
         url := url base;
         address := setIfMissing is_nil (address base) (address e);
         title := setIfMissing is_nil (title base) (title e);
         description := setIfMissing is_nil (description base) (description e);
         propertyType := setIfMissing is_nil (propertyType base) (propertyType e);
         bedrooms := setIfMissing never (bedrooms base) (bedrooms e);
         bathrooms := setIfMissing never (bathrooms base) (bathrooms e);
         agent := setIfMissing is_nil (agent base) (agent e);
         agentDetails := setIfMissing never (agentDetails base) (agentDetails e);
         price := merge_price (price base) (price e);
         images := merge_list (images base) (images e);
         floorplans := merge_list (floorplans base) (floorplans e);
         keyFeatures := merge_list (keyFeatures base) (keyFeatures e);
         features := features base;
         details := merge_details (details base) (details e);
         image := image base;
         isNewHome := isNewHome base;
         scrapedAt := scrapedAt base;
         extractionMethod := extractionMethod base |}
  end.

(** The loop of [normalizeProperty] over [Object.entries(details)]. *)
Definition clean_details (d : jsobject) : jsobject :=
  fold_left
    (fun acc kv =>
       match cleanText (Some (fst kv)), cleanText (Some (snd kv)) with
       | Some ck, Some cv => obj_set ck cv acc
       | _, _ => acc
       end) d [].

(** The loop of [normalizeProperty] over the agent object: an entry whose
    cleaned value is empty is left out. *)
Definition clean_agent (a : agent_t) : option agent_t :=
  let a' := {| agent_name := cleanText (agent_name a);
               agent_phone := cleanText (agent_phone a);
               agent_address := cleanText (agent_address a);
               agent_website := cleanText (agent_website a) |} in
  match agent_name a', agent_phone a', agent_address a', agent_website a' with
  | None, None, None, None => None
  | _, _, _, _ => Some a'
  end.

Definition absolute_unique (l : list jsstring) : list jsstring :=
  uniqueArray (map (fun u => ensureAbsoluteUrl (Some u)) l).

(** The text that type inference reads:
    [`${title || ''} ${description || ''} ${address || ''}`]. *)
Definition type_text (title description address : option jsstring) : jsstring :=
  default [] (or_str title None) ++ str " " ++
  default [] (or_str description None) ++ str " " ++
  default [] (or_str address None).

Section Normalise.
(** The conversion of a string to a number belongs to the language
    runtime. *)
Variable StringToNumber : jsstring -> float.

(** The price of [normalizeProperty]. *)
Definition clean_price (p : price_t) : price_t :=
  let n := Number StringToNumber (amount p) in
  {| amount := if PrimFloat.is_finite n then JsNumber n else JsNull;
     currency := or_str (currency p) (Some (str "GBP"));
     displayPrice := or_str (cleanText (displayPrice p)) None |}.

(** [normalizeProperty] *)
Definition normalizeProperty (p : property) : property :=
  let address' := cleanText (address p) in
  let title' := or_str (cleanText (title p)) address' in
  let description' := cleanText (description p) in
  let propertyType0 := cleanText (propertyType p) in
  let propertyType' :=
    if truthy_str propertyType0 then propertyType0
    else inferPropertyType (Some (type_text title' description' address')) in
  let agentDetails' :=
    match agentDetails p with
    | Some a => clean_agent a
    | None => None
    end in
  let agent' :=
    or_str (cleanText (agent p))
      (match agentDetails' with
       | Some a => agent_name a
       | None => None
       end) in
  {| propertyId := propertyId p;
     url := url p;
     address := address';
     title := title';
     description := description';
     propertyType := propertyType';
     bedrooms := bedrooms p;
     bathrooms := bathrooms p;
     agent := agent';
     agentDetails := agentDetails';
     price := option_map clean_price (price p);
     images := option_map absolute_unique (images p);
     floorplans := option_map absolute_unique (floorplans p);
     keyFeatures := option_map (fun l => uniqueArray (map Some l)) (keyFeatures p);
     features := option_map (fun l => uniqueArray (map Some l)) (features p);
     details :=
       match details p with
       | Some d => match clean_details d with
                   | [] => None
                   | d' => Some d'
                   end
       | None => None
       end;
     image := image p;
     isNewHome := isNewHome p;
     scrapedAt := scrapedAt p;
     extractionMethod := extractionMethod p |}.
End Normalise.

(* ====================================================================== *)
(** ** Structured-payload locator *)
(* ====================================================================== *)

(** Parsed JSON lives in a store of objects and arrays named by their
    identity, so that sharing and cycles can be expressed; the [WeakSet] of
    the search holds identities. *)
Abbreviation loc := positive.

Inductive jvalue : Type :=
| JNull                 (* null or undefined *)
| JPrim                 (* a boolean, number or string *)
| JRef (l : loc).       (* an object or an array *)

Inductive jnode : Type :=
| JArray (items : list jvalue)
| JObject (fields : list (jsstring * jvalue)).   (* in Object.keys order *)

Abbreviation heap := (gmap loc jnode).

(** [isPlainObject] *)
Definition isPlainObject (n : jnode) : bool :=
  match n with
  | JObject _ => true
  | JArray _ => false
  end.

(** [key in obj] *)
Definition has_key (n : jnode) (key : jsstring) : bool :=
  match n with
  | JObject fields => existsb (fun kv => bool_decide (fst kv = key)) fields
  | JArray _ => false
  end.

(** [keys.some((key) => key in obj)] *)
Definition some_key (n : jnode) (keys : list string) : bool :=
  existsb (fun k => has_key n (str k)) keys.

(** [isLikelyPropertyPayload] *)
Definition isLikelyPropertyPayload (n : jnode) : bool :=
  if negb (isPlainObject n) then false
  else
    let hasAddress := some_key n ["displayAddress"; "address"; "propertyAddress"; "addressSummary"] in
    let hasBeds := some_key n ["bedrooms"; "bedroomCount"; "numBedrooms"] in
    let hasType := some_key n ["propertyType"; "propertySubType"; "propertyTypeFullDescription"] in
    let hasPrice := some_key n ["price"; "displayPrice"; "priceAmount"] in
    hasAddress && (hasBeds || hasType || hasPrice).

(** The values pushed for a node: the items of an array, the values of an
    object in key order. *)
Definition children (n : jnode) : list jvalue :=
  match n with
  | JArray items => items
  | JObject fields => map snd fields
  end.

(** The [while (queue.length)] loop of [findNestedObject]; [None] when the
    fuel is spent, otherwise the returned object (or [null]) and the final
    [seen] set. *)
Fixpoint bfs_loop (fuel : nat) (h : heap) (predicate : loc -> jnode -> bool) (maxDepth : nat)
    (queue : list (jvalue * nat)) (seen : gset loc) : option (option loc * gset loc) :=
  match fuel with
  | O => None
  | S fuel' =>
      match queue with
      | [] => Some (None, seen)
      | (value, depth) :: rest =>
          match value with
          | JRef l =>
              match h !! l with
              | Some n =>
                  if decide (l ∈ seen) then bfs_loop fuel' h predicate maxDepth rest seen
                  else
                    let seen' := {[l]} ∪ seen in
                    if predicate l n then Some (Some l, seen')
                    else if (maxDepth <=? depth)%nat
                         then bfs_loop fuel' h predicate maxDepth rest seen'
                         else bfs_loop fuel' h predicate maxDepth
                                (rest ++ map (fun c => (c, S depth)) (children n)) seen'
              | None => bfs_loop fuel' h predicate maxDepth rest seen
              end
          | _ => bfs_loop fuel' h predicate maxDepth rest seen
          end
      end
  end.

(** The number of values held by all the nodes of the store. *)
Definition total_children (h : heap) : nat :=
  map_fold (fun _ n acc => (length (children n) + acc)%nat) 0%nat h.

(** Iterations that always suffice for the loop. *)
Definition bfs_fuel (h : heap) : nat :=
  (size h * S (total_children h) + 2)%nat.

Definition findNestedObject_run (h : heap) (root : jvalue) (predicate : loc -> jnode -> bool)
    (maxDepth : nat) : option (option loc * gset loc) :=
  match root with
  | JRef l =>
      match h !! l with
      | Some _ => bfs_loop (bfs_fuel h) h predicate maxDepth [(root, 0%nat)] ∅
      | None => Some (None, ∅)
      end
  | _ => Some (None, ∅)
  end.

(** [findNestedObject(root, predicate, maxDepth)] *)
Definition findNestedObject (h : heap) (root : jvalue) (predicate : loc -> jnode -> bool)
    (maxDepth : nat) : option loc :=
  match findNestedObject_run h root predicate maxDepth with
  | Some (found, _) => found
  | None => None
  end.

(** The search of the payload locator: [findNestedObject(data,
    isLikelyPropertyPayload)] with the default depth of 6. *)
Definition locate_payload (h : heap) (data : jvalue) : option loc :=
  findNestedObject h data (fun _ n => isLikelyPropertyPayload n) 6.

(** [v] is reached from [root] along [d] edges. *)
Inductive reach (h : heap) (root : jvalue) : nat -> jvalue -> Prop :=
| reach_root : reach h root 0 root
| reach_child d l n c :
    reach h root d (JRef l) -> h !! l = Some n -> c ∈ children n ->
    reach h root (S d) c.

(* ====================================================================== *)
(** ** Pages *)
(* ====================================================================== *)

(** What a next-page selector finds: the [href] of the element or of its
    enclosing anchor, its [data-url] and its [data-page] (each already the
    value of the [||] chain the code reads it with). *)
Record control : Type := mkControl {
  ctl_href : option jsstring;
  ctl_dataUrl : option jsstring;
  ctl_dataPage : option jsstring
}.

(** A search-results page: for each card container, what
    [extractPropertyCard] returns; for each of the eight next-page
    selectors, the first element it matches, if any. *)
Record list_page : Type := mkListPage {
  cards : list (option property);
  controls : list (option control)
}.

(** The offer of a linked-data entry: its [price], whatever value that
    is, the same value as a string, and its [priceCurrency]. *)
Record offer_t : Type := mkOffer {
  offer_price : js_input;
  offer_price_text : jsstring;
  offer_priceCurrency : option jsstring
}.

(** An entry of the [image] array of a linked-data entry: a string, or a
    value that is not a string (an [ImageObject], a number, [null]), of
    which the program only ever tests the truthiness. *)
Inductive image_entry : Type :=
| ImageString (s : jsstring)
| ImageOther (truthy : bool).

(** One parsed linked-data entry. *)
Record jsonld : Type := mkJsonLd {
  ld_type : option jsstring;
  ld_name : option jsstring;
  ld_description : option jsstring;
  ld_image : option (list image_entry);     (* an array, or a single value *)
  ld_offers : option (option offer_t)       (* [Some None]: an empty array *)
}.

(** A listing detail page, by the answers to the queries of
    [extractPropertyDetails] and by what the secondary API returns for the
    listing. *)
Record detail_page : Type := mkDetailPage {
  jsonLdData : list (option jsonld);          (* [None]: a [null] entry *)
  embeddedData : list (option property);      (* per blob: the payload found, extracted *)
  h1_text : jsstring;
  description_text : jsstring;
  keyFeature_items : list jsstring;
  detail_pairs : list (jsstring * jsstring);  (* the calls of [addDetail], in order *)
  gallery_srcs : list (option jsstring);
  floorplan_srcs : list (option jsstring);
  agent_html : option agent_t;                (* [extractAgentFromHtml] *)
  api_extracted : option property             (* the API answer, extracted *)
}.

(** What the crawler hands to [requestHandler] for a request: the status
    code of the response ([None] when there is none), the body as text,
    and the page parsed from it. *)
Record response (A : Type) : Type := mkResponse {
  statusCode : option Z;
  bodyText : option jsstring;
  page : A
}.
Arguments mkResponse {A} statusCode bodyText page.
Arguments statusCode {A} r.
Arguments bodyText {A} r.
Arguments page {A} r.

(* ====================================================================== *)
(** ** Pagination cursor resolver *)
(* ====================================================================== *)

(** The binary64 number nearest to the integer [n]: the value of a
    counter of the run, which is exact below 2^53. *)
Definition Z_to_float (n : Z) : float := SF2Prim (binary_normalize prec emax n 0 false).

(** [parseInt(s, 10)]; a missing argument gives [NaN]. *)
Definition parseInt (o : option jsstring) : float :=
  match o with
  | None => nan
  | Some s =>
      let s1 := dropWhile is_ws s in
      let signed :=
        match s1 with
        | c :: r => if char_eqb (chr "-") c then (true, r)
                    else if char_eqb (chr "+") c then (false, r)
                    else (false, s1)
        | [] => (false, s1)
        end in
      match takeWhile is_digit (snd signed) with
      | [] => nan
      | ds =>
          let v := decimal_to_float (digits_value ds) 0 in
          if fst signed then (- v)%float else v
      end
  end.

(** [n || 1] *)
Definition or_one (n : Z) : Z := if (n =? 0)%Z then 1%Z else n.

Section Resolver.
(** The [URL] class of the runtime: reading a query parameter, setting
    one, and serialising; and [String(n)] for a number. *)
Variable url_get : jsstring -> jsstring -> option jsstring.
Variable url_set : jsstring -> jsstring -> jsstring -> jsstring.
Variable url_toString : jsstring -> jsstring.
Variable NumberToString : float -> jsstring.

(** The loop of [findNextPageUrl] over the selectors; [None] when it
    falls through to the fallback. *)
Fixpoint next_from_controls (cs : list (option control)) (requestUrl : jsstring)
    : option (option jsstring) :=
  match cs with
  | [] => None
  | None :: rest => next_from_controls rest requestUrl
  | Some el :: rest =>
      if truthy_str (ctl_href el) then Some (ensureAbsoluteUrl (ctl_href el))
      else if truthy_str (ctl_dataUrl el) then Some (ensureAbsoluteUrl (ctl_dataUrl el))
      else if truthy_str (ctl_dataPage el) then
        let pageNum := parseInt (ctl_dataPage el) in
        if PrimFloat.is_finite pageNum
        then
          let u1 := url_set requestUrl (str "page") (NumberToString pageNum) in
          Some (Some (url_set u1 (str "index")
                        (NumberToString
                           (Math_max 0 ((pageNum - 1) * DEFAULT_PROPERTIES_PER_PAGE)%float))))
        else Some (Some (url_toString requestUrl))
      else next_from_controls rest requestUrl
  end.

(** The fallback of [findNextPageUrl]. *)
Definition next_fallback (requestUrl : jsstring) (currentPage : Z) : jsstring :=
  let currentIndex := parseInt (url_get requestUrl (str "index")) in
  let currentPageParam := parseInt (url_get requestUrl (str "page")) in
  let current := Z_to_float (or_one currentPage) in
  let nextIndex :=
    if PrimFloat.is_finite currentIndex
    then (currentIndex + DEFAULT_PROPERTIES_PER_PAGE)%float
    else if PrimFloat.is_finite currentPageParam
         then (currentPageParam * DEFAULT_PROPERTIES_PER_PAGE)%float
         else Math_max 0 (current * DEFAULT_PROPERTIES_PER_PAGE)%float in
  let nextPage :=
    if PrimFloat.is_finite currentPageParam
    then (currentPageParam + 1)%float
    else (current + 1)%float in
  url_set (url_set requestUrl (str "index") (NumberToString nextIndex))
    (str "page") (NumberToString nextPage).

(** [findNextPageUrl] *)
Definition findNextPageUrl (pg : list_page) (requestUrl : jsstring) (currentPage : Z)
    : option jsstring :=
  match next_from_controls (controls pg) requestUrl with
  | Some r => r
  | None => Some (next_fallback requestUrl currentPage)
  end.
End Resolver.

(* ====================================================================== *)
(** ** Detail extraction *)
(* ====================================================================== *)

Inductive ld_search : Type :=
| LdThrows               (* a [null] entry is dereferenced *)
| LdFound (d : jsonld)
| LdNone.

Definition ld_type_accepted (t : option jsstring) : bool :=
  match t with
  | Some s =>
      bool_decide (s = str "Product") || bool_decide (s = str "RealEstateListing")
      || bool_decide (s = str "Apartment") || bool_decide (s = str "House")
  | None => false
  end.

(** [jsonLdData.find(...)] *)
Fixpoint find_jsonld (l : list (option jsonld)) : ld_search :=
  match l with
  | [] => LdNone
  | None :: _ => LdThrows
  | Some d :: rest => if ld_type_accepted (ld_type d) then LdFound d else find_jsonld rest
  end.

(** The price object made from the offer: [offer?.price || null] is
    stored as the amount and as the display text. *)
Definition price_of_offer (offer : option offer_t) : price_t :=
  match offer with
  | Some o =>
      {| amount := if truthy_input (offer_price o) then offer_price o else JsNull;
         currency := or_str (offer_priceCurrency o) (Some (str "GBP"));
         displayPrice :=
           if truthy_input (offer_price o) then Some (offer_price_text o) else None |}
  | None => {| amount := JsNull; currency := Some (str "GBP"); displayPrice := None |}
  end.

(** The place of an entry in [images].  The record keeps its images as
    strings: an entry that is not a string is kept as the empty text when
    it is falsy (both are skipped wherever the array is read) and as a
    mark when it is truthy (the handler throws before such a record is
    pushed, see [normalize_throws]). *)
Definition entry_text (e : image_entry) : jsstring :=
  match e with
  | ImageString s => s
  | ImageOther false => []
  | ImageOther true => str "[object]"
  end.

(** The assignments made from the linked-data entry. *)
Definition apply_jsonld (pd : property) (ld : jsonld) : property :=
  {| propertyId := propertyId pd;
     url := url pd;
     address := address pd;
     title := if truthy_str (ld_name ld) then ld_name ld else title pd;
     description := if truthy_str (ld_description ld) then ld_description ld else description pd;
     propertyType :=
       if negb (truthy_str (propertyType pd)) && truthy_str (ld_type ld)
       then cleanText (ld_type ld) else propertyType pd;
     bedrooms := bedrooms pd;
     bathrooms := bathrooms pd;
     agent := agent pd;
     agentDetails := agentDetails pd;
     price := match ld_offers ld with
              | Some offer => Some (price_of_offer offer)
              | None => price pd
              end;
     images := match ld_image ld with
               | Some l => Some (map entry_text l)
               | None => images pd
               end;
     floorplans := floorplans pd;
     keyFeatures := keyFeatures pd;
     features := features pd;
     details := details pd;
     image := image pd;
     isNewHome := isNewHome pd;
     scrapedAt := scrapedAt pd;
     extractionMethod := extractionMethod pd |}.

(** [Object.keys(extracted).length] is not zero. *)
Definition has_keys (e : property) : bool :=
  match e with
  | mkProperty None None None None None None None None None None
               None None None None None None None None None None => false
  | _ => true
  end.

(** The loop over the embedded blobs: the accumulator and [usedEmbedded]. *)
Fixpoint merge_embedded (blobs : list (option property)) (pd : property) (used : bool)
    : property * bool :=
  match blobs with
  | [] => (pd, used)
  | None :: rest => merge_embedded rest pd used
  | Some extracted :: rest =>
      if has_keys extracted
      then merge_embedded rest (mergePropertyData pd (Some extracted)) true
      else merge_embedded rest pd used
  end.

(** The list items kept as key features. *)
Fixpoint html_keyFeatures (items : list jsstring) : list jsstring :=
  match items with
  | [] => []
  | it :: rest =>
      match cleanText (Some it) with
      | Some f => if (2 <? length f)%nat then f :: html_keyFeatures rest else html_keyFeatures rest
      | None => html_keyFeatures rest
      end
  end.

(** [extractDetailsFromHtml]: [addDetail] over the pairs found. *)
Definition extractDetailsFromHtml (pairs : list (jsstring * jsstring)) : jsobject :=
  clean_details pairs.

(** The gallery loop that fills [propertyData.images]. *)
Fixpoint html_images (srcs : list (option jsstring)) (acc : list jsstring) : list jsstring :=
  match srcs with
  | [] => acc
  | src :: rest =>
      match src with
      | Some (c :: s') =>
          if bool_decide ((c :: s') ∈ acc) then html_images rest acc
          else html_images rest (acc ++ [default [] (ensureAbsoluteUrl src)])
      | _ => html_images rest acc
      end
  end.

Fixpoint html_floorplans (srcs : list (option jsstring)) : list jsstring :=
  match srcs with
  | [] => []
  | src :: rest =>
      if truthy_str src then default [] (ensureAbsoluteUrl src) :: html_floorplans rest
      else html_floorplans rest
  end.

(** [getDetailValue(details, keywords)] *)
Fixpoint getDetailValue (d : jsobject) (keywords : list jsstring) : option jsstring :=
  match d with
  | [] => None
  | (key, value) :: rest =>
      if existsb (fun keyword => includes (toLowerCase key) keyword) keywords
      then Some value else getDetailValue rest keywords
  end.

(** [list.length > 0 ? list : (previous || null)] *)
Definition nonempty_or {A} (l : list A) (previous : option (list A)) : option (list A) :=
  match l with
  | [] => previous
  | _ => Some l
  end.

(** The record of the [catch] branch. *)
Definition failed_record (basicInfo : property) : property :=
  {| propertyId := propertyId basicInfo; url := url basicInfo;
     address := address basicInfo; title := title basicInfo;
     description := description basicInfo; propertyType := propertyType basicInfo;
     bedrooms := bedrooms basicInfo; bathrooms := bathrooms basicInfo;
     agent := agent basicInfo; agentDetails := agentDetails basicInfo;
     price := price basicInfo; images := images basicInfo;
     floorplans := floorplans basicInfo; keyFeatures := keyFeatures basicInfo;
     features := features basicInfo; details := details basicInfo;
     image := image basicInfo; isNewHome := isNewHome basicInfo;
     scrapedAt := scrapedAt basicInfo;
     extractionMethod := Some (str "failed") |}.

(** The part of [extractPropertyDetails] after the structured sources:
    [pd] is [propertyData] at that point. *)
Definition finish_details (pg : detail_page) (pd : property) (method : jsstring) : property :=
  let title' := or_str (title pd) (cleanText (Some (h1_text pg))) in
  let description' := or_str (description pd) (cleanText (Some (description_text pg))) in
  let keyFeatures' := html_keyFeatures (keyFeature_items pg) in
  let details' := extractDetailsFromHtml (detail_pairs pg) in
  let images1 :=
    match images pd with
    | Some l => l
    | None => html_images (gallery_srcs pg) []
    end in
  let floorplans' := html_floorplans (floorplan_srcs pg) in
  let take_agent :=
    match agent_html pg, agentDetails pd with
    | Some _, None => true
    | _, _ => false
    end in
  let agentDetails1 := if take_agent then agent_html pg else agentDetails pd in
  let agent1 :=
    if take_agent && negb (truthy_str (agent pd))
    then match agent_html pg with
         | Some a => agent_name a
         | None => None
         end
    else agent pd in
  let fromDetails := getDetailValue details' [str "property type"; str "property type:"] in
  let propertyType1 :=
    if negb (truthy_str (propertyType pd)) && truthy_str fromDetails
    then fromDetails else propertyType pd in
  let propertyType2 :=
    if negb (truthy_str propertyType1)
    then inferPropertyType (Some (type_text title' description' (address pd)))
    else propertyType1 in
  {| propertyId := propertyId pd;
     url := url pd;
     address := address pd;
     title := or_str title' (title pd);
     description := or_str description' (description pd);
     propertyType := propertyType2;
     bedrooms := bedrooms pd;
     bathrooms := bathrooms pd;
     agent := agent1;
     agentDetails := agentDetails1;
     price := price pd;
     images := nonempty_or images1 None;
     floorplans := nonempty_or floorplans' (floorplans pd);
     keyFeatures := nonempty_or keyFeatures' (keyFeatures pd);
     features := features pd;
     details := nonempty_or details' (details pd);
     image := image pd;
     isNewHome := isNewHome pd;
     scrapedAt := scrapedAt pd;
     extractionMethod := Some method |}.

(** [extractPropertyDetails] *)
Definition extractPropertyDetails (pg : detail_page) (basicInfo : property) : property :=
  match find_jsonld (jsonLdData pg) with
  | LdThrows => failed_record basicInfo
  | found =>
      let pd1 :=
        match found with
        | LdFound ld => apply_jsonld basicInfo ld
        | _ => basicInfo
        end in
      let method1 :=
        match found with
        | LdFound _ => str "json-ld"
        | _ => str "html-parse"
        end in
      let merged := merge_embedded (embeddedData pg) pd1 false in
      let method2 :=
        if snd merged
        then (if bool_decide (method1 = str "json-ld")
              then str "json-ld+embedded" else str "embedded-json")
        else method1 in
      finish_details pg (fst merged) method2
  end.

(* ====================================================================== *)
(** ** The crawl *)
(* ====================================================================== *)

(** The run is modelled with one handler call at a time: a call runs from
    its start to its end before the next one begins, and a request whose
    handler threw is tried again before the next request is taken.  (The
    crawler of the program may run up to four calls at once, which take
    turns at their [await] points, and it puts a request to retry back
    into its queue; [overlapping_details] below is such a run of two
    calls.) *)

Definition MAX_RETRIES : nat := 5.

(** [isBlockedResponse]; [status] is [response?.statusCode], [body] the
    text of the body. *)
Definition isBlockedResponse (status : option Z) (body : option jsstring) : bool :=
  if match status with
     | Some s => existsb (Z.eqb s) [401; 403; 429; 503]%Z
     | None => false
     end
  then true
  else
    match body with
    | None | Some [] => false
    | Some b =>
        let text := toLowerCase b in
        includes text (str "access denied") || includes text (str "captcha")
        || includes text (str "robot") || includes text (str "incapsula")
    end.

(** A queued request with its [userData]. *)
Inductive request : Type :=
| LIST (request_url : jsstring) (pageNumber : Z)
| DETAIL (request_url : jsstring) (basicInfo : property).

Definition detail_url (r : request) : option jsstring :=
  match r with
  | DETAIL u _ => Some u
  | LIST _ _ => None
  end.

(** The variables of the run, the request queue (what is still to be
    handled, and everything that was ever added) and the dataset. *)
Record crawl_state : Type := mkState {
  propertiesQueued : Z;
  propertiesStored : Z;
  pagesProcessed : Z;
  propertyUrls : gset jsstring;
  propertyDataBatch : list property;
  dataset : list property;
  pending : list request;
  added : list request
}.

(** [crawler.addRequests([r])]; that the queue of the crawler drops a URL
    it has seen before is not modelled. *)
Definition addRequest (r : request) (st : crawl_state) : crawl_state :=
  {| propertiesQueued := propertiesQueued st;
     propertiesStored := propertiesStored st;
     pagesProcessed := pagesProcessed st;
     propertyUrls := propertyUrls st;
     propertyDataBatch := propertyDataBatch st;
     dataset := dataset st;
     pending := pending st ++ [r];
     added := added st ++ [r] |}.

(** [propertyDataBatch.push(p); propertiesStored += 1] *)
Definition store (p : property) (st : crawl_state) : crawl_state :=
  {| propertiesQueued := propertiesQueued st;
     propertiesStored := propertiesStored st + 1;
     pagesProcessed := pagesProcessed st;
     propertyUrls := propertyUrls st;
     propertyDataBatch := propertyDataBatch st ++ [p];
     dataset := dataset st;
     pending := pending st;
     added := added st |}.

(** The flush of the batch has two steps with an [await] between them:
    [await Dataset.pushData([...propertyDataBatch])] pushes a copy of the
    batch, and [propertyDataBatch.length = 0] empties it once the push
    has returned. *)
Definition flush_push (st : crawl_state) : crawl_state :=
  {| propertiesQueued := propertiesQueued st;
     propertiesStored := propertiesStored st;
     pagesProcessed := pagesProcessed st;
     propertyUrls := propertyUrls st;
     propertyDataBatch := propertyDataBatch st;
     dataset := dataset st ++ propertyDataBatch st;
     pending := pending st;
     added := added st |}.

Definition flush_clear (st : crawl_state) : crawl_state :=
  {| propertiesQueued := propertiesQueued st;
     propertiesStored := propertiesStored st;
     pagesProcessed := pagesProcessed st;
     propertyUrls := propertyUrls st;
     propertyDataBatch := [];
     dataset := dataset st;
     pending := pending st;
     added := added st |}.

(** The flush of the batch once it holds [DATASET_BATCH_SIZE] records,
    when no other handler call runs between its two steps. *)
Definition flush_if_full (st : crawl_state) : crawl_state :=
  if (DATASET_BATCH_SIZE <=? length (propertyDataBatch st))%nat
  then flush_clear (flush_push st)
  else st.

(** The flush after [crawler.run()]. *)
Definition flush_rest (st : crawl_state) : crawl_state :=
  match propertyDataBatch st with
  | [] => st
  | batch =>
      {| propertiesQueued := propertiesQueued st;
         propertiesStored := propertiesStored st;
         pagesProcessed := pagesProcessed st;
         propertyUrls := propertyUrls st;
         propertyDataBatch := batch;
         dataset := dataset st ++ batch;
         pending := pending st;
         added := added st |}
  end.

Definition with_meta (p : property) (pid u stamp method : option jsstring) : property :=
  {| propertyId := pid; url := u;
     address := address p; title := title p; description := description p;
     propertyType := propertyType p; bedrooms := bedrooms p; bathrooms := bathrooms p;
     agent := agent p; agentDetails := agentDetails p; price := price p;
     images := images p; floorplans := floorplans p; keyFeatures := keyFeatures p;
     features := features p; details := details p; image := image p;
     isNewHome := isNewHome p;
     scrapedAt := stamp;
     extractionMethod := method |}.

(** The loop over the cards of a page: [properties] and the dedup set. *)
Fixpoint collect_cards (cs : list (option property)) (remaining : float)
    (urls : gset jsstring) (properties : list property) : gset jsstring * list property :=
  match cs with
  | [] => (urls, properties)
  | card :: rest =>
      if (remaining <=? Z_to_float (Z.of_nat (length properties)))%float
      then (urls, properties)
      else
        match card with
        | Some p =>
            match url p with
            | Some (c :: u') =>
                if decide ((c :: u') ∈ urls) then collect_cards rest remaining urls properties
                else collect_cards rest remaining ({[c :: u']} ∪ urls) (properties ++ [p])
            | _ => collect_cards rest remaining urls properties
            end
        | None => collect_cards rest remaining urls properties
        end
  end.

(** The summary stored under [OUTPUT]. *)
Record run_summary : Type := mkSummary {
  out_propertiesStored : Z;
  out_uniqueProperties : nat;
  out_pagesProcessed : Z
}.

(** [ensureAbsoluteUrl], which [normalizeProperty] maps over [images],
    calls [url.startsWith] on every truthy entry; an entry that is not a
    string has no such method, and the call throws. *)
Definition entry_throws (e : image_entry) : bool :=
  match e with
  | ImageOther true => true
  | _ => false
  end.

(** [normalizeProperty] throws on the record of the page: the entries of
    the [image] array of the linked-data entry stay in [images] up to that
    call (the merges keep every truthy entry). *)
Definition normalize_throws (pg : detail_page) : bool :=
  match find_jsonld (jsonLdData pg) with
  | LdFound ld =>
      match ld_image ld with
      | Some l => existsb entry_throws l
      | None => false
      end
  | _ => false
  end.

Section Crawl.
Variable url_get : jsstring -> jsstring -> option jsstring.
Variable url_set : jsstring -> jsstring -> jsstring -> jsstring.
Variable url_toString : jsstring -> jsstring.
Variable NumberToString : float -> jsstring.
Variable StringToNumber : jsstring -> float.
(** The site, as what the fetching collaborator hands over for a URL at
    each attempt ([request.retryCount]). *)
Variable fetch_list : jsstring -> nat -> response list_page.
Variable fetch_detail : jsstring -> nat -> response detail_page.
(** [new Date().toISOString()] *)
Variable now : jsstring.
(** The configuration: [collectDetails] (its truthiness) and the raw
    limits of the input. *)
Variable collectDetails : bool.
Variable rawMaxResults : js_input.
Variable rawMaxPages : js_input.

Definition maxResults : float := effective_maxResults StringToNumber rawMaxResults.
Definition maxPages : float := effective_maxPages StringToNumber rawMaxPages.

(** The [DETAIL] branch of [requestHandler], up to the record handed to
    [normalizeProperty]. *)
Definition detail_property (pg : detail_page) (u : jsstring) (basicInfo : property)
    : property :=
  let pid := or_str (propertyId basicInfo) (extractPropertyId (Some u)) in
  let baseInfo :=
    with_meta basicInfo pid (Some u) (scrapedAt basicInfo) (extractionMethod basicInfo) in
  let property0 := extractPropertyDetails pg baseInfo in
  let needsApi :=
    negb (truthy_str (propertyType property0)) || negb (truthy_str (agent property0))
    || negb (bool_decide (is_Some (details property0)))
    || negb (bool_decide (is_Some (images property0)))
    || negb (truthy_str (description property0)) in
  let property1 :=
    if needsApi && truthy_str pid
    then match api_extracted pg with
         | Some extracted => mergePropertyData property0 (Some extracted)
         | None => property0
         end
    else property0 in
  with_meta property1 (propertyId property1) (url property1) (Some now)
    (extractionMethod property1).

(** The record the [DETAIL] branch pushes; [None] when [normalizeProperty]
    throws. *)
Definition detail_record (pg : detail_page) (u : jsstring) (basicInfo : property)
    : option property :=
  if normalize_throws pg then None
  else Some (normalizeProperty StringToNumber (detail_property pg u basicInfo)).

(** The [DETAIL] branch; [None] when it throws. *)
Definition handle_detail (pg : detail_page) (u : jsstring) (basicInfo : property)
    (st : crawl_state) : option crawl_state :=
  match detail_record pg u basicInfo with
  | Some normalized => Some (flush_if_full (store normalized st))
  | None => None
  end.

(** The loop that queues the detail requests. *)
Fixpoint enqueue_details (properties : list property) (st : crawl_state) : crawl_state :=
  match properties with
  | [] => st
  | p :: rest =>
      if (maxResults <=? Z_to_float (propertiesQueued st))%float then st
      else
        let st1 := addRequest (DETAIL (default [] (url p)) p) st in
        enqueue_details rest
          {| propertiesQueued := propertiesQueued st1 + 1;
             propertiesStored := propertiesStored st1;
             pagesProcessed := pagesProcessed st1;
             propertyUrls := propertyUrls st1;
             propertyDataBatch := propertyDataBatch st1;
             dataset := dataset st1;
             pending := pending st1;
             added := added st1 |}
  end.

(** The loop that stores the cards directly. *)
Fixpoint store_cards (properties : list property) (st : crawl_state) : crawl_state :=
  match properties with
  | [] => st
  | p :: rest =>
      if (maxResults <=? Z_to_float (propertiesStored st))%float then st
      else
        store_cards rest
          (store (normalizeProperty StringToNumber
                    (with_meta p (propertyId p) (url p) (Some now) (Some (str "basic-card"))))
             st)
  end.

(** The count the ceilings are compared with. *)
Definition progress (st : crawl_state) : Z :=
  if collectDetails then propertiesQueued st else propertiesStored st.

(** Both ceilings are still ahead:
    [progress < maxResults && pagesProcessed < maxPages]. *)
Definition ceilings_ahead (st : crawl_state) : bool :=
  (Z_to_float (progress st) <? maxResults)%float
  && (Z_to_float (pagesProcessed st) <? maxPages)%float.

(** The page number the next page is counted from:
    [userData.pageNumber || pagesProcessed || 1]. *)
Definition current_page (pageNumber : Z) (st : crawl_state) : Z :=
  if (pageNumber =? 0)%Z then or_one (pagesProcessed st) else pageNumber.

(** The pagination step at the end of the [LIST] branch. *)
Definition paginate (pg : list_page) (u : jsstring) (pageNumber : Z) (st : crawl_state)
    : crawl_state :=
  if ceilings_ahead st
  then
    let current := current_page pageNumber st in
    let nextPageNumber := (current + 1)%Z in
    match findNextPageUrl url_get url_set url_toString NumberToString pg u current with
    | Some (c :: nextUrl) => addRequest (LIST (c :: nextUrl) nextPageNumber) st
    | _ => st
    end
  else st.

(** The request, if any, that the pagination step adds in state [st]. *)
Definition next_requests (pg : list_page) (u : jsstring) (pageNumber : Z) (st : crawl_state)
    : list request :=
  if ceilings_ahead st
  then match findNextPageUrl url_get url_set url_toString NumberToString pg u
               (current_page pageNumber st) with
       | Some (c :: nextUrl) => [LIST (c :: nextUrl) (current_page pageNumber st + 1)]
       | _ => []
       end
  else [].

(** The [LIST] branch of [requestHandler]. *)
Definition handle_list (pg : list_page) (u : jsstring) (pageNumber : Z) (st : crawl_state)
    : crawl_state :=
  let pagesProcessed' := Z.max (pagesProcessed st) (or_one pageNumber) in
  let st0 :=
    {| propertiesQueued := propertiesQueued st;
       propertiesStored := propertiesStored st;
       pagesProcessed := pagesProcessed';
       propertyUrls := propertyUrls st;
       propertyDataBatch := propertyDataBatch st;
       dataset := dataset st;
       pending := pending st;
       added := added st |} in
  let remaining := (maxResults - Z_to_float (progress st0))%float in
  if (remaining <=? 0)%float then st0
  else
    let collected := collect_cards (cards pg) remaining (propertyUrls st0) [] in
    let st1 :=
      {| propertiesQueued := propertiesQueued st0;
         propertiesStored := propertiesStored st0;
         pagesProcessed := pagesProcessed st0;
         propertyUrls := fst collected;
         propertyDataBatch := propertyDataBatch st0;
         dataset := dataset st0;
         pending := pending st0;
         added := added st0 |} in
    let st2 :=
      if collectDetails then enqueue_details (snd collected) st1
      else flush_if_full (store_cards (snd collected) st1) in
    paginate pg u pageNumber st2.

(** [requestHandler], for the response of the attempt [retryCount];
    [None] when it throws: on a response taken for a block, before
    anything else is done, or in the [DETAIL] branch. *)
Definition requestHandler (r : request) (retryCount : nat) (st : crawl_state)
    : option crawl_state :=
  match r with
  | DETAIL u basicInfo =>
      let resp := fetch_detail u retryCount in
      if isBlockedResponse (statusCode resp) (bodyText resp) then None
      else handle_detail (page resp) u basicInfo st
  | LIST u pageNumber =>
      let resp := fetch_list u retryCount in
      if isBlockedResponse (statusCode resp) (bodyText resp) then None
      else Some (handle_list (page resp) u pageNumber st)
  end.

(** What the crawler does with a request: it hands it to the handler, and
    when the handler throws it does so again with the next response, until
    the handler returns or [retries] retries are used up; the request is
    then given up ([failedRequestHandler] only logs it). *)
Fixpoint attempts (retries retryCount : nat) (r : request) (st : crawl_state) : crawl_state :=
  match requestHandler r retryCount st with
  | Some st' => st'
  | None =>
      match retries with
      | O => st
      | S retries' => attempts retries' (S retryCount) r st
      end
  end.

(** The crawler takes the oldest request and handles it. *)
Definition crawl_step (st : crawl_state) : option crawl_state :=
  match pending st with
  | [] => None
  | r :: rest =>
      Some (attempts MAX_RETRIES 0 r
              {| propertiesQueued := propertiesQueued st;
                 propertiesStored := propertiesStored st;
                 pagesProcessed := pagesProcessed st;
                 propertyUrls := propertyUrls st;
                 propertyDataBatch := propertyDataBatch st;
                 dataset := dataset st;
                 pending := rest;
                 added := added st |})
  end.

Fixpoint crawl_run (fuel : nat) (st : crawl_state) : crawl_state :=
  match fuel with
  | O => st
  | S fuel' =>
      match crawl_step st with
      | Some st' => crawl_run fuel' st'
      | None => st
      end
  end.

(** The state after [crawler.addRequests] of the first page. *)
Definition initial_state (searchUrl : jsstring) : crawl_state :=
  addRequest (LIST searchUrl 1)
    {| propertiesQueued := 0; propertiesStored := 0; pagesProcessed := 0;
       propertyUrls := ∅; propertyDataBatch := []; dataset := [];
       pending := []; added := [] |}.

(** Steps that always suffice to empty the queue: the limits allow at most
    50 pages and 1000 detail requests. *)
Definition crawl_fuel : nat := 1052.

(** The run: [crawler.run()], then the last flush. *)
Definition crawl (searchUrl : jsstring) : crawl_state :=
  flush_rest (crawl_run crawl_fuel (initial_state searchUrl)).

Definition summary (st : crawl_state) : run_summary :=
  {| out_propertiesStored := propertiesStored st;
     out_uniqueProperties := size (propertyUrls st);
     out_pagesProcessed := or_one (pagesProcessed st) |}.
End Crawl.

(* ====================================================================== *)
(** ** Vocabulary of the statements *)
(* ====================================================================== *)

Definition ws_head (s : jsstring) : bool :=
  match s with
  | c :: _ => is_ws c
  | [] => false
  end.

(** Every whitespace code unit of [s] is a space that no whitespace
    follows. *)
Fixpoint spaced (s : jsstring) : Prop :=
  match s with
  | [] => True
  | c :: s' => (is_ws c = true -> c = " "%char /\ ws_head s' = false) /\ spaced s'
  end.

(** [s.trimEnd()] *)
Definition rtrim (s : jsstring) : jsstring := rev (dropWhile is_ws (rev s)).

(** An entry whose key and value [cleanText] leaves alone. *)
Definition clean_entry (kv : jsstring * jsstring) : Prop :=
  cleanText (Some (fst kv)) = Some (fst kv) /\ cleanText (Some (snd kv)) = Some (snd kv).

Definition clean_step (acc : jsobject) (kv : jsstring * jsstring) : jsobject :=
  match cleanText (Some (fst kv)), cleanText (Some (snd kv)) with
  | Some ck, Some cv => obj_set ck cv acc
  | _, _ => acc
  end.

(** The amount of a price is [null] or a finite number. *)
Definition amount_settled (q : price_t) : Prop :=
  match amount q with
  | JsNumber f => PrimFloat.is_finite f = true
  | JsNull => True
  | _ => False
  end.

(** The amount of a price is a finite number. *)
Definition amount_numeric (q : price_t) : Prop :=
  exists f, amount q = JsNumber f /\ PrimFloat.is_finite f = true.

(** The price of a record, if any, has a finite number for its amount. *)
Definition price_numeric (p : property) : Prop :=
  match price p with
  | Some q => amount_numeric q
  | None => True
  end.

(** The price of a record, if any, has a settled amount. *)
Definition price_settled (p : property) : Prop :=
  match price p with
  | Some q => amount_settled q
  | None => True
  end.

(** The input already has a scheme, in the sense of RFC 3986: a letter,
    then letters, digits, [+], [-] or [.], then a colon. *)
Definition scheme_char (c : ascii) : bool :=
  is_upper c || is_lower c || is_digit c
  || char_eqb (chr "+") c || char_eqb (chr "-") c || char_eqb (chr ".") c.

Definition spec_has_scheme (u : jsstring) : bool :=
  match u with
  | c :: rest =>
      (is_upper c || is_lower c) &&
      match dropWhile scheme_char rest with
      | d :: _ => char_eqb (chr ":") d
      | [] => false
      end
  | [] => false
  end.

(** What a pattern matches, independently of the order in which a matcher
    explores: [rsem r prev s prev' s'] says that [r] matches a front part of
    [s] (the code unit before it being [prev]) and leaves [s'] (the code unit
    before that being [prev']). *)
Inductive star_chain (R : option ascii -> jsstring -> option ascii -> jsstring -> Prop)
  : option ascii -> jsstring -> option ascii -> jsstring -> Prop :=
| chain_stop prev s : star_chain R prev s prev s
| chain_more prev s p1 s1 p2 s2 :
    R prev s p1 s1 -> (length s1 < length s)%nat -> star_chain R p1 s1 p2 s2 ->
    star_chain R prev s p2 s2.

Fixpoint rsem (r : regex) (prev : option ascii) (s : jsstring)
    (prev' : option ascii) (s' : jsstring) : Prop :=
  match r with
  | RClass p => exists c, s = c :: s' /\ p c = true /\ prev' = Some c
  | REmpty => prev' = prev /\ s' = s
  | RSeq r1 r2 => exists pm sm, rsem r1 prev s pm sm /\ rsem r2 pm sm prev' s'
  | RAlt r1 r2 => rsem r1 prev s prev' s' \/ rsem r2 prev s prev' s'
  | RStar r' => star_chain (rsem r') prev s prev' s'
  | RWordBoundary => at_boundary prev s = true /\ prev' = prev /\ s' = s
  end.

(** The code unit before the position that follows [pre], when [prev]
    comes before [pre]. *)
Definition before (prev : option ascii) (pre : jsstring) : option ascii :=
  match last pre with
  | Some c => Some c
  | None => prev
  end.

(** [r] matches somewhere in [s]. *)
Definition matches_somewhere (r : regex) (s : jsstring) : Prop :=
  exists pre rest prev' s', s = pre ++ rest /\ rsem r (before None pre) rest prev' s'.

(** [text] contains [w] when the case of letters is ignored ([w] is in
    lower case). *)
Definition contains_ci (text w : jsstring) : Prop :=
  exists pre post, toLowerCase text = pre ++ w ++ post.

Definition digit_head (s : jsstring) : bool :=
  match s with
  | c :: _ => is_digit c
  | [] => false
  end.

(** [s] starts with a dot and a digit. *)
Definition fraction_head (s : jsstring) : bool :=
  match s with
  | c :: d :: _ => char_eqb (chr ".") c && is_digit d
  | _ => false
  end.

Definition no_digit (s : jsstring) : bool := forallb (fun c => negb (is_digit c)) s.

(** Digits, then possibly a dot and digits. *)
Definition is_decimal (num : jsstring) : Prop :=
  exists int, int <> [] /\ forallb is_digit int = true /\
    (num = int \/
     exists f, f <> [] /\ forallb is_digit f = true /\ num = int ++ chr "." :: f).

(** [tok] is the first numeric token of [s]: nothing before it is a digit,
    and it takes as many digits, and a decimal part if there is one, as [s]
    offers. *)
Definition first_numeric_token (s pre tok rest : jsstring) : Prop :=
  s = pre ++ tok ++ rest /\ no_digit pre = true /\
  exists int, int <> [] /\ forallb is_digit int = true /\
    ((tok = int /\ digit_head rest = false /\ fraction_head rest = false) \/
     (exists f, f <> [] /\ forallb is_digit f = true /\ tok = int ++ chr "." :: f /\
                digit_head rest = false)).

(** [s] holds a number that starts where no word is running, then possibly
    whitespace, then the letter [x] in either case, after which no word
    goes on: a standalone suffix [x]. *)
Definition standalone_suffix (x : ascii) (s : jsstring) : Prop :=
  exists pre num ws c post,
    s = pre ++ num ++ ws ++ c :: post /\
    is_word_opt (before None pre) = false /\
    is_decimal num /\ forallb is_ws ws = true /\
    char_eq_ci x c = true /\ is_word_opt (head post) = false.

(** [s] contains [w]. *)
Definition contains (s w : jsstring) : Prop := exists pre post, s = pre ++ w ++ post.

(** A field holds something: it is neither [null] nor blank. *)
Definition populated {A} (blank : A -> bool) (o : option A) : Prop :=
  exists v, o = Some v /\ blank v = false.

(** First writer wins: [result] is the accumulator's value when that is
    populated, and otherwise the partial's value when the partial has one. *)
Definition first_wins {A} (blank : A -> bool) (acc new result : option A) : Prop :=
  (populated blank acc -> result = acc) /\
  (~ populated blank acc -> new <> None -> result = new) /\
  (new = None -> result = acc).

(** The price has a truthy amount (for a number: neither zero nor [NaN])
    or a non-empty display text. *)
Definition price_populated (p : option price_t) : Prop :=
  exists q, p = Some q /\ (truthy_input (amount q) = true \/ truthy_str (displayPrice q) = true).

(** Modelled on the words of the specification: the ordered union without
    repeats keeps, in order, every entry that did not occur before. *)
Fixpoint keep_first (seen l : list jsstring) : list jsstring :=
  match l with
  | [] => []
  | x :: l' => if bool_decide (x ∈ seen) then keep_first seen l'
               else x :: keep_first (x :: seen) l'
  end.

(** The cleaned, non-blank entries of the lists, in order, without
    repeats. *)
Definition spec_ordered_union (mine theirs : list jsstring) : list jsstring :=
  keep_first [] (omap (fun x => cleanText (Some x)) (mine ++ theirs)).

(** The accumulator [{price: P1, images: [i1]}] and the partial
    [{price: P2, images: [i2]}] of the specification's example. *)
Definition example_partial (P : price_t) (i : jsstring) : property :=
  mkProperty None None None None None None None None None None
             (Some P) (Some [i]) None None None None None None None None.

(** The queue holds entries of depth [D], then entries of depth [D + 1]. *)
Definition levelled (D : nat) (queue : list (jvalue * nat)) : Prop :=
  exists q1 q2, queue = q1 ++ q2 /\
    Forall (fun x => snd x = D) q1 /\ Forall (fun x => snd x = S D) q2.

(** The value [c], if it is an object of the store, was visited at depth
    [e] at most, or waits in the queue with such a depth. *)
Definition covered (h : heap) (dm : gmap loc nat) (queue : list (jvalue * nat))
    (c : jvalue) (e : nat) : Prop :=
  forall l n, c = JRef l -> h !! l = Some n ->
    (exists d, dm !! l = Some d /\ (d <= e)%nat) \/
    (exists e', (c, e') ∈ queue /\ (e' <= e)%nat).

(** The invariant of the search loop; [dm] gives the depth at which each
    member of [seen] was visited, [D] is the depth the loop has reached. *)
Record bfs_inv (h : heap) (root : jvalue) (predicate : loc -> jnode -> bool) (maxDepth : nat)
    (dm : gmap loc nat) (D : nat) (queue : list (jvalue * nat)) (seen : gset loc) : Prop :=
  mkBfsInv {
    inv_dom : forall l, l ∈ seen <-> is_Some (dm !! l);
    inv_seen : forall l d, dm !! l = Some d ->
      (d <= D)%nat /\ (d <= maxDepth)%nat /\ reach h root d (JRef l) /\
      exists n, h !! l = Some n /\ predicate l n = false;
    inv_closed : forall l d n c, dm !! l = Some d -> (d < maxDepth)%nat ->
      h !! l = Some n -> c ∈ children n -> covered h dm queue c (S d);
    inv_queue : forall v d, (v, d) ∈ queue -> reach h root d v /\ (d <= maxDepth)%nat;
    inv_level : levelled D queue;
    inv_root : covered h dm queue root 0
  }.

(** What the search guarantees about its result [found] and the objects
    it has visited. *)
Definition search_post (h : heap) (root : jvalue) (predicate : loc -> jnode -> bool)
    (maxDepth : nat) (found : option loc) (visited : gset loc) : Prop :=
  (forall l, l ∈ visited -> exists d, (d <= maxDepth)%nat /\ reach h root d (JRef l)) /\
  match found with
  | Some l =>
      exists n d,
        h !! l = Some n /\ predicate l n = true /\
        (d <= maxDepth)%nat /\ reach h root d (JRef l) /\
        (forall k l' n', (k < d)%nat -> reach h root k (JRef l') -> h !! l' = Some n' ->
                         predicate l' n' = false) /\
        (forall l', l' ∈ visited -> l' <> l ->
           (exists n', h !! l' = Some n' /\ predicate l' n' = false) /\
           exists d', (d' <= d)%nat /\ reach h root d' (JRef l'))
  | None =>
      forall k l' n', (k <= maxDepth)%nat -> reach h root k (JRef l') -> h !! l' = Some n' ->
                      predicate l' n' = false
  end.

(** The node is a plain object with one of the keys [keys]. *)
Definition exposes (n : jnode) (keys : list string) : Prop :=
  exists k fields v, k ∈ keys /\ n = JObject fields /\ (str k, v) ∈ fields.

(** A store with a cycle: the object 1 holds the object 2 under [data], and
    the object 2 holds the object 1 under [parent]. *)
Definition cyclic_heap : heap :=
  {[ 1%positive := JObject [(str "id", JPrim); (str "data", JRef 2%positive)];
     2%positive := JObject [(str "parent", JRef 1%positive);
                            (str "displayAddress", JPrim); (str "price", JPrim)] ]}.

(** The URLs of the detail requests among [rs]. *)
Definition detail_urls (rs : list request) : list jsstring := omap detail_url rs.

Definition detail_request (p : property) : request := DETAIL (default [] (url p)) p.

(** The largest values the limits can take. *)
Definition RESULTS_CEILING : Z := 1000.
Definition PAGES_CEILING : Z := 50.

(** A bound on the requests a request can still cause: a page request can
    be followed by the pages up to the ceiling. *)
Definition request_weight (r : request) : nat :=
  match r with
  | LIST _ pageNumber => S (Z.to_nat (PAGES_CEILING - pageNumber))
  | DETAIL _ _ => 1%nat
  end.

Definition crawl_potential (st : crawl_state) : nat :=
  (sum_list (map request_weight (pending st))
   + Z.to_nat (RESULTS_CEILING - propertiesQueued st))%nat.

(** The state is within the ceilings. *)
Definition within_ceilings (st : crawl_state) : Prop :=
  (0 <= propertiesQueued st <= RESULTS_CEILING)%Z /\
  (pagesProcessed st <= PAGES_CEILING)%Z /\
  forall v k, LIST v k ∈ pending st -> (1 <= k <= PAGES_CEILING)%Z.

(** The page requests stay within the whole number [N]. *)
Definition pages_within (N : Z) (st : crawl_state) : Prop :=
  (pagesProcessed st <= N)%Z /\
  (forall v k, LIST v k ∈ added st -> (1 <= k <= N)%Z) /\
  (forall r, r ∈ pending st -> r ∈ added st).


(** The handler throws on the response. *)
Definition detail_throws (resp : response detail_page) : bool :=
  isBlockedResponse (statusCode resp) (bodyText resp) || normalize_throws (page resp).

(** Some attempt on the detail page of [u], within the retries, is handled
    without the handler throwing. *)
Definition detail_handled (fetch_detail : jsstring -> nat -> response detail_page)
    (u : jsstring) : bool :=
  existsb (fun k => negb (detail_throws (fetch_detail u k))) (seq 0 (S MAX_RETRIES)).

(** Some attempt on the results page of [u], within the retries, is not
    taken for a block. *)
Definition page_handled (fetch_list : jsstring -> nat -> response list_page)
    (u : jsstring) : bool :=
  existsb (fun k => negb (isBlockedResponse (statusCode (fetch_list u k))
                            (bodyText (fetch_list u k))))
    (seq 0 (S MAX_RETRIES)).



(** Stand-ins for the [URL] class in the examples: a URL whose query has
    neither [index] nor [page], to which a parameter is appended. *)
Definition example_url_get (u k : jsstring) : option jsstring := None.
Definition example_url_set (u k v : jsstring) : jsstring := u ++ str "&" ++ k ++ str "=" ++ v.
Definition example_url_toString (u : jsstring) : jsstring := u.

(** Stand-ins for the conversions in the examples: [String(n)], right for
    the whole numbers, and a [Number(s)] that takes no string for a
    number. *)
Definition float_to_Z (f : float) : Z :=
  match Prim2SF f with
  | S754_finite s m e =>
      let v := if (0 <=? e)%Z then (Zpos m * 2 ^ e)%Z else (Zpos m / 2 ^ (- e))%Z in
      if s then (- v)%Z else v
  | _ => 0%Z
  end.
Definition example_NumberToString (f : float) : jsstring :=
  str (NilZero.string_of_int (Z.to_int (float_to_Z f))).
Definition example_StringToNumber (s : jsstring) : float := nan.

Definition example_search_url : jsstring :=
  str "https://www.rightmove.co.uk/new-homes-for-sale/find.html?channel=NEW_HOME".

(** The response that carries [pg] with the status 200. *)
Definition ok_response {A} (pg : A) : response A :=
  {| statusCode := Some 200%Z; bodyText := Some (str "<html></html>"); page := pg |}.

(** A results page without any card and without any next-page control. *)
Definition empty_list_page : list_page := {| cards := []; controls := [] |}.

(** A detail page on which no query finds anything, and for which the API
    gives nothing. *)
Definition empty_detail_page : detail_page :=
  {| jsonLdData := []; embeddedData := []; h1_text := []; description_text := [];
     keyFeature_items := []; detail_pairs := []; gallery_srcs := []; floorplan_srcs := [];
     agent_html := None; api_extracted := None |}.

(** What a card gives when only the link of the listing is found. *)
Definition example_basicInfo : property :=
  mkProperty (Some (str "162532097"))
             (Some (str "https://www.rightmove.co.uk/properties/162532097"))
             None None None None None None None None
             None None None None (Some []) None None (Some true) None None.

(** A record whose price amount is [NaN]. *)
Definition example_nan_amount : property :=
  mkProperty None None None None None None None None None None
             (Some {| amount := JsNumber nan; currency := None; displayPrice := None |})
             None None None None None None None None None.

(** The record of a listing whose linked-data offer has the price
    ['POA'] (price on application), before and after normalisation. *)
Definition example_poa_price : price_t :=
  price_of_offer (Some {| offer_price := JsString (str "POA");
                          offer_price_text := str "POA";
                          offer_priceCurrency := Some (str "GBP") |}).

Definition example_poa : property :=
  mkProperty None None None None None None None None None None
             (Some example_poa_price)
             None None None None None None None None None.

Definition example_poa_normalised : property :=
  mkProperty None None None None None None None None None None
             (Some {| amount := JsNull; currency := Some (str "GBP");
                      displayPrice := Some (str "POA") |})
             None None None None None None None None None.

Definition example_now : jsstring := str "2026-01-01T00:00:00.000Z".


(** The first step of a run (the limits left to their defaults, 50
    records and 5 pages, detail collection on) on a site whose first
    results page has no card. *)
Definition example_first_step : option crawl_state :=
  crawl_step example_url_get example_url_set example_url_toString example_NumberToString
    example_StringToNumber
    (fun _ _ => ok_response empty_list_page) (fun _ _ => ok_response empty_detail_page)
    example_now true JsUndefined JsUndefined
    (initial_state example_search_url).


(** A detail page whose linked-data entry has an [ImageObject] for its
    image. *)
Definition image_object_page : detail_page :=
  {| jsonLdData := [Some {| ld_type := Some (str "Product"); ld_name := None;
                            ld_description := None;
                            ld_image := Some [ImageOther true]; ld_offers := None |}];
     embeddedData := []; h1_text := []; description_text := [];
     keyFeature_items := []; detail_pairs := []; gallery_srcs := []; floorplan_srcs := [];
     agent_html := None; api_extracted := None |}.



(** Two [DETAIL] calls that overlap: the first stores its record and
    starts the flush; while its push is awaited the second stores its
    record, finds the batch full and pushes it as well; then each empties
    the batch. *)
Definition overlapping_details (first second : property) (st : crawl_state) : crawl_state :=
  flush_clear (flush_clear (flush_push (store second (flush_push (store first st))))).



(* ====================================================================== *)
(** ** Embedded JSON *)
(* ====================================================================== *)

(** The double quote. *)
Definition dquote : ascii := ascii_of_nat 34.

(** The loop of [extractBalancedJson]: [s] is the text from the current
    index on, and the result is the slice from there up to the closing
    brace that brings [depth] back to zero. *)
Fixpoint balanced_scan (depth : Z) (inString escape : bool) (s : jsstring)
    : option jsstring :=
  match s with
  | [] => None
  | ch :: s' =>
      if escape then option_map (cons ch) (balanced_scan depth inString false s')
      else if char_eqb (chr "\") ch
      then option_map (cons ch) (balanced_scan depth inString inString s')
      else if char_eqb dquote ch
      then option_map (cons ch) (balanced_scan depth (negb inString) false s')
      else if inString then option_map (cons ch) (balanced_scan depth true false s')
      else
        let depth1 := if char_eqb (chr "{") ch then (depth + 1)%Z else depth in
        if char_eqb (chr "}") ch
        then if (depth1 - 1 =? 0)%Z then Some [ch]
             else option_map (cons ch) (balanced_scan (depth1 - 1) false false s')
        else option_map (cons ch) (balanced_scan depth1 false false s')
  end.

(** [extractBalancedJson] *)
Definition extractBalancedJson (text : jsstring) (startIndex : nat) : option jsstring :=
  balanced_scan 0 false false (drop startIndex text).

(** [s.indexOf(p, from)], [s] being the text from index [i] on. *)
Fixpoint indexOf_at (s p : jsstring) (i : nat) : option nat :=
  if startsWith s p then Some i
  else match s with
       | [] => None
       | _ :: s' => indexOf_at s' p (S i)
       end.

Definition indexOf (s p : jsstring) (from : nat) : option nat :=
  indexOf_at (drop from s) p (Nat.min from (length s)).

Section EmbeddedJson.
(** The values [JSON.parse] gives; [None] when it throws. *)
Context {J : Type}.
Variable JSON_parse : jsstring -> option J.

(** [extractJsonAfterMarker] *)
Definition extractJsonAfterMarker (html marker : jsstring) : option J :=
  match indexOf html marker 0 with
  | None => None
  | Some index =>
      match indexOf html (str "{") (index + length marker) with
      | None => None
      | Some start =>
          match extractBalancedJson html start with
          | None | Some [] => None
          | Some jsonText => JSON_parse jsonText
          end
      end
  end.

(** The markers [extractEmbeddedJson] looks for, in its order. *)
Definition EMBEDDED_MARKERS : list jsstring :=
  [str "window.__PRELOADED_STATE__"; str "window.PAGE_MODEL";
   str "window.__INITIAL_STATE__"; str "window.__APOLLO_STATE__"; str "window.__RM__"].

(** [extractEmbeddedJson]; [nextData] is what [extractScriptJsonById] gives
    for the script [__NEXT_DATA__] ([None] when there is no such script,
    when it does not parse, or when the parsed value is falsy). *)
Definition extractEmbeddedJson (html : jsstring) (nextData : option J) : list J :=
  match html with
  | [] => []
  | _ => option_list nextData ++ omap (extractJsonAfterMarker html) EMBEDDED_MARKERS
  end.
End EmbeddedJson.

(* ====================================================================== *)
(** ** The property API *)
(* ====================================================================== *)

Definition API_propertyDetails : jsstring := BASE_URL ++ str "/api/properties".
Definition API_propertyDetailsLegacy : jsstring := BASE_URL ++ str "/api/propertyDetails".

(** A call of [gotScraping]: the URL and the search parameters. *)
Record api_request : Type := mkApiRequest {
  api_url : jsstring;
  api_searchParams : option (list (jsstring * option jsstring))
}.

(** What a call gives: it throws, or answers with a status and a body
    ([None] for a body that is falsy). *)
Inductive api_outcome (J : Type) : Type :=
| ApiThrows
| ApiResponse (statusCode : Z) (body : option J).
Arguments ApiThrows {J}.
Arguments ApiResponse {J} statusCode body.

Section PropertyApi.
Context {J : Type}.
Variable gotScraping : api_request -> api_outcome J.

(** The [for (const req of requests)] loop of [fetchPropertyApi]: the
    body returned, and the calls made, in order. *)
Fixpoint fetch_first (requests : list api_request) : option J * list api_request :=
  match requests with
  | [] => (None, [])
  | req :: rest =>
      match gotScraping req with
      | ApiResponse statusCode (Some body) =>
          if (200 <=? statusCode)%Z && (statusCode <? 300)%Z then (Some body, [req])
          else let r := fetch_first rest in (fst r, req :: snd r)
      | _ => let r := fetch_first rest in (fst r, req :: snd r)
      end
  end.

(** [fetchPropertyApi] *)
Definition fetchPropertyApi (propertyId channel : option jsstring)
    : option J * list api_request :=
  match propertyId with
  | None | Some [] => (None, [])
  | Some pid =>
      fetch_first
        [ {| api_url := API_propertyDetails ++ str "/" ++ pid;
             api_searchParams :=
               if truthy_str channel then Some [(str "channel", channel)] else None |};
          {| api_url := API_propertyDetailsLegacy;
             api_searchParams := Some [(str "propertyId", propertyId);
                                       (str "channel", channel)] |} ]
  end.
End PropertyApi.

(* ====================================================================== *)
(** ** The search URL *)
(* ====================================================================== *)

Definition DEFAULT_SEARCH_URL : jsstring := BASE_URL ++ str "/new-homes-for-sale/find.html".
Definition UK_REGIONS_london : jsstring := str "REGION^87490".

(** The fields of the actor input that make the search URL. *)
Record search_input : Type := mkSearchInput {
  in_startUrl : js_input;
  in_searchLocation : js_input;
  in_locationIdentifier : js_input;
  in_radius : js_input;
  in_minPrice : js_input;
  in_maxPrice : js_input
}.

Section SearchUrl.
(** [String(n)] for a number, and the serialisation by [URLSearchParams]
    of a name or a value, belong to the language runtime. *)
Variable NumberToString : float -> jsstring.
Variable form_encode : jsstring -> jsstring.

(** [String(v)] *)
Definition ToString (v : js_input) : jsstring :=
  match v with
  | JsUndefined => str "undefined"
  | JsNull => str "null"
  | JsBool b => if b then str "true" else str "false"
  | JsNumber f => NumberToString f
  | JsString s => s
  | JsObject s => s
  end.

(** [params.toString()] *)
Fixpoint params_toString (params : list (jsstring * jsstring)) : jsstring :=
  match params with
  | [] => []
  | [(k, v)] => form_encode k ++ str "=" ++ form_encode v
  | (k, v) :: rest => form_encode k ++ str "=" ++ form_encode v ++ str "&" ++ params_toString rest
  end.

(** The parameters [buildSearchUrl] appends, in order. *)
Definition search_params (input : search_input) : list (jsstring * jsstring) :=
  (if truthy_input (in_locationIdentifier input)
   then [(str "locationIdentifier", ToString (in_locationIdentifier input));
         (str "useLocationIdentifier", str "true")]
   else if truthy_input (in_searchLocation input)
   then [(str "searchLocation", ToString (in_searchLocation input));
         (str "useLocationIdentifier", str "false")]
   else [(str "locationIdentifier", UK_REGIONS_london);
         (str "useLocationIdentifier", str "true")])
  ++ [(str "radius",
       ToString (if truthy_input (in_radius input) then in_radius input
                 else JsString (str "0.0")))]
  ++ (if truthy_input (in_minPrice input)
      then [(str "minPrice", ToString (in_minPrice input))] else [])
  ++ (if truthy_input (in_maxPrice input)
      then [(str "maxPrice", ToString (in_maxPrice input))] else [])
  ++ [(str "channel", str "NEW_HOME")].

(** [buildSearchUrl] *)
Definition buildSearchUrl (input : search_input) : js_input :=
  if truthy_input (in_startUrl input) then in_startUrl input
  else JsString (DEFAULT_SEARCH_URL ++ str "?" ++ params_toString (search_params input)).

(** A destructuring default: [{ key = dflt } = input]. *)
Definition input_default (raw dflt : js_input) : js_input :=
  match raw with
  | JsUndefined => dflt
  | _ => raw
  end.

(** The search URL of the main function: the destructuring of the input
    with its defaults, then [buildSearchUrl]. *)
Definition main_searchUrl (input : search_input) : js_input :=
  buildSearchUrl
    {| in_startUrl := input_default (in_startUrl input) JsNull;
       in_searchLocation := input_default (in_searchLocation input) (JsString (str "London"));
       in_locationIdentifier :=
         input_default (in_locationIdentifier input) (JsString UK_REGIONS_london);
       in_radius := input_default (in_radius input) (JsString (str "0.0"));
       in_minPrice := input_default (in_minPrice input) JsNull;
       in_maxPrice := input_default (in_maxPrice input) JsNull |}.
End SearchUrl.

(* ====================================================================== *)
(** ** Cards *)
(* ====================================================================== *)

(** What the queries of [extractPropertyCard] find on a card. *)
Record card_dom : Type := mkCardDom {
  (** the [href] of the first link to [/properties/], failing that of the
      first link with [propertyId]; [None] without such a link *)
  card_link_href : option jsstring;
  (** the text of the element of the first price selector that finds one *)
  card_price_text : option jsstring;
  (** for the address selectors that find an element, in their order, the
      text of the first one found *)
  card_address_texts : list jsstring;
  (** [$(card).text()] *)
  card_text : jsstring;
  (** for the image selectors that find an element, in their order,
      [src || data-src || data-lazy] of the first one found *)
  card_image_attrs : list (option jsstring);
  (** the same for the agent selectors, and the texts of all the feature
      elements *)
  card_agent_texts : list jsstring;
  card_feature_texts : list jsstring
}.

(** [/(\d+)\s*(?:WORD|WORDroom)/i], as used for bedrooms and bathrooms. *)
Definition re_count (word : jsstring) : regex :=
  RSeq (RPlus (RClass is_digit))
    (RSeq (RStar (RClass is_ws))
       (RAlt (RLit true word) (RLit true (word ++ str "room")))).

(** [parseInt(match[1], 10)] for the match of such a pattern: the group
    is the run of digits the match starts with. *)
Definition count_of (word cardText : jsstring) : option float :=
  match re_find (re_count word) cardText with
  | Some m => Some (decimal_to_float (digits_value (takeWhile is_digit m)) 0)
  | None => None
  end.

(** The loop over the address selectors. *)
Fixpoint card_address (texts : list jsstring) : option jsstring :=
  match texts with
  | [] => None
  | t :: rest =>
      match cleanText (Some t) with
      | Some text => if (5 <? length text)%nat then Some text else card_address rest
      | None => card_address rest
      end
  end.

(** The loop over the image selectors. *)
Fixpoint card_image (attrs : list (option jsstring)) : option jsstring :=
  match attrs with
  | [] => None
  | a :: rest => if truthy_str a then a else card_image rest
  end.

(** The loop over the agent selectors; [agent] is the value assigned so
    far. *)
Fixpoint card_agent (texts : list jsstring) (agent : option jsstring) : option jsstring :=
  match texts with
  | [] => agent
  | t :: rest =>
      match cleanText (Some t) with
      | Some a => if (2 <? length a)%nat then Some a else card_agent rest (Some a)
      | None => card_agent rest None
      end
  end.

(** The loop over the feature elements. *)
Fixpoint card_features (texts : list jsstring) : list jsstring :=
  match texts with
  | [] => []
  | t :: rest =>
      match cleanText (Some t) with
      | Some f =>
          if (1 <? length f)%nat && (length f <? 100)%nat
          then f :: card_features rest else card_features rest
      | None => card_features rest
      end
  end.

(** [extractPropertyCard] *)
Definition extractPropertyCard (card : card_dom) : option property :=
  let propertyUrl := ensureAbsoluteUrl (card_link_href card) in
  let propertyId := extractPropertyId propertyUrl in
  if negb (truthy_str propertyId) || negb (truthy_str propertyUrl) then None
  else
    let priceText :=
      match card_price_text card with
      | Some t => cleanText (Some t)
      | None => None
      end in
    let price0 := if truthy_str priceText then parsePrice priceText else None in
    let price1 :=
      match price0 with
      | Some _ => price0
      | None =>
          if truthy_str priceText
          then Some {| amount := JsNull; currency := Some (str "GBP");
                       displayPrice := priceText |}
          else None
      end in
    let address0 := card_address (card_address_texts card) in
    let address1 :=
      if truthy_str address0 then address0
      else cleanText (Some (take 100 (card_text card))) in
    let image0 := card_image (card_image_attrs card) in
    Some {| propertyId := propertyId;
            url := propertyUrl;
            address := or_str address1 None;
            title := None;
            description := None;
            propertyType :=
              or_str (inferPropertyType
                        (Some (default [] (or_str address1 None) ++ str " " ++ card_text card)))
                     None;
            bedrooms := count_of (str "bed") (card_text card);
            bathrooms := count_of (str "bath") (card_text card);
            agent := card_agent (card_agent_texts card) None;
            agentDetails := None;
            price := price1;
            images := None;
            floorplans := None;
            keyFeatures := None;
            features := Some (card_features (card_feature_texts card));
            details := None;
            image := if truthy_str image0 then ensureAbsoluteUrl image0 else None;
            isNewHome := Some true;
            scrapedAt := None;
            extractionMethod := None |}.

(* ====================================================================== *)
(** ** Payload extraction *)
(* ====================================================================== *)

(** A value given by [JSON.parse]; the fields of an object are in key
    order. *)
#[local] Unset Elimination Schemes.
Inductive json : Type :=
| JsonNull
| JsonBool (b : bool)
| JsonNum (f : float)
| JsonStr (s : jsstring)
| JsonArr (items : list json)
| JsonObj (fields : list (jsstring * json)).
#[local] Set Elimination Schemes.

Fixpoint json_field (key : jsstring) (fields : list (jsstring * json)) : option json :=
  match fields with
  | [] => None
  | (k, v) :: rest => if decide (k = key) then Some v else json_field key rest
  end.

(** [v.key], [None] being [undefined]. *)
Definition json_get (v : json) (key : string) : option json :=
  match v with
  | JsonObj fields => json_field (str key) fields
  | _ => None
  end.

Definition truthy_json (v : option json) : bool :=
  match v with
  | None | Some JsonNull => false
  | Some (JsonBool b) => b
  | Some (JsonNum f) => negb (PrimFloat.is_zero f || PrimFloat.is_nan f)
  | Some (JsonStr s) => negb (is_nil s)
  | Some (JsonArr _) | Some (JsonObj _) => true
  end.

(** [a || b || ...] *)
Fixpoint or_chain (vs : list (option json)) : option json :=
  match vs with
  | [] => None
  | [v] => v
  | v :: rest => if truthy_json v then v else or_chain rest
  end.

(** [a ?? b ?? ...] *)
Fixpoint nullish_chain (vs : list (option json)) : option json :=
  match vs with
  | [] => None
  | [v] => v
  | v :: rest =>
      match v with
      | None | Some JsonNull => nullish_chain rest
      | _ => v
      end
  end.

(** [isPlainObject] on a parsed value. *)
Definition is_plain_json (v : option json) : bool :=
  match v with
  | Some (JsonObj _) => true
  | _ => false
  end.

(** [items.join(',')] of strings. *)
Fixpoint join_comma (parts : list jsstring) : jsstring :=
  match parts with
  | [] => []
  | [p] => p
  | p :: rest => p ++ str "," ++ join_comma rest
  end.

(** The agent object and the price object of [extractPropertyFromPayload]. *)
Record payload_price : Type := mkPayloadPrice {
  pp_amount : js_input;
  pp_currency : json;
  pp_displayPrice : option jsstring
}.

(** The object [extractPropertyFromPayload] returns; a key it does not
    set is [None]. *)
Record extracted : Type := mkExtracted {
  ex_address : option jsstring;
  ex_propertyType : option jsstring;
  ex_bedrooms : option float;
  ex_bathrooms : option float;
  ex_description : option jsstring;
  ex_title : option jsstring;
  ex_price : option payload_price;
  ex_images : option (list jsstring);
  ex_floorplans : option (list jsstring);
  ex_keyFeatures : option (list jsstring);
  ex_agentDetails : option agent_t;
  ex_agent : option jsstring
}.

Definition empty_extracted : extracted :=
  mkExtracted None None None None None None None None None None None None.

Section Payload.
(** The conversions between numbers and strings belong to the language
    runtime; the search for a nested agent object is [findNestedObject]. *)
Variable NumberToString : float -> jsstring.
Variable StringToNumber : jsstring -> float.
Variable findNestedAgent : json -> option json.

(** [String(v)] *)
Fixpoint json_toString (v : json) : jsstring :=
  match v with
  | JsonNull => str "null"
  | JsonBool b => if b then str "true" else str "false"
  | JsonNum f => NumberToString f
  | JsonStr s => s
  | JsonArr items =>
      join_comma (map (fun x => match x with
                                | JsonNull => []
                                | _ => json_toString x
                                end) items)
  | JsonObj _ => str "[object Object]"
  end.

(** [cleanText(v)] *)
Definition cleanText_json (v : option json) : option jsstring :=
  match v with
  | None | Some JsonNull => None
  | Some x => cleanText (Some (json_toString x))
  end.

(** [Number(v)] *)
Definition Number_json (v : option json) : float :=
  match v with
  | None => nan
  | Some JsonNull => 0%float
  | Some (JsonBool b) => if b then 1%float else 0%float
  | Some (JsonNum f) => f
  | Some (JsonStr s) => StringToNumber s
  | Some (JsonArr items) => StringToNumber (json_toString (JsonArr items))
  | Some (JsonObj _) => nan
  end.

(** [addFromItem(item)]: what it pushes. *)
Definition add_from_item (item : json) : list jsstring :=
  let url :=
    match item with
    | JsonStr (_ :: _) => Some (Some item)
    | JsonObj _ =>
        Some (or_chain [json_get item "url"; json_get item "imageUrl";
                        json_get item "src"; json_get item "image"])
    | _ => None
    end in
  match url with
  | Some u =>
      match ensureAbsoluteUrl (cleanText_json u) with
      | Some normalized => [normalized]
      | None => []
      end
  | None => []
  end.

(** [if (v) { Array.isArray(v) ? v.forEach(addFromItem) : addFromItem(v) }] *)
Definition add_items_or_item (v : option json) : list jsstring :=
  if truthy_json v
  then match v with
       | Some (JsonArr items) => flat_map add_from_item items
       | Some x => add_from_item x
       | None => []
       end
  else [].

(** [extractImagesFromPayload] *)
Definition extractImagesFromPayload (payload : json) : list jsstring :=
  uniqueArray
    (map Some
       (add_items_or_item (json_get payload "images")
        ++ match json_get payload "propertyImages" with
           | Some (JsonArr items) => flat_map add_from_item items
           | _ => []
           end
        ++ (if truthy_json (json_get payload "image")
            then match json_get payload "image" with
                 | Some x => add_from_item x
                 | None => []
                 end
            else []))).

(** [extractFloorplansFromPayload] *)
Definition extractFloorplansFromPayload (payload : json) : list jsstring :=
  uniqueArray (map Some (add_items_or_item (json_get payload "floorplans"))).

(** [addFeature(value)]: what it pushes. *)
Definition add_feature (value : json) : list jsstring :=
  match cleanText_json (Some value) with
  | Some text => if (length text <? 200)%nat then [text] else []
  | None => []
  end.

(** [extractKeyFeaturesFromPayload] *)
Definition extractKeyFeaturesFromPayload (payload : json) : list jsstring :=
  uniqueArray
    (map Some
       (match json_get payload "keyFeatures" with
        | Some (JsonArr items) => flat_map add_feature items
        | _ => []
        end
        ++ match json_get payload "features" with
           | Some (JsonArr items) => flat_map add_feature items
           | _ => []
           end)).

(** [extractAgentFromPayload], for a payload that is an object or an
    array. *)
Definition extractAgentFromPayload (payload : json) : option agent_t :=
  let direct :=
    or_chain [json_get payload "branch"; json_get payload "agent";
              json_get payload "agency"; json_get payload "company";
              json_get payload "customer"; json_get payload "contact";
              json_get payload "branchDetails"] in
  let candidate := if is_plain_json direct then direct else findNestedAgent payload in
  match candidate with
  | None => None
  | Some c =>
      let agent :=
        {| agent_name :=
             cleanText_json (or_chain [json_get c "name"; json_get c "displayName";
                                       json_get c "branchName"; json_get c "companyName";
                                       json_get c "brandName"]);
           agent_phone :=
             cleanText_json (or_chain [json_get c "telephone"; json_get c "phone";
                                       json_get c "primaryPhone";
                                       json_get c "contactTelephone"]);
           agent_address :=
             cleanText_json (or_chain [json_get c "address"; json_get c "branchAddress";
                                       json_get c "displayAddress"]);
           agent_website :=
             cleanText_json (or_chain [json_get c "website"; json_get c "websiteUrl";
                                       json_get c "url"; json_get c "contactUrl"]) |} in
      if negb (truthy_str (agent_name agent)) && negb (truthy_str (agent_phone agent))
         && negb (truthy_str (agent_address agent)) && negb (truthy_str (agent_website agent))
      then None else Some agent
  end.

(** [x || null] on a number. *)
Definition num_or_none (f : float) : js_input :=
  if PrimFloat.is_zero f || PrimFloat.is_nan f then JsNull else JsNumber f.

(** The price of [extractPropertyFromPayload]. *)
Definition payload_price_of (payload : json) : option payload_price :=
  match json_get payload "price" with
  | Some (JsonObj fields) =>
      let p := JsonObj fields in
      Some {| pp_amount :=
                num_or_none (Number_json (nullish_chain [json_get p "amount";
                                                         json_get p "value"]));
              pp_currency :=
                default (JsonStr (str "GBP"))
                  (or_chain [json_get p "currency"; json_get p "currencyCode";
                             Some (JsonStr (str "GBP"))]);
              pp_displayPrice :=
                cleanText_json (or_chain [json_get p "displayPrice"; json_get p "text"]) |}
  | Some (JsonNum f) =>
      Some {| pp_amount := JsNumber f; pp_currency := JsonStr (str "GBP");
              pp_displayPrice := None |}
  | _ =>
      let priceText :=
        cleanText_json (or_chain [json_get payload "displayPrice"; json_get payload "price";
                                  json_get payload "priceText"]) in
      if truthy_str priceText
      then match parsePrice priceText with
           | Some q => Some {| pp_amount := amount q;
                               pp_currency := JsonStr (default [] (currency q));
                               pp_displayPrice := displayPrice q |}
           | None => Some {| pp_amount := JsNull; pp_currency := JsonStr (str "GBP");
                             pp_displayPrice := priceText |}
           end
      else None
  end.

Definition nonempty_list (l : list jsstring) : option (list jsstring) :=
  match l with
  | [] => None
  | _ => Some l
  end.

Definition finite_or_none (f : float) : option float :=
  if PrimFloat.is_finite f then Some f else None.

(** [extractPropertyFromPayload] *)
Definition extractPropertyFromPayload (payload : option json) : extracted :=
  match payload with
  | Some (JsonObj _ as p) | Some (JsonArr _ as p) =>
      let agentDetails := extractAgentFromPayload p in
      {| ex_address :=
           cleanText_json (or_chain [json_get p "displayAddress"; json_get p "address";
                                     json_get p "propertyAddress";
                                     json_get p "addressSummary"]);
         ex_propertyType :=
           cleanText_json (or_chain [json_get p "propertyTypeFullDescription";
                                     json_get p "propertyType"; json_get p "propertySubType";
                                     json_get p "propertyTypeDescription";
                                     json_get p "propertyTypeName"]);
         ex_bedrooms :=
           finite_or_none (Number_json (nullish_chain [json_get p "bedrooms";
                                                       json_get p "bedroomCount";
                                                       json_get p "numBedrooms"]));
         ex_bathrooms :=
           finite_or_none (Number_json (nullish_chain [json_get p "bathrooms";
                                                       json_get p "bathroomCount";
                                                       json_get p "numBathrooms"]));
         ex_description :=
           cleanText_json (or_chain [json_get p "description"; json_get p "summary";
                                     json_get p "longDescription"]);
         ex_title :=
           cleanText_json (or_chain [json_get p "title"; json_get p "propertyTitle";
                                     json_get p "displayAddress"]);
         ex_price := payload_price_of p;
         ex_images := nonempty_list (extractImagesFromPayload p);
         ex_floorplans := nonempty_list (extractFloorplansFromPayload p);
         ex_keyFeatures := nonempty_list (extractKeyFeaturesFromPayload p);
         ex_agentDetails := agentDetails;
         ex_agent :=
           match agentDetails with
           | Some a => or_str (agent_name a) None
           | None => None
           end |}
  | _ => empty_extracted
  end.
End Payload.


(** *** Vocabulary for the embedded JSON texts *)

(** A code unit inside a string literal: plain, or escaped by a
    backslash. *)
Inductive schar : Type :=
| SPlain (c : ascii)
| SEscaped (c : ascii).

(** The pieces of a text with braces: a code unit outside string
    literals, a string literal, an opening or a closing brace. *)
Inductive jtoken : Type :=
| TPlain (c : ascii)
| TString (content : list schar)
| TOpen
| TClose.

Definition render_schar (sc : schar) : jsstring :=
  match sc with
  | SPlain c => [c]
  | SEscaped c => [chr "\"; c]
  end.

Definition render_token (t : jtoken) : jsstring :=
  match t with
  | TPlain c => [c]
  | TString content => dquote :: flat_map render_schar content ++ [dquote]
  | TOpen => [chr "{"]
  | TClose => [chr "}"]
  end.

Definition render (toks : list jtoken) : jsstring := flat_map render_token toks.

Definition schar_ok (sc : schar) : bool :=
  match sc with
  | SPlain c => negb (char_eqb (chr "\") c) && negb (char_eqb dquote c)
  | SEscaped _ => true
  end.

(** A plain piece is no quote and no brace; a plain code unit of a string
    literal is no backslash and no quote. *)
Definition token_ok (t : jtoken) : bool :=
  match t with
  | TPlain c =>
      negb (char_eqb dquote c) && negb (char_eqb (chr "{") c) && negb (char_eqb (chr "}") c)
  | TString content => forallb schar_ok content
  | TOpen | TClose => true
  end.

(** The brace depth after [toks], starting from [depth]; [None] when a
    closing brace among them brings the depth to zero. *)
Fixpoint depth_after (depth : Z) (toks : list jtoken) : option Z :=
  match toks with
  | [] => Some depth
  | TOpen :: r => depth_after (depth + 1) r
  | TClose :: r => if (depth - 1 =? 0)%Z then None else depth_after (depth - 1) r
  | _ :: r => depth_after depth r
  end.

(** The body of the object [{"a":"}{","b":{"c":1}}]. *)
Definition example_body : list jtoken :=
  [TString [SPlain (chr "a")]; TPlain (chr ":");
   TString [SPlain (chr "}"); SPlain (chr "{")]; TPlain (chr ",");
   TString [SPlain (chr "b")]; TPlain (chr ":");
   TOpen; TString [SPlain (chr "c")]; TPlain (chr ":"); TPlain (chr "1"); TClose].

(** A page that assigns that object to [window.PAGE_MODEL]. *)
Definition example_html : jsstring :=
  str "<script>" ++ str "window.PAGE_MODEL" ++ str " = "
  ++ chr "{" :: render example_body ++ chr "}" :: str ";</script>".

(** *** Vocabulary for the details mapping *)

(** The lower-cased [key] contains one of the keywords. *)
Definition key_matches (key : jsstring) (keywords : list jsstring) : Prop :=
  exists keyword, keyword ∈ keywords /\ contains (toLowerCase key) keyword.

(** The cleaned value of the last pair of [pairs] whose cleaned key is
    [k] and whose value is not blank. *)
Fixpoint last_clean_value (k : jsstring) (pairs : list (jsstring * jsstring))
    : option jsstring :=
  match pairs with
  | [] => None
  | (key, value) :: rest =>
      match last_clean_value k rest with
      | Some v => Some v
      | None =>
          if bool_decide (cleanText (Some key) = Some k) then cleanText (Some value) else None
      end
  end.

(** *** Examples for the merge *)

Definition example_details : jsobject :=
  [(str "Tenure", str "Freehold"); (str "Council tax", str "Band D")].

(** A partial with every kind of field. *)
Definition example_extra : property :=
  mkProperty None None (Some (str "1 High Street")) None None (Some (str "Flat"))
             (Some 2%float) None None None
             (Some {| amount := JsNull; currency := Some (str "GBP"); displayPrice := None |})
             (Some [str "https://media.rightmove.co.uk/1.jpg"]) None
             (Some [str "Garden"; str "Garden"]) None (Some example_details)
             None None None None.

(** *** Vocabulary for the run *)

(** The record pushed for a card when details are not collected. *)
Definition basic_card_record (StringToNumber : jsstring -> float) (now : jsstring)
    (p : property) : property :=
  normalizeProperty StringToNumber
    (with_meta p (propertyId p) (url p) (Some now) (Some (str "basic-card"))).

Definition list_page_number (r : request) : option Z :=
  match r with
  | LIST _ pageNumber => Some pageNumber
  | DETAIL _ _ => None
  end.

(** The page numbers of the page requests among [rs]. *)
Definition list_pages (rs : list request) : list Z := omap list_page_number rs.

(** *** Vocabulary for the property API *)

(** The body a call gives [fetchPropertyApi] to return: the answer is
    within 200..299 and has a body. *)
Definition api_body {J} (o : api_outcome J) : option J :=
  match o with
  | ApiResponse statusCode (Some body) =>
      if (200 <=? statusCode)%Z && (statusCode <? 300)%Z then Some body else None
  | _ => None
  end.

(** The two requests of [fetchPropertyApi], in the order of the code. *)
Definition details_request (pid : jsstring) (channel : option jsstring) : api_request :=
  {| api_url := API_propertyDetails ++ str "/" ++ pid;
     api_searchParams := if truthy_str channel then Some [(str "channel", channel)] else None |}.
Definition legacy_request (pid : jsstring) (channel : option jsstring) : api_request :=
  {| api_url := API_propertyDetailsLegacy;
     api_searchParams := Some [(str "propertyId", Some pid); (str "channel", channel)] |}.

(** *** Vocabulary for the blocked responses *)

Definition BLOCK_STATUSES : list Z := [401; 403; 429; 503]%Z.
Definition BLOCK_MARKERS : list jsstring :=
  [str "access denied"; str "captcha"; str "robot"; str "incapsula"].

(** *** Vocabulary for the search URL *)

(** The input with another search location. *)
Definition with_searchLocation (input : search_input) (v : js_input) : search_input :=
  {| in_startUrl := in_startUrl input;
     in_searchLocation := v;
     in_locationIdentifier := in_locationIdentifier input;
     in_radius := in_radius input;
     in_minPrice := in_minPrice input;
     in_maxPrice := in_maxPrice input |}.

(** The input [{}]. *)
Definition empty_input : search_input :=
  mkSearchInput JsUndefined JsUndefined JsUndefined JsUndefined JsUndefined JsUndefined.
(* ====================================================================== *)
(** * Properties *)
(* ====================================================================== *)

Lemma dropWhile_head {A} (p : A -> bool) (l : list A) x l' :
  dropWhile p l = x :: l' -> p x = false.
Proof.
  induction l as [|y l IH]; simpl; [discriminate|].
  destruct (p y) eqn:E; [exact IH|].
  intros H; injection H as -> _; exact E.
Qed.

Lemma dropWhile_idem {A} (p : A -> bool) (l : list A) :
  dropWhile p (dropWhile p l) = dropWhile p l.
Proof.
  induction l as [|y l IH]; simpl; [reflexivity|].
  destruct (p y) eqn:E; [exact IH|].
  simpl. rewrite E. reflexivity.
Qed.

Lemma dropWhile_suffix {A} (p : A -> bool) (l : list A) :
  exists t, l = t ++ dropWhile p l.
Proof.
  induction l as [|y l [t IH]]; simpl.
  - exists []. reflexivity.
  - destruct (p y).
    + exists (y :: t). simpl. f_equal. exact IH.
    + exists []. reflexivity.
Qed.

Lemma dropWhile_snoc {A} (p : A -> bool) (l : list A) c :
  p c = false -> dropWhile p (l ++ [c]) = dropWhile p l ++ [c].
Proof.
  intros Hc. induction l as [|y l IH]; simpl.
  - rewrite Hc. reflexivity.
  - destruct (p y); [exact IH | reflexivity].
Qed.

(** *** Whitespace *)

Lemma rtrim_prefix (s : jsstring) : exists t, s = rtrim s ++ t.
Proof.
  unfold rtrim. destruct (dropWhile_suffix is_ws (rev s)) as [t Ht].
  exists (rev t).
  rewrite <- rev_app_distr, <- Ht, rev_involutive. reflexivity.
Qed.

Lemma rtrim_cons (c : ascii) (s : jsstring) :
  is_ws c = false -> rtrim (c :: s) = c :: rtrim s.
Proof.
  intros Hc. unfold rtrim. simpl rev.
  rewrite dropWhile_snoc by exact Hc.
  rewrite rev_app_distr. reflexivity.
Qed.

Lemma rtrim_idem (s : jsstring) : rtrim (rtrim s) = rtrim s.
Proof.
  unfold rtrim. rewrite rev_involutive, dropWhile_idem. reflexivity.
Qed.

Lemma trim_rtrim (s : jsstring) : trim s = rtrim (dropWhile is_ws s).
Proof. reflexivity. Qed.

Lemma dropWhile_ws_id (s : jsstring) : ws_head s = false -> dropWhile is_ws s = s.
Proof.
  destruct s as [|c s]; simpl; [reflexivity|].
  intros ->. reflexivity.
Qed.

Lemma ws_head_dropWhile (s : jsstring) : ws_head (dropWhile is_ws s) = false.
Proof.
  destruct (dropWhile is_ws s) as [|c t] eqn:E; [reflexivity|].
  simpl. eapply dropWhile_head. exact E.
Qed.

Lemma ws_head_rtrim (s : jsstring) : ws_head s = false -> ws_head (rtrim s) = false.
Proof.
  intros H. destruct (rtrim_prefix s) as [t Ht].
  destruct (rtrim s) as [|c r]; [reflexivity|].
  rewrite Ht in H. exact H.
Qed.

Lemma trim_idem (s : jsstring) : trim (trim s) = trim s.
Proof.
  rewrite !trim_rtrim.
  rewrite (dropWhile_ws_id (rtrim _)).
  - apply rtrim_idem.
  - apply ws_head_rtrim, ws_head_dropWhile.
Qed.

Lemma spaced_app_r (a b : jsstring) : spaced (a ++ b) -> spaced b.
Proof. induction a as [|c a IH]; simpl; [tauto|]. intros [_ H]. auto. Qed.

Lemma spaced_app_l (a b : jsstring) : spaced (a ++ b) -> spaced a.
Proof.
  induction a as [|c a IH]; simpl; [tauto|].
  intros [Hc H]. split; [|auto].
  intros Hw. destruct (Hc Hw) as [-> Hh]. split; [reflexivity|].
  destruct a; [reflexivity | exact Hh].
Qed.

Lemma spaced_trim (s : jsstring) : spaced s -> spaced (trim s).
Proof.
  intros H. rewrite trim_rtrim.
  destruct (dropWhile_suffix is_ws s) as [t Ht].
  destruct (rtrim_prefix (dropWhile is_ws s)) as [t' Ht'].
  rewrite Ht in H. apply spaced_app_r in H.
  rewrite Ht' in H. apply spaced_app_l in H. exact H.
Qed.

Lemma spaced_replace (b : bool) (s : jsstring) :
  spaced (replace_ws_runs b s) /\ (b = true -> ws_head (replace_ws_runs b s) = false).
Proof.
  revert b. induction s as [|c s IH]; intros b; simpl.
  - split; [exact I | reflexivity].
  - destruct (is_ws c) eqn:Hc.
    + destruct b.
      * apply IH.
      * split; [|discriminate]. simpl. split.
        -- intros _. split; [reflexivity|]. apply (IH true). reflexivity.
        -- apply (IH true).
    + simpl. rewrite Hc. split; [|reflexivity].
      split; [discriminate|]. apply (IH false).
Qed.

Lemma replace_spaced (b : bool) (s : jsstring) :
  spaced s -> (b = true -> ws_head s = false) -> replace_ws_runs b s = s.
Proof.
  revert b. induction s as [|c s IH]; intros b Hs Hb; simpl; [reflexivity|].
  destruct Hs as [Hc Hs]. destruct (is_ws c) eqn:Hw.
  - destruct (Hc eq_refl) as [-> Hh].
    destruct b.
    + simpl in Hb. rewrite Hw in Hb. discriminate (Hb eq_refl).
    + f_equal. apply IH; auto.
  - f_equal. apply IH; [exact Hs | discriminate].
Qed.

(** [cleanText] returns its argument when that is already a result of
    [cleanText]. *)
Lemma cleanText_idem (x : option jsstring) : cleanText (cleanText x) = cleanText x.
Proof.
  destruct x as [t|]; [|reflexivity].
  cbv beta iota zeta delta [cleanText].
  destruct (0 <? length (trim (replace_ws_runs false t)))%nat eqn:Hl; [|reflexivity].
  rewrite replace_spaced.
  - rewrite trim_idem, Hl. reflexivity.
  - apply spaced_trim, spaced_replace.
  - discriminate.
Qed.

Lemma cleanText_truthy (x : option jsstring) v :
  cleanText x = Some v -> truthy_str (Some v) = true.
Proof.
  destruct x as [t|]; simpl; [|discriminate].
  destruct (trim (replace_ws_runs false t)) as [|c r]; simpl; [discriminate|].
  intros H; injection H as <-. reflexivity.
Qed.

Lemma cleanText_fix (x : option jsstring) v :
  cleanText x = Some v -> cleanText (Some v) = Some v.
Proof. intros H. rewrite <- H. apply cleanText_idem. Qed.

Lemma cleanText_truthy_arg (x : option jsstring) v :
  cleanText x = Some v -> truthy_str x = true.
Proof.
  destruct x as [[|c t]|]; try reflexivity; simpl; discriminate.
Qed.

(** *** [uniqueArray] *)

Lemma uniqueArray_loop_spec (items : list (option jsstring)) (seen : gset jsstring)
    (result : list jsstring) :
  exists new,
    uniqueArray_loop items seen result = result ++ new /\ NoDup new /\
    forall v, v ∈ new -> (v ∉ seen) /\ exists item, item ∈ items /\ cleanText item = Some v.
Proof.
  revert seen result. induction items as [|item rest IH]; intros seen result; simpl.
  - exists []. rewrite app_nil_r. split; [reflexivity|]. split; [constructor|].
    intros v Hv. inversion Hv.
  - assert (Hskip : exists new,
               uniqueArray_loop rest seen result = result ++ new /\ NoDup new /\
               forall v, v ∈ new ->
                 (v ∉ seen) /\ exists it, it ∈ item :: rest /\ cleanText it = Some v).
    { destruct (IH seen result) as (new & E & ND & Hn).
      exists new. split; [exact E|]. split; [exact ND|].
      intros v Hv. destruct (Hn v Hv) as (Hs & it & Hit & Hc).
      split; [exact Hs|]. exists it. split; [right; exact Hit | exact Hc]. }
    destruct (truthy_str item); simpl; [|exact Hskip].
    destruct (cleanText item) as [value|] eqn:Hc; [|exact Hskip].
    destruct (decide (value ∈ seen)) as [Hin|Hnin]; [exact Hskip|].
    destruct (IH ({[value]} ∪ seen) (result ++ [value])) as (new & E & ND & Hn).
    exists (value :: new). split; [rewrite E, <- app_assoc; reflexivity|].
    split.
    + constructor; [|exact ND]. intros Hv. destruct (Hn _ Hv) as [Hs _]. set_solver.
    + intros v Hv. apply elem_of_cons in Hv as [->|Hv].
      * split; [exact Hnin|]. exists item. split; [left | exact Hc].
      * destruct (Hn v Hv) as (Hs & it & Hit & Hcl).
        split; [set_solver|]. exists it. split; [right; exact Hit | exact Hcl].
Qed.

Lemma uniqueArray_loop_fix (l : list jsstring) (seen : gset jsstring) (result : list jsstring) :
  (forall v, v ∈ l -> cleanText (Some v) = Some v) ->
  NoDup l -> (forall v, v ∈ l -> v ∉ seen) ->
  uniqueArray_loop (map Some l) seen result = result ++ l.
Proof.
  revert seen result. induction l as [|v l IH]; intros seen result Hc ND Hs.
  - simpl. rewrite app_nil_r. reflexivity.
  - assert (Hv : cleanText (Some v) = Some v) by (apply Hc; left).
    cbn [map uniqueArray_loop].
    rewrite (cleanText_truthy _ _ Hv). cbn [negb]. rewrite Hv.
    destruct (decide (v ∈ seen)) as [Hin|_].
    { exfalso. apply (Hs v); [left | exact Hin]. }
    apply NoDup_cons in ND as [Hnin ND].
    rewrite IH.
    + rewrite <- app_assoc. reflexivity.
    + intros w Hw. apply Hc. right. exact Hw.
    + exact ND.
    + intros w Hw. assert (w ≠ v) by (intros ->; exact (Hnin Hw)).
      assert (w ∉ seen) by (apply Hs; right; exact Hw). set_solver.
Qed.

Lemma uniqueArray_NoDup (items : list (option jsstring)) : NoDup (uniqueArray items).
Proof.
  unfold uniqueArray. destruct (uniqueArray_loop_spec items ∅ []) as (new & E & ND & _).
  rewrite E. exact ND.
Qed.

Lemma uniqueArray_elem (items : list (option jsstring)) (v : jsstring) :
  v ∈ uniqueArray items -> exists item, item ∈ items /\ cleanText item = Some v.
Proof.
  unfold uniqueArray. destruct (uniqueArray_loop_spec items ∅ []) as (new & E & _ & Hn).
  rewrite E. simpl. intros Hv. apply (Hn v Hv).
Qed.

Lemma uniqueArray_fix (l : list jsstring) :
  (forall v, v ∈ l -> cleanText (Some v) = Some v) -> NoDup l ->
  uniqueArray (map Some l) = l.
Proof.
  intros Hc ND. unfold uniqueArray. rewrite uniqueArray_loop_fix; auto.
  intros v _. set_solver.
Qed.

Lemma uniqueArray_idem (items : list (option jsstring)) :
  uniqueArray (map Some (uniqueArray items)) = uniqueArray items.
Proof.
  apply uniqueArray_fix; [|apply uniqueArray_NoDup].
  intros v Hv. destruct (uniqueArray_elem _ _ Hv) as (item & _ & Hc).
  eapply cleanText_fix. exact Hc.
Qed.

(** *** Absolute URLs *)

Lemma startsWith_spec (s p : jsstring) :
  startsWith s p = true <-> exists rest, s = p ++ rest.
Proof.
  revert s. induction p as [|a p IH]; intros s.
  - simpl. split; [intros _; exists s; reflexivity | reflexivity].
  - destruct s as [|b s]; cbn [startsWith].
    + split; [discriminate | intros [rest H]; discriminate].
    + rewrite andb_true_iff, IH. unfold char_eqb. rewrite Ascii.eqb_eq.
      split.
      * intros [-> [rest ->]]. exists rest. reflexivity.
      * intros [rest H]. injection H as -> ->. split; [reflexivity | exists rest; reflexivity].
Qed.

Lemma startsWith_http (a : jsstring) :
  startsWith a (str "http") = true -> exists rest, a = str "http" ++ rest.
Proof. apply startsWith_spec. Qed.

Lemma ensureAbsoluteUrl_http (u : option jsstring) (a : jsstring) :
  ensureAbsoluteUrl u = Some a -> startsWith a (str "http") = true.
Proof.
  destruct u as [[|c u]|]; cbn [ensureAbsoluteUrl]; try discriminate.
  destruct (startsWith (c :: u) (str "http")) eqn:E1.
  { intros H. injection H as <-. exact E1. }
  destruct (startsWith (c :: u) (str "//")).
  { intros H. injection H as <-. reflexivity. }
  intros H. injection H as <-. reflexivity.
Qed.

Lemma ensureAbsoluteUrl_fix (a : jsstring) :
  startsWith a (str "http") = true -> ensureAbsoluteUrl (Some a) = Some a.
Proof.
  intros H. destruct a as [|c a]; [discriminate|].
  unfold ensureAbsoluteUrl. rewrite H. reflexivity.
Qed.

Lemma cleanText_http (a v : jsstring) :
  startsWith a (str "http") = true -> cleanText (Some a) = Some v ->
  startsWith v (str "http") = true.
Proof.
  intros [rest ->]%startsWith_http. unfold cleanText.
  replace (trim (replace_ws_runs false (str "http" ++ rest)))
    with (str "http" ++ rtrim (replace_ws_runs false rest)).
  - simpl. intros H; injection H as <-. reflexivity.
  - rewrite trim_rtrim. simpl. rewrite !rtrim_cons by reflexivity. reflexivity.
Qed.

Lemma absolute_unique_idem (l : list jsstring) :
  absolute_unique (absolute_unique l) = absolute_unique l.
Proof.
  unfold absolute_unique at 1.
  assert (Hall : forall v, v ∈ absolute_unique l ->
                   cleanText (Some v) = Some v /\ startsWith v (str "http") = true).
  { intros v Hv. destruct (uniqueArray_elem _ _ Hv) as (item & Hit & Hc).
    split; [eapply cleanText_fix; exact Hc|].
    apply list_elem_of_fmap in Hit as (u & -> & _).
    destruct (ensureAbsoluteUrl (Some u)) as [a|] eqn:Ha; [|discriminate].
    eapply cleanText_http; [|exact Hc]. eapply ensureAbsoluteUrl_http. exact Ha. }
  replace (map (fun u => ensureAbsoluteUrl (Some u)) (absolute_unique l))
    with (map Some (absolute_unique l)).
  - apply uniqueArray_fix; [|apply uniqueArray_NoDup]. intros v Hv. apply Hall, Hv.
  - apply map_ext_in. intros v Hv. symmetry. apply ensureAbsoluteUrl_fix.
    apply Hall. apply list_elem_of_In. exact Hv.
Qed.

(** *** Objects as entry lists *)

Lemma obj_set_keys (k v : jsstring) (o : jsobject) :
  map fst (obj_set k v o) = if bool_decide (k ∈ map fst o) then map fst o else map fst o ++ [k].
Proof.
  induction o as [|[k' v'] o IH]; cbn [obj_set map fst].
  - rewrite bool_decide_eq_false_2; [reflexivity | intros H; inversion H].
  - destruct (decide (k' = k)) as [->|Hne]; cbn [map fst].
    + rewrite bool_decide_eq_true_2; [reflexivity | left].
    + rewrite IH. destruct (bool_decide (k ∈ map fst o)) eqn:E.
      * apply bool_decide_eq_true in E.
        rewrite bool_decide_eq_true_2; [reflexivity | right; exact E].
      * apply bool_decide_eq_false in E.
        rewrite bool_decide_eq_false_2; [reflexivity|].
        intros H. apply elem_of_cons in H as [H|H]; [congruence | exact (E H)].
Qed.

Lemma obj_set_NoDup (k v : jsstring) (o : jsobject) :
  NoDup (map fst o) -> NoDup (map fst (obj_set k v o)).
Proof.
  intros ND. rewrite obj_set_keys. destruct (bool_decide (k ∈ map fst o)) eqn:E; [exact ND|].
  apply bool_decide_eq_false in E. apply NoDup_app. split; [exact ND|].
  split; [|apply NoDup_singleton].
  intros x Hx Hk. apply list_elem_of_singleton in Hk as ->. exact (E Hx).
Qed.

Lemma obj_set_fresh (k v : jsstring) (o : jsobject) :
  k ∉ map fst o -> obj_set k v o = o ++ [(k, v)].
Proof.
  induction o as [|[k' v'] o IH]; simpl; [reflexivity|].
  intros H. destruct (decide (k' = k)) as [->|Hne].
  - exfalso. apply H. left.
  - f_equal. apply IH. intros Hin. apply H. right. exact Hin.
Qed.

Lemma obj_set_entries (P : jsstring * jsstring -> Prop) (k v : jsstring) (o : jsobject) :
  P (k, v) -> Forall P o -> Forall P (obj_set k v o).
Proof.
  intros Hkv. induction 1 as [|[k' v'] o Hx Ho IH]; simpl.
  - constructor; [exact Hkv | constructor].
  - destruct (decide (k' = k)); constructor; auto.
Qed.

Lemma obj_get_set (k v k0 : jsstring) (o : jsobject) :
  obj_get k0 (obj_set k v o) = if decide (k = k0) then Some v else obj_get k0 o.
Proof.
  induction o as [|[k' v'] o IH]; simpl.
  - destruct (decide (k = k0)); reflexivity.
  - destruct (decide (k' = k)) as [->|Hne]; simpl.
    + destruct (decide (k = k0)); reflexivity.
    + rewrite IH. destruct (decide (k' = k0)) as [->|]; [|reflexivity].
      destruct (decide (k = k0)); [congruence | reflexivity].
Qed.

Lemma clean_details_fold (d acc : jsobject) :
  NoDup (map fst acc) -> Forall clean_entry acc ->
  NoDup (map fst (fold_left clean_step d acc)) /\ Forall clean_entry (fold_left clean_step d acc).
Proof.
  revert acc. induction d as [|kv d IH]; intros acc ND Hc; simpl; [auto|].
  apply IH; unfold clean_step.
  - destruct (cleanText (Some (fst kv))), (cleanText (Some (snd kv))); auto using obj_set_NoDup.
  - destruct (cleanText (Some (fst kv))) as [ck|] eqn:Ek; [|exact Hc].
    destruct (cleanText (Some (snd kv))) as [cv|] eqn:Ev; [|exact Hc].
    apply obj_set_entries; [|exact Hc].
    split; simpl; eapply cleanText_fix; eassumption.
Qed.

Lemma clean_details_rebuild (l acc : jsobject) :
  NoDup (map fst (acc ++ l)) -> Forall clean_entry l ->
  fold_left clean_step l acc = acc ++ l.
Proof.
  revert acc. induction l as [|[k v] l IH]; intros acc ND Hc; simpl.
  - rewrite app_nil_r. reflexivity.
  - apply Forall_cons in Hc as [[Hk Hv] Hc]. simpl in Hk, Hv.
    unfold clean_step at 2. simpl. rewrite Hk, Hv.
    rewrite obj_set_fresh.
    + rewrite IH; [rewrite <- app_assoc; reflexivity | | exact Hc].
      rewrite <- app_assoc. exact ND.
    + rewrite map_app in ND. simpl in ND. apply NoDup_app in ND as (_ & Hd & _).
      intros Hin. apply (Hd k Hin). left.
Qed.

Lemma clean_details_idem (d : jsobject) : clean_details (clean_details d) = clean_details d.
Proof.
  change clean_details with (fun d => fold_left clean_step d []). cbv beta.
  destruct (clean_details_fold d []) as [ND Hc]; [constructor | constructor |].
  apply (clean_details_rebuild _ []); assumption.
Qed.

(** *** Agent and price *)

Lemma clean_agent_fix (a a' : agent_t) : clean_agent a = Some a' -> clean_agent a' = Some a'.
Proof.
  unfold clean_agent. cbn [agent_name agent_phone agent_address agent_website].
  intros H.
  assert (Ha : a' = {| agent_name := cleanText (agent_name a);
                       agent_phone := cleanText (agent_phone a);
                       agent_address := cleanText (agent_address a);
                       agent_website := cleanText (agent_website a) |}).
  { destruct (cleanText (agent_name a)), (cleanText (agent_phone a)),
      (cleanText (agent_address a)), (cleanText (agent_website a));
      congruence. }
  subst a'. cbn [agent_name agent_phone agent_address agent_website].
  rewrite !cleanText_idem. exact H.
Qed.

Lemma clean_agent_name (a a' : agent_t) :
  clean_agent a = Some a' -> cleanText (agent_name a') = agent_name a'.
Proof.
  unfold clean_agent. cbn [agent_name agent_phone agent_address agent_website].
  intros H.
  assert (Ha : agent_name a' = cleanText (agent_name a)).
  { destruct (cleanText (agent_name a)), (cleanText (agent_phone a)),
      (cleanText (agent_address a)), (cleanText (agent_website a));
      try discriminate; injection H as <-; reflexivity. }
  rewrite Ha. apply cleanText_idem.
Qed.

Lemma or_str_cleanText_None (x : option jsstring) : or_str (cleanText x) None = cleanText x.
Proof.
  unfold or_str. destruct (cleanText x) as [v|] eqn:E; [|reflexivity].
  rewrite (cleanText_truthy _ _ E). reflexivity.
Qed.

Lemma or_str_idem (c d : option jsstring) :
  truthy_str d = true -> or_str (or_str c d) d = or_str c d.
Proof.
  intros Hd. unfold or_str. destruct (truthy_str c) eqn:E.
  - rewrite E. reflexivity.
  - rewrite Hd. reflexivity.
Qed.

Section NormaliseProperties.
Variable StringToNumber : jsstring -> float.

Local Abbreviation clean_price' := (clean_price StringToNumber).
Local Abbreviation normalizeProperty' := (normalizeProperty StringToNumber).

Lemma clean_price_settled (q : price_t) : amount_settled (clean_price' q).
Proof.
  unfold amount_settled, clean_price. cbn [amount].
  destruct (PrimFloat.is_finite (Number StringToNumber (amount q))) eqn:E; [exact E | exact I].
Qed.

Lemma clean_price_idem (q : price_t) :
  amount_numeric q -> clean_price' (clean_price' q) = clean_price' q.
Proof.
  unfold clean_price. cbn [amount currency displayPrice].
  intros (f & -> & H). f_equal.
  - cbn [Number]. rewrite H. cbn [Number]. rewrite H. reflexivity.
  - apply or_str_idem. reflexivity.
  - rewrite !or_str_cleanText_None. apply cleanText_idem.
Qed.

(** A [null] amount becomes [0]. *)
Lemma clean_price_null (q : price_t) :
  amount q = JsNull -> amount (clean_price' q) = JsNumber 0.
Proof. unfold clean_price. cbn [amount]. intros ->. reflexivity. Qed.

Lemma clean_price_numeric (q : price_t) :
  amount_settled q -> amount_numeric (clean_price' q).
Proof.
  unfold amount_settled, amount_numeric, clean_price. cbn [amount].
  destruct (amount q) as [| | |f| |]; try contradiction; cbn [Number].
  - intros _. exists 0%float. split; reflexivity.
  - intros H. rewrite H. eauto.
Qed.

Lemma clean_price_twice (q : price_t) :
  clean_price' (clean_price' (clean_price' q)) = clean_price' (clean_price' q).
Proof.
  unfold clean_price. cbn [amount currency displayPrice]. f_equal.
  - destruct (PrimFloat.is_finite (Number StringToNumber (amount q))) eqn:E; cbn [Number].
    + rewrite E. cbn [Number]. rewrite E. reflexivity.
    + reflexivity.
  - apply or_str_idem. reflexivity.
  - rewrite !or_str_cleanText_None. apply cleanText_idem.
Qed.

(** *** Property types *)

Lemma first_rule_In (rules : list (regex * jsstring)) (text v : jsstring) :
  first_rule rules text = Some v -> In v (map snd rules).
Proof.
  induction rules as [|[re value] rules IH]; simpl; [discriminate|].
  destruct (re_test re text).
  - intros H. injection H as <-. left. reflexivity.
  - intros H. right. exact (IH H).
Qed.

Lemma inferPropertyType_clean (x : option jsstring) (v : jsstring) :
  inferPropertyType x = Some v -> cleanText (Some v) = Some v.
Proof.
  destruct x as [[|c t]|]; cbn [inferPropertyType]; try discriminate.
  intros H. apply first_rule_In in H.
  cbv [PROPERTY_TYPE_PATTERNS map snd] in H.
  repeat (destruct H as [<-|H]; [vm_compute; reflexivity|]).
  destruct H.
Qed.

(** *** [normalizeProperty] *)

Lemma property_ext (p q : property) :
  propertyId p = propertyId q -> url p = url q -> address p = address q ->
  title p = title q -> description p = description q -> propertyType p = propertyType q ->
  bedrooms p = bedrooms q -> bathrooms p = bathrooms q -> agent p = agent q ->
  agentDetails p = agentDetails q -> price p = price q -> images p = images q ->
  floorplans p = floorplans q -> keyFeatures p = keyFeatures q -> features p = features q ->
  details p = details q -> image p = image q -> isNewHome p = isNewHome q ->
  scrapedAt p = scrapedAt q -> extractionMethod p = extractionMethod q -> p = q.
Proof. destruct p, q; simpl; intros; subst; reflexivity. Qed.

Lemma normalize_address (p : property) :
  address (normalizeProperty' p) = cleanText (address p).
Proof. reflexivity. Qed.

Lemma normalize_title (p : property) :
  title (normalizeProperty' p) = or_str (cleanText (title p)) (cleanText (address p)).
Proof. reflexivity. Qed.

Lemma normalize_description (p : property) :
  description (normalizeProperty' p) = cleanText (description p).
Proof. reflexivity. Qed.

Lemma normalize_propertyType (p : property) :
  propertyType (normalizeProperty' p) =
  if truthy_str (cleanText (propertyType p)) then cleanText (propertyType p)
  else inferPropertyType
         (Some (type_text (title (normalizeProperty' p)) (description (normalizeProperty' p))
                  (address (normalizeProperty' p)))).
Proof. reflexivity. Qed.

Lemma normalize_agentDetails (p : property) :
  agentDetails (normalizeProperty' p) =
  match agentDetails p with
  | Some a => clean_agent a
  | None => None
  end.
Proof. reflexivity. Qed.

Lemma normalize_agent (p : property) :
  agent (normalizeProperty' p) =
  or_str (cleanText (agent p))
    (match agentDetails (normalizeProperty' p) with
     | Some a => agent_name a
     | None => None
     end).
Proof. reflexivity. Qed.

Lemma normalize_details (p : property) :
  details (normalizeProperty' p) =
  match details p with
  | Some d => match clean_details d with
              | [] => None
              | d' => Some d'
              end
  | None => None
  end.
Proof. reflexivity. Qed.

Lemma cleaned_title_idem (t a : option jsstring) :
  or_str (cleanText (or_str (cleanText t) (cleanText a))) (cleanText (cleanText a)) =
  or_str (cleanText t) (cleanText a).
Proof.
  rewrite cleanText_idem. unfold or_str at 2 3.
  destruct (truthy_str (cleanText t)) eqn:E.
  - rewrite cleanText_idem. unfold or_str. rewrite E. reflexivity.
  - rewrite cleanText_idem. unfold or_str. destruct (truthy_str (cleanText a)); reflexivity.
Qed.

(** A second normalisation changes nothing but, possibly, the price. *)
Lemma normalizeProperty_twice (p : property) :
  price (normalizeProperty' (normalizeProperty' p)) = price (normalizeProperty' p) ->
  normalizeProperty' (normalizeProperty' p) = normalizeProperty' p.
Proof.
  intros Hp.
  assert (Ha : address (normalizeProperty' (normalizeProperty' p)) = address (normalizeProperty' p)).
  { rewrite !normalize_address. apply cleanText_idem. }
  assert (Ht : title (normalizeProperty' (normalizeProperty' p)) = title (normalizeProperty' p)).
  { rewrite (normalize_title (normalizeProperty' p)), normalize_address, normalize_title.
    apply cleaned_title_idem. }
  assert (Hd : description (normalizeProperty' (normalizeProperty' p))
               = description (normalizeProperty' p)).
  { rewrite !normalize_description. apply cleanText_idem. }
  assert (Hg : agentDetails (normalizeProperty' (normalizeProperty' p))
               = agentDetails (normalizeProperty' p)).
  { rewrite (normalize_agentDetails (normalizeProperty' p)).
    destruct (agentDetails (normalizeProperty' p)) as [a'|] eqn:E; [|reflexivity].
    rewrite normalize_agentDetails in E. destruct (agentDetails p) as [a|]; [|discriminate].
    eapply clean_agent_fix. exact E. }
  apply property_ext; try reflexivity; try assumption.
  - (* propertyType *)
    rewrite (normalize_propertyType (normalizeProperty' p)). rewrite Ht, Hd, Ha.
    rewrite normalize_propertyType.
    destruct (truthy_str (cleanText (propertyType p))) eqn:E.
    + rewrite cleanText_idem, E. reflexivity.
    + destruct (inferPropertyType _) as [v|] eqn:Ei.
      * rewrite (inferPropertyType_clean _ _ Ei). destruct (truthy_str (Some v)); reflexivity.
      * reflexivity.
  - (* agent *)
    rewrite (normalize_agent (normalizeProperty' p)), Hg, normalize_agent.
    set (n := match agentDetails (normalizeProperty' p) with
              | Some a => agent_name a
              | None => None
              end).
    assert (Hn : cleanText n = n).
    { subst n. destruct (agentDetails (normalizeProperty' p)) as [a'|] eqn:E; [|reflexivity].
      rewrite normalize_agentDetails in E. destruct (agentDetails p) as [a|]; [|discriminate].
      eapply clean_agent_name. exact E. }
    unfold or_str at 2 3. destruct (truthy_str (cleanText (agent p))) eqn:E.
    + rewrite cleanText_idem. unfold or_str. rewrite E. reflexivity.
    + rewrite Hn. unfold or_str. destruct (truthy_str n); reflexivity.
  - cbn [normalizeProperty images]. destruct (images p); [|reflexivity].
    cbn [option_map]. f_equal. apply absolute_unique_idem.
  - cbn [normalizeProperty floorplans]. destruct (floorplans p); [|reflexivity].
    cbn [option_map]. f_equal. apply absolute_unique_idem.
  - cbn [normalizeProperty keyFeatures]. destruct (keyFeatures p); [|reflexivity].
    cbn [option_map]. f_equal. apply uniqueArray_idem.
  - cbn [normalizeProperty features]. destruct (features p); [|reflexivity].
    cbn [option_map]. f_equal. apply uniqueArray_idem.
  - (* details *)
    rewrite (normalize_details (normalizeProperty' p)), normalize_details.
    destruct (details p) as [d|]; [|reflexivity].
    destruct (clean_details d) as [|kv d'] eqn:E; [reflexivity|].
    rewrite <- E, clean_details_idem, E. reflexivity.
Qed.

(** A second normalisation changes nothing when the price amount is a
    finite number. *)
Lemma normalizeProperty_idem (p : property) :
  price_numeric p -> normalizeProperty' (normalizeProperty' p) = normalizeProperty' p.
Proof.
  intros Hp. apply normalizeProperty_twice.
  unfold price_numeric in Hp. cbn [normalizeProperty price].
  destruct (price p) as [q|]; [|reflexivity].
  cbn [option_map]. f_equal. apply clean_price_idem. exact Hp.
Qed.

Lemma normalizeProperty_settled (p : property) : price_settled (normalizeProperty' p).
Proof.
  unfold price_settled. cbn [normalizeProperty price].
  destruct (price p) as [q|]; [|exact I]. apply clean_price_settled.
Qed.

(** From the second normalisation on nothing changes. *)
Lemma normalizeProperty_settles (raw : property) :
  normalizeProperty' (normalizeProperty' (normalizeProperty' raw))
  = normalizeProperty' (normalizeProperty' raw).
Proof.
  apply normalizeProperty_twice. cbn [normalizeProperty price].
  destruct (price raw) as [q|]; [|reflexivity].
  cbn [option_map]. f_equal. apply clean_price_twice.
Qed.

End NormaliseProperties.

Lemma nan_not_finite (x : float) : PrimFloat.is_nan x = true -> PrimFloat.is_finite x = false.
Proof. intros H. unfold PrimFloat.is_finite. rewrite H. reflexivity. Qed.

(** C7. [cleanText] is idempotent, but the normalisation of a record is
    not: the record that normalisation gives for a listing whose
    linked-data offer has the price ['POA'] holds the amount [null], and
    normalising that record again turns the amount into [0]
    ([Number(null)] is [0]), so an already-normalised record is changed.
    A second normalisation changes nothing when the record has no price
    or a finite number for its amount, and from the second normalisation
    on nothing changes any more. *)
Theorem normalisation_not_idempotent :
  forall StringToNumber : jsstring -> float,
    (forall x : option jsstring, cleanText (cleanText x) = cleanText x) /\
    (PrimFloat.is_nan (StringToNumber (str "POA")) = true ->
     normalizeProperty StringToNumber example_poa = example_poa_normalised) /\
    normalizeProperty StringToNumber example_poa_normalised <> example_poa_normalised /\
    option_map amount (price (normalizeProperty StringToNumber example_poa_normalised))
    = Some (JsNumber 0) /\
    (forall p : property,
       price_numeric p ->
       normalizeProperty StringToNumber (normalizeProperty StringToNumber p)
       = normalizeProperty StringToNumber p) /\
    (forall raw : property,
       normalizeProperty StringToNumber
         (normalizeProperty StringToNumber (normalizeProperty StringToNumber raw))
       = normalizeProperty StringToNumber (normalizeProperty StringToNumber raw)).
Proof.
  intros S. split; [exact cleanText_idem|]. split; [|split; [|split; [|split]]].
  - intros Hnan. apply property_ext; try reflexivity.
    cbn [normalizeProperty price example_poa example_poa_normalised option_map]. f_equal.
    unfold clean_price, example_poa_price, price_of_offer.
    cbn [truthy_input is_nil negb offer_price offer_price_text offer_priceCurrency
         amount currency displayPrice Number].
    change (negb (is_nil (str "POA"))) with true. cbn [Number].
    rewrite (nan_not_finite _ Hnan). reflexivity.
  - intros H. apply (f_equal (fun r => option_map amount (price r))) in H.
    vm_compute in H. discriminate H.
  - reflexivity.
  - apply normalizeProperty_idem.
  - apply normalizeProperty_settles.
Qed.

(** *** URL absolutisation *)

(** C8, as stated, fails: an input with a scheme other than [http] or
    [https] is not returned unchanged. *)
Lemma ensureAbsoluteUrl_scheme_counterexample :
  spec_has_scheme (str "ftp://example.com/x.jpg") = true /\
  ensureAbsoluteUrl (Some (str "ftp://example.com/x.jpg"))
  = Some (str "https://www.rightmove.co.uk/ftp://example.com/x.jpg") /\
  ensureAbsoluteUrl (Some (str "ftp://example.com/x.jpg"))
  <> Some (str "ftp://example.com/x.jpg").
Proof. split; [reflexivity|]. split; [reflexivity | discriminate]. Qed.

(** C8, amended.  An input that starts with [http] is returned unchanged;
    any other input that starts with [//] gets [https:] in front; any other
    input that starts with [/] gets the base origin in front, and any other
    non-empty input the base origin and a [/]; [null] and the empty string
    give [null].  In particular [/properties/123] becomes
    [<base>/properties/123] and [//img.example.com/x.jpg] becomes
    [https://img.example.com/x.jpg]. *)
Theorem ensureAbsoluteUrl_cases :
  ensureAbsoluteUrl None = None /\
  ensureAbsoluteUrl (Some []) = None /\
  (forall u : jsstring, u <> [] ->
     (str "http" `prefix_of` u -> ensureAbsoluteUrl (Some u) = Some u) /\
     (~ str "http" `prefix_of` u -> str "//" `prefix_of` u ->
      ensureAbsoluteUrl (Some u) = Some (str "https:" ++ u)) /\
     (~ str "http" `prefix_of` u -> ~ str "//" `prefix_of` u -> str "/" `prefix_of` u ->
      ensureAbsoluteUrl (Some u) = Some (BASE_URL ++ u)) /\
     (~ str "http" `prefix_of` u -> ~ str "/" `prefix_of` u ->
      ensureAbsoluteUrl (Some u) = Some (BASE_URL ++ str "/" ++ u))) /\
  ensureAbsoluteUrl (Some (str "/properties/123")) = Some (BASE_URL ++ str "/properties/123") /\
  ensureAbsoluteUrl (Some (str "//img.example.com/x.jpg"))
  = Some (str "https://img.example.com/x.jpg") /\
  ensureAbsoluteUrl (Some (str "https://media.rightmove.co.uk/a.jpg"))
  = Some (str "https://media.rightmove.co.uk/a.jpg").
Proof.
  split; [reflexivity|]. split; [reflexivity|].
  split; [|repeat split; reflexivity].
  intros u Hu. destruct u as [|c u]; [contradiction|].
  assert (Hp : forall p, startsWith (c :: u) p = true <-> p `prefix_of` (c :: u)).
  { intros p. apply startsWith_spec. }
  cbn [ensureAbsoluteUrl].
  destruct (startsWith (c :: u) (str "http")) eqn:E1.
  { apply Hp in E1. repeat split; intros; try contradiction; reflexivity. }
  assert (N1 : ~ str "http" `prefix_of` (c :: u)).
  { intros H. apply Hp in H. congruence. }
  destruct (startsWith (c :: u) (str "//")) eqn:E2.
  { apply Hp in E2. repeat split; intros; try contradiction; try reflexivity.
    exfalso. match goal with H : ~ str "/" `prefix_of` _ |- _ => apply H end.
    destruct E2 as [k ->]. exists (chr "/" :: k). reflexivity. }
  assert (N2 : ~ str "//" `prefix_of` (c :: u)).
  { intros H. apply Hp in H. congruence. }
  destruct (startsWith (c :: u) (str "/")) eqn:E3.
  { apply Hp in E3. repeat split; intros; try contradiction; reflexivity. }
  assert (N3 : ~ str "/" `prefix_of` (c :: u)).
  { intros H. apply Hp in H. congruence. }
  repeat split; intros; try contradiction; reflexivity.
Qed.

(** *** The matcher and what a pattern matches *)

Lemma star_iter_complete {A}
    (body : option ascii -> jsstring -> (option ascii -> jsstring -> option A) -> option A)
    (R : option ascii -> jsstring -> option ascii -> jsstring -> Prop)
    (k : option ascii -> jsstring -> option A) :
  (forall prev s p' s' k', R prev s p' s' -> is_Some (k' p' s') -> is_Some (body prev s k')) ->
  forall prev s p' s', star_chain R prev s p' s' -> is_Some (k p' s') ->
  forall n, (length s <= n)%nat -> is_Some (star_iter body k n prev s).
Proof.
  intros Hbody prev s p' s' Hc Hk.
  induction Hc as [prev s | prev s p1 s1 p2 s2 HR Hlt Hc IH]; intros n Hn.
  - destruct n; simpl; [exact Hk|].
    destruct (body prev s _); [eexists; reflexivity | exact Hk].
  - destruct n as [|n]; [lia|]. simpl.
    assert (Hb : is_Some (body prev s
              (fun p' s' => if (length s' <? length s)%nat
                            then star_iter body k n p' s' else None))).
    { apply (Hbody _ _ _ _ _ HR).
      destruct (Nat.ltb_spec (length s1) (length s)); [|lia].
      apply IH; [exact Hk | lia]. }
    destruct Hb as [x ->]. eexists; reflexivity.
Qed.

Lemma rmatch_complete {A} (r : regex) :
  forall prev s p' s' (k : option ascii -> jsstring -> option A),
    rsem r prev s p' s' -> is_Some (k p' s') -> is_Some (rmatch r prev s k).
Proof.
  induction r as [p| |r1 IH1 r2 IH2|r1 IH1 r2 IH2|r IH|]; intros prev s p' s' k; simpl.
  - intros (c & -> & Hp & ->) Hk. rewrite Hp. exact Hk.
  - intros [-> ->] Hk. exact Hk.
  - intros (pm & sm & H1 & H2) Hk. eapply IH1; [exact H1|]. eapply IH2; eassumption.
  - intros [H|H] Hk.
    + destruct (IH1 _ _ _ _ k H Hk) as [x ->]. eexists; reflexivity.
    + destruct (rmatch r1 prev s k); [eexists; reflexivity|]. eapply IH2; eassumption.
  - intros Hc Hk. eapply star_iter_complete; [|exact Hc|exact Hk|reflexivity].
    intros. eapply IH; eassumption.
  - intros (Hb & -> & ->) Hk. rewrite Hb. exact Hk.
Qed.

Lemma star_iter_sound {A}
    (body : option ascii -> jsstring -> (option ascii -> jsstring -> option A) -> option A)
    (R : option ascii -> jsstring -> option ascii -> jsstring -> Prop)
    (k : option ascii -> jsstring -> option A) :
  (forall prev s k' x, body prev s k' = Some x ->
     exists p' s', R prev s p' s' /\ k' p' s' = Some x) ->
  forall n prev s x, star_iter body k n prev s = Some x ->
  exists p' s', star_chain R prev s p' s' /\ k p' s' = Some x.
Proof.
  intros Hbody n. induction n as [|n IH]; intros prev s x; simpl.
  - intros Hk. exists prev, s. split; [constructor | exact Hk].
  - destruct (body prev s _) as [y|] eqn:Eb.
    + intros H. injection H as ->.
      destruct (Hbody _ _ _ _ Eb) as (p1 & s1 & HR & Hcont).
      destruct (Nat.ltb_spec (length s1) (length s)); [|discriminate].
      destruct (IH _ _ _ Hcont) as (p2 & s2 & Hc & Hk).
      exists p2, s2. split; [|exact Hk]. econstructor; eassumption.
    + intros Hk. exists prev, s. split; [constructor | exact Hk].
Qed.

Lemma rmatch_sound {A} (r : regex) :
  forall prev s (k : option ascii -> jsstring -> option A) x,
    rmatch r prev s k = Some x ->
    exists p' s', rsem r prev s p' s' /\ k p' s' = Some x.
Proof.
  induction r as [p| |r1 IH1 r2 IH2|r1 IH1 r2 IH2|r IH|]; intros prev s k x; simpl.
  - destruct s as [|c s]; [discriminate|]. destruct (p c) eqn:Hp; [|discriminate].
    intros Hk. exists (Some c), s. split; [|exact Hk]. exists c. auto.
  - intros Hk. exists prev, s. auto.
  - intros H. destruct (IH1 _ _ _ _ H) as (pm & sm & H1 & H').
    destruct (IH2 _ _ _ _ H') as (p' & s' & H2 & Hk).
    exists p', s'. split; [|exact Hk]. exists pm, sm. auto.
  - destruct (rmatch r1 prev s k) as [y|] eqn:E1.
    + intros H. injection H as ->. destruct (IH1 _ _ _ _ E1) as (p' & s' & H1 & Hk).
      exists p', s'. auto.
    + intros H. destruct (IH2 _ _ _ _ H) as (p' & s' & H2 & Hk).
      exists p', s'. auto.
  - intros H. eapply star_iter_sound; [|exact H]. intros. eapply IH; eassumption.
  - destruct (at_boundary prev s) eqn:Hb; [|discriminate].
    intros Hk. exists prev, s. auto.
Qed.

Lemma before_snoc (prev : option ascii) (pre : jsstring) (c : ascii) :
  before prev (pre ++ [c]) = Some c.
Proof. unfold before. rewrite last_snoc. reflexivity. Qed.

Lemma before_cons (prev : option ascii) (c : ascii) (pre : jsstring) :
  before prev (c :: pre) = before (Some c) pre.
Proof.
  unfold before. destruct pre as [|d pre] using rev_ind; [reflexivity|].
  rewrite app_comm_cons, !last_snoc. reflexivity.
Qed.

Lemma re_find_from_complete (r : regex) (pre rest : jsstring) (prev p' : option ascii)
    (s' : jsstring) :
  rsem r (before prev pre) rest p' s' -> is_Some (re_find_from r prev (pre ++ rest)).
Proof.
  revert prev. induction pre as [|c pre IH]; intros prev H.
  - simpl app. destruct rest as [|c rest]; simpl.
    + assert (Hs : is_Some (rmatch r prev [] (fun _ s' => Some s'))).
      { eapply rmatch_complete; [exact H | eexists; reflexivity]. }
      destruct Hs as [x ->]. eexists; reflexivity.
    + assert (Hs : is_Some (rmatch r prev (c :: rest) (fun _ s' => Some s'))).
      { eapply rmatch_complete; [exact H | eexists; reflexivity]. }
      destruct Hs as [x ->]. eexists; reflexivity.
  - rewrite before_cons in H. simpl.
    destruct (rmatch r prev (c :: pre ++ rest) _); [eexists; reflexivity|].
    apply IH. exact H.
Qed.

Lemma re_find_from_sound (r : regex) (s : jsstring) (prev : option ascii) (m : jsstring) :
  re_find_from r prev s = Some m ->
  exists pre rest p' s', s = pre ++ rest /\ rsem r (before prev pre) rest p' s'.
Proof.
  revert prev. induction s as [|c s IH]; intros prev; simpl.
  - destruct (rmatch r prev [] _) as [x|] eqn:E; [|discriminate].
    intros _. destruct (rmatch_sound _ _ _ _ _ E) as (p' & s' & H & _).
    exists [], [], p', s'. auto.
  - destruct (rmatch r prev (c :: s) _) as [x|] eqn:E.
    + intros _. destruct (rmatch_sound _ _ _ _ _ E) as (p' & s' & H & _).
      exists [], (c :: s), p', s'. auto.
    + intros H. destruct (IH _ H) as (pre & rest & p' & s' & -> & Hs).
      exists (c :: pre), rest, p', s'. split; [reflexivity|].
      rewrite before_cons. exact Hs.
Qed.

(** [r.test(s)] holds exactly when [r] matches somewhere in [s]. *)
Lemma re_test_spec (r : regex) (s : jsstring) :
  re_test r s = true <-> matches_somewhere r s.
Proof.
  unfold re_test, re_find, matches_somewhere. split.
  - destruct (re_find_from r None s) as [m|] eqn:E; [|discriminate].
    intros _. eapply re_find_from_sound. exact E.
  - intros (pre & rest & p' & s' & -> & H).
    destruct (re_find_from_complete r pre rest None p' s' H) as [m ->]. reflexivity.
Qed.

(** *** Property types *)

Lemma map_app_inv {A B} (f : A -> B) (l : list A) (a b : list B) :
  map f l = a ++ b -> exists l1 l2, l = l1 ++ l2 /\ map f l1 = a /\ map f l2 = b.
Proof.
  revert l. induction a as [|x a IH]; intros l H.
  - exists [], l. auto.
  - destruct l as [|y l]; [discriminate|]. simpl in H. injection H as Hx H.
    destruct (IH _ H) as (l1 & l2 & -> & H1 & H2).
    exists (y :: l1), l2. simpl. rewrite Hx, H1. auto.
Qed.

Lemma lower_char_ascii (c x : ascii) :
  lower_char c = x -> (code x <? 128)%nat = true -> char_eq_ci x c = true.
Proof.
  intros <-.
  destruct c as [[] [] [] [] [] [] [] []]; vm_compute; intros H;
    first [reflexivity | discriminate H].
Qed.

Lemma lower_char_dash (c : ascii) : lower_char c = chr "-" -> c = chr "-".
Proof.
  destruct c as [[] [] [] [] [] [] [] []]; vm_compute; intros H;
    first [reflexivity | discriminate H].
Qed.

Lemma lowered_literal (w m : jsstring) :
  map lower_char m = w -> forallb (fun x => (code x <? 128)%nat) w = true ->
  Forall2 (fun x c => char_eq_ci x c = true) w m.
Proof.
  revert w. induction m as [|c m IH]; intros w <-; simpl.
  - constructor.
  - intros [Hx Hw]%andb_prop. constructor; [|apply IH; auto].
    eapply lower_char_ascii; [reflexivity | exact Hx].
Qed.

Lemma rsem_literal (w m : jsstring) (prev : option ascii) (rest : jsstring) :
  Forall2 (fun x c => char_eq_ci x c = true) w m ->
  rsem (RLit true w) prev (m ++ rest) (before prev m) rest.
Proof.
  intros H. revert prev. induction H as [|x c w m Hxc _ IH]; intros prev.
  - simpl. auto.
  - cbn [RLit rsem]. exists (Some c), (m ++ rest). split.
    + exists c. auto.
    + rewrite before_cons. apply IH.
Qed.

Lemma first_rule_spec (rules : list (regex * jsstring)) (text : jsstring) (i : nat)
    (re : regex) (v : jsstring) :
  rules !! i = Some (re, v) -> re_test re text = true ->
  (forall j re' v', (j < i)%nat -> rules !! j = Some (re', v') -> re_test re' text = false) ->
  first_rule rules text = Some v.
Proof.
  revert i. induction rules as [|[re0 v0] rules IH]; intros i Hi Ht Hlt; [discriminate|].
  destruct i as [|i]; simpl in *.
  - injection Hi as -> ->. rewrite Ht. reflexivity.
  - rewrite (Hlt 0%nat re0 v0); [|lia|reflexivity].
    apply (IH i); [exact Hi | exact Ht|].
    intros j re' v' Hj Hr. apply (Hlt (S j) re' v'); [lia | exact Hr].
Qed.

Lemma first_rule_none (rules : list (regex * jsstring)) (text : jsstring) :
  (forall re v, (re, v) ∈ rules -> re_test re text = false) -> first_rule rules text = None.
Proof.
  induction rules as [|[re0 v0] rules IH]; intros H; simpl; [reflexivity|].
  rewrite (H re0 v0); [|left]. apply IH. intros re v Hin. apply (H re v). right. exact Hin.
Qed.

Lemma re_test_false (r : regex) (s : jsstring) :
  ~ matches_somewhere r s -> re_test r s = false.
Proof.
  intros H. destruct (re_test r s) eqn:E; [|reflexivity].
  exfalso. apply H. apply re_test_spec. exact E.
Qed.

Lemma semi_detached_matches (text : jsstring) :
  contains_ci text (str "semi-detached") -> matches_somewhere re_semi_detached text.
Proof.
  intros (pre & post & H). unfold toLowerCase in H.
  apply map_app_inv in H as (p & mq & -> & _ & H).
  change (str "semi-detached" ++ post)
    with (str "semi" ++ ([chr "-"] ++ (str "detached" ++ post))) in H.
  apply map_app_inv in H as (m1 & r1 & -> & H1 & H).
  apply map_app_inv in H as (d & r2 & -> & Hd & H).
  apply map_app_inv in H as (m2 & q & -> & H2 & _).
  destruct d as [|c [|? ?]]; try discriminate. injection Hd as Hd.
  apply lower_char_dash in Hd as ->.
  exists p, (m1 ++ [chr "-"] ++ m2 ++ q), (before (Some (chr "-")) m2), q.
  split; [reflexivity|].
  unfold re_semi_detached. cbn [rsem].
  exists (before (before None p) m1), ([chr "-"] ++ m2 ++ q). split.
  - apply rsem_literal. apply lowered_literal; [exact H1 | reflexivity].
  - exists (Some (chr "-")), (m2 ++ q). split.
    + left. exists (chr "-"). auto.
    + apply rsem_literal. apply lowered_literal; [exact H2 | reflexivity].
Qed.

(** C6. The classifier returns the value of the first rule of the ordered
    table that matches, or [null] when none does; the rule for
    semi-detached comes before the one for detached, so that every text
    containing "semi-detached", whatever the case of its letters, is
    classified "Semi-Detached" and never "Detached". *)
Theorem inferPropertyType_first_match :
  (inferPropertyType None = None /\ inferPropertyType (Some []) = None) /\
  (forall text : jsstring, text <> [] ->
     (forall i re v,
         PROPERTY_TYPE_PATTERNS !! i = Some (re, v) -> matches_somewhere re text ->
         (forall j re' v', (j < i)%nat -> PROPERTY_TYPE_PATTERNS !! j = Some (re', v') ->
                           ~ matches_somewhere re' text) ->
         inferPropertyType (Some text) = Some v) /\
     ((forall re v, (re, v) ∈ PROPERTY_TYPE_PATTERNS -> ~ matches_somewhere re text) ->
      inferPropertyType (Some text) = None)) /\
  (PROPERTY_TYPE_PATTERNS !! 0%nat = Some (re_semi_detached, str "Semi-Detached") /\
   PROPERTY_TYPE_PATTERNS !! 1%nat = Some (re_word (str "detached"), str "Detached")) /\
  (forall text : jsstring, contains_ci text (str "semi-detached") ->
     inferPropertyType (Some text) = Some (str "Semi-Detached") /\
     inferPropertyType (Some text) <> Some (str "Detached")) /\
  inferPropertyType (Some (str "Semi-Detached House")) = Some (str "Semi-Detached").
Proof.
  split; [split; reflexivity|].
  split.
  { intros text Hne. destruct text as [|c text]; [contradiction|]. cbn [inferPropertyType].
    split.
    - intros i re v Hi Hm Hlt. apply (first_rule_spec _ _ i re v Hi).
      + apply re_test_spec. exact Hm.
      + intros j re' v' Hj Hr. apply re_test_false. eapply Hlt; eassumption.
    - intros H. apply first_rule_none. intros re v Hin. apply re_test_false. eapply H. exact Hin. }
  split; [split; reflexivity|].
  split; [|reflexivity].
  intros text Hc.
  assert (E : inferPropertyType (Some text) = Some (str "Semi-Detached")).
  { assert (Ht : re_test re_semi_detached text = true).
    { apply re_test_spec, semi_detached_matches, Hc. }
    destruct text as [|c text].
    - destruct Hc as (pre & post & H). destruct pre; discriminate.
    - cbn [inferPropertyType]. apply (first_rule_spec _ _ 0%nat re_semi_detached); auto.
      intros j ? ? Hj. lia. }
  split; [exact E|]. rewrite E. discriminate.
Qed.

(** *** Numeric tokens *)

Lemma before_app (prev : option ascii) (a b : jsstring) :
  before prev (a ++ b) = before (before prev a) b.
Proof.
  revert prev. induction a as [|c a IH]; intros prev; [reflexivity|].
  simpl app. rewrite !before_cons. apply IH.
Qed.

Lemma rmatch_class_cons {A} (p : ascii -> bool) (prev : option ascii) (c : ascii)
    (s : jsstring) (k : option ascii -> jsstring -> option A) :
  rmatch (RClass p) prev (c :: s) k = if p c then k (Some c) s else None.
Proof. reflexivity. Qed.

Lemma rmatch_class_nil {A} (p : ascii -> bool) (prev : option ascii)
    (k : option ascii -> jsstring -> option A) :
  rmatch (RClass p) prev [] k = None.
Proof. reflexivity. Qed.

Lemma star_class_greedy {A} (p : ascii -> bool) (k : option ascii -> jsstring -> option A)
    (ds rest : jsstring) :
  forallb p ds = true -> (forall c r, rest = c :: r -> p c = false) ->
  forall prev n, (length (ds ++ rest) <= n)%nat ->
  is_Some (k (before prev ds) rest) ->
  star_iter (rmatch (RClass p)) k n prev (ds ++ rest) = k (before prev ds) rest.
Proof.
  intros Hds Hrest. induction ds as [|d ds IH]; intros prev n Hn Hk.
  - simpl app. change (before prev []) with prev in *.
    destruct n as [|n]; [reflexivity|]. cbn [star_iter].
    destruct rest as [|c r].
    + rewrite rmatch_class_nil. reflexivity.
    + rewrite rmatch_class_cons, (Hrest c r eq_refl). reflexivity.
  - simpl in Hds. apply andb_prop in Hds as [Hd Hds].
    destruct n as [|n]; [simpl in Hn; lia|].
    rewrite before_cons in *. simpl app. cbn [star_iter].
    rewrite rmatch_class_cons, Hd.
    destruct (Nat.ltb_spec (length (ds ++ rest)) (length (d :: ds ++ rest))) as [_|Hlt];
      [|simpl in Hlt; lia].
    rewrite (IH Hds (Some d) n); [|simpl in Hn; lia|exact Hk].
    destruct Hk as [x ->]. reflexivity.
Qed.

Lemma rmatch_star_class {A} (p : ascii -> bool) (k : option ascii -> jsstring -> option A)
    (ds rest : jsstring) (prev : option ascii) :
  forallb p ds = true -> (forall c r, rest = c :: r -> p c = false) ->
  is_Some (k (before prev ds) rest) ->
  rmatch (RStar (RClass p)) prev (ds ++ rest) k = k (before prev ds) rest.
Proof.
  intros. change (rmatch (RStar (RClass p)) prev (ds ++ rest) k)
    with (star_iter (rmatch (RClass p)) k (length (ds ++ rest)) prev (ds ++ rest)).
  apply star_class_greedy; auto.
Qed.

Lemma star_class_sem (p : ascii -> bool) (prev : option ascii) (s : jsstring)
    (p' : option ascii) (s' : jsstring) :
  star_chain (rsem (RClass p)) prev s p' s' <->
  exists ds, s = ds ++ s' /\ forallb p ds = true /\ p' = before prev ds.
Proof.
  split.
  - induction 1 as [prev s | prev s p1 s1 p2 s2 (c & -> & Hc & ->) _ _ (ds & -> & Hds & ->)].
    + exists []. auto.
    + exists (c :: ds). simpl. rewrite Hc, Hds, before_cons. auto.
  - intros (ds & -> & Hds & ->). revert prev. induction ds as [|d ds IH]; intros prev.
    + constructor.
    + simpl in Hds. apply andb_prop in Hds as [Hd Hds].
      rewrite before_cons. apply (chain_more _ _ _ (Some d) (ds ++ s')).
      * exists d. auto.
      * simpl. lia.
      * apply IH. exact Hds.
Qed.

Lemma digits_split (s : jsstring) :
  exists ds rest, s = ds ++ rest /\ forallb is_digit ds = true /\ digit_head rest = false.
Proof.
  induction s as [|c s (ds & rest & -> & Hds & Hr)].
  - exists [], []. auto.
  - destruct (is_digit c) eqn:Hc.
    + exists (c :: ds), rest. simpl. rewrite Hc, Hds. auto.
    + exists [], (c :: ds ++ rest). simpl. auto.
Qed.

Lemma digit_head_false (rest : jsstring) :
  digit_head rest = false -> forall c r, rest = c :: r -> is_digit c = false.
Proof. intros H c r ->. exact H. Qed.

(** The matcher takes the digits greedily, then the decimal part if there
    is one. *)
Lemma rmatch_number (prev : option ascii) (tok rest : jsstring) :
  (exists int, int <> [] /\ forallb is_digit int = true /\
     ((tok = int /\ digit_head rest = false /\ fraction_head rest = false) \/
      (exists f, f <> [] /\ forallb is_digit f = true /\ tok = int ++ chr "." :: f /\
                 digit_head rest = false))) ->
  rmatch re_number prev (tok ++ rest) (fun _ s' => Some s') = Some rest.
Proof.
  intros (int & Hne & Hint & Hcase).
  destruct int as [|d ds]; [contradiction|]. simpl in Hint.
  apply andb_prop in Hint as [Hd Hds].
  set (k0 := fun (_ : option ascii) (s' : jsstring) => Some s').
  set (K := fun p' s' => rmatch (ROpt (RSeq (RClass (char_eqb (chr "."))) (RPlus (RClass is_digit)))) p' s' k0).
  assert (HK : forall p' s', is_Some (K p' s')).
  { intros p' s'. unfold K, ROpt.
    change (is_Some (match rmatch (RSeq (RClass (char_eqb (chr "."))) (RPlus (RClass is_digit))) p' s' k0 with
                     | Some x => Some x
                     | None => k0 p' s'
                     end)).
    destruct (rmatch (RSeq (RClass (char_eqb (chr "."))) (RPlus (RClass is_digit))) p' s' k0); eexists; reflexivity. }
  assert (Hstart : forall more,
             rmatch re_number prev (d :: ds ++ more) k0 =
             rmatch (RStar (RClass is_digit)) (Some d) (ds ++ more) K).
  { intros more.
    change (rmatch re_number prev (d :: ds ++ more) k0)
      with (rmatch (RClass is_digit) prev (d :: ds ++ more)
              (fun p1 s1 => rmatch (RStar (RClass is_digit)) p1 s1 K)).
    rewrite rmatch_class_cons, Hd. reflexivity. }
  destruct Hcase as [(-> & Hr & Hf) | (f & Hfne & Hf & -> & Hr)].
  - simpl app. rewrite Hstart.
    rewrite rmatch_star_class;
      [|exact Hds|apply digit_head_false; exact Hr|apply HK].
    unfold K.
    change (match rmatch (RClass (char_eqb (chr "."))) (before (Some d) ds) rest
                    (fun p1 s1 => rmatch (RPlus (RClass is_digit)) p1 s1 k0) with
            | Some x => Some x
            | None => Some rest
            end = Some rest).
    destruct rest as [|c r]; [reflexivity|].
    rewrite rmatch_class_cons. destruct (char_eqb (chr ".") c) eqn:Ec; [|reflexivity].
    change (match rmatch (RClass is_digit) (Some c) r
                    (fun p1 s1 => rmatch (RStar (RClass is_digit)) p1 s1 k0) with
            | Some x => Some x
            | None => Some (c :: r)
            end = Some (c :: r)).
    destruct r as [|c' r]; [reflexivity|].
    rewrite rmatch_class_cons. cbn [fraction_head] in Hf. rewrite Ec in Hf.
    cbn [andb] in Hf. rewrite Hf. reflexivity.
  - destruct f as [|fd fs]; [contradiction|]. simpl in Hf.
    apply andb_prop in Hf as [Hfd Hfs].
    rewrite <- app_assoc. simpl app. rewrite Hstart.
    rewrite rmatch_star_class;
      [|exact Hds|intros c r E; injection E as <- _; reflexivity|apply HK].
    unfold K.
    change (match rmatch (RClass (char_eqb (chr "."))) (before (Some d) ds)
                    (chr "." :: fd :: fs ++ rest)
                    (fun p1 s1 => rmatch (RClass is_digit) p1 s1
                                    (fun p2 s2 => rmatch (RStar (RClass is_digit)) p2 s2 k0)) with
            | Some x => Some x
            | None => Some (chr "." :: fd :: fs ++ rest)
            end = Some rest).
    rewrite rmatch_class_cons.
    change (char_eqb (chr ".") (chr ".")) with true. cbv iota.
    rewrite rmatch_class_cons, Hfd.
    rewrite (rmatch_star_class is_digit k0 fs rest);
      [reflexivity|exact Hfs|apply digit_head_false; exact Hr|eexists; reflexivity].
Qed.

Lemma rmatch_number_nondigit {A} (prev : option ascii) (c : ascii) (s : jsstring)
    (k : option ascii -> jsstring -> option A) :
  is_digit c = false -> rmatch re_number prev (c :: s) k = None.
Proof. intros H. unfold re_number, RPlus. cbn [rmatch]. rewrite H. reflexivity. Qed.

Lemma re_find_number (prev : option ascii) (s pre tok rest : jsstring) :
  first_numeric_token s pre tok rest -> re_find_from re_number prev s = Some tok.
Proof.
  intros (-> & Hpre & Htok). revert prev. induction pre as [|c pre IH]; intros prev.
  - simpl app.
    assert (E : rmatch re_number prev (tok ++ rest) (fun _ s' => Some s') = Some rest)
      by (apply rmatch_number; exact Htok).
    destruct (tok ++ rest) as [|c r] eqn:Es; cbn [re_find_from]; rewrite E; f_equal;
      rewrite <- Es, length_app, Nat.add_sub, take_app_length; reflexivity.
  - simpl in Hpre. apply andb_prop in Hpre as [Hc Hpre].
    apply negb_true_iff in Hc.
    simpl app. cbn [re_find_from]. rewrite rmatch_number_nondigit by exact Hc.
    apply IH. exact Hpre.
Qed.

Lemma re_find_no_digit (prev : option ascii) (s : jsstring) :
  no_digit s = true -> re_find_from re_number prev s = None.
Proof.
  revert prev. induction s as [|c s IH]; intros prev H.
  - reflexivity.
  - simpl in H. apply andb_prop in H as [Hc H]. apply negb_true_iff in Hc.
    cbn [re_find_from]. rewrite rmatch_number_nondigit by exact Hc. apply IH. exact H.
Qed.

(** A text with a digit has a first numeric token. *)
Lemma first_numeric_token_exists (s : jsstring) :
  no_digit s = false -> exists pre tok rest, first_numeric_token s pre tok rest.
Proof.
  induction s as [|c s IH]; [discriminate|]. simpl.
  destruct (is_digit c) eqn:Hc; simpl.
  - intros _. destruct (digits_split s) as (ds & r & -> & Hds & Hr).
    destruct (fraction_head r) eqn:Hf.
    + destruct r as [|dot [|fd r']]; try discriminate. simpl in Hf.
      apply andb_prop in Hf as [Hdot Hfd]. unfold char_eqb in Hdot.
      apply Ascii.eqb_eq in Hdot as <-.
      destruct (digits_split r') as (fs & r2 & -> & Hfs & Hr2).
      exists [], (c :: ds ++ chr "." :: fd :: fs), r2.
      split; [simpl; rewrite <- !app_assoc; reflexivity|]. split; [reflexivity|].
      exists (c :: ds). split; [discriminate|]. split; [simpl; rewrite Hc; exact Hds|].
      right. exists (fd :: fs). split; [discriminate|].
      split; [simpl; rewrite Hfd; exact Hfs|]. auto.
    + exists [], (c :: ds), r. split; [reflexivity|]. split; [reflexivity|].
      exists (c :: ds). split; [discriminate|]. split; [simpl; rewrite Hc; exact Hds|].
      left. auto.
  - intros H. destruct (IH H) as (pre & tok & rest & -> & Hpre & Ht).
    exists (c :: pre), tok, rest. split; [reflexivity|]. split; [|exact Ht].
    simpl. rewrite Hc. exact Hpre.
Qed.

(** *** Suffixes and [parsePrice] *)

Lemma includes_spec (s w : jsstring) : includes s w = true <-> contains s w.
Proof.
  unfold contains. induction s as [|c s IH]; cbn [includes].
  - rewrite orb_false_r, startsWith_spec. split.
    + intros [post H]. exists [], post. exact H.
    + intros (pre & post & H). destruct pre; [exists post; exact H|discriminate].
  - rewrite orb_true_iff, startsWith_spec, IH. split.
    + intros [[post H] | (pre & post & ->)].
      * exists [], post. exact H.
      * exists (c :: pre), post. reflexivity.
    + intros (pre & post & H). destruct pre as [|c' pre].
      * left. exists post. exact H.
      * right. injection H as -> ->. exists pre, post. reflexivity.
Qed.

Lemma rsem_plus_class (p : ascii -> bool) (prev : option ascii) (s : jsstring)
    (p' : option ascii) (s' : jsstring) :
  rsem (RPlus (RClass p)) prev s p' s' <->
  exists ds, ds <> [] /\ s = ds ++ s' /\ forallb p ds = true /\ p' = before prev ds.
Proof.
  unfold RPlus. cbn [rsem]. split.
  - intros (pm & sm & (c & -> & Hc & ->) & (ds & -> & Hds & ->)%star_class_sem).
    exists (c :: ds). simpl. rewrite Hc, Hds, before_cons. split; [discriminate | auto].
  - intros (ds & Hne & -> & Hds & ->). destruct ds as [|d ds]; [contradiction|].
    simpl in Hds. apply andb_prop in Hds as [Hd Hds].
    exists (Some d), (ds ++ s'). split; [exists d; auto|].
    apply star_class_sem. exists ds. rewrite before_cons. auto.
Qed.

Lemma forallb_nonempty_before (p : ascii -> bool) (prev : option ascii) (ds : jsstring) :
  ds <> [] -> exists c, before prev ds = Some c.
Proof.
  intros H. destruct ds as [|d ds] using rev_ind; [contradiction|].
  exists d. apply before_snoc.
Qed.

Lemma rsem_number (prev : option ascii) (s : jsstring) (p' : option ascii) (s' : jsstring) :
  rsem re_number prev s p' s' <->
  exists num, s = num ++ s' /\ is_decimal num /\ p' = before prev num.
Proof.
  unfold re_number, ROpt.
  change (rsem (RSeq (RPlus (RClass is_digit))
                  (RAlt (RSeq (RClass (char_eqb (chr "."))) (RPlus (RClass is_digit))) REmpty))
            prev s p' s')
    with (exists pm sm,
             rsem (RPlus (RClass is_digit)) prev s pm sm /\
             ((exists pd sd, (exists c, sm = c :: sd /\ char_eqb (chr ".") c = true /\ pd = Some c) /\
                             rsem (RPlus (RClass is_digit)) pd sd p' s') \/
              (p' = pm /\ s' = sm))).
  split.
  - intros (pm & sm & (int & Hne & -> & Hint & ->)%rsem_plus_class & Hrest).
    destruct Hrest as [(pd & sd & (c & -> & Hc & ->) & (f & Hfne & -> & Hf & ->)%rsem_plus_class)
                      | [-> ->]].
    + unfold char_eqb in Hc. apply Ascii.eqb_eq in Hc as <-.
      exists (int ++ chr "." :: f). split; [rewrite <- app_assoc; reflexivity|].
      split.
      * exists int. split; [exact Hne|]. split; [exact Hint|]. right. exists f. auto.
      * rewrite before_app, before_cons. reflexivity.
    + exists int. split; [reflexivity|]. split; [|reflexivity].
      exists int. auto.
  - intros (num & -> & (int & Hne & Hint & Hnum) & ->).
    destruct Hnum as [-> | (f & Hfne & Hf & ->)].
    + exists (before prev int), s'. split; [|right; auto].
      apply rsem_plus_class. exists int. auto.
    + exists (before prev int), (chr "." :: f ++ s'). split.
      * apply rsem_plus_class. exists int. rewrite <- app_assoc. auto.
      * left. exists (Some (chr ".")), (f ++ s'). split; [exists (chr "."); auto|].
        apply rsem_plus_class. exists f. rewrite before_app, before_cons. auto.
Qed.

Lemma ascii_lower_lower (x : ascii) : is_lower x = true -> ascii_lower x = x.
Proof.
  destruct x as [[] [] [] [] [] [] [] []]; vm_compute; intros H;
    first [reflexivity | discriminate H].
Qed.

Lemma lower_is_word (c : ascii) : is_lower (ascii_lower c) = true -> is_word c = true.
Proof.
  destruct c as [[] [] [] [] [] [] [] []]; vm_compute; intros H;
    first [reflexivity | discriminate H].
Qed.

Lemma ci_letter_word (x c : ascii) :
  is_lower x = true -> char_eq_ci x c = true -> is_word c = true.
Proof.
  intros Hx H. unfold char_eq_ci in H. apply Ascii.eqb_eq in H.
  apply lower_is_word. rewrite <- H, ascii_lower_lower; exact Hx.
Qed.

Lemma digit_is_word (c : ascii) : is_digit c = true -> is_word c = true.
Proof. intros H. unfold is_word. rewrite H. reflexivity. Qed.

Lemma is_decimal_head (num : jsstring) :
  is_decimal num -> exists d r, num = d :: r /\ is_digit d = true.
Proof.
  intros (int & Hne & Hint & Hnum). destruct int as [|d ds]; [contradiction|].
  simpl in Hint. apply andb_prop in Hint as [Hd _].
  destruct Hnum as [-> | (f & _ & _ & ->)]; eauto.
Qed.

(** The pattern [/\b\d+(?:\.\d+)?\s*x\b/i] matches somewhere exactly when
    the text has a standalone suffix [x]. *)
Lemma re_suffix_spec (x : ascii) (s : jsstring) :
  is_lower x = true ->
  (matches_somewhere (re_suffix x) s <-> standalone_suffix x s).
Proof.
  intros Hx. unfold matches_somewhere, standalone_suffix, re_suffix.
  split.
  - intros (pre & rest & p' & s' & -> & H). cbn [rsem] in H.
    destruct H as (p1 & s1 & (Hb & -> & ->) & p2 & s2 & Hnum & p3 & s3 & Hws & p4 & s4
                   & (c & -> & Hc & ->) & (Hb' & _ & ->)).
    apply rsem_number in Hnum as (num & -> & Hdec & ->).
    apply star_class_sem in Hws as (ws & -> & Hws & ->).
    exists pre, num, ws, c, s4. split; [reflexivity|].
    destruct (is_decimal_head _ Hdec) as (d & r & -> & Hd).
    unfold at_boundary in Hb, Hb'. simpl in Hb, Hb'.
    rewrite (digit_is_word _ Hd) in Hb. rewrite (ci_letter_word _ _ Hx Hc) in Hb'.
    repeat split; auto.
    + destruct (is_word_opt (before None pre)); [discriminate | reflexivity].
    + destruct (is_word_opt (head s4)); [discriminate | reflexivity].
  - intros (pre & num & ws & c & post & -> & Hpre & Hdec & Hws & Hc & Hpost).
    exists pre, (num ++ ws ++ c :: post), (Some c), post. split; [reflexivity|].
    cbn [rsem].
    exists (before None pre), (num ++ ws ++ c :: post). split.
    { split; [|auto]. destruct (is_decimal_head _ Hdec) as (d & r & -> & Hd).
      unfold at_boundary. simpl. rewrite Hpre, (digit_is_word _ Hd). reflexivity. }
    exists (before (before None pre) num), (ws ++ c :: post). split.
    { apply rsem_number. exists num. auto. }
    exists (before (before (before None pre) num) ws), (c :: post). split.
    { apply star_class_sem. exists ws. auto. }
    exists (Some c), post. split; [exists c; auto|].
    split; [|auto]. unfold at_boundary. simpl.
    rewrite (ci_letter_word _ _ Hx Hc), Hpost. reflexivity.
Qed.

Lemma no_digit_remove_commas (t : jsstring) : no_digit (remove_commas t) = no_digit t.
Proof.
  unfold remove_commas, no_digit. induction t as [|c t IH]; [reflexivity|].
  rewrite filter_cons. destruct (decide (c ≠ chr ",")) as [_|H]; cbn [forallb].
  - rewrite IH. reflexivity.
  - apply dec_stable in H. subst c. rewrite IH. reflexivity.
Qed.

(** C5. [parsePrice] drops the thousands separators, skips everything in
    front of the first numeric token (currency symbols included), and
    returns [null] when there is no numeric token.  The amount is that
    token times 1,000,000 when the text contains "million" or a standalone
    "m" suffix, otherwise times 1,000 when it has a standalone "k" suffix,
    otherwise the token itself; the currency is "GBP".  The four examples of
    the specification hold. *)
Theorem parsePrice_spec :
  (parsePrice None = None /\ parsePrice (Some []) = None) /\
  (forall text : jsstring, no_digit text = true -> parsePrice (Some text) = None) /\
  (forall text : jsstring, no_digit text = false ->
     exists pre tok rest, first_numeric_token (remove_commas text) pre tok rest) /\
  (forall text pre tok rest : jsstring,
     first_numeric_token (remove_commas text) pre tok rest ->
     let lower := toLowerCase (remove_commas text) in
     let millions := contains lower (str "million") \/ standalone_suffix (chr "m") lower in
     let thousands := standalone_suffix (chr "k") lower in
     exists amt,
       parsePrice (Some text)
       = Some {| amount := JsNumber amt; currency := Some (str "GBP");
                 displayPrice := cleanText (Some text) |} /\
       (millions -> amt = (parseFloat tok * 1000000)%float) /\
       (~ millions -> thousands -> amt = (parseFloat tok * 1000)%float) /\
       (~ millions -> ~ thousands -> amt = parseFloat tok)) /\
  parsePrice (Some (pound :: str "1,250,000"))
  = Some {| amount := JsNumber 1250000%float; currency := Some (str "GBP");
            displayPrice := Some (pound :: str "1,250,000") |} /\
  amount <$> parsePrice (Some (pound :: str "450k")) = Some (JsNumber 450000%float) /\
  amount <$> parsePrice (Some (pound :: str "1.2 million")) = Some (JsNumber 1200000%float) /\
  parsePrice (Some (str "POA")) = None.
Proof.
  split; [split; reflexivity|].
  split.
  { intros [|c t] H; [reflexivity|]. cbn [parsePrice]. unfold re_find.
    rewrite re_find_no_digit; [reflexivity|]. rewrite no_digit_remove_commas. exact H. }
  split.
  { intros text H. apply first_numeric_token_exists. rewrite no_digit_remove_commas. exact H. }
  split; [|repeat split; vm_compute; reflexivity].
  intros text pre tok rest Htok lower millions thousands.
  assert (Hfind : re_find re_number (remove_commas text) = Some tok)
    by (eapply re_find_number; exact Htok).
  destruct text as [|c t].
  { destruct Htok as (E & _ & int & Hne & _ & [(-> & _) | (f & _ & _ & -> & _)]).
    - destruct pre, int; try discriminate; contradiction.
    - destruct pre, int; try discriminate; contradiction. }
  cbn [parsePrice]. rewrite Hfind. fold lower.
  assert (Hm : re_test (re_suffix (chr "m")) lower || includes lower (str "million") = true
               <-> millions).
  { rewrite orb_true_iff, re_test_spec, (re_suffix_spec (chr "m")) by reflexivity.
    rewrite includes_spec. unfold millions. tauto. }
  assert (Hk : re_test (re_suffix (chr "k")) lower = true <-> thousands).
  { rewrite re_test_spec. apply re_suffix_spec. reflexivity. }
  destruct (re_test (re_suffix (chr "m")) lower || includes lower (str "million")) eqn:Em.
  - eexists. split; [reflexivity|].
    assert (millions) by (apply Hm; reflexivity).
    repeat split; intros; try reflexivity; contradiction.
  - assert (~ millions) by (intros Hc; apply Hm in Hc; discriminate).
    destruct (re_test (re_suffix (chr "k")) lower) eqn:Ek.
    + eexists. split; [reflexivity|].
      assert (thousands) by (apply Hk; reflexivity).
      repeat split; intros; try reflexivity; contradiction.
    + assert (~ thousands) by (intros Hc; apply Hk in Hc; discriminate).
      eexists. split; [reflexivity|].
      repeat split; intros; try reflexivity; contradiction.
Qed.

(** *** Configuration limits *)

Lemma SFcompare_antisym (x y : spec_float) :
  SFcompare y x = option_map CompOpp (SFcompare x y).
Proof.
  destruct x as [sx|sx| |sx mx ex], y as [sy|sy| |sy my ey]; simpl; try reflexivity;
    try (destruct sx; reflexivity); try (destruct sy; reflexivity);
    try (destruct sx, sy; reflexivity).
  destruct sx, sy; try reflexivity; rewrite (Z.compare_antisym ex ey);
    destruct (ex ?= ey)%Z; simpl; try reflexivity;
    change (Pos.compare_cont Eq my mx) with (my ?= mx)%positive;
    change (Pos.compare_cont Eq mx my) with (mx ?= my)%positive;
    rewrite (Pos.compare_antisym mx my); destruct (mx ?= my)%positive; reflexivity.
Qed.

Lemma not_nan_spec (a : float) : PrimFloat.is_nan a = false -> Prim2SF a <> S754_nan.
Proof.
  unfold PrimFloat.is_nan. rewrite FloatAxioms.eqb_spec. intros H E.
  rewrite E in H. discriminate.
Qed.

Lemma SFcompare_total (x y : spec_float) :
  x <> S754_nan -> y <> S754_nan -> exists c, SFcompare x y = Some c.
Proof.
  destruct x, y; simpl; intros Hx Hy; try contradiction; eexists; reflexivity.
Qed.

(** On numbers, [a < b] fails only if [b <= a]. *)
Lemma float_not_lt (a b : float) :
  PrimFloat.is_nan a = false -> PrimFloat.is_nan b = false ->
  (a <? b)%float = false -> (b <=? a)%float = true.
Proof.
  intros Ha%not_nan_spec Hb%not_nan_spec.
  rewrite FloatAxioms.ltb_spec, FloatAxioms.leb_spec. unfold SFltb, SFleb.
  rewrite (SFcompare_antisym (Prim2SF a) (Prim2SF b)).
  destruct (SFcompare_total _ _ Ha Hb) as [c ->].
  destruct c; simpl; congruence.
Qed.

Lemma float_lt_le (a b : float) : (a <? b)%float = true -> (a <=? b)%float = true.
Proof.
  rewrite FloatAxioms.ltb_spec, FloatAxioms.leb_spec. unfold SFltb, SFleb.
  destruct (SFcompare (Prim2SF a) (Prim2SF b)) as [[]|]; congruence.
Qed.

Lemma SFcompare_Lt_trans (x y z : spec_float) :
  SFcompare x y = Some Lt -> SFcompare y z = Some Lt -> SFcompare x z = Some Lt.
Proof.
  destruct x as [sx|sx| |sx mx ex], y as [sy|sy| |sy my ey], z as [sz|sz| |sz mz ez];
    simpl; try discriminate;
    try (destruct sx; discriminate); try (destruct sy; discriminate);
    try (destruct sz; discriminate);
    try (destruct sx, sy; discriminate); try (destruct sy, sz; discriminate);
    try (destruct sx, sy, sz; (discriminate || reflexivity)).
  all: try (destruct sx, sy, sz; try discriminate; try reflexivity; fail).
  change (Pos.compare_cont Eq mx my) with (mx ?= my)%positive.
  change (Pos.compare_cont Eq my mz) with (my ?= mz)%positive.
  change (Pos.compare_cont Eq mx mz) with (mx ?= mz)%positive.
  destruct sx, sy, sz; try discriminate; try reflexivity;
    destruct (Z.compare_spec ex ey), (Z.compare_spec ey ez); try discriminate;
    destruct (Z.compare_spec ex ez); try lia; try reflexivity;
    destruct (Pos.compare_spec mx my), (Pos.compare_spec my mz); simpl; try discriminate;
    intros _ _; destruct (Pos.compare_spec mx mz); simpl; try reflexivity; lia.
Qed.

(** Two numbers that compare equal are the same number, unless they are zeros. *)
Lemma SFcompare_Eq_eq (x y : spec_float) :
  SFcompare x y = Some Eq -> (forall s, x <> S754_zero s) -> x = y.
Proof.
  destruct x as [sx|sx| |sx mx ex], y as [sy|sy| |sy my ey]; simpl; try discriminate;
    try (destruct sx; discriminate); try (destruct sy; discriminate).
  - intros _ H. exfalso. apply (H sx). reflexivity.
  - destruct sx, sy; try discriminate; reflexivity.
  - change (Pos.compare_cont Eq mx my) with (mx ?= my)%positive.
    destruct sx, sy; try discriminate;
      destruct (Z.compare_spec ex ey); try discriminate;
      destruct (Pos.compare_spec mx my); simpl; try discriminate; subst; reflexivity.
Qed.

Lemma float_lt_trans (a b c : float) :
  (a <? b)%float = true -> (b <? c)%float = true -> (a <? c)%float = true.
Proof.
  rewrite !FloatAxioms.ltb_spec. unfold SFltb.
  destruct (SFcompare (Prim2SF a) (Prim2SF b)) as [[]|] eqn:E1; try discriminate.
  destruct (SFcompare (Prim2SF b) (Prim2SF c)) as [[]|] eqn:E2; try discriminate.
  rewrite (SFcompare_Lt_trans _ _ _ E1 E2). reflexivity.
Qed.

Lemma float_lt_not_le (a b : float) : (a <? b)%float = true -> (b <=? a)%float = false.
Proof.
  rewrite FloatAxioms.ltb_spec, FloatAxioms.leb_spec. unfold SFltb, SFleb.
  rewrite (SFcompare_antisym (Prim2SF a) (Prim2SF b)).
  destruct (SFcompare (Prim2SF a) (Prim2SF b)) as [[]|]; simpl; congruence.
Qed.

Lemma float_le_not_lt (a b : float) : (a <=? b)%float = true -> (b <? a)%float = false.
Proof.
  rewrite FloatAxioms.ltb_spec, FloatAxioms.leb_spec. unfold SFltb, SFleb.
  rewrite (SFcompare_antisym (Prim2SF a) (Prim2SF b)).
  destruct (SFcompare (Prim2SF a) (Prim2SF b)) as [[]|]; simpl; congruence.
Qed.

Lemma float_le_refl (a : float) : PrimFloat.is_nan a = false -> (a <=? a)%float = true.
Proof.
  intros Ha. apply float_not_lt; auto.
  destruct (a <? a)%float eqn:E; [|reflexivity].
  pose proof (float_lt_not_le _ _ E) as H. pose proof (float_lt_le _ _ E) as H'. congruence.
Qed.

Lemma not_zero_spec (a : float) :
  PrimFloat.is_zero a = false -> forall s, Prim2SF a <> S754_zero s.
Proof.
  unfold PrimFloat.is_zero. rewrite FloatAxioms.eqb_spec. intros H s E.
  rewrite E in H. discriminate.
Qed.

(** Two numbers of which neither is below the other are the same number, zeros apart. *)
Lemma float_eq (a b : float) :
  PrimFloat.is_nan a = false -> PrimFloat.is_nan b = false -> PrimFloat.is_zero a = false ->
  (a <? b)%float = false -> (b <? a)%float = false -> a = b.
Proof.
  intros Ha Hb Hz. rewrite !FloatAxioms.ltb_spec. unfold SFltb.
  rewrite (SFcompare_antisym (Prim2SF a) (Prim2SF b)).
  destruct (SFcompare_total _ _ (not_nan_spec _ Ha) (not_nan_spec _ Hb)) as [c Hc].
  rewrite Hc. destruct c; simpl; try discriminate. intros _ _.
  rewrite <- (FloatAxioms.SF2Prim_Prim2SF a), <- (FloatAxioms.SF2Prim_Prim2SF b).
  f_equal. apply SFcompare_Eq_eq; [exact Hc | apply not_zero_spec; exact Hz].
Qed.

Lemma or_num_not_nan (v d : float) :
  PrimFloat.is_nan d = false -> PrimFloat.is_nan (or_num v d) = false.
Proof.
  intros Hd. unfold or_num.
  destruct (PrimFloat.is_zero v || PrimFloat.is_nan v) eqn:E; [exact Hd|].
  apply orb_false_elim in E as [_ E]. exact E.
Qed.

Lemma Math_max_one (x : float) :
  PrimFloat.is_nan x = false ->
  PrimFloat.is_nan (Math_max x 1) = false /\ (1 <=? Math_max x 1)%float = true.
Proof.
  intros Hx. unfold Math_max. rewrite Hx.
  change (PrimFloat.is_nan 1) with false. cbn [orb].
  destruct (x <? 1)%float eqn:E1; [split; reflexivity|].
  assert (H1 : (1 <=? x)%float = true) by (apply float_not_lt; auto).
  destruct (1 <? x)%float; [auto|].
  destruct (PrimFloat.get_sign x); [split; reflexivity | auto].
Qed.

Lemma Math_min_range (m hi : float) :
  PrimFloat.is_nan m = false -> (1 <=? m)%float = true ->
  PrimFloat.is_nan hi = false -> (1 <=? hi)%float = true ->
  (1 <=? Math_min m hi)%float = true /\ (Math_min m hi <=? hi)%float = true.
Proof.
  intros Hm H1 Hhi H1hi. unfold Math_min. rewrite Hm, Hhi. cbn [orb].
  assert (Hrefl : (hi <=? hi)%float = true).
  { apply float_not_lt; auto.
    destruct (hi <? hi)%float eqn:E; [|reflexivity].
    rewrite FloatAxioms.ltb_spec in E. unfold SFltb in E.
    pose proof (SFcompare_antisym (Prim2SF hi) (Prim2SF hi)) as Ha.
    destruct (SFcompare (Prim2SF hi) (Prim2SF hi)) as [[]|]; simpl in Ha; congruence. }
  destruct (m <? hi)%float eqn:E1; [split; [exact H1 | apply float_lt_le; exact E1]|].
  destruct (hi <? m)%float eqn:E2; [auto|].
  destruct (PrimFloat.get_sign m); [|auto].
  split; [exact H1 | apply float_not_lt; auto].
Qed.

Lemma clamp_limit_range (StringToNumber : jsstring -> float) (raw : js_input) (dflt hi : float) :
  PrimFloat.is_nan dflt = false -> PrimFloat.is_nan hi = false -> (1 <=? hi)%float = true ->
  (1 <=? clamp_limit StringToNumber raw dflt hi)%float = true /\
  (clamp_limit StringToNumber raw dflt hi <=? hi)%float = true.
Proof.
  intros Hd Hhi H1. unfold clamp_limit.
  destruct (Math_max_one (or_num (Number StringToNumber (with_default raw dflt)) dflt))
    as [Hn Hle]; [apply or_num_not_nan; exact Hd|].
  apply Math_min_range; auto.
Qed.

Lemma or_num_self (d : float) : or_num d d = d.
Proof. unfold or_num. destruct (PrimFloat.is_zero d || PrimFloat.is_nan d); reflexivity. Qed.

Lemma clamp_limit_default (StringToNumber : jsstring -> float) (raw : js_input) (dflt hi : float) :
  raw = JsUndefined \/
  PrimFloat.is_zero (Number StringToNumber raw) = true \/
  PrimFloat.is_nan (Number StringToNumber raw) = true ->
  clamp_limit StringToNumber raw dflt hi = Math_min (Math_max dflt 1) hi.
Proof.
  intros H. unfold clamp_limit. f_equal. f_equal.
  destruct raw; cbn [with_default];
    try (cbn [Number]; apply or_num_self);
    (destruct H as [H | [H | H]]; [discriminate | |]; unfold or_num; rewrite H;
     rewrite ?orb_true_r; reflexivity).
Qed.

Lemma Math_max_cases (x : float) :
  PrimFloat.is_nan x = false -> PrimFloat.is_zero x = false ->
  ((x <? 1)%float = true -> Math_max x 1 = 1%float) /\
  ((1 <=? x)%float = true -> Math_max x 1 = x).
Proof.
  intros Hx Hz. unfold Math_max. rewrite Hx. change (PrimFloat.is_nan 1) with false.
  cbn [orb]. split.
  - intros ->. reflexivity.
  - intros Hle. rewrite (float_le_not_lt _ _ Hle).
    destruct (1 <? x)%float eqn:E; [reflexivity|].
    assert (Ex : x = 1%float).
    { apply float_eq; auto. apply float_le_not_lt. exact Hle. }
    rewrite Ex. destruct (PrimFloat.get_sign 1); reflexivity.
Qed.

Lemma Math_min_cases (m hi : float) :
  PrimFloat.is_nan m = false -> PrimFloat.is_nan hi = false -> PrimFloat.is_zero m = false ->
  ((m <=? hi)%float = true -> Math_min m hi = m) /\
  ((hi <? m)%float = true -> Math_min m hi = hi).
Proof.
  intros Hm Hhi Hz. unfold Math_min. rewrite Hm, Hhi. cbn [orb]. split.
  - intros Hle. destruct (m <? hi)%float eqn:E; [reflexivity|].
    rewrite (float_le_not_lt _ _ Hle).
    assert (Ex : m = hi) by (apply float_eq; auto; apply float_le_not_lt; exact Hle).
    rewrite <- Ex. destruct (PrimFloat.get_sign m); reflexivity.
  - intros Hlt. destruct (m <? hi)%float eqn:E.
    + pose proof (float_lt_le _ _ E) as H1. pose proof (float_lt_not_le _ _ Hlt) as H2.
      congruence.
    + rewrite Hlt. reflexivity.
Qed.

(** What the clamp does with a value that converts to a number other
    than zero: it keeps it when it lies between 1 and [hi], and takes the
    nearer bound otherwise. *)
Lemma clamp_limit_cases (StringToNumber : jsstring -> float) (raw : js_input) (dflt hi : float) :
  PrimFloat.is_nan hi = false -> (1 <? hi)%float = true ->
  raw <> JsUndefined ->
  PrimFloat.is_zero (Number StringToNumber raw) = false ->
  PrimFloat.is_nan (Number StringToNumber raw) = false ->
  ((1 <=? Number StringToNumber raw)%float = true ->
   (Number StringToNumber raw <=? hi)%float = true ->
   clamp_limit StringToNumber raw dflt hi = Number StringToNumber raw) /\
  ((Number StringToNumber raw <? 1)%float = true ->
   clamp_limit StringToNumber raw dflt hi = 1%float) /\
  ((hi <? Number StringToNumber raw)%float = true ->
   clamp_limit StringToNumber raw dflt hi = hi).
Proof.
  intros Hhi H1 Hraw Hz Hn. unfold clamp_limit.
  assert (Ew : with_default raw dflt = raw) by (destruct raw; [contradiction|..]; reflexivity).
  rewrite Ew. set (v := Number StringToNumber raw) in *.
  assert (Eo : or_num v dflt = v) by (unfold or_num; rewrite Hz, Hn; reflexivity).
  rewrite Eo. destruct (Math_max_cases v Hn Hz) as [Hlow Hkeep].
  split; [|split].
  - intros Hle1 Hlehi. rewrite (Hkeep Hle1).
    apply (proj1 (Math_min_cases v hi Hn Hhi Hz)). exact Hlehi.
  - intros Hlt. rewrite (Hlow Hlt).
    apply (proj1 (Math_min_cases 1 hi eq_refl Hhi eq_refl)). apply float_lt_le. exact H1.
  - intros Hlt. rewrite Hkeep.
    + apply (proj2 (Math_min_cases v hi Hn Hhi Hz)). exact Hlt.
    + apply float_lt_le. eapply float_lt_trans; eassumption.
Qed.

(** C10. Whatever the raw input, the effective [maxResults] lies in
    [1, 1000] and the effective [maxPages] in [1, 50]; a missing value, a
    value that converts to zero and a value that does not convert to a
    number give 50 and 5.  Any other value is clamped: it is kept when it
    lies within the range, and replaced by the nearer bound when it lies
    outside (200 stays 200, 5000 becomes 1000, -3 becomes 1, 2.5 stays
    2.5). *)
Theorem effective_limits_clamped :
  forall (StringToNumber : jsstring -> float) (raw : js_input),
    ((1 <=? effective_maxResults StringToNumber raw)%float = true /\
     (effective_maxResults StringToNumber raw <=? 1000)%float = true) /\
    ((1 <=? effective_maxPages StringToNumber raw)%float = true /\
     (effective_maxPages StringToNumber raw <=? 50)%float = true) /\
    (raw = JsUndefined \/
     PrimFloat.is_zero (Number StringToNumber raw) = true \/
     PrimFloat.is_nan (Number StringToNumber raw) = true ->
     effective_maxResults StringToNumber raw = 50%float /\
     effective_maxPages StringToNumber raw = 5%float) /\
    (raw <> JsUndefined ->
     PrimFloat.is_zero (Number StringToNumber raw) = false ->
     PrimFloat.is_nan (Number StringToNumber raw) = false ->
     ((1 <=? Number StringToNumber raw)%float = true ->
      (Number StringToNumber raw <=? 1000)%float = true ->
      effective_maxResults StringToNumber raw = Number StringToNumber raw) /\
     ((1 <=? Number StringToNumber raw)%float = true ->
      (Number StringToNumber raw <=? 50)%float = true ->
      effective_maxPages StringToNumber raw = Number StringToNumber raw) /\
     ((Number StringToNumber raw <? 1)%float = true ->
      effective_maxResults StringToNumber raw = 1%float /\
      effective_maxPages StringToNumber raw = 1%float) /\
     ((1000 <? Number StringToNumber raw)%float = true ->
      effective_maxResults StringToNumber raw = 1000%float) /\
     ((50 <? Number StringToNumber raw)%float = true ->
      effective_maxPages StringToNumber raw = 50%float)) /\
    (effective_maxResults StringToNumber (JsNumber 200) = 200%float /\
     effective_maxResults StringToNumber (JsNumber 5000) = 1000%float /\
     effective_maxResults StringToNumber (JsNumber (-3)) = 1%float /\
     effective_maxResults StringToNumber (JsNumber 2.5) = 2.5%float /\
     effective_maxPages StringToNumber (JsNumber 2.5) = 2.5%float /\
     effective_maxPages StringToNumber (JsNumber 200) = 50%float).
Proof.
  intros S raw. split; [|split; [|split; [|split]]].
  - apply clamp_limit_range; reflexivity.
  - apply clamp_limit_range; reflexivity.
  - intros H. unfold effective_maxResults, effective_maxPages.
    rewrite !clamp_limit_default by exact H. split; reflexivity.
  - intros Hraw Hz Hn. unfold effective_maxResults, effective_maxPages.
    destruct (clamp_limit_cases S raw 50 1000 eq_refl eq_refl Hraw Hz Hn) as (R1 & R2 & R3).
    destruct (clamp_limit_cases S raw 5 50 eq_refl eq_refl Hraw Hz Hn) as (P1 & P2 & P3).
    split; [exact R1|]. split; [exact P1|]. split; [auto|]. split; assumption.
  - repeat split; vm_compute; reflexivity.
Qed.

(** *** The merge *)

Lemma uniqueArray_loop_keep_first (items : list (option jsstring)) (seen : gset jsstring)
    (seenl result : list jsstring) :
  (forall v, v ∈ seen <-> v ∈ seenl) ->
  uniqueArray_loop items seen result = result ++ keep_first seenl (omap cleanText items).
Proof.
  revert seen seenl result. induction items as [|item rest IH]; intros seen seenl result Hs.
  - simpl. rewrite app_nil_r. reflexivity.
  - cbn [uniqueArray_loop omap list_omap].
    destruct (cleanText item) as [value|] eqn:Hc.
    + rewrite (cleanText_truthy_arg _ _ Hc). cbn [negb keep_first].
      destruct (decide (value ∈ seen)) as [Hin|Hnin].
      * rewrite bool_decide_eq_true_2 by (apply Hs; exact Hin). apply IH. exact Hs.
      * rewrite bool_decide_eq_false_2 by (intros H; apply Hnin, Hs; exact H).
        rewrite (IH _ (value :: seenl)).
        -- rewrite <- app_assoc. reflexivity.
        -- intros v. rewrite elem_of_union, elem_of_singleton, elem_of_cons, Hs. tauto.
    + destruct (truthy_str item); cbn [negb]; apply IH; exact Hs.
Qed.

Lemma union_lists_spec (mine : option (list jsstring)) (theirs : list jsstring) :
  union_lists mine theirs = spec_ordered_union (default [] mine) theirs.
Proof.
  unfold union_lists, spec_ordered_union, uniqueArray.
  rewrite (uniqueArray_loop_keep_first _ ∅ [] []).
  - simpl. f_equal. induction (default [] mine ++ theirs) as [|x l IH]; [reflexivity|].
    cbn [map omap list_omap]. rewrite IH. reflexivity.
  - intros v. rewrite elem_of_empty, elem_of_nil. tauto.
Qed.

Lemma setIfMissing_first_wins {A} (blank : A -> bool) (acc new : option A) :
  first_wins blank acc new (setIfMissing blank acc new).
Proof.
  unfold first_wins, populated, setIfMissing. repeat split.
  - intros (v & -> & Hv). destruct new; [rewrite Hv|]; reflexivity.
  - intros Hn Hnew. destruct new as [w|]; [|contradiction].
    destruct acc as [c|]; [|reflexivity].
    destruct (blank c) eqn:E; [reflexivity|]. exfalso. apply Hn. eauto.
  - intros ->. reflexivity.
Qed.

Lemma obj_spread_get (a b : jsobject) (k : jsstring) :
  NoDup (map fst b) ->
  obj_get k (obj_spread a b) =
  match obj_get k b with
  | Some v => Some v
  | None => obj_get k a
  end.
Proof.
  unfold obj_spread. revert a. induction b as [|[k' v'] b IH]; intros a ND; simpl.
  - reflexivity.
  - apply NoDup_cons in ND as [Hnin ND]. rewrite IH by exact ND.
    destruct (decide (k' = k)) as [->|Hne].
    + assert (E : obj_get k b = None).
      { clear -Hnin. induction b as [|[k2 v2] b IH]; simpl; [reflexivity|].
        destruct (decide (k2 = k)) as [->|]; [exfalso; apply Hnin; left|].
        apply IH. intros H. apply Hnin. right. exact H. }
      rewrite E, obj_get_set. destruct (decide (k = k)); [reflexivity | contradiction].
    + destruct (obj_get k b); [reflexivity|].
      rewrite obj_get_set. destruct (decide (k' = k)); [contradiction | reflexivity].
Qed.

Lemma merge_price_spec (mine theirs : option price_t) :
  (price_populated mine -> merge_price mine theirs = mine) /\
  (~ price_populated mine -> theirs <> None -> merge_price mine theirs = theirs) /\
  (theirs = None -> merge_price mine theirs = mine).
Proof.
  unfold merge_price, price_missing, price_populated. repeat split.
  - intros (q & -> & H). destruct theirs; [|reflexivity].
    destruct H as [-> | ->]; rewrite ?andb_false_r; reflexivity.
  - intros Hn Ht. destruct theirs as [t|]; [|contradiction].
    destruct mine as [q|]; [|reflexivity].
    destruct (truthy_input (amount q)) eqn:Ea; [exfalso; apply Hn; eauto|].
    destruct (truthy_str (displayPrice q)) eqn:Ed; [exfalso; apply Hn; eauto|].
    reflexivity.
  - intros ->. reflexivity.
Qed.

(** C1, as stated, fails: a price object that is there, but holds neither
    an amount nor a display text, is overwritten by the price of the later
    partial. *)
Lemma merge_price_counterexample :
  let P1 := {| amount := JsNull; currency := Some (str "GBP"); displayPrice := None |} in
  let P2 := {| amount := JsNumber 450000%float; currency := Some (str "GBP");
               displayPrice := Some (pound :: str "450,000") |} in
  let A := example_partial P1 (str "https://media.rightmove.co.uk/1.jpg") in
  let B := example_partial P2 (str "https://media.rightmove.co.uk/2.jpg") in
  price A = Some P1 /\
  price (mergePropertyData A (Some B)) = Some P2 /\
  price (mergePropertyData A (Some B)) <> Some P1.
Proof. cbv zeta. split; [reflexivity|]. split; [reflexivity | discriminate]. Qed.

(** C1, amended.  Merging is first-writer-wins for the scalar fields
    [address], [title], [description], [propertyType], [bedrooms],
    [bathrooms], [agent] and [agentDetails]: a populated field of the
    accumulator is never overwritten, an unset one is filled from the
    partial when the partial has it.  The price of the accumulator is kept
    when it has a non-zero amount or a non-empty display text, and is
    otherwise replaced by the price of the partial, when that has one.
    [images], [floorplans] and [keyFeatures] become the ordered union,
    without repeats, of the cleaned entries of both lists.  [details] is
    merged key by key, the keys of the accumulator winning.  In particular
    merging [{price: P1, images: [i1]}] then [{price: P2, images: [i2]}]
    gives [price == P1] when [P1] has a non-zero amount or a display text,
    and [images == [i1, i2]] for two distinct clean entries. *)
Theorem mergePropertyData_spec :
  forall (base e : property),
    let m := mergePropertyData base (Some e) in
    (first_wins is_nil (address base) (address e) (address m) /\
     first_wins is_nil (title base) (title e) (title m) /\
     first_wins is_nil (description base) (description e) (description m) /\
     first_wins is_nil (propertyType base) (propertyType e) (propertyType m) /\
     first_wins never (bedrooms base) (bedrooms e) (bedrooms m) /\
     first_wins never (bathrooms base) (bathrooms e) (bathrooms m) /\
     first_wins is_nil (agent base) (agent e) (agent m) /\
     first_wins never (agentDetails base) (agentDetails e) (agentDetails m)) /\
    ((price_populated (price base) -> price m = price base) /\
     (~ price_populated (price base) -> price e <> None -> price m = price e) /\
     (price e = None -> price m = price base)) /\
    ((forall l, images e = Some l ->
        images m = Some (spec_ordered_union (default [] (images base)) l)) /\
     (images e = None -> images m = images base) /\
     (forall l, floorplans e = Some l ->
        floorplans m = Some (spec_ordered_union (default [] (floorplans base)) l)) /\
     (floorplans e = None -> floorplans m = floorplans base) /\
     (forall l, keyFeatures e = Some l ->
        keyFeatures m = Some (spec_ordered_union (default [] (keyFeatures base)) l)) /\
     (keyFeatures e = None -> keyFeatures m = keyFeatures base)) /\
    ((forall d, details e = Some d -> NoDup (map fst (default [] (details base))) ->
        exists dm, details m = Some dm /\
          forall k, obj_get k dm =
                    match obj_get k (default [] (details base)) with
                    | Some v => Some v
                    | None => obj_get k d
                    end) /\
     (details e = None -> details m = details base)) /\
    (forall (P1 P2 : price_t) (i1 i2 : jsstring),
        price_populated (Some P1) ->
        cleanText (Some i1) = Some i1 -> cleanText (Some i2) = Some i2 -> i1 <> i2 ->
        let r := mergePropertyData (example_partial P1 i1) (Some (example_partial P2 i2)) in
        price r = Some P1 /\ images r = Some [i1; i2]).
Proof.
  intros base e m. subst m. cbn [mergePropertyData address title description propertyType
    bedrooms bathrooms agent agentDetails price images floorplans keyFeatures details].
  split; [repeat split; apply setIfMissing_first_wins|].
  split; [apply merge_price_spec|].
  split.
  { unfold merge_list. repeat split.
    - intros l ->. rewrite union_lists_spec. reflexivity.
    - intros ->. reflexivity.
    - intros l ->. rewrite union_lists_spec. reflexivity.
    - intros ->. reflexivity.
    - intros l ->. rewrite union_lists_spec. reflexivity.
    - intros ->. reflexivity. }
  split.
  { unfold merge_details. split.
    - intros d -> ND. eexists. split; [reflexivity|].
      intros k. apply obj_spread_get. exact ND.
    - intros ->. reflexivity. }
  intros P1 P2 i1 i2 HP H1 H2 Hne. cbv zeta.
  cbn [mergePropertyData example_partial price images]. split.
  - destruct (merge_price_spec (Some P1) (Some P2)) as [H _]. apply H, HP.
  - unfold merge_list. rewrite union_lists_spec. unfold spec_ordered_union.
    change (default [] (Some [i1]) ++ [i2]) with [i1; i2].
    change (omap (fun x => cleanText (Some x)) [i1; i2])
      with (match cleanText (Some i1) with
            | Some y => y :: match cleanText (Some i2) with
                             | Some z => [z]
                             | None => []
                             end
            | None => match cleanText (Some i2) with
                      | Some z => [z]
                      | None => []
                      end
            end).
    rewrite H1, H2. cbn [keep_first].
    rewrite bool_decide_eq_false_2 by (apply not_elem_of_nil).
    rewrite bool_decide_eq_false_2; [reflexivity|].
    intros H. apply list_elem_of_singleton in H. congruence.
Qed.

(** *** The payload search *)

Lemma levelled_entry (D : nat) (queue : list (jvalue * nat)) (v : jvalue) (e : nat) :
  levelled D queue -> (v, e) ∈ queue -> (D <= e <= S D)%nat.
Proof.
  intros (q1 & q2 & -> & H1 & H2) Hin. rewrite Forall_forall in H1, H2.
  apply elem_of_app in Hin as [Hin|Hin].
  - specialize (H1 _ Hin). simpl in H1. lia.
  - specialize (H2 _ Hin). simpl in H2. lia.
Qed.

Lemma levelled_pop (D : nat) (v : jvalue) (d : nat) (rest : list (jvalue * nat)) :
  levelled D ((v, d) :: rest) -> (D <= d)%nat /\ levelled d rest.
Proof.
  intros (q1 & q2 & E & H1 & H2). destruct q1 as [|x q1].
  - simpl in E. subst q2. apply Forall_cons in H2 as [Hd H2]. simpl in Hd. subst d.
    split; [lia|]. exists rest, []. rewrite app_nil_r. auto.
  - simpl in E. injection E as Ex Er. subst x rest.
    apply Forall_cons in H1 as [Hd H1]. simpl in Hd. subst d.
    split; [lia|]. exists q1, q2. auto.
Qed.

Lemma levelled_push (d : nat) (rest kids : list (jvalue * nat)) :
  levelled d rest -> Forall (fun x => snd x = S d) kids -> levelled d (rest ++ kids).
Proof.
  intros (q1 & q2 & -> & H1 & H2) Hk. exists q1, (q2 ++ kids).
  rewrite <- app_assoc. split; [reflexivity|]. split; [exact H1|].
  apply Forall_app. auto.
Qed.

(** Every object within reach of the root, at a depth smaller than all
    the depths that still wait in the queue, was visited. *)
Lemma bfs_inv_visited (h : heap) (root : jvalue) (predicate : loc -> jnode -> bool)
    (maxDepth : nat) (dm : gmap loc nat) (D : nat) (queue : list (jvalue * nat))
    (seen : gset loc) :
  bfs_inv h root predicate maxDepth dm D queue seen ->
  forall k v, reach h root k v -> (k <= maxDepth)%nat ->
    (forall v' e, (v', e) ∈ queue -> (k < e)%nat) ->
    forall l n, v = JRef l -> h !! l = Some n ->
      exists d, dm !! l = Some d /\ (d <= k)%nat.
Proof.
  intros I k v Hr. induction Hr as [|k l1 n1 c Hr IH Hl1 Hc]; intros Hk Hq l n -> Hl.
  - destruct (inv_root _ _ _ _ _ _ _ _ I l n eq_refl Hl) as [H | (e' & Hin & He)]; [exact H|].
    specialize (Hq _ _ Hin). lia.
  - destruct (IH ltac:(lia) ltac:(intros v' e Hin; specialize (Hq _ _ Hin); lia)
                l1 n1 eq_refl Hl1) as (d1 & Hd1 & Hle).
    destruct (inv_closed _ _ _ _ _ _ _ _ I l1 d1 n1 (JRef l) Hd1 ltac:(lia) Hl1 Hc l n eq_refl Hl)
      as [(d & Hd & Hd') | (e' & Hin & He)].
    + exists d. split; [exact Hd | lia].
    + specialize (Hq _ _ Hin). lia.
Qed.

Lemma covered_weaken (h : heap) (dm dm' : gmap loc nat) (queue queue' : list (jvalue * nat))
    (c : jvalue) (e : nat) :
  covered h dm queue c e ->
  (forall l d, dm !! l = Some d -> dm' !! l = Some d) ->
  (forall e', (c, e') ∈ queue -> (e' <= e)%nat ->
     (c, e') ∈ queue' \/ forall l n, c = JRef l -> h !! l = Some n ->
                            exists d, dm' !! l = Some d /\ (d <= e)%nat) ->
  covered h dm' queue' c e.
Proof.
  intros Hc Hdm Hq l n -> Hl.
  destruct (Hc l n eq_refl Hl) as [(d & Hd & Hle) | (e' & Hin & He)].
  - left. exists d. auto.
  - destruct (Hq e' Hin He) as [Hin' | Hs].
    + right. exists e'. auto.
    + left. apply (Hs l n eq_refl Hl).
Qed.

(** A value that is no object of the store is dropped from the queue. *)
Lemma bfs_inv_skip (h : heap) (root : jvalue) (predicate : loc -> jnode -> bool)
    (maxDepth : nat) (dm : gmap loc nat) (D : nat) (v : jvalue) (d : nat)
    (rest : list (jvalue * nat)) (seen : gset loc) :
  bfs_inv h root predicate maxDepth dm D ((v, d) :: rest) seen ->
  (forall l n, v = JRef l -> h !! l = Some n -> l ∈ seen) ->
  bfs_inv h root predicate maxDepth dm d rest seen.
Proof.
  intros I Hv. destruct (levelled_pop _ _ _ _ (inv_level _ _ _ _ _ _ _ _ I)) as [HD Hlev].
  assert (Hcov : forall c e, covered h dm ((v, d) :: rest) c e -> covered h dm rest c e).
  { intros c e Hc. eapply covered_weaken; [exact Hc | auto |].
    intros e' Hin He. apply elem_of_cons in Hin as [Heq | Hin]; [|left; exact Hin].
    injection Heq as -> ->. right. intros l n -> Hl.
    assert (Hs : l ∈ seen) by (eapply Hv; eauto).
    apply (inv_dom _ _ _ _ _ _ _ _ I) in Hs as [d0 Hd0].
    exists d0. split; [exact Hd0|].
    destruct (inv_seen _ _ _ _ _ _ _ _ I l d0 Hd0) as (H1 & _). lia. }
  constructor.
  - apply (inv_dom _ _ _ _ _ _ _ _ I).
  - intros l d0 Hd0. destruct (inv_seen _ _ _ _ _ _ _ _ I l d0 Hd0) as (H1 & H2 & H3 & H4).
    repeat split; auto. lia.
  - intros l d0 n c Hd0 Hlt Hl Hc. apply Hcov.
    eapply (inv_closed _ _ _ _ _ _ _ _ I); eauto.
  - intros v' d' Hin. apply (inv_queue _ _ _ _ _ _ _ _ I). right. exact Hin.
  - exact Hlev.
  - apply Hcov. apply (inv_root _ _ _ _ _ _ _ _ I).
Qed.

(** The entries pushed after a visit at depth [d]. *)
Lemma kids_spec (maxDepth d : nat) (n : jnode) (c : jvalue) (e : nat) :
  (c, e) ∈ (if (maxDepth <=? d)%nat then [] else map (fun c => (c, S d)) (children n)) <->
  (d < maxDepth)%nat /\ e = S d /\ c ∈ children n.
Proof.
  destruct (Nat.leb_spec maxDepth d) as [Hle|Hlt].
  - split; [intros H; inversion H | lia].
  - rewrite list_elem_of_fmap. split.
    + intros (c' & E & Hc). injection E as -> ->. auto.
    + intros (_ & -> & Hc). exists c. auto.
Qed.

(** An object that is visited and does not satisfy the predicate joins
    [seen]; its values are pushed when it is above the depth limit. *)
Lemma bfs_inv_visit (h : heap) (root : jvalue) (predicate : loc -> jnode -> bool)
    (maxDepth : nat) (dm : gmap loc nat) (D : nat) (l : loc) (n : jnode) (d : nat)
    (rest : list (jvalue * nat)) (seen : gset loc) :
  bfs_inv h root predicate maxDepth dm D ((JRef l, d) :: rest) seen ->
  h !! l = Some n -> l ∉ seen -> predicate l n = false ->
  bfs_inv h root predicate maxDepth (<[l := d]> dm) d
    (rest ++ (if (maxDepth <=? d)%nat then [] else map (fun c => (c, S d)) (children n)))
    ({[l]} ∪ seen).
Proof.
  intros I Hl Hns Hp.
  set (kids := if (maxDepth <=? d)%nat then [] else map (fun c => (c, S d)) (children n)).
  destruct (levelled_pop _ _ _ _ (inv_level _ _ _ _ _ _ _ _ I)) as [HD Hlev].
  destruct (inv_queue _ _ _ _ _ _ _ _ I (JRef l) d ltac:(left)) as [Hreach Hdmax].
  assert (Hnone : dm !! l = None).
  { destruct (dm !! l) eqn:E; [|reflexivity]. exfalso. apply Hns.
    apply (inv_dom _ _ _ _ _ _ _ _ I). eauto. }
  assert (Hmono : forall l' d', dm !! l' = Some d' -> <[l := d]> dm !! l' = Some d').
  { intros l' d' H. rewrite lookup_insert_ne; [exact H | congruence]. }
  constructor.
  - intros l'. rewrite elem_of_union, elem_of_singleton, (inv_dom _ _ _ _ _ _ _ _ I).
    destruct (decide (l' = l)) as [->|Hne].
    + rewrite lookup_insert_eq. split; [eauto | auto].
    + rewrite lookup_insert_ne by congruence. split; [intros [?|?]; [contradiction | assumption] | auto].
  - intros l' d'. destruct (decide (l' = l)) as [->|Hne].
    + rewrite lookup_insert_eq. intros E. injection E as <-.
      repeat split; auto. eauto.
    + rewrite lookup_insert_ne by congruence. intros E.
      destruct (inv_seen _ _ _ _ _ _ _ _ I l' d' E) as (H1 & H2 & H3 & H4).
      repeat split; auto. lia.
  - intros l' d' n' c. destruct (decide (l' = l)) as [->|Hne].
    + rewrite lookup_insert_eq. intros E Hlt Hl' Hc. injection E as <-.
      rewrite Hl in Hl'. injection Hl' as <-.
      intros l0 n0 -> _. right. exists (S d). split; [|lia].
      apply elem_of_app. right. apply kids_spec. auto.
    + rewrite lookup_insert_ne by congruence. intros E Hlt Hl' Hc.
      pose proof (inv_closed _ _ _ _ _ _ _ _ I l' d' n' c E Hlt Hl' Hc) as Hold.
      destruct (inv_seen _ _ _ _ _ _ _ _ I l' d' E) as (H1 & _).
      intros l0 n0 -> Hl0.
      destruct (Hold l0 n0 eq_refl Hl0) as [(d0 & Hd0 & Hle) | (e' & Hin & He)].
      * left. exists d0. auto.
      * apply elem_of_cons in Hin as [Heq | Hin].
        -- assert (l0 = l) by congruence. assert (e' = d) by congruence. subst l0 e'.
           left. exists d. rewrite lookup_insert_eq. auto.
        -- right. exists e'. split; [apply elem_of_app; left; exact Hin | exact He].
  - intros v' e Hin. apply elem_of_app in Hin as [Hin | Hin].
    + apply (inv_queue _ _ _ _ _ _ _ _ I). right. exact Hin.
    + apply kids_spec in Hin as (Hlt & -> & Hc). split; [|lia].
      eapply reach_child; eauto.
  - apply levelled_push; [exact Hlev|]. apply Forall_forall. intros [c e] Hin.
    apply kids_spec in Hin as (_ & -> & _). reflexivity.
  - pose proof (inv_root _ _ _ _ _ _ _ _ I) as Hold.
    intros l0 n0 -> Hl0.
    destruct (Hold l0 n0 eq_refl Hl0) as [(d0 & Hd0 & Hle) | (e' & Hin & He)].
    + left. exists d0. auto.
    + apply elem_of_cons in Hin as [Heq | Hin].
      * assert (l0 = l) by congruence. assert (e' = d) by congruence. subst l0 e'.
        left. exists d. rewrite lookup_insert_eq. auto.
      * right. exists e'. split; [apply elem_of_app; left; exact Hin | exact He].
Qed.

Lemma bfs_loop_correct (h : heap) (root : jvalue) (predicate : loc -> jnode -> bool)
    (maxDepth : nat) (fuel : nat) :
  forall queue seen dm D found visited,
    bfs_inv h root predicate maxDepth dm D queue seen ->
    bfs_loop fuel h predicate maxDepth queue seen = Some (found, visited) ->
    search_post h root predicate maxDepth found visited.
Proof.
  induction fuel as [|fuel IH]; intros queue seen dm D found visited I; [discriminate|].
  cbn [bfs_loop]. destruct queue as [|[value depth] rest].
  { intros E. injection E as <- <-. split.
    - intros l Hl. apply (inv_dom _ _ _ _ _ _ _ _ I) in Hl as [d Hd].
      destruct (inv_seen _ _ _ _ _ _ _ _ I l d Hd) as (_ & H2 & H3 & _). eauto.
    - intros k l' n' Hk Hr Hl'.
      destruct (bfs_inv_visited _ _ _ _ _ _ _ _ I k _ Hr Hk
                  ltac:(intros v' e Hin; inversion Hin) l' n' eq_refl Hl') as (d & Hd & _).
      destruct (inv_seen _ _ _ _ _ _ _ _ I l' d Hd) as (_ & _ & _ & n0 & Hn0 & Hp).
      rewrite Hl' in Hn0. injection Hn0 as <-. exact Hp. }
  assert (Hskip : (forall l n, value = JRef l -> h !! l = Some n -> l ∈ seen) ->
            bfs_loop fuel h predicate maxDepth rest seen = Some (found, visited) ->
            search_post h root predicate maxDepth found visited).
  { intros Hv. apply (IH rest seen dm depth). apply (bfs_inv_skip _ _ _ _ _ _ _ _ _ _ I Hv). }
  destruct value as [| |l]; try (apply Hskip; discriminate).
  destruct (h !! l) as [n|] eqn:Hl; [|apply Hskip; intros l0 n0 E; injection E as <-; congruence].
  destruct (decide (l ∈ seen)) as [Hin|Hnin].
  { apply Hskip. intros l0 n0 E _. injection E as <-. exact Hin. }
  destruct (levelled_pop _ _ _ _ (inv_level _ _ _ _ _ _ _ _ I)) as [HD Hlev].
  destruct (inv_queue _ _ _ _ _ _ _ _ I (JRef l) depth ltac:(left)) as [Hreach Hdmax].
  destruct (predicate l n) eqn:Hp.
  - intros E. injection E as <- <-. split.
    + intros l' Hl'. apply elem_of_union in Hl' as [->%elem_of_singleton | Hl']; [eauto|].
      apply (inv_dom _ _ _ _ _ _ _ _ I) in Hl' as [d Hd].
      destruct (inv_seen _ _ _ _ _ _ _ _ I l' d Hd) as (_ & H2 & H3 & _). eauto.
    + exists n, depth. repeat split; auto.
      * intros k l' n' Hk Hr Hl'.
        assert (Hq : forall v' e, (v', e) ∈ (JRef l, depth) :: rest -> (k < e)%nat).
        { intros v' e Hin. apply elem_of_cons in Hin as [E | Hin].
          - injection E as -> ->. exact Hk.
          - pose proof (levelled_entry _ _ _ _ Hlev Hin). lia. }
        destruct (bfs_inv_visited _ _ _ _ _ _ _ _ I k _ Hr ltac:(lia) Hq l' n' eq_refl Hl')
          as (d & Hd & _).
        destruct (inv_seen _ _ _ _ _ _ _ _ I l' d Hd) as (_ & _ & _ & n0 & Hn0 & Hp0).
        rewrite Hl' in Hn0. injection Hn0 as <-. exact Hp0.
      * apply elem_of_union in H as [->%elem_of_singleton | Hl']; [contradiction|].
        apply (inv_dom _ _ _ _ _ _ _ _ I) in Hl' as [d Hd].
        destruct (inv_seen _ _ _ _ _ _ _ _ I l' d Hd) as (_ & _ & _ & H4). exact H4.
      * apply elem_of_union in H as [->%elem_of_singleton | Hl']; [contradiction|].
        apply (inv_dom _ _ _ _ _ _ _ _ I) in Hl' as [d Hd].
        destruct (inv_seen _ _ _ _ _ _ _ _ I l' d Hd) as (H1 & _ & H3 & _).
        exists d. split; [lia | exact H3].
  - pose proof (bfs_inv_visit _ _ _ _ _ _ _ _ _ _ _ I Hl Hnin Hp) as I'.
    destruct (maxDepth <=? depth)%nat.
    + rewrite app_nil_r in I'. apply (IH _ _ _ _ _ _ I').
    + apply (IH _ _ _ _ _ _ I').
Qed.

Lemma children_le_total (h : heap) (l : loc) (n : jnode) :
  h !! l = Some n -> (length (children n) <= total_children h)%nat.
Proof.
  intros Hl. unfold total_children.
  rewrite (map_fold_delete_L _ _ l n h); [lia| |exact Hl].
  intros. lia.
Qed.

Lemma unseen_shrinks (h : heap) (l : loc) (n : jnode) (seen : gset loc) :
  h !! l = Some n -> l ∉ seen ->
  (size (dom h ∖ ({[l]} ∪ seen)) < size (dom h ∖ seen))%nat.
Proof.
  intros Hl Hn. apply subset_size.
  assert (l ∈ dom h) by (apply elem_of_dom; eauto).
  apply strict_spec_alt. split.
  - intros x. rewrite !elem_of_difference, elem_of_union. tauto.
  - intros E. assert (Hin : l ∈ dom h ∖ seen) by (apply elem_of_difference; auto).
    rewrite <- E in Hin. apply elem_of_difference in Hin as [_ Hin].
    apply Hin. apply elem_of_union. left. apply elem_of_singleton. reflexivity.
Qed.

(** The loop ends before the fuel does. *)
Lemma bfs_loop_terminates (h : heap) (predicate : loc -> jnode -> bool) (maxDepth : nat)
    (fuel : nat) :
  forall queue seen,
    (size (dom h ∖ seen) * S (total_children h) + length queue < fuel)%nat ->
    is_Some (bfs_loop fuel h predicate maxDepth queue seen).
Proof.
  induction fuel as [|fuel IH]; intros queue seen Hf; [lia|].
  cbn [bfs_loop]. destruct queue as [|[value depth] rest]; [eexists; reflexivity|].
  simpl in Hf.
  assert (Hskip : is_Some (bfs_loop fuel h predicate maxDepth rest seen))
    by (apply IH; lia).
  destruct value as [| |l]; try exact Hskip.
  destruct (h !! l) as [n|] eqn:Hl; [|exact Hskip].
  destruct (decide (l ∈ seen)) as [Hin|Hnin]; [exact Hskip|].
  destruct (predicate l n); [eexists; reflexivity|].
  pose proof (unseen_shrinks h l n seen Hl Hnin) as Hs.
  pose proof (children_le_total h l n Hl) as Hc.
  destruct (maxDepth <=? depth)%nat; apply IH.
  - nia.
  - rewrite length_app, length_map. nia.
Qed.

Lemma bfs_inv_initial (h : heap) (root : jvalue) (predicate : loc -> jnode -> bool)
    (maxDepth : nat) :
  bfs_inv h root predicate maxDepth ∅ 0 [(root, 0%nat)] ∅.
Proof.
  constructor.
  - intros l. rewrite lookup_empty. split; [intros H; inversion H | intros [? H]; discriminate].
  - intros l d. rewrite lookup_empty. discriminate.
  - intros l d n c. rewrite lookup_empty. discriminate.
  - intros v d Hin. apply list_elem_of_singleton in Hin. injection Hin as -> ->.
    split; [constructor | lia].
  - exists [(root, 0%nat)], []. repeat split; repeat constructor.
  - intros l n -> Hl. right. exists 0%nat. split; [left | lia].
Qed.

Lemma reach_not_object (h : heap) (root : jvalue) :
  (forall l n, root = JRef l -> h !! l = Some n -> False) ->
  forall k v, reach h root k v -> forall l n, v = JRef l -> h !! l = Some n -> False.
Proof.
  intros Hroot k v Hr. induction Hr as [|k l1 n1 c Hr IH Hl1 Hc]; [exact Hroot|].
  intros _ _ _ _. eapply IH; eauto.
Qed.

Lemma findNestedObject_run_correct (h : heap) (root : jvalue)
    (predicate : loc -> jnode -> bool) (maxDepth : nat) :
  exists found visited,
    findNestedObject_run h root predicate maxDepth = Some (found, visited) /\
    findNestedObject h root predicate maxDepth = found /\
    search_post h root predicate maxDepth found visited.
Proof.
  unfold findNestedObject.
  assert (Hnone : (forall l n, root = JRef l -> h !! l = Some n -> False) ->
            search_post h root predicate maxDepth None ∅).
  { intros Hroot. split; [intros l Hl; inversion Hl|].
    intros k l' n' _ Hr Hl'. exfalso.
    eapply (reach_not_object h root Hroot); eauto. }
  unfold findNestedObject_run.
  destruct root as [| |l].
  - exists None, ∅. split; [reflexivity|]. split; [reflexivity|]. apply Hnone. discriminate.
  - exists None, ∅. split; [reflexivity|]. split; [reflexivity|]. apply Hnone. discriminate.
  - destruct (h !! l) as [n|] eqn:Hl.
    + destruct (bfs_loop_terminates h predicate maxDepth (bfs_fuel h) [(JRef l, 0%nat)] ∅)
        as [[found visited] E].
      { unfold bfs_fuel. rewrite difference_empty_L, size_dom. simpl. lia. }
      exists found, visited. rewrite E. split; [reflexivity|]. split; [reflexivity|].
      eapply bfs_loop_correct; [apply bfs_inv_initial | exact E].
    + exists None, ∅. split; [reflexivity|]. split; [reflexivity|]. apply Hnone.
      intros l0 n0 E. injection E as <-. congruence.
Qed.

Lemma some_key_spec (n : jnode) (keys : list string) :
  some_key n keys = true <-> exposes n keys.
Proof.
  unfold some_key, exposes. rewrite existsb_exists. split.
  - intros (k & Hk%list_elem_of_In & Hh). destruct n as [items|fields]; [discriminate|].
    simpl in Hh. apply existsb_exists in Hh as ([k' v] & Hin%list_elem_of_In & E).
    apply bool_decide_eq_true in E. simpl in E. subst k'.
    exists k, fields, v. auto.
  - intros (k & fields & v & Hk & -> & Hin). exists k. split; [apply list_elem_of_In; exact Hk|].
    simpl. apply existsb_exists. exists (str k, v).
    split; [apply list_elem_of_In; exact Hin | apply bool_decide_eq_true; reflexivity].
Qed.

(** The shape a listing payload is recognised by. *)
Lemma isLikelyPropertyPayload_spec (n : jnode) :
  isLikelyPropertyPayload n = true <->
  exposes n ["displayAddress"; "address"; "propertyAddress"; "addressSummary"] /\
  (exposes n ["bedrooms"; "bedroomCount"; "numBedrooms"] \/
   exposes n ["propertyType"; "propertySubType"; "propertyTypeFullDescription"] \/
   exposes n ["price"; "displayPrice"; "priceAmount"]).
Proof.
  unfold isLikelyPropertyPayload. rewrite <- !some_key_spec.
  destruct n as [items|fields]; cbn [isPlainObject negb].
  - split; [discriminate | intros [H _]; discriminate].
  - rewrite andb_true_iff, !orb_true_iff. tauto.
Qed.

(** C9. The search of the payload locator always terminates, also on a
    store with cycles; it visits no object deeper than 6 below the root; the
    object it returns is a plain object that exposes an address-like key and
    a bedroom-count-like, property-type-like or price-like key, no object at
    a smaller depth has that shape, and every other object visited lies no
    deeper and has not that shape (nothing is explored past the match); it
    returns [null] only when no object down to depth 6 has the shape. *)
Theorem payload_search_correct :
  forall (h : heap) (data : jvalue),
    (exists found visited,
        findNestedObject_run h data (fun _ n => isLikelyPropertyPayload n) 6
        = Some (found, visited) /\
        locate_payload h data = found /\
        search_post h data (fun _ n => isLikelyPropertyPayload n) 6 found visited) /\
    (forall n, isLikelyPropertyPayload n = true <->
       exposes n ["displayAddress"; "address"; "propertyAddress"; "addressSummary"] /\
       (exposes n ["bedrooms"; "bedroomCount"; "numBedrooms"] \/
        exposes n ["propertyType"; "propertySubType"; "propertyTypeFullDescription"] \/
        exposes n ["price"; "displayPrice"; "priceAmount"])) /\
    locate_payload cyclic_heap (JRef 1%positive) = Some 2%positive.
Proof.
  intros h data. split; [|split].
  - apply findNestedObject_run_correct.
  - apply isLikelyPropertyPayload_spec.
  - vm_compute. reflexivity.
Qed.
(** *** The crawl *)

Lemma ensureAbsoluteUrl_truthy (o : option jsstring) :
  truthy_str o = true -> exists c r, ensureAbsoluteUrl o = Some (c :: r).
Proof.
  destruct o as [[|c u]|]; try discriminate. intros _. cbn [ensureAbsoluteUrl].
  destruct (startsWith (c :: u) (str "http")); [eauto|].
  destruct (startsWith (c :: u) (str "//")); [eexists _, _; reflexivity|].
  eexists _, _; reflexivity.
Qed.

Lemma collect_cards_spec (cs : list (option property)) (remaining : float) :
  forall (urls : gset jsstring) (props : list property),
    exists new,
      snd (collect_cards cs remaining urls props) = props ++ new /\
      urls ⊆ fst (collect_cards cs remaining urls props) /\
      NoDup (map url new) /\
      forall p, p ∈ new ->
        exists u, url p = Some u /\ u <> [] /\ (u ∉ urls) /\
                  u ∈ fst (collect_cards cs remaining urls props).
Proof.
  assert (Hstop : forall (urls : gset jsstring) (props : list property),
             exists new : list property,
               props = props ++ new /\ urls ⊆ urls /\ NoDup (map url new) /\
               forall p, p ∈ new ->
                 exists u, url p = Some u /\ u <> [] /\ (u ∉ urls) /\ u ∈ urls).
  { intros urls props. exists []. rewrite app_nil_r.
    split; [reflexivity|]. split; [reflexivity|]. split; [constructor|].
    intros p Hp. inversion Hp. }
  induction cs as [|card rest IH]; intros urls props.
  - apply Hstop.
  - cbn [collect_cards].
    destruct (remaining <=? Z_to_float (Z.of_nat (length props)))%float; [apply Hstop|].
    destruct card as [p|]; [|apply IH].
    destruct (url p) as [[|c u']|] eqn:Hu; [apply IH| |apply IH].
    destruct (decide ((c :: u') ∈ urls)) as [Hin|Hnin]; [apply IH|].
    destruct (IH ({[c :: u']} ∪ urls) (props ++ [p])) as (new & E & Hsub & ND & Hnew).
    exists (p :: new). rewrite E, <- app_assoc. split; [reflexivity|].
    split; [intros x Hx; apply Hsub, elem_of_union; right; exact Hx|]. split.
    + cbn [map]. constructor; [|exact ND]. rewrite Hu. intros Hin.
      apply list_elem_of_fmap in Hin as (q & Hq & Hqin).
      destruct (Hnew q Hqin) as (u & Hu' & _ & Hn & _). rewrite Hu' in Hq.
      injection Hq as <-. apply Hn, elem_of_union. left. apply elem_of_singleton. reflexivity.
    + intros q Hq. apply elem_of_cons in Hq as [-> | Hq].
      * exists (c :: u'). split; [exact Hu|]. split; [discriminate|]. split; [exact Hnin|].
        apply Hsub, elem_of_union. left. apply elem_of_singleton. reflexivity.
      * destruct (Hnew q Hq) as (u & Hu' & Hne & Hn & Hi).
        exists u. split; [exact Hu'|]. split; [exact Hne|]. split; [|exact Hi].
        intros Hx. apply Hn, elem_of_union. right. exact Hx.
Qed.

Lemma flush_if_full_effect (st : crawl_state) :
  pending (flush_if_full st) = pending st /\ added (flush_if_full st) = added st /\
  propertiesQueued (flush_if_full st) = propertiesQueued st /\
  propertiesStored (flush_if_full st) = propertiesStored st /\
  pagesProcessed (flush_if_full st) = pagesProcessed st /\
  propertyUrls (flush_if_full st) = propertyUrls st /\
  dataset (flush_if_full st) ++ propertyDataBatch (flush_if_full st)
  = dataset st ++ propertyDataBatch st.
Proof.
  unfold flush_if_full. destruct (DATASET_BATCH_SIZE <=? length (propertyDataBatch st))%nat;
    simpl; rewrite ?app_nil_r; auto 10.
Qed.

(** When two [DETAIL] calls overlap at the flush, the records of the
    batch are pushed twice. *)
Lemma overlapping_details_duplicates (first second : property) (st : crawl_state) :
  dataset (overlapping_details first second st)
  = dataset st ++ (propertyDataBatch st ++ [first])
    ++ (propertyDataBatch st ++ [first; second]) /\
  propertyDataBatch (overlapping_details first second st) = [] /\
  propertiesStored (overlapping_details first second st) = (propertiesStored st + 2)%Z.
Proof.
  unfold overlapping_details, flush_clear, flush_push, store. cbn.
  rewrite <- !app_assoc. split; [reflexivity|]. split; [reflexivity | lia].
Qed.

Lemma detail_urls_app (a b : list request) :
  detail_urls (a ++ b) = detail_urls a ++ detail_urls b.
Proof. apply omap_app. Qed.

Lemma detail_urls_requests (ps : list property) :
  (forall q, q ∈ ps -> exists u, url q = Some u) ->
  map Some (detail_urls (map detail_request ps)) = map url ps.
Proof.
  induction ps as [|q ps IH]; intros H; [reflexivity|].
  cbn [map detail_urls omap list_omap detail_request detail_url].
  destruct (H q ltac:(left)) as [u Hu]. rewrite Hu. cbn. f_equal.
  apply IH. intros q' Hq'. apply H. right. exact Hq'.
Qed.

Lemma SFcompare_refl (x : spec_float) : x <> S754_nan -> SFcompare x x = Some Eq.
Proof.
  destruct x as [s|s| |s m e]; simpl; intros H; try contradiction.
  - reflexivity.
  - destruct s; reflexivity.
  - rewrite Z.compare_refl. change (Pos.compare_cont Eq m m) with (m ?= m)%positive.
    rewrite Pos.compare_refl. destruct s; reflexivity.
Qed.

(** Numbers that compare are numbers. *)
Lemma float_le_not_nan (a b : float) :
  (a <=? b)%float = true -> PrimFloat.is_nan a = false /\ PrimFloat.is_nan b = false.
Proof.
  rewrite FloatAxioms.leb_spec. unfold PrimFloat.is_nan.
  rewrite !FloatAxioms.eqb_spec. unfold SFleb, SFeqb. intros H.
  assert (Ha : Prim2SF a <> S754_nan).
  { intros E. rewrite E in H. discriminate. }
  assert (Hb : Prim2SF b <> S754_nan).
  { intros E. rewrite E in H. destruct (Prim2SF a); discriminate. }
  rewrite !SFcompare_refl by assumption. split; reflexivity.
Qed.

(** A counter that is within a whole number the limit does not exceed
    stays within it when it is raised under the guard of the limit. *)
Lemma below_limit (limit : float) (n N : Z) :
  (limit <=? Z_to_float N)%float = true -> (n <= N)%Z ->
  (limit <=? Z_to_float n)%float = false -> (n + 1 <= N)%Z.
Proof.
  intros HN Hle Hguard. destruct (Z.eq_dec n N) as [->|Hne]; [congruence | lia].
Qed.

Lemma below_limit_strict (limit : float) (n N : Z) :
  (limit <=? Z_to_float N)%float = true -> (n <= N)%Z ->
  (Z_to_float n <? limit)%float = true -> (n + 1 <= N)%Z.
Proof.
  intros HN Hle Hguard. destruct (Z.eq_dec n N) as [->|Hne]; [|lia].
  pose proof (float_lt_not_le _ _ Hguard). congruence.
Qed.

Section CrawlProperties.
Variable url_get : jsstring -> jsstring -> option jsstring.
Variable url_set : jsstring -> jsstring -> jsstring -> jsstring.
Variable url_toString : jsstring -> jsstring.
Variable NumberToString : float -> jsstring.
Variable StringToNumber : jsstring -> float.
Variable fetch_list : jsstring -> nat -> response list_page.
Variable fetch_detail : jsstring -> nat -> response detail_page.
Variable now : jsstring.
Variable collectDetails : bool.
Variable rawMaxResults : js_input.
Variable rawMaxPages : js_input.

Local Abbreviation maxResults' := (maxResults StringToNumber rawMaxResults).
Local Abbreviation maxPages' := (maxPages StringToNumber rawMaxPages).
Local Abbreviation detail_record' := (detail_record StringToNumber now).
Local Abbreviation handle_detail' := (handle_detail StringToNumber now).
Local Abbreviation ceilings_ahead' :=
  (ceilings_ahead StringToNumber collectDetails rawMaxResults rawMaxPages).
Local Abbreviation findNextPageUrl' :=
  (findNextPageUrl url_get url_set url_toString NumberToString).
Local Abbreviation next_requests' :=
  (next_requests url_get url_set url_toString NumberToString StringToNumber collectDetails
     rawMaxResults rawMaxPages).
Local Abbreviation handle_list' :=
  (handle_list url_get url_set url_toString NumberToString StringToNumber now collectDetails
     rawMaxResults rawMaxPages).
Local Abbreviation requestHandler' :=
  (requestHandler url_get url_set url_toString NumberToString StringToNumber fetch_list
     fetch_detail now collectDetails rawMaxResults rawMaxPages).
Local Abbreviation attempts' :=
  (attempts url_get url_set url_toString NumberToString StringToNumber fetch_list
     fetch_detail now collectDetails rawMaxResults rawMaxPages).
Local Abbreviation crawl_step' :=
  (crawl_step url_get url_set url_toString NumberToString StringToNumber fetch_list
     fetch_detail now collectDetails rawMaxResults rawMaxPages).
Local Abbreviation crawl_run' :=
  (crawl_run url_get url_set url_toString NumberToString StringToNumber fetch_list
     fetch_detail now collectDetails rawMaxResults rawMaxPages).
Local Abbreviation crawl' :=
  (crawl url_get url_set url_toString NumberToString StringToNumber fetch_list
     fetch_detail now collectDetails rawMaxResults rawMaxPages).

(** The limits of a run, as main computes them, are within their ceilings. *)
Lemma maxResults_ceiling : (maxResults' <=? Z_to_float RESULTS_CEILING)%float = true.
Proof.
  change (Z_to_float RESULTS_CEILING) with 1000%float.
  apply clamp_limit_range; reflexivity.
Qed.

Lemma maxPages_ceiling : (maxPages' <=? Z_to_float PAGES_CEILING)%float = true.
Proof.
  change (Z_to_float PAGES_CEILING) with 50%float.
  apply clamp_limit_range; reflexivity.
Qed.

Lemma maxResults_not_nan : PrimFloat.is_nan maxResults' = false.
Proof. exact (proj1 (float_le_not_nan _ _ maxResults_ceiling)). Qed.

Lemma maxPages_not_nan : PrimFloat.is_nan maxPages' = false.
Proof. exact (proj1 (float_le_not_nan _ _ maxPages_ceiling)). Qed.

Lemma next_from_controls_some (cs : list (option control)) (u : jsstring) (r : option jsstring) :
  next_from_controls url_set url_toString NumberToString cs u = Some r -> is_Some r.
Proof.
  induction cs as [|[el|] cs IH]; cbn [next_from_controls]; [discriminate| |exact IH].
  destruct (truthy_str (ctl_href el)) eqn:E1.
  { intros H. injection H as <-.
    destruct (ensureAbsoluteUrl_truthy _ E1) as (c & t & ->). eauto. }
  destruct (truthy_str (ctl_dataUrl el)) eqn:E2.
  { intros H. injection H as <-.
    destruct (ensureAbsoluteUrl_truthy _ E2) as (c & t & ->). eauto. }
  destruct (truthy_str (ctl_dataPage el)); [|exact IH].
  cbv zeta. destruct (PrimFloat.is_finite (parseInt (ctl_dataPage el)));
    intros H; injection H as <-; eauto.
Qed.

(** The resolver always gives a next URL. *)
Lemma findNextPageUrl_some (pg : list_page) (u : jsstring) (current : Z) :
  is_Some (findNextPageUrl' pg u current).
Proof.
  unfold findNextPageUrl.
  destruct (next_from_controls url_set url_toString NumberToString (controls pg) u)
    as [r|] eqn:E; [|eauto].
  eapply next_from_controls_some. exact E.
Qed.

Lemma next_from_controls_nonempty (cs : list (option control)) (u : jsstring) (r : jsstring) :
  (forall a b c, url_set a b c <> []) -> (forall a, url_toString a <> []) ->
  next_from_controls url_set url_toString NumberToString cs u = Some (Some r) -> r <> [].
Proof.
  intros Hset Hstr.
  induction cs as [|[el|] cs IH]; cbn [next_from_controls]; [discriminate| |exact IH].
  destruct (truthy_str (ctl_href el)) eqn:E1.
  { destruct (ensureAbsoluteUrl_truthy _ E1) as (c & t & ->). intros H. injection H as <-.
    discriminate. }
  destruct (truthy_str (ctl_dataUrl el)) eqn:E2.
  { destruct (ensureAbsoluteUrl_truthy _ E2) as (c & t & ->). intros H. injection H as <-.
    discriminate. }
  destruct (truthy_str (ctl_dataPage el)); [|exact IH].
  cbv zeta. destruct (PrimFloat.is_finite (parseInt (ctl_dataPage el)));
    intros H; injection H as <-; auto.
Qed.

Lemma findNextPageUrl_nonempty (pg : list_page) (u : jsstring) (current : Z) :
  (forall a b c, url_set a b c <> []) -> (forall a, url_toString a <> []) ->
  exists c r, findNextPageUrl' pg u current = Some (c :: r).
Proof.
  intros Hset Hstr. unfold findNextPageUrl.
  destruct (next_from_controls url_set url_toString NumberToString (controls pg) u)
    as [r|] eqn:E.
  - destruct (next_from_controls_some _ _ _ E) as [x ->].
    pose proof (next_from_controls_nonempty _ _ _ Hset Hstr E) as Hne.
    destruct x; [contradiction | eauto].
  - unfold next_fallback. cbv zeta. destruct (url_set _ _ _) eqn:E2; [|eauto].
    exfalso. eapply Hset. exact E2.
Qed.

(** What the detail branch does to the state when it does not throw. *)
Lemma handle_detail_effect (pg : detail_page) (u : jsstring) (basicInfo : property)
    (st st' : crawl_state) :
  handle_detail' pg u basicInfo st = Some st' ->
  exists record,
    detail_record' pg u basicInfo = Some record /\
    pending st' = pending st /\
    added st' = added st /\
    propertiesQueued st' = propertiesQueued st /\
    propertiesStored st' = (propertiesStored st + 1)%Z /\
    pagesProcessed st' = pagesProcessed st /\
    propertyUrls st' = propertyUrls st /\
    dataset st' ++ propertyDataBatch st' = dataset st ++ propertyDataBatch st ++ [record].
Proof.
  unfold handle_detail.
  destruct (detail_record' pg u basicInfo) as [record|]; [|discriminate].
  intros H. injection H as <-. exists record. split; [reflexivity|].
  destruct (flush_if_full_effect (store record st)) as (-> & -> & -> & -> & -> & -> & ->).
  simpl. auto 10.
Qed.

Lemma enqueue_details_effect (props : list property) :
  forall st : crawl_state,
    exists k : nat,
      let st' := enqueue_details StringToNumber rawMaxResults props st in
      pending st' = pending st ++ map detail_request (take k props) /\
      added st' = added st ++ map detail_request (take k props) /\
      propertiesQueued st' = (propertiesQueued st + Z.of_nat (length (take k props)))%Z /\
      (forall N, (maxResults' <=? Z_to_float N)%float = true ->
                 (propertiesQueued st <= N)%Z -> (propertiesQueued st' <= N)%Z) /\
      propertiesStored st' = propertiesStored st /\
      pagesProcessed st' = pagesProcessed st /\
      propertyUrls st' = propertyUrls st /\
      propertyDataBatch st' = propertyDataBatch st /\
      dataset st' = dataset st.
Proof.
  induction props as [|p rest IH]; intros st.
  - exists 0%nat. simpl. rewrite !app_nil_r, Z.add_0_r. repeat split; auto.
  - cbn [enqueue_details].
    destruct (maxResults' <=? Z_to_float (propertiesQueued st))%float eqn:Hguard.
    + exists 0%nat. simpl. rewrite !app_nil_r, Z.add_0_r. repeat split; auto.
    + match goal with
      | |- context [enqueue_details _ _ rest ?s] => set (s1 := s); destruct (IH s1) as [k Hk]
      end.
      exists (S k). cbv zeta in Hk |- *.
      destruct Hk as (H1 & H2 & H3 & H4 & H5 & H6 & H7 & H8 & H9).
      assert (E1 : pending s1 = pending st ++ [detail_request p]) by reflexivity.
      assert (E2 : added s1 = added st ++ [detail_request p]) by reflexivity.
      assert (E3 : propertiesQueued s1 = (propertiesQueued st + 1)%Z) by reflexivity.
      cbn [take map length]. rewrite H1, H2, E1, E2, <- !app_assoc.
      split; [reflexivity|]. split; [reflexivity|]. split; [rewrite H3, E3; lia|].
      split; [|auto].
      intros N HN Hle. apply (H4 N HN). rewrite E3.
      eapply below_limit; eassumption.
Qed.

Lemma store_cards_effect (props : list property) :
  forall st : crawl_state,
    let st' := store_cards StringToNumber now rawMaxResults props st in
    pending st' = pending st /\ added st' = added st /\
    propertiesQueued st' = propertiesQueued st /\
    pagesProcessed st' = pagesProcessed st /\
    propertyUrls st' = propertyUrls st.
Proof.
  induction props as [|p rest IH]; intros st; cbn [store_cards].
  - auto.
  - destruct (maxResults' <=? Z_to_float (propertiesStored st))%float; [cbv zeta; auto|].
    match goal with
    | |- context [store_cards _ _ _ rest ?s] => destruct (IH s) as (-> & -> & -> & -> & ->)
    end.
    simpl. auto.
Qed.

Lemma paginate_effect (pg : list_page) (u : jsstring) (pageNumber : Z) (st : crawl_state) :
  let st' := paginate url_get url_set url_toString NumberToString StringToNumber collectDetails
               rawMaxResults rawMaxPages pg u pageNumber st in
  pending st' = pending st ++ next_requests' pg u pageNumber st /\
  added st' = added st ++ next_requests' pg u pageNumber st /\
  propertiesQueued st' = propertiesQueued st /\
  propertiesStored st' = propertiesStored st /\
  pagesProcessed st' = pagesProcessed st /\
  propertyUrls st' = propertyUrls st /\
  propertyDataBatch st' = propertyDataBatch st /\
  dataset st' = dataset st.
Proof.
  unfold paginate, next_requests.
  destruct (ceilings_ahead' st); [|cbv zeta; rewrite !app_nil_r; auto 10].
  cbv zeta. destruct (findNextPageUrl' _ _ _) as [[|c r]|];
    simpl; rewrite ?app_nil_r; auto 10.
Qed.

Lemma ceilings_ahead_state (st st' : crawl_state) :
  propertiesQueued st' = propertiesQueued st -> propertiesStored st' = propertiesStored st ->
  pagesProcessed st' = pagesProcessed st ->
  ceilings_ahead' st' = ceilings_ahead' st.
Proof. unfold ceilings_ahead, progress. intros -> -> ->. reflexivity. Qed.

Lemma next_requests_shape (pg : list_page) (u : jsstring) (p : Z) (st : crawl_state) :
  next_requests' pg u p st = [] \/
  exists v, next_requests' pg u p st = [LIST v (current_page p st + 1)] /\
            (Z_to_float (progress collectDetails st) <? maxResults')%float = true /\
            (Z_to_float (pagesProcessed st) <? maxPages')%float = true.
Proof.
  unfold next_requests.
  destruct (ceilings_ahead' st) eqn:Hc; [|left; reflexivity].
  apply andb_prop in Hc as [H1 H2].
  destruct (findNextPageUrl' _ _ _) as [[|c r]|]; [left; reflexivity| |left; reflexivity].
  right. eauto.
Qed.

Lemma detail_urls_next (pg : list_page) (u : jsstring) (p : Z) (st : crawl_state) :
  detail_urls (next_requests' pg u p st) = [].
Proof.
  destruct (next_requests_shape pg u p st) as [->|(v & -> & _)]; reflexivity.
Qed.

(** What the list branch does to the state: the detail requests of the
    cards [ps] are queued, then the request [next] of the next page, if
    any. *)
Lemma handle_list_effect (pg : list_page) (u : jsstring) (pageNumber : Z) (st : crawl_state) :
  exists (ps : list property) (next : list request),
    let st' := handle_list' pg u pageNumber st in
    pending st' = pending st ++ map detail_request ps ++ next /\
    added st' = added st ++ map detail_request ps ++ next /\
    propertiesQueued st' = (propertiesQueued st + Z.of_nat (length ps))%Z /\
    (forall N, (maxResults' <=? Z_to_float N)%float = true ->
               (propertiesQueued st <= N)%Z -> (propertiesQueued st' <= N)%Z) /\
    pagesProcessed st' = Z.max (pagesProcessed st) (or_one pageNumber) /\
    propertyUrls st ⊆ propertyUrls st' /\
    NoDup (map url ps) /\
    (forall q, q ∈ ps ->
       exists u0, url q = Some u0 /\ u0 <> [] /\ (u0 ∉ propertyUrls st) /\ u0 ∈ propertyUrls st') /\
    (collectDetails = true ->
       dataset st' = dataset st /\ propertyDataBatch st' = propertyDataBatch st /\
       propertiesStored st' = propertiesStored st) /\
    (cards pg = [] -> ps = []) /\
    (next = [] \/ next = next_requests' pg u pageNumber st') /\
    ((maxResults' - Z_to_float (progress collectDetails st) <=? 0)%float = false ->
     next = next_requests' pg u pageNumber st').
Proof.
  unfold handle_list.
  set (st0 := {| propertiesQueued := propertiesQueued st;
                 propertiesStored := propertiesStored st;
                 pagesProcessed := Z.max (pagesProcessed st) (or_one pageNumber);
                 propertyUrls := propertyUrls st;
                 propertyDataBatch := propertyDataBatch st;
                 dataset := dataset st; pending := pending st; added := added st |}).
  change (progress collectDetails st0) with (progress collectDetails st).
  destruct (maxResults' - Z_to_float (progress collectDetails st) <=? 0)%float eqn:Hrem.
  { exists [], []. cbv zeta. simpl. rewrite !app_nil_r, Z.add_0_r.
    split; [reflexivity|]. split; [reflexivity|]. split; [reflexivity|].
    split; [auto|]. split; [reflexivity|]. split; [reflexivity|].
    split; [constructor|]. split; [intros q Hq; inversion Hq|].
    split; [auto|]. split; [auto|]. split; [auto | discriminate]. }
  set (remaining := (maxResults' - Z_to_float (progress collectDetails st))%float).
  destruct (collect_cards_spec (cards pg) remaining (propertyUrls st0) [])
    as (new & Enew & Hsub & ND & Hnew).
  simpl app in Enew.
  set (collected := collect_cards (cards pg) remaining (propertyUrls st0) []) in *.
  set (st1 := {| propertiesQueued := propertiesQueued st0;
                 propertiesStored := propertiesStored st0;
                 pagesProcessed := pagesProcessed st0;
                 propertyUrls := fst collected;
                 propertyDataBatch := propertyDataBatch st0;
                 dataset := dataset st0; pending := pending st0; added := added st0 |}).
  assert (Hempty : cards pg = [] -> new = []).
  { intros E. subst collected. rewrite E in Enew. simpl in Enew. congruence. }
  destruct collectDetails eqn:Hcd.
  - destruct (enqueue_details_effect (snd collected) st1) as [k Hk]. cbv zeta in Hk.
    set (st2 := enqueue_details StringToNumber rawMaxResults (snd collected) st1) in *.
    destruct Hk as (H1 & H2 & H3 & H4 & H5 & H6 & H7 & H8 & H9).
    destruct (paginate_effect pg u pageNumber st2) as (P1 & P2 & P3 & P4 & P5 & P6 & P7 & P8).
    rewrite Hcd in *.
    set (st' := paginate _ _ _ _ _ _ _ _ _ _ _ st2) in *.
    assert (Enext : next_requests' pg u pageNumber st' = next_requests' pg u pageNumber st2).
    { unfold next_requests, current_page.
      rewrite (ceilings_ahead_state st2 st') by congruence. rewrite P5. reflexivity. }
    rewrite Hcd in Enext.
    exists (take k (snd collected)), (next_requests' pg u pageNumber st'). cbv zeta.
    rewrite Hcd.
    rewrite Enext, P1, P2, P3, P5, P6, P7, P8, P4, H1, H2, H3, H5, H6, H7, H8, H9, <- !app_assoc.
    split; [reflexivity|]. split; [reflexivity|]. split; [reflexivity|].
    split; [intros N HN Hle; rewrite <- H3; apply (H4 N HN); exact Hle|].
    split; [reflexivity|]. split; [exact Hsub|].
    assert (Hincl : forall q, q ∈ take k (snd collected) -> q ∈ new).
    { intros q Hq. rewrite Enew in Hq. eapply subseteq_take. exact Hq. }
    split.
    { rewrite Enew. rewrite <- (take_drop k new) in ND. rewrite map_app in ND.
      apply NoDup_app in ND as (ND & _). exact ND. }
    split; [intros q Hq; apply Hnew, Hincl, Hq|].
    split; [auto|].
    split; [intros E; rewrite Enew, (Hempty E); destruct k; reflexivity|].
    split; [right; reflexivity | reflexivity].
  - destruct (store_cards_effect (snd collected) st1) as (S1 & S2 & S3 & S4 & S5).
    destruct (flush_if_full_effect
                (store_cards StringToNumber now rawMaxResults (snd collected) st1))
      as (F1 & F2 & F3 & F4 & F5 & F6 & F7).
    set (st2 := flush_if_full
                  (store_cards StringToNumber now rawMaxResults (snd collected) st1)) in *.
    destruct (paginate_effect pg u pageNumber st2) as (P1 & P2 & P3 & P4 & P5 & P6 & P7 & P8).
    rewrite Hcd in *.
    set (st' := paginate _ _ _ _ _ _ _ _ _ _ _ st2) in *.
    assert (Enext : next_requests' pg u pageNumber st' = next_requests' pg u pageNumber st2).
    { unfold next_requests, current_page.
      rewrite (ceilings_ahead_state st2 st') by congruence. rewrite P5. reflexivity. }
    rewrite Hcd in Enext.
    exists [], (next_requests' pg u pageNumber st'). cbv zeta. rewrite Hcd.
    rewrite Enext, P1, P2, P3, P5, P6, F1, F2, F3, F5, F6, S1, S2, S3, S4, S5.
    simpl. rewrite Z.add_0_r.
    split; [reflexivity|]. split; [reflexivity|]. split; [reflexivity|].
    split; [auto|]. split; [reflexivity|]. split; [exact Hsub|].
    split; [constructor|]. split; [intros q Hq; inversion Hq|].
    split; [discriminate|]. split; [reflexivity|].
    split; [right; reflexivity | reflexivity].
Qed.

(** The handler throws on a detail request exactly when the response is
    taken for a block or normalisation throws. *)
Lemma requestHandler_detail (u : jsstring) (basicInfo : property) (k : nat) (st : crawl_state) :
  requestHandler' (DETAIL u basicInfo) k st
  = if detail_throws (fetch_detail u k) then None
    else handle_detail' (page (fetch_detail u k)) u basicInfo st.
Proof.
  cbn [requestHandler]. unfold detail_throws, handle_detail, detail_record.
  destruct (isBlockedResponse _ _); [reflexivity|]. cbn [orb].
  destruct (normalize_throws _); reflexivity.
Qed.

Lemma handle_detail_throws (pg : detail_page) (u : jsstring) (basicInfo : property)
    (st : crawl_state) :
  normalize_throws pg = false -> is_Some (handle_detail' pg u basicInfo st).
Proof. unfold handle_detail, detail_record. intros ->. eauto. Qed.

(** The attempts on a request: the handler returns at the attempt [j],
    having thrown at every attempt before, or it throws at every attempt
    and the state is left as it was. *)
Lemma attempts_cases (retries : nat) :
  forall (k : nat) (r : request) (st : crawl_state),
    (exists j, (k <= j <= k + retries)%nat /\
       requestHandler' r j st = Some (attempts' retries k r st) /\
       forall i, (k <= i < j)%nat -> requestHandler' r i st = None) \/
    (attempts' retries k r st = st /\
     forall i, (k <= i <= k + retries)%nat -> requestHandler' r i st = None).
Proof.
  induction retries as [|retries IH]; intros k r st; cbn [attempts].
  - destruct (requestHandler' r k st) as [st'|] eqn:E.
    + left. exists k. split; [lia|]. split; [exact E|]. intros i Hi. lia.
    + right. split; [reflexivity|]. intros i Hi. replace i with k by lia. exact E.
  - destruct (requestHandler' r k st) as [st'|] eqn:E.
    + left. exists k. split; [lia|]. split; [exact E|]. intros i Hi. lia.
    + destruct (IH (S k) r st) as [(j & Hj & Hs & Hb)|(Hs & Hb)].
      * left. exists j. split; [lia|]. split; [exact Hs|].
        intros i Hi. destruct (Nat.eq_dec i k) as [->|Hne]; [exact E | apply Hb; lia].
      * right. split; [exact Hs|].
        intros i Hi. destruct (Nat.eq_dec i k) as [->|Hne]; [exact E | apply Hb; lia].
Qed.

Lemma detail_handled_spec (u : jsstring) :
  detail_handled fetch_detail u = true <->
  exists j, (j <= MAX_RETRIES)%nat /\ detail_throws (fetch_detail u j) = false.
Proof.
  unfold detail_handled. rewrite existsb_exists. split.
  - intros (j & Hj & H). apply in_seq in Hj. exists j. split; [lia|].
    apply negb_true_iff. exact H.
  - intros (j & Hj & H). exists j. split; [apply in_seq; lia|].
    apply negb_true_iff. exact H.
Qed.

(** One step of the crawl.  A detail request gives one record, at the
    first attempt at which the handler does not throw; a page request
    queues detail requests and at most one further page; a request on
    which the handler throws at every attempt leaves everything as it
    was. *)
Lemma crawl_step_cases (st st' : crawl_state) :
  crawl_step' st = Some st' ->
  (exists u b rest j record,
      pending st = DETAIL u b :: rest /\
      (j <= MAX_RETRIES)%nat /\ detail_throws (fetch_detail u j) = false /\
      detail_record' (page (fetch_detail u j)) u b = Some record /\
      (forall i, (i < j)%nat -> detail_throws (fetch_detail u i) = true) /\
      pending st' = rest /\ added st' = added st /\
      propertiesQueued st' = propertiesQueued st /\
      propertiesStored st' = (propertiesStored st + 1)%Z /\
      pagesProcessed st' = pagesProcessed st /\
      propertyUrls st' = propertyUrls st /\
      dataset st' ++ propertyDataBatch st'
      = dataset st ++ propertyDataBatch st ++ [record]) \/
  (exists u p rest j ps next,
      pending st = LIST u p :: rest /\
      (j <= MAX_RETRIES)%nat /\
      st' = handle_list' (page (fetch_list u j)) u p
              {| propertiesQueued := propertiesQueued st;
                 propertiesStored := propertiesStored st;
                 pagesProcessed := pagesProcessed st;
                 propertyUrls := propertyUrls st;
                 propertyDataBatch := propertyDataBatch st;
                 dataset := dataset st; pending := rest; added := added st |} /\
      pending st' = rest ++ map detail_request ps ++ next /\
      added st' = added st ++ map detail_request ps ++ next /\
      propertiesQueued st' = (propertiesQueued st + Z.of_nat (length ps))%Z /\
      (forall N, (maxResults' <=? Z_to_float N)%float = true ->
                 (propertiesQueued st <= N)%Z -> (propertiesQueued st' <= N)%Z) /\
      pagesProcessed st' = Z.max (pagesProcessed st) (or_one p) /\
      propertyUrls st ⊆ propertyUrls st' /\
      NoDup (map url ps) /\
      (forall q, q ∈ ps ->
         exists u0, url q = Some u0 /\ u0 <> [] /\ (u0 ∉ propertyUrls st) /\
                    u0 ∈ propertyUrls st') /\
      (collectDetails = true ->
         dataset st' = dataset st /\ propertyDataBatch st' = propertyDataBatch st /\
         propertiesStored st' = propertiesStored st) /\
      (next = [] \/ next = next_requests' (page (fetch_list u j)) u p st')) \/
  (exists r rest,
      pending st = r :: rest /\
      (forall u b, r = DETAIL u b -> detail_handled fetch_detail u = false) /\
      pending st' = rest /\ added st' = added st /\
      propertiesQueued st' = propertiesQueued st /\
      propertiesStored st' = propertiesStored st /\
      pagesProcessed st' = pagesProcessed st /\
      propertyUrls st' = propertyUrls st /\
      dataset st' = dataset st /\ propertyDataBatch st' = propertyDataBatch st).
Proof.
  unfold crawl_step. destruct (pending st) as [|r rest] eqn:Hp; [discriminate|].
  intros E. apply (inj Some) in E. subst st'.
  set (st0 := {| propertiesQueued := propertiesQueued st;
                 propertiesStored := propertiesStored st;
                 pagesProcessed := pagesProcessed st;
                 propertyUrls := propertyUrls st;
                 propertyDataBatch := propertyDataBatch st;
                 dataset := dataset st; pending := rest; added := added st |}).
  destruct (attempts_cases MAX_RETRIES 0 r st0) as [(j & Hj & Hs & Hb)|(Hs & Hb)].
  - destruct r as [u p | u b].
    + right. left. cbn [requestHandler] in Hs.
      destruct (isBlockedResponse _ _); [discriminate|]. injection Hs as Hs.
      destruct (handle_list_effect (page (fetch_list u j)) u p st0)
        as (ps & next & H). cbv zeta in H. rewrite Hs in H.
      destruct H as (H1 & H2 & H3 & H4 & H5 & H6 & H7 & H8 & H9 & _ & H11 & _).
      exists u, p, rest, j, ps, next.
      split; [reflexivity|]. split; [lia|]. split; [symmetry; exact Hs|].
      split; [exact H1|]. split; [exact H2|]. split; [exact H3|]. split; [exact H4|].
      split; [exact H5|]. split; [exact H6|]. split; [exact H7|]. split; [exact H8|].
      split; [exact H9 | exact H11].
    + left. rewrite requestHandler_detail in Hs.
      destruct (detail_throws (fetch_detail u j)) eqn:Ht; [discriminate|].
      destruct (handle_detail_effect _ _ _ _ _ Hs)
        as (record & R & H1 & H2 & H3 & H4 & H5 & H6 & H7).
      exists u, b, rest, j, record.
      split; [reflexivity|]. split; [lia|]. split; [exact Ht|]. split; [exact R|].
      split.
      { intros i Hi. specialize (Hb i ltac:(lia)). rewrite requestHandler_detail in Hb.
        destruct (detail_throws (fetch_detail u i)) eqn:Hti; [reflexivity|].
        unfold detail_throws in Hti. apply orb_false_elim in Hti as [_ Hn].
        destruct (handle_detail_throws (page (fetch_detail u i)) u b st0 Hn) as [x Hx].
        congruence. }
      auto 10.
  - right. right. exists r, rest. rewrite Hs. split; [reflexivity|]. split; [|auto 10].
    intros u b ->. destruct (detail_handled fetch_detail u) eqn:Hh; [|reflexivity].
    apply detail_handled_spec in Hh as (j & Hj & Ht).
    specialize (Hb j ltac:(lia)). rewrite requestHandler_detail, Ht in Hb.
    unfold detail_throws in Ht. apply orb_false_elim in Ht as [_ Hn].
    destruct (handle_detail_throws (page (fetch_detail u j)) u b st0 Hn) as [x Hx].
    congruence.
Qed.

Lemma weights_app (a b : list request) :
  sum_list (map request_weight (a ++ b))
  = (sum_list (map request_weight a) + sum_list (map request_weight b))%nat.
Proof.
  induction a as [|r a IH]; simpl; [reflexivity | rewrite IH; lia].
Qed.

Lemma weights_details (ps : list property) :
  sum_list (map request_weight (map detail_request ps)) = length ps.
Proof. induction ps as [|q ps IH]; simpl; [reflexivity | rewrite IH; reflexivity]. Qed.

Lemma weight_positive (r : request) : (1 <= request_weight r)%nat.
Proof. destruct r; simpl; lia. Qed.

(** The page request a handled page adds, if any, is numbered one above
    it and stays within any whole number the page limit does not exceed. *)
Lemma next_page_bound (pg : list_page) (u : jsstring) (p N : Z) (st : crawl_state)
    (next : list request) :
  next = [] \/ next = next_requests' pg u p st ->
  (1 <= p)%Z -> (p <= pagesProcessed st)%Z ->
  (maxPages' <=? Z_to_float N)%float = true -> (pagesProcessed st <= N)%Z ->
  next = [] \/ exists v, next = [LIST v (p + 1)] /\ (p + 1 <= N)%Z.
Proof.
  intros [-> | ->] Hp Hpp HN Hle; [left; reflexivity|].
  destruct (next_requests_shape pg u p st) as [E|(v & E & _ & Hlt)]; [left; exact E|].
  right. exists v. unfold current_page in E.
  destruct (Z.eqb_spec p 0) as [->|_]; [lia|]. split; [exact E|].
  pose proof (below_limit_strict _ _ _ HN Hle Hlt). lia.
Qed.

(** The ceilings hold throughout a run. *)
Lemma within_ceilings_step (st st' : crawl_state) :
  within_ceilings st -> crawl_step' st = Some st' -> within_ceilings st'.
Proof.
  intros (Hq & Hpp & Hlist) Hs. unfold within_ceilings.
  destruct (crawl_step_cases _ _ Hs)
    as [(u & b & rest & j & record & Hp & _ & _ & _ & _ & -> & _ & -> & _ & -> & _)
       |[(u & p & rest & j & ps & next & Hp & _ & _ & -> & _ & Hqe & HN & Hpe & _ & _ & _ & _
          & Hnext)
        |(r & rest & Hp & _ & -> & _ & -> & _ & -> & _)]].
  - split; [exact Hq|]. split; [exact Hpp|].
    intros v k Hk. apply (Hlist v k). rewrite Hp. right. exact Hk.
  - assert (Hp1 : (1 <= p <= PAGES_CEILING)%Z) by (apply (Hlist u p); rewrite Hp; left).
    assert (Eo : or_one p = p) by (unfold or_one; destruct (Z.eqb_spec p 0); lia).
    assert (Hpp' : (pagesProcessed st' <= PAGES_CEILING)%Z) by (rewrite Hpe, Eo; lia).
    split; [split; [rewrite Hqe; lia | apply (HN _ maxResults_ceiling); lia]|].
    split; [exact Hpp'|].
    intros v k Hk. apply elem_of_app in Hk as [Hk|Hk].
    { apply (Hlist v k). rewrite Hp. right. exact Hk. }
    apply elem_of_app in Hk as [Hk|Hk].
    { apply list_elem_of_fmap in Hk as (q & E & _). discriminate. }
    destruct (next_page_bound _ u p PAGES_CEILING st' next Hnext) as [E|(w & E & Hb)];
      try (rewrite ?Hpe, ?Eo; lia); try exact maxPages_ceiling; rewrite E in Hk.
    + inversion Hk.
    + apply list_elem_of_singleton in Hk. injection Hk as _ ->. lia.
  - split; [exact Hq|]. split; [exact Hpp|].
    intros v k Hk. apply (Hlist v k). rewrite Hp. right. exact Hk.
Qed.

(** Every step lowers the potential. *)
Lemma crawl_step_decreases (st st' : crawl_state) :
  within_ceilings st -> crawl_step' st = Some st' ->
  (crawl_potential st' < crawl_potential st)%nat.
Proof.
  intros Hw Hs. pose proof (within_ceilings_step _ _ Hw Hs) as Hw'.
  destruct Hw as (Hq & Hpp & Hlist). destruct Hw' as (Hq' & Hpp' & _).
  unfold crawl_potential.
  destruct (crawl_step_cases _ _ Hs)
    as [(u & b & rest & j & record & Hp & _ & _ & _ & _ & -> & _ & -> & _)
       |[(u & p & rest & j & ps & next & Hp & _ & _ & -> & _ & Hqe & _ & Hpe & _ & _ & _ & _
          & Hnext)
        |(r & rest & Hp & _ & -> & _ & -> & _)]].
  - rewrite Hp. simpl. lia.
  - assert (Hp1 : (1 <= p <= PAGES_CEILING)%Z) by (apply (Hlist u p); rewrite Hp; left).
    assert (Eo : or_one p = p) by (unfold or_one; destruct (Z.eqb_spec p 0); lia).
    rewrite Hp, !weights_app, weights_details. cbn [map sum_list request_weight].
    assert (Hn : (sum_list (map request_weight next) <= Z.to_nat (PAGES_CEILING - p))%nat).
    { destruct (next_page_bound _ u p PAGES_CEILING st' next Hnext) as [E|(w & E & Hb)];
        try (rewrite ?Hpe, ?Eo; lia); try exact maxPages_ceiling; rewrite E; simpl; lia. }
    rewrite Hqe in *.
    remember (sum_list (map request_weight next)) as w.
    remember (sum_list (map request_weight rest)) as w0.
    remember (length ps) as n.
    unfold id. clear - Hq Hq' Hn Hp1. unfold RESULTS_CEILING, PAGES_CEILING in *. lia.
  - rewrite Hp. cbn [map sum_list]. pose proof (weight_positive r). unfold id. lia.
Qed.

Lemma potential_zero (st : crawl_state) : crawl_potential st = 0%nat -> pending st = [].
Proof.
  unfold crawl_potential. destruct (pending st) as [|[u p|u b] rest]; [reflexivity| |];
    simpl; lia.
Qed.

(** With enough fuel the run handles every request. *)
Lemma crawl_run_ends (fuel : nat) :
  forall st, within_ceilings st -> (crawl_potential st <= fuel)%nat ->
             pending (crawl_run' fuel st) = [].
Proof.
  induction fuel as [|fuel IH]; intros st Hw Hf.
  - simpl. apply potential_zero. lia.
  - cbn [crawl_run]. destruct (crawl_step' st) as [st'|] eqn:Hs.
    + apply IH; [eapply within_ceilings_step; eassumption|].
      pose proof (crawl_step_decreases _ _ Hw Hs). lia.
    + unfold crawl_step in Hs. destruct (pending st); [reflexivity | discriminate].
Qed.

Lemma initial_within_ceilings (searchUrl : jsstring) : within_ceilings (initial_state searchUrl).
Proof.
  unfold within_ceilings, RESULTS_CEILING, PAGES_CEILING. cbn. split; [lia|]. split; [lia|].
  intros v k H. apply list_elem_of_singleton in H. injection H as _ ->. lia.
Qed.

Lemma crawl_ends (searchUrl : jsstring) :
  pending (crawl_run' crawl_fuel (initial_state searchUrl)) = [].
Proof.
  apply crawl_run_ends; [apply initial_within_ceilings|].
  unfold crawl_potential, crawl_fuel. cbn. unfold id, RESULTS_CEILING, PAGES_CEILING. lia.
Qed.

Lemma crawl_run_invariant (P : crawl_state -> Prop) :
  (forall st st', P st -> crawl_step' st = Some st' -> P st') ->
  forall fuel st, P st -> P (crawl_run' fuel st).
Proof.
  intros Hstep fuel. induction fuel as [|fuel IH]; intros st HP; [exact HP|].
  cbn [crawl_run]. destruct (crawl_step' st) as [st'|] eqn:Hs; [|exact HP].
  apply IH. eapply Hstep; eassumption.
Qed.

Lemma detail_urls_elem (ps : list property) (u : jsstring) :
  u ∈ detail_urls (map detail_request ps) -> exists q, q ∈ ps /\ default [] (url q) = u.
Proof.
  induction ps as [|q ps IH]; cbn [map detail_urls omap list_omap detail_request detail_url].
  - intros H. inversion H.
  - cbn. intros H. apply elem_of_cons in H as [->|H].
    + exists q. split; [left | reflexivity].
    + destruct (IH H) as (q' & Hq' & E). exists q'. split; [right; exact Hq' | exact E].
Qed.

Lemma detail_urls_of_next (next : list request) (pg : list_page) (u : jsstring) (p : Z)
    (st : crawl_state) :
  next = [] \/ next = next_requests' pg u p st -> detail_urls next = [].
Proof. intros [-> | ->]; [reflexivity | apply detail_urls_next]. Qed.

(** The dedup invariant: the detail requests ever added have distinct
    URLs, all of them in [propertyUrls]. *)
Lemma dedup_step (st st' : crawl_state) :
  NoDup (detail_urls (added st)) /\
  (forall u, u ∈ detail_urls (added st) -> u ∈ propertyUrls st) ->
  crawl_step' st = Some st' ->
  NoDup (detail_urls (added st')) /\
  (forall u, u ∈ detail_urls (added st') -> u ∈ propertyUrls st').
Proof.
  intros [Hnd Hin] Hs.
  destruct (crawl_step_cases _ _ Hs)
    as [(u & b & rest & j & record & _ & _ & _ & _ & _ & _ & -> & _ & _ & _ & -> & _)
       |[(u & p & rest & j & ps & next & _ & _ & _ & _ & -> & _ & _ & _ & Hsub & Hps & Hq & _
          & Hnext)
        |(r & rest & _ & _ & _ & -> & _ & _ & _ & -> & _)]];
    [split; assumption| |split; assumption].
  rewrite !detail_urls_app, (detail_urls_of_next _ _ _ _ _ Hnext), app_nil_r.
  assert (Hsome : forall q, q ∈ ps -> exists u0, url q = Some u0).
  { intros q Hq'. destruct (Hq q Hq') as (u0 & E & _). eauto. }
  pose proof (detail_urls_requests ps Hsome) as Hmap.
  assert (Hnew : forall u0, u0 ∈ detail_urls (map detail_request ps) ->
                            (u0 ∉ propertyUrls st) /\ u0 ∈ propertyUrls st').
  { intros u0 Hu0. destruct (detail_urls_elem _ _ Hu0) as (q & Hq' & E).
    destruct (Hq q Hq') as (u1 & E1 & _ & Hn & Hi). rewrite E1 in E. cbn in E. subst u1.
    split; assumption. }
  split.
  - apply NoDup_app. split; [exact Hnd|]. split.
    + intros u0 Hold Hu0. destruct (Hnew u0 Hu0) as [Hn _]. apply Hn, Hin, Hold.
    + apply (NoDup_fmap_1 Some). change (NoDup (map Some (detail_urls (map detail_request ps)))).
      rewrite Hmap. exact Hps.
  - intros u0 Hu0. apply elem_of_app in Hu0 as [Hold|Hu0].
    + apply Hsub, Hin, Hold.
    + apply (Hnew u0 Hu0).
Qed.

Lemma dedup_invariant (searchUrl : jsstring) (n : nat) :
  NoDup (detail_urls (added (crawl_run' n (initial_state searchUrl)))) /\
  (forall u, u ∈ detail_urls (added (crawl_run' n (initial_state searchUrl))) ->
             u ∈ propertyUrls (crawl_run' n (initial_state searchUrl))).
Proof.
  apply (crawl_run_invariant
           (fun st => NoDup (detail_urls (added st)) /\
                      (forall u, u ∈ detail_urls (added st) -> u ∈ propertyUrls st))).
  - intros st st'. apply dedup_step.
  - cbn. split; [constructor | intros u H; inversion H].
Qed.

Lemma pages_within_step (N : Z) (st st' : crawl_state) :
  (maxPages' <=? Z_to_float N)%float = true ->
  pages_within N st -> crawl_step' st = Some st' -> pages_within N st'.
Proof.
  intros HN (Hpp & Hadd & Hpend) Hs. unfold pages_within.
  destruct (crawl_step_cases _ _ Hs)
    as [(u & b & rest & j & record & Hp & _ & _ & _ & _ & -> & -> & _ & _ & -> & _)
       |[(u & p & rest & j & ps & next & Hp & _ & _ & -> & -> & _ & _ & Hpe & _ & _ & _ & _
          & Hnext)
        |(r & rest & Hp & _ & -> & -> & _ & _ & -> & _)]].
  - split; [exact Hpp|]. split; [exact Hadd|].
    intros r Hr. apply Hpend. rewrite Hp. right. exact Hr.
  - assert (Hp1 : (1 <= p <= N)%Z) by (apply (Hadd u p), Hpend; rewrite Hp; left).
    assert (Eo : or_one p = p) by (unfold or_one; destruct (Z.eqb_spec p 0); lia).
    assert (Hpp' : (pagesProcessed st' <= N)%Z) by (rewrite Hpe, Eo; lia).
    split; [exact Hpp'|]. split.
    + intros v k Hk. apply elem_of_app in Hk as [Hk|Hk]; [apply (Hadd v k Hk)|].
      apply elem_of_app in Hk as [Hk|Hk].
      { apply list_elem_of_fmap in Hk as (q & E & _). discriminate. }
      destruct (next_page_bound _ u p N st' next Hnext) as [E|(w & E & Hb)];
        try (rewrite ?Hpe, ?Eo; lia); try exact HN; rewrite E in Hk.
      * inversion Hk.
      * apply list_elem_of_singleton in Hk. injection Hk as _ ->. lia.
    + intros r Hr. apply elem_of_app in Hr as [Hr|Hr].
      * apply elem_of_app. left. apply Hpend. rewrite Hp. right. exact Hr.
      * apply elem_of_app. right. exact Hr.
  - split; [exact Hpp|]. split; [exact Hadd|].
    intros r' Hr. apply Hpend. rewrite Hp. right. exact Hr.
Qed.

Lemma pages_within_invariant (N : Z) (searchUrl : jsstring) (n : nat) :
  (1 <= N)%Z -> (maxPages' <=? Z_to_float N)%float = true ->
  pages_within N (crawl_run' n (initial_state searchUrl)).
Proof.
  intros H1 HN. apply (crawl_run_invariant (pages_within N)).
  - intros st st'. apply pages_within_step. exact HN.
  - unfold pages_within. cbn. split; [lia|]. split.
    + intros v k H. apply list_elem_of_singleton in H. injection H as _ ->. lia.
    + auto.
Qed.

(** The record of a detail request keeps the URL of the request. *)
Lemma merge_embedded_meta (blobs : list (option property)) :
  forall pd used,
    url (fst (merge_embedded blobs pd used)) = url pd /\
    extractionMethod (fst (merge_embedded blobs pd used)) = extractionMethod pd.
Proof.
  induction blobs as [|[e|] blobs IH]; intros pd used; cbn [merge_embedded];
    [split; reflexivity| |apply IH].
  destruct (has_keys e); [|apply IH].
  destruct (IH (mergePropertyData pd (Some e)) true) as [-> ->]. split; reflexivity.
Qed.


Lemma extractPropertyDetails_url (pg : detail_page) (basicInfo : property) :
  url (extractPropertyDetails pg basicInfo) = url basicInfo.
Proof.
  unfold extractPropertyDetails.
  destruct (find_jsonld (jsonLdData pg)) as [|ld|]; [reflexivity| |];
    cbn [finish_details url]; rewrite (proj1 (merge_embedded_meta _ _ _)); reflexivity.
Qed.







Lemma flush_rest_dataset (st : crawl_state) :
  dataset (flush_rest st) = dataset st ++ propertyDataBatch st /\
  added (flush_rest st) = added st /\ propertyUrls (flush_rest st) = propertyUrls st /\
  pending (flush_rest st) = pending st.
Proof.
  unfold flush_rest. destruct (propertyDataBatch st); simpl;
    rewrite ?app_nil_r; auto.
Qed.


(** C4. Throughout a run no listing URL is queued for a detail fetch more
    than once: a step only queues detail requests for URLs that were not
    in the dedup set [propertyUrls] and that are in it afterwards; after
    any number of steps the detail requests ever added have pairwise
    distinct URLs, all of them in the set; and the summary written at the
    end of the run reports the size of the set as the number of unique
    listings. *)
Theorem detail_requests_deduplicated :
  (forall st,
     match crawl_step' st with
     | Some st' =>
         exists new, added st' = added st ++ new /\
           forall u, u ∈ detail_urls new -> (u ∉ propertyUrls st) /\ u ∈ propertyUrls st'
     | None => True
     end) /\
  (forall searchUrl n,
     let st := crawl_run' n (initial_state searchUrl) in
     NoDup (detail_urls (added st)) /\
     (forall u, u ∈ detail_urls (added st) -> u ∈ propertyUrls st) /\
     (length (detail_urls (added st)) <= size (propertyUrls st))%nat) /\
  (forall searchUrl,
     let st := crawl' searchUrl in
     NoDup (detail_urls (added st)) /\
     out_uniqueProperties (summary st) = size (propertyUrls st)).
Proof.
  split; [|split].
  - intros st. destruct (crawl_step' st) as [st'|] eqn:Hs; [|exact I].
    destruct (crawl_step_cases _ _ Hs)
      as [(u & b & rest & j & record & _ & _ & _ & _ & _ & _ & -> & _)
         |[(u & p & rest & j & ps & next & _ & _ & _ & _ & -> & _ & _ & _ & _ & _ & Hq & _
            & Hnext)
          |(r & rest & _ & _ & _ & -> & _)]].
    + exists []. rewrite app_nil_r. split; [reflexivity|]. intros u0 H. inversion H.
    + eexists. split; [reflexivity|].
      rewrite detail_urls_app, (detail_urls_of_next _ _ _ _ _ Hnext), app_nil_r.
      intros u0 Hu0. destruct (detail_urls_elem _ _ Hu0) as (q & Hq' & E).
      destruct (Hq q Hq') as (u1 & E1 & _ & Hn & Hi). rewrite E1 in E. cbn in E. subst u1.
      split; assumption.
    + exists []. rewrite app_nil_r. split; [reflexivity|]. intros u0 H. inversion H.
  - intros searchUrl n. cbv zeta.
    destruct (dedup_invariant searchUrl n) as [Hnd Hin].
    split; [exact Hnd|]. split; [exact Hin|].
    rewrite <- (size_list_to_set (C := gset jsstring) _ Hnd).
    apply subseteq_size. intros u Hu. apply elem_of_list_to_set in Hu. apply Hin, Hu.
  - intros searchUrl. cbv zeta. split; [|reflexivity].
    unfold crawl.
    destruct (flush_rest_dataset (crawl_run' crawl_fuel (initial_state searchUrl)))
      as (_ & -> & _ & _).
    apply dedup_invariant.
Qed.

(** C3. Pagination is bounded, but an empty page does not end it.  The
    resolver always gives a next URL.  A call of the handler on a page
    throws exactly when the response is taken for a block; otherwise it
    queues at most one further page request, numbered one above the
    current page; it queues none once the record ceiling or the page
    ceiling is reached, and (when the URL class gives non-empty strings)
    it queues one whenever both ceilings are still ahead, whatever the
    number of cards on the page.  Every page request is numbered from 1
    to 50, and no higher than any whole number that [maxPages] does not
    exceed: no higher than [maxPages] itself when that is a whole number.
    The run handles every request within [crawl_fuel] steps. *)
Theorem pagination_bounded :
  (forall pg u current, is_Some (findNextPageUrl' pg u current)) /\
  (forall u p k st,
     match requestHandler' (LIST u p) k st with
     | None =>
         isBlockedResponse (statusCode (fetch_list u k)) (bodyText (fetch_list u k)) = true
     | Some st' =>
         isBlockedResponse (statusCode (fetch_list u k)) (bodyText (fetch_list u k)) = false /\
         exists ps next,
           added st' = added st ++ map detail_request ps ++ next /\
           pending st' = pending st ++ map detail_request ps ++ next /\
           (cards (page (fetch_list u k)) = [] -> ps = []) /\
           (next = [] \/ exists v, next = [LIST v (current_page p st' + 1)]) /\
           ((Z_to_float (progress collectDetails st') <? maxResults')%float = false \/
            (Z_to_float (pagesProcessed st') <? maxPages')%float = false -> next = []) /\
           ((forall a b c, url_set a b c <> []) -> (forall a, url_toString a <> []) ->
            (maxResults' - Z_to_float (progress collectDetails st) <=? 0)%float = false ->
            (Z_to_float (progress collectDetails st') <? maxResults')%float = true ->
            (Z_to_float (pagesProcessed st') <? maxPages')%float = true ->
            exists v, next = [LIST v (current_page p st' + 1)])
     end) /\
  (forall searchUrl n v k,
     LIST v k ∈ added (crawl_run' n (initial_state searchUrl)) ->
     (1 <= k <= PAGES_CEILING)%Z /\
     (forall N, (1 <= N)%Z -> (maxPages' <=? Z_to_float N)%float = true -> (k <= N)%Z) /\
     (forall M, (1 <= M)%Z -> maxPages' = Z_to_float M -> (k <= M)%Z)) /\
  (forall searchUrl, pending (crawl_run' crawl_fuel (initial_state searchUrl)) = []).
Proof.
  split; [exact findNextPageUrl_some|]. split; [|split].
  - intros u p k st. cbn [requestHandler].
    destruct (isBlockedResponse _ _); [reflexivity|]. split; [reflexivity|].
    destruct (handle_list_effect (page (fetch_list u k)) u p st) as (ps & next & H).
    cbv zeta in H.
    destruct H as (H1 & H2 & _ & _ & _ & _ & _ & _ & _ & Hc & Hnext & Hrem).
    set (st' := handle_list' (page (fetch_list u k)) u p st) in *.
    exists ps, next.
    split; [exact H2|]. split; [exact H1|]. split; [exact Hc|].
    assert (Hshape : next = [] \/
              exists v, next = [LIST v (current_page p st' + 1)] /\
                (Z_to_float (progress collectDetails st') <? maxResults')%float = true /\
                (Z_to_float (pagesProcessed st') <? maxPages')%float = true).
    { destruct Hnext as [->| ->]; [left; reflexivity|]. apply next_requests_shape. }
    split; [|split].
    + destruct Hshape as [E|(v & E & _)]; [left | right; exists v]; exact E.
    + intros Hor. destruct Hshape as [E|(v & _ & Ha & Hb)]; [exact E|].
      destruct Hor; congruence.
    + intros Hset Hstr Hr Ha Hb. rewrite (Hrem Hr). unfold next_requests, ceilings_ahead.
      rewrite Ha, Hb. cbn [andb].
      destruct (findNextPageUrl_nonempty (page (fetch_list u k)) u (current_page p st')
                  Hset Hstr) as (c & r & ->).
      eauto.
  - intros searchUrl n v k Hk.
    assert (Hbound : forall N, (1 <= N)%Z -> (maxPages' <=? Z_to_float N)%float = true ->
                               (1 <= k <= N)%Z).
    { intros N H1 HN.
      destruct (pages_within_invariant N searchUrl n H1 HN) as (_ & Hadd & _).
      apply (Hadd v k Hk). }
    split; [apply Hbound; [unfold PAGES_CEILING; lia | exact maxPages_ceiling]|].
    split; [intros N H1 HN; apply (Hbound N H1 HN)|].
    intros M H1 HM. apply (Hbound M H1). rewrite <- HM.
    apply float_le_refl, maxPages_not_nan.
  - apply crawl_ends.
Qed.





(* ---------------------------------------------------------------------- *)
(** *** Further properties of the run *)

Lemma store_cards_records (props : list property) :
  forall st : crawl_state,
    exists k : nat,
      let st' := store_cards StringToNumber now rawMaxResults props st in
      dataset st' = dataset st /\
      propertyDataBatch st'
      = propertyDataBatch st ++ map (basic_card_record StringToNumber now) (take k props) /\
      propertiesStored st' = (propertiesStored st + Z.of_nat (length (take k props)))%Z /\
      (forall N, (maxResults' <=? Z_to_float N)%float = true ->
                 (propertiesStored st <= N)%Z -> (propertiesStored st' <= N)%Z).
Proof.
  induction props as [|p rest IH]; intros st.
  - exists 0%nat. simpl. rewrite app_nil_r, Z.add_0_r. repeat split; auto.
  - cbn [store_cards].
    destruct (maxResults' <=? Z_to_float (propertiesStored st))%float eqn:Hguard.
    + exists 0%nat. simpl. rewrite app_nil_r, Z.add_0_r. repeat split; auto.
    + match goal with
      | |- context [store_cards _ _ _ rest ?s] => set (s1 := s); destruct (IH s1) as [k Hk]
      end.
      exists (S k). cbv zeta in Hk |- *. destruct Hk as (H1 & H2 & H3 & H4).
      assert (Hs1 : propertiesStored s1 = (propertiesStored st + 1)%Z) by reflexivity.
      split; [rewrite H1; reflexivity|].
      split; [rewrite H2; unfold s1, store; cbn [propertyDataBatch take map];
              rewrite <- app_assoc; reflexivity|].
      split; [rewrite H3, Hs1; cbn [take length]; lia|].
      intros N HN Hle. apply (H4 N HN). rewrite Hs1.
      eapply below_limit; eassumption.
Qed.

Lemma basic_card_record_meta (p : property) :
  url (basic_card_record StringToNumber now p) = url p /\
  extractionMethod (basic_card_record StringToNumber now p) = Some (str "basic-card").
Proof. split; reflexivity. Qed.

Lemma flush_if_full_batch (st : crawl_state) :
  (length (propertyDataBatch (flush_if_full st)) < DATASET_BATCH_SIZE)%nat.
Proof.
  unfold flush_if_full.
  destruct (Nat.leb_spec DATASET_BATCH_SIZE (length (propertyDataBatch st))) as [H|H].
  - cbn. unfold DATASET_BATCH_SIZE. lia.
  - exact H.
Qed.

(** What the list branch does when details are not collected: the cards
    are stored as records, and no detail request is queued. *)
Lemma handle_list_basic (pg : list_page) (u : jsstring) (pageNumber : Z) (st : crawl_state) :
  collectDetails = false ->
  exists (recs : list property) (next : list request),
    let st' := handle_list' pg u pageNumber st in
    pending st' = pending st ++ next /\
    added st' = added st ++ next /\
    (next = [] \/ next = next_requests' pg u pageNumber st') /\
    propertiesQueued st' = propertiesQueued st /\
    dataset st' ++ propertyDataBatch st' = dataset st ++ propertyDataBatch st ++ recs /\
    propertiesStored st' = (propertiesStored st + Z.of_nat (length recs))%Z /\
    (forall N, (maxResults' <=? Z_to_float N)%float = true ->
               (propertiesStored st <= N)%Z -> (propertiesStored st' <= N)%Z) /\
    NoDup (map url recs) /\
    (forall r, r ∈ recs ->
       extractionMethod r = Some (str "basic-card") /\
       exists u0, url r = Some u0 /\ (u0 ∉ propertyUrls st) /\ u0 ∈ propertyUrls st') /\
    propertyUrls st ⊆ propertyUrls st' /\
    ((length (propertyDataBatch st) < DATASET_BATCH_SIZE)%nat ->
     (length (propertyDataBatch st') < DATASET_BATCH_SIZE)%nat).
Proof.
  intros Hcd. unfold handle_list.
  set (st0 := {| propertiesQueued := propertiesQueued st;
                 propertiesStored := propertiesStored st;
                 pagesProcessed := Z.max (pagesProcessed st) (or_one pageNumber);
                 propertyUrls := propertyUrls st;
                 propertyDataBatch := propertyDataBatch st;
                 dataset := dataset st; pending := pending st; added := added st |}).
  change (progress collectDetails st0) with (progress collectDetails st).
  destruct (maxResults' - Z_to_float (progress collectDetails st) <=? 0)%float eqn:Hrem.
  { exists [], []. cbv zeta. simpl. rewrite !app_nil_r, Z.add_0_r.
    split; [reflexivity|]. split; [reflexivity|]. split; [auto|]. split; [reflexivity|].
    split; [reflexivity|]. split; [reflexivity|]. split; [auto|].
    split; [constructor|]. split; [intros q Hq; inversion Hq|]. auto. }
  set (remaining := (maxResults' - Z_to_float (progress collectDetails st))%float).
  destruct (collect_cards_spec (cards pg) remaining (propertyUrls st0) [])
    as (new & Enew & Hsub & ND & Hnew).
  simpl app in Enew.
  set (collected := collect_cards (cards pg) remaining (propertyUrls st0) []) in *.
  set (st1 := {| propertiesQueued := propertiesQueued st0;
                 propertiesStored := propertiesStored st0;
                 pagesProcessed := pagesProcessed st0;
                 propertyUrls := fst collected;
                 propertyDataBatch := propertyDataBatch st0;
                 dataset := dataset st0; pending := pending st0; added := added st0 |}).
  rewrite Hcd.
  destruct (store_cards_effect (snd collected) st1) as (S1 & S2 & S3 & S4 & S5).
  destruct (store_cards_records (snd collected) st1) as (k & R1 & R2 & R3 & R4).
  destruct (flush_if_full_effect
              (store_cards StringToNumber now rawMaxResults (snd collected) st1))
    as (F1 & F2 & F3 & F4 & F5 & F6 & F7).
  pose proof (flush_if_full_batch
                (store_cards StringToNumber now rawMaxResults (snd collected) st1)) as FB.
  set (st2 := flush_if_full
                (store_cards StringToNumber now rawMaxResults (snd collected) st1)) in *.
  destruct (paginate_effect pg u pageNumber st2) as (P1 & P2 & P3 & P4 & P5 & P6 & P7 & P8).
  rewrite Hcd in P1, P2, P3, P4, P5, P6, P7, P8.
  set (st' := paginate _ _ _ _ _ _ _ _ _ _ _ st2) in *.
  assert (Enext : next_requests' pg u pageNumber st' = next_requests' pg u pageNumber st2).
  { unfold next_requests, current_page.
    rewrite (ceilings_ahead_state st2 st') by congruence. rewrite P5. reflexivity. }
  rewrite Hcd in Enext.
  exists (map (basic_card_record StringToNumber now) (take k (snd collected))),
    (next_requests' pg u pageNumber st').
  cbv zeta. rewrite Hcd.
  rewrite Enext, P1, P2, P3, P4, P6, P7, P8.
  rewrite F1, F2, F3, F4, F6, F7, S1, S2, S3, S5, R1, R2, R3, length_map.
  split; [reflexivity|]. split; [reflexivity|]. split; [right; reflexivity|].
  split; [reflexivity|]. split; [reflexivity|]. split; [reflexivity|].
  split.
  { intros N HN Hle. rewrite <- R3. apply (R4 N HN). exact Hle. }
  assert (Hincl : forall q, q ∈ take k (snd collected) -> q ∈ new).
  { intros q Hq. rewrite Enew in Hq. eapply subseteq_take. exact Hq. }
  split.
  { rewrite map_map. rewrite Enew.
    rewrite <- (take_drop k new) in ND. rewrite map_app in ND.
    apply NoDup_app in ND as (ND & _). exact ND. }
  split.
  { intros r Hr. apply list_elem_of_fmap in Hr as (q & -> & Hq).
    split; [reflexivity|].
    destruct (Hnew q (Hincl q Hq)) as (u0 & Hu & _ & Hn & Hi).
    exists u0. split; [exact Hu|]. split; [exact Hn | exact Hi]. }
  split; [exact Hsub|].
  intros _. exact FB.
Qed.

Lemma page_handled_spec (u : jsstring) :
  page_handled fetch_list u = true <->
  exists j, (j <= MAX_RETRIES)%nat /\
    isBlockedResponse (statusCode (fetch_list u j)) (bodyText (fetch_list u j)) = false.
Proof.
  unfold page_handled. rewrite existsb_exists. split.
  - intros (j & Hj & H). apply in_seq in Hj. exists j. split; [lia|].
    apply negb_true_iff. exact H.
  - intros (j & Hj & H). exists j. split; [apply in_seq; lia|].
    apply negb_true_iff. exact H.
Qed.

(** A handler call leaves fewer than [DATASET_BATCH_SIZE] records in the
    batch. *)
Lemma requestHandler_batch (r : request) (k : nat) (st st' : crawl_state) :
  requestHandler' r k st = Some st' ->
  (length (propertyDataBatch st) < DATASET_BATCH_SIZE)%nat ->
  (length (propertyDataBatch st') < DATASET_BATCH_SIZE)%nat.
Proof.
  destruct r as [u p|u b]; cbn [requestHandler].
  - destruct (isBlockedResponse _ _); [discriminate|]. intros E Hb. injection E as <-.
    destruct collectDetails eqn:Hcd.
    + destruct (handle_list_effect (page (fetch_list u k)) u p st) as (ps & next & H).
      cbv zeta in H. rewrite Hcd in H.
      destruct H as (_ & _ & _ & _ & _ & _ & _ & _ & H9 & _).
      destruct (H9 eq_refl) as (_ & -> & _). exact Hb.
    + destruct (handle_list_basic (page (fetch_list u k)) u p st Hcd) as (recs & next & H).
      cbv zeta in H. rewrite Hcd in H.
      destruct H as (_ & _ & _ & _ & _ & _ & _ & _ & _ & _ & H11). apply H11, Hb.
  - destruct (isBlockedResponse _ _); [discriminate|]. unfold handle_detail.
    destruct (detail_record' _ _ _); [|discriminate]. intros E _. injection E as <-.
    apply flush_if_full_batch.
Qed.

Lemma crawl_step_batch (st st' : crawl_state) :
  crawl_step' st = Some st' ->
  (length (propertyDataBatch st) < DATASET_BATCH_SIZE)%nat ->
  (length (propertyDataBatch st') < DATASET_BATCH_SIZE)%nat.
Proof.
  unfold crawl_step. destruct (pending st) as [|r rest] eqn:Hp; [discriminate|].
  intros E Hb. apply (inj Some) in E. subst st'.
  match goal with
  | |- context [attempts' _ _ _ ?s] => set (st0 := s)
  end.
  destruct (attempts_cases MAX_RETRIES 0 r st0) as [(j & _ & Hs & _)|(-> & _)].
  - apply (requestHandler_batch _ _ _ _ Hs). exact Hb.
  - exact Hb.
Qed.

(** A step on a page request: the page is handled at some attempt, or it
    is taken for a block at every attempt and nothing changes. *)
Lemma crawl_step_page (st st' : crawl_state) (u : jsstring) (p : Z) (rest : list request) :
  crawl_step' st = Some st' -> pending st = LIST u p :: rest ->
  (page_handled fetch_list u = true /\
   pagesProcessed st' = Z.max (pagesProcessed st) (or_one p)) \/
  (page_handled fetch_list u = false /\
   pending st' = rest /\ added st' = added st /\ pagesProcessed st' = pagesProcessed st).
Proof.
  unfold crawl_step. destruct (pending st) as [|r rest0] eqn:Hp0; [discriminate|].
  intros E Hp. apply (inj Some) in E. subst st'.
  match goal with
  | |- context [attempts' _ _ _ ?s] => set (st0 := s)
  end.
  destruct (attempts_cases MAX_RETRIES 0 r st0) as [(j & Hj & Hs & _)|(-> & Hb)];
    injection Hp as -> ->.
  - left. cbn [requestHandler] in Hs.
    destruct (isBlockedResponse _ _) eqn:Hbl; [discriminate|]. apply (inj Some) in Hs.
    split; [apply page_handled_spec; exists j; split; [lia | exact Hbl]|].
    rewrite <- Hs.
    destruct (handle_list_effect (page (fetch_list u j)) u p st0) as (ps & next & H).
    cbv zeta in H. destruct H as (_ & _ & _ & _ & H5 & _). exact H5.
  - right. split; [|auto].
    destruct (page_handled fetch_list u) eqn:Hh; [|reflexivity].
    apply page_handled_spec in Hh as (j & Hj & Hbl).
    specialize (Hb j ltac:(lia)). cbn [requestHandler] in Hb. rewrite Hbl in Hb.
    discriminate.
Qed.

(** One step of the crawl when details are not collected. *)
Lemma crawl_step_basic (st st' : crawl_state) :
  collectDetails = false -> crawl_step' st = Some st' ->
  (exists u b rest, pending st = DETAIL u b :: rest) \/
  (exists u p rest recs next,
      pending st = LIST u p :: rest /\
      pending st' = rest ++ next /\ added st' = added st ++ next /\
      detail_urls next = [] /\
      propertiesQueued st' = propertiesQueued st /\
      dataset st' ++ propertyDataBatch st' = dataset st ++ propertyDataBatch st ++ recs /\
      propertiesStored st' = (propertiesStored st + Z.of_nat (length recs))%Z /\
      (forall N, (maxResults' <=? Z_to_float N)%float = true ->
                 (propertiesStored st <= N)%Z -> (propertiesStored st' <= N)%Z) /\
      NoDup (map url recs) /\
      (forall r, r ∈ recs ->
         extractionMethod r = Some (str "basic-card") /\
         exists u0, url r = Some u0 /\ (u0 ∉ propertyUrls st) /\ u0 ∈ propertyUrls st') /\
      propertyUrls st ⊆ propertyUrls st').
Proof.
  intros Hcd. unfold crawl_step. destruct (pending st) as [|r rest] eqn:Hp; [discriminate|].
  intros E. apply (inj Some) in E. subst st'.
  match goal with
  | |- context [attempts' _ _ _ ?s] => set (st0 := s)
  end.
  destruct (attempts_cases MAX_RETRIES 0 r st0) as [(j & Hj & Hs & _)|(Hs & _)];
    (destruct r as [u p|u b]; [right | left; eauto]).
  - cbn [requestHandler] in Hs.
    destruct (isBlockedResponse _ _); [discriminate|]. injection Hs as Hs.
    destruct (handle_list_basic (page (fetch_list u j)) u p st0 Hcd) as (recs & next & H).
    cbv zeta in H. rewrite Hs in H.
    destruct H as (H1 & H2 & H3 & H4 & H5 & H6 & H7 & H8 & H9 & H10 & _).
    exists u, p, rest, recs, next.
    split; [reflexivity|]. split; [exact H1|]. split; [exact H2|].
    split; [destruct H3 as [-> | ->]; [reflexivity | apply detail_urls_next]|].
    auto 10.
  - exists u, p, rest, [], []. rewrite Hs. simpl. rewrite !app_nil_r, Z.add_0_r.
    split; [reflexivity|]. split; [reflexivity|]. split; [reflexivity|].
    split; [reflexivity|]. split; [reflexivity|]. split; [reflexivity|].
    split; [reflexivity|]. split; [auto|]. split; [constructor|].
    split; [intros q Hq; inversion Hq | reflexivity].
Qed.

Lemma detail_urls_requests_length (ps : list property) :
  length (detail_urls (map detail_request ps)) = length ps.
Proof. induction ps as [|q ps IH]; [reflexivity|]. cbn. f_equal. exact IH. Qed.

Local Abbreviation counts_invariant :=
  (fun (N : Z) (st : crawl_state) =>
     propertiesStored st = Z.of_nat (length (dataset st ++ propertyDataBatch st)) /\
     (length (propertyDataBatch st) < DATASET_BATCH_SIZE)%nat /\
     if collectDetails
     then (propertiesStored st + Z.of_nat (length (detail_urls (pending st)))
           <= propertiesQueued st)%Z /\
          Z.of_nat (length (detail_urls (added st))) = propertiesQueued st /\
          (propertiesQueued st <= N)%Z
     else detail_urls (pending st) = [] /\ detail_urls (added st) = [] /\
          (propertiesStored st <= N)%Z).

Lemma counts_step (N : Z) (st st' : crawl_state) :
  (maxResults' <=? Z_to_float N)%float = true ->
  counts_invariant N st -> crawl_step' st = Some st' -> counts_invariant N st'.
Proof.
  intros HN (K1 & K2 & K3) Hs.
  assert (Hcase : collectDetails = true \/ collectDetails = false)
    by (destruct collectDetails; auto).
  split; [|split; [apply (crawl_step_batch _ _ Hs), K2|]].
  - destruct Hcase as [Hcd|Hcd].
    + destruct (crawl_step_cases _ _ Hs)
        as [(u & b & rest & j & record & _ & _ & _ & _ & _ & _ & _ & _ & Hst & _ & _ & Hd)
           |[(u & p & rest & j & ps & next & _ & _ & _ & _ & _ & _ & _ & _ & _ & _ & _ & Hd
              & _)
            |(r & rest & _ & _ & _ & _ & _ & Hst & _ & _ & Hd & Hb)]].
      * rewrite Hst, Hd, K1, !length_app. simpl. lia.
      * destruct (Hd Hcd) as (-> & -> & ->). exact K1.
      * rewrite Hst, Hd, Hb. exact K1.
    + destruct (crawl_step_basic _ _ Hcd Hs)
        as [(u & b & rest & Hp)
           |(u & p & rest & recs & next & _ & _ & _ & _ & _ & Hd & Hst & _)].
      * rewrite Hcd in K3. destruct K3 as (A & _). rewrite Hp in A. discriminate A.
      * rewrite Hst, Hd, K1, !length_app. lia.
  - destruct Hcase as [Hcd|Hcd]; rewrite Hcd in K3 |- *.
    + destruct K3 as (A & B & C).
      destruct (crawl_step_cases _ _ Hs)
        as [(u & b & rest & j & record & Hp & _ & _ & _ & _ & Hp' & Ha & Hq & Hst & _)
           |[(u & p & rest & j & ps & next & Hp & _ & _ & Hp' & Ha & Hq & Hqle & _ & _ & _
              & _ & Hd & Hnext)
            |(r & rest & Hp & _ & Hp' & Ha & Hq & Hst & _)]].
      * rewrite Hp in A. change (detail_urls (DETAIL u b :: rest))
          with (u :: detail_urls rest) in A. cbn [length] in A.
        rewrite Hp', Ha, Hq, Hst. split; [lia|]. split; [exact B | exact C].
      * destruct (Hd Hcd) as (_ & _ & Hst).
        rewrite Hp in A. change (detail_urls (LIST u p :: rest)) with (detail_urls rest) in A.
        assert (En : detail_urls next = [])
          by (destruct Hnext as [-> | ->]; [reflexivity | apply detail_urls_next]).
        rewrite Hp', Ha, !detail_urls_app, En, app_nil_r, !length_app,
          detail_urls_requests_length, Hq, Hst.
        split; [lia|]. split; [lia|]. rewrite <- Hq. apply (Hqle N HN C).
      * rewrite Hp in A. rewrite Hp', Ha, Hq, Hst. split; [|split; [exact B | exact C]].
        destruct r as [u p|u b].
        -- exact A.
        -- change (detail_urls (DETAIL u b :: rest)) with (u :: detail_urls rest) in A.
           cbn [length] in A. lia.
    + destruct K3 as (A & B & C).
      destruct (crawl_step_basic _ _ Hcd Hs)
        as [(u & b & rest & Hp)
           |(u & p & rest & recs & next & Hp & Hp' & Ha & En & _ & _ & _ & Hle & _)].
      * rewrite Hp in A. discriminate A.
      * rewrite Hp in A. change (detail_urls (LIST u p :: rest)) with (detail_urls rest) in A.
        rewrite Hp', Ha, !detail_urls_app, En, A, B.
        split; [reflexivity|]. split; [reflexivity|]. apply (Hle N HN C).
Qed.

Lemma counts_run (N : Z) (searchUrl : jsstring) (n : nat) :
  (0 <= N)%Z -> (maxResults' <=? Z_to_float N)%float = true ->
  counts_invariant N (crawl_run' n (initial_state searchUrl)).
Proof.
  intros H0 HN. apply (crawl_run_invariant (counts_invariant N)).
  - intros st st'. apply counts_step. exact HN.
  - cbn. split; [reflexivity|]. split; [unfold DATASET_BATCH_SIZE; lia|].
    destruct collectDetails; repeat split; lia.
Qed.

Lemma flush_rest_counters (st : crawl_state) :
  propertiesStored (flush_rest st) = propertiesStored st /\
  pagesProcessed (flush_rest st) = pagesProcessed st.
Proof. unfold flush_rest. destruct (propertyDataBatch st); split; reflexivity. Qed.

(** X15. The counters of a run that handles its requests one at a time.
    After any number of handler calls, [propertiesStored] is the number
    of records pushed or waiting in the batch, the batch holds fewer than
    [DATASET_BATCH_SIZE] records, and neither the records stored nor the
    detail requests ever queued exceed 1000, nor any whole number that
    [maxResults] does not exceed ([maxResults] itself when it is a whole
    number).  At the end every record is in the dataset: the summary
    reports their number, within the same bounds. *)
Theorem run_counts (searchUrl : jsstring) :
  (forall n,
     let st := crawl_run' n (initial_state searchUrl) in
     propertiesStored st = Z.of_nat (length (dataset st ++ propertyDataBatch st)) /\
     (length (propertyDataBatch st) < DATASET_BATCH_SIZE)%nat /\
     (forall N, (0 <= N)%Z -> (maxResults' <=? Z_to_float N)%float = true ->
        (propertiesStored st <= N)%Z /\
        (Z.of_nat (length (detail_urls (added st))) <= N)%Z) /\
     (propertiesStored st <= RESULTS_CEILING)%Z /\
     (Z.of_nat (length (detail_urls (added st))) <= RESULTS_CEILING)%Z) /\
  (let st := crawl' searchUrl in
   out_propertiesStored (summary st) = Z.of_nat (length (dataset st)) /\
   (forall N, (0 <= N)%Z -> (maxResults' <=? Z_to_float N)%float = true ->
      (Z.of_nat (length (dataset st)) <= N)%Z) /\
   (forall M, (0 <= M)%Z -> maxResults' = Z_to_float M ->
      (Z.of_nat (length (dataset st)) <= M)%Z) /\
   (Z.of_nat (length (dataset st)) <= RESULTS_CEILING)%Z).
Proof.
  assert (Hb : forall n N, (0 <= N)%Z -> (maxResults' <=? Z_to_float N)%float = true ->
     let st := crawl_run' n (initial_state searchUrl) in
     propertiesStored st = Z.of_nat (length (dataset st ++ propertyDataBatch st)) /\
     (length (propertyDataBatch st) < DATASET_BATCH_SIZE)%nat /\
     (propertiesStored st <= N)%Z /\
     (Z.of_nat (length (detail_urls (added st))) <= N)%Z).
  { intros n N H0 HN. cbv zeta. destruct (counts_run N searchUrl n H0 HN) as (K1 & K2 & K3).
    split; [exact K1|]. split; [exact K2|].
    destruct collectDetails.
    - destruct K3 as (A & B & C). split; lia.
    - destruct K3 as (A & B & C). rewrite B. simpl. split; lia. }
  assert (Hc : (0 <= RESULTS_CEILING)%Z) by (unfold RESULTS_CEILING; lia).
  split.
  - intros n. cbv zeta.
    destruct (Hb n RESULTS_CEILING Hc maxResults_ceiling) as (K1 & K2 & K3 & K4).
    split; [exact K1|]. split; [exact K2|]. split; [|split; assumption].
    intros N H0 HN. destruct (Hb n N H0 HN) as (_ & _ & A & B). split; assumption.
  - cbv zeta. unfold crawl, summary. cbn [out_propertiesStored].
    destruct (flush_rest_dataset (crawl_run' crawl_fuel (initial_state searchUrl)))
      as (-> & _).
    destruct (flush_rest_counters (crawl_run' crawl_fuel (initial_state searchUrl)))
      as (-> & _).
    assert (HN : forall N, (0 <= N)%Z -> (maxResults' <=? Z_to_float N)%float = true ->
              (Z.of_nat (length (dataset (crawl_run' crawl_fuel (initial_state searchUrl))
                                   ++ propertyDataBatch
                                        (crawl_run' crawl_fuel (initial_state searchUrl))))
               <= N)%Z).
    { intros N H0 HN. destruct (Hb crawl_fuel N H0 HN) as (K1 & _ & K3 & _).
      rewrite <- K1. exact K3. }
    split; [apply (Hb crawl_fuel RESULTS_CEILING Hc maxResults_ceiling)|].
    split; [exact HN|]. split; [|apply (HN _ Hc maxResults_ceiling)].
    intros M H0 HM. apply (HN M H0). rewrite <- HM.
    apply float_le_refl, maxResults_not_nan.
Qed.

Local Abbreviation basic_invariant :=
  (fun st : crawl_state =>
     detail_urls (pending st) = [] /\ detail_urls (added st) = [] /\
     NoDup (map url (dataset st ++ propertyDataBatch st)) /\
     forall r, r ∈ dataset st ++ propertyDataBatch st ->
       extractionMethod r = Some (str "basic-card") /\
       exists u0, url r = Some u0 /\ u0 ∈ propertyUrls st).

Lemma basic_step (st st' : crawl_state) :
  collectDetails = false ->
  basic_invariant st -> crawl_step' st = Some st' -> basic_invariant st'.
Proof.
  intros Hcd (B1 & B2 & B3 & B4) Hs.
  destruct (crawl_step_basic _ _ Hcd Hs)
    as [(u & b & rest & Hp)
       |(u & p & rest & recs & next & Hp & Hp' & Ha & En & _ & Hd & _ & _ & ND & Hrecs
         & Hsub)].
  - rewrite Hp in B1. discriminate B1.
  - rewrite Hp in B1. change (detail_urls (LIST u p :: rest)) with (detail_urls rest) in B1.
    rewrite Hp', Ha, !detail_urls_app, En, B1, B2.
    split; [reflexivity|]. split; [reflexivity|].
    rewrite Hd, app_assoc. split.
    + rewrite map_app. apply NoDup_app. split; [exact B3|]. split; [|exact ND].
      intros x Hx Hx'.
      apply list_elem_of_fmap in Hx as (r & -> & Hr).
      apply list_elem_of_fmap in Hx' as (r' & E & Hr').
      destruct (B4 r Hr) as (_ & u0 & Hu & Hin).
      destruct (Hrecs r' Hr') as (_ & u1 & Hu1 & Hn & _).
      rewrite Hu, Hu1 in E. injection E as ->. exact (Hn Hin).
    + intros r [Hr|Hr]%elem_of_app.
      * destruct (B4 r Hr) as (T & u0 & Hu & Hin).
        split; [exact T|]. exists u0. split; [exact Hu | apply Hsub, Hin].
      * destruct (Hrecs r Hr) as (T & u0 & Hu & _ & Hin).
        split; [exact T|]. exists u0. auto.
Qed.

Lemma basic_run (searchUrl : jsstring) (n : nat) :
  collectDetails = false -> basic_invariant (crawl_run' n (initial_state searchUrl)).
Proof.
  intros Hcd. apply (crawl_run_invariant basic_invariant).
  - intros st st'. apply basic_step. exact Hcd.
  - cbn. split; [reflexivity|]. split; [reflexivity|]. split; [constructor|].
    intros r Hr. inversion Hr.
Qed.

Lemma basic_crawl (searchUrl : jsstring) :
  collectDetails = false ->
  detail_urls (added (crawl' searchUrl)) = [] /\
  NoDup (map url (dataset (crawl' searchUrl))) /\
  forall r, r ∈ dataset (crawl' searchUrl) ->
    extractionMethod r = Some (str "basic-card") /\
    exists u0, url r = Some u0 /\ u0 ∈ propertyUrls (crawl' searchUrl).
Proof.
  intros Hcd. unfold crawl.
  destruct (flush_rest_dataset (crawl_run' crawl_fuel (initial_state searchUrl)))
    as (-> & -> & -> & _).
  destruct (basic_run searchUrl crawl_fuel Hcd) as (_ & B2 & B3 & B4).
  auto.
Qed.

Lemma list_pages_app (a b : list request) : list_pages (a ++ b) = list_pages a ++ list_pages b.
Proof. apply omap_app. Qed.

Lemma list_pages_details (ps : list property) : list_pages (map detail_request ps) = [].
Proof. induction ps as [|q ps IH]; [reflexivity | exact IH]. Qed.

(** The pages requested so far are 1, ..., n; the page n is still to be
    handled, or it was handled, or it was taken for a block at every
    attempt. *)
Local Abbreviation pages_invariant :=
  (fun st : crawl_state =>
     exists n : nat,
       (1 <= n)%nat /\ list_pages (added st) = map Z.of_nat (seq 1 n) /\
       ((list_pages (pending st) = [] /\ pagesProcessed st = Z.of_nat n) \/
        (list_pages (pending st) = [] /\ pagesProcessed st = (Z.of_nat n - 1)%Z /\
         exists v, LIST v (Z.of_nat n) ∈ added st /\ page_handled fetch_list v = false) \/
        (list_pages (pending st) = [Z.of_nat n] /\
         pagesProcessed st = (Z.of_nat n - 1)%Z))).

Lemma pages_step (st st' : crawl_state) :
  (forall r, r ∈ pending st -> r ∈ added st) ->
  pages_invariant st -> crawl_step' st = Some st' -> pages_invariant st'.
Proof.
  intros Hsub (n & Hn & Hadd & Hpend) Hs.
  destruct (crawl_step_cases _ _ Hs)
    as [(u & b & rest & j & record & Hp & _ & _ & _ & _ & Hp' & Ha & _ & _ & Hpp & _)
       |[(u & p & rest & j & ps & next & Hp & _ & _ & Hp' & Ha & _ & _ & Hpp & _ & _ & _ & _
          & Hnext)
        |(r & rest & Hp & _ & Hp' & Ha & _ & _ & Hpp & _)]].
  - exists n. rewrite Hp in Hpend. change (list_pages (DETAIL u b :: rest))
      with (list_pages rest) in Hpend.
    rewrite Hp', Ha, Hpp. auto.
  - rewrite Hp in Hpend. change (list_pages (LIST u p :: rest))
      with (p :: list_pages rest) in Hpend.
    destruct Hpend as [[E _]|[[E _]|[E Hpp0]]]; [discriminate E | discriminate E |].
    injection E as -> Erest.
    assert (Hpp' : pagesProcessed st' = Z.of_nat n).
    { rewrite Hpp, Hpp0. unfold or_one. destruct (Z.eqb_spec (Z.of_nat n) 0); lia. }
    rewrite Hp', Ha, !list_pages_app, list_pages_details, Erest. cbn [app].
    assert (Hshape : next = [] \/ exists v, next = [LIST v (Z.of_nat (S n))]).
    { destruct Hnext as [-> | ->]; [left; reflexivity|].
      destruct (next_requests_shape (page (fetch_list u j)) u (Z.of_nat n) st')
        as [E|(v & E & _)]; [left; exact E|].
      right. exists v. rewrite E. repeat f_equal. unfold current_page.
      destruct (Z.eqb_spec (Z.of_nat n) 0); lia. }
    destruct Hshape as [->|(v & ->)].
    + exists n. rewrite app_nil_r. cbn [list_pages omap list_omap]. auto.
    + exists (S n). split; [lia|].
      cbn [list_pages omap list_omap list_page_number]. split.
      * rewrite seq_S, map_app, Hadd. reflexivity.
      * right. right. cbn. split; [reflexivity | lia].
  - rewrite Hp in Hpend. destruct r as [u p|u b].
    + change (list_pages (LIST u p :: rest)) with (p :: list_pages rest) in Hpend.
      destruct Hpend as [[E _]|[[E _]|[E Hpp0]]]; [discriminate E | discriminate E |].
      injection E as -> Erest.
      destruct (crawl_step_page _ _ _ _ _ Hs Hp) as [(_ & Hmax)|(Hh & _)].
      * exfalso. rewrite Hpp, Hpp0 in Hmax. unfold or_one in Hmax.
        destruct (Z.eqb_spec (Z.of_nat n) 0); lia.
      * exists n. rewrite Hp', Ha, Hpp, Erest. split; [exact Hn|]. split; [exact Hadd|].
        right. left. split; [reflexivity|]. split; [exact Hpp0|].
        exists u. split; [apply Hsub; rewrite Hp; left | exact Hh].
    + change (list_pages (DETAIL u b :: rest)) with (list_pages rest) in Hpend.
      exists n. rewrite Hp', Ha, Hpp. auto.
Qed.

Lemma pending_added_step (st st' : crawl_state) :
  (forall r, r ∈ pending st -> r ∈ added st) -> crawl_step' st = Some st' ->
  forall r, r ∈ pending st' -> r ∈ added st'.
Proof.
  intros Hsub Hs.
  destruct (crawl_step_cases _ _ Hs)
    as [(u & b & rest & j & record & Hp & _ & _ & _ & _ & -> & -> & _)
       |[(u & p & rest & j & ps & next & Hp & _ & _ & -> & -> & _)
        |(r & rest & Hp & _ & -> & -> & _)]].
  - intros r Hr. apply Hsub. rewrite Hp. right. exact Hr.
  - intros r Hr. apply elem_of_app in Hr as [Hr|Hr]; apply elem_of_app.
    + left. apply Hsub. rewrite Hp. right. exact Hr.
    + right. exact Hr.
  - intros r' Hr. apply Hsub. rewrite Hp. right. exact Hr.
Qed.

Lemma pages_run (searchUrl : jsstring) (n : nat) :
  pages_invariant (crawl_run' n (initial_state searchUrl)).
Proof.
  apply (crawl_run_invariant
           (fun st => (forall r, r ∈ pending st -> r ∈ added st) /\ pages_invariant st)).
  - intros st st' [Hsub Hinv] Hs. split.
    + apply (pending_added_step _ _ Hsub Hs).
    + apply (pages_step _ _ Hsub Hinv Hs).
  - split; [auto|]. exists 1%nat. cbn. split; [lia|]. split; [reflexivity|]. right. right. auto.
Qed.

(** X16. The result pages of a run that takes up every request added to
    its queue and handles the requests one at a time.  The page requests
    ever queued are numbered 1, 2, 3, ... without gap or repeat.  Their
    number is at least 1 and at most 50, and at most any whole number
    that [maxPages] does not exceed ([maxPages] itself when it is a whole
    number).  The page count of the summary is that number, unless the
    last page requested was taken for a block at every attempt: the
    summary then counts one page less (still 1 when no page at all was
    handled). *)
Theorem run_pages (searchUrl : jsstring) :
  (forall n,
     let st := crawl_run' n (initial_state searchUrl) in
     list_pages (added st)
     = map Z.of_nat (seq 1 (length (list_pages (added st))))) /\
  (let st := crawl' searchUrl in
   let requested := Z.of_nat (length (list_pages (added st))) in
   (1 <= requested <= PAGES_CEILING)%Z /\
   (forall N, (1 <= N)%Z -> (maxPages' <=? Z_to_float N)%float = true ->
      (requested <= N)%Z) /\
   (forall M, (1 <= M)%Z -> maxPages' = Z_to_float M -> (requested <= M)%Z) /\
   (1 <= out_pagesProcessed (summary st) <= requested)%Z /\
   (out_pagesProcessed (summary st) = requested \/
    exists v, LIST v requested ∈ added st /\ page_handled fetch_list v = false /\
      out_pagesProcessed (summary st) = Z.max 1 (requested - 1)) /\
   ((forall v, LIST v requested ∈ added st -> page_handled fetch_list v = true) ->
    out_pagesProcessed (summary st) = requested)).
Proof.
  split.
  - intros n. cbv zeta. destruct (pages_run searchUrl n) as (k & _ & E & _).
    rewrite E at 1. rewrite E, length_map, length_seq. reflexivity.
  - cbv zeta. unfold crawl, summary. cbn [out_pagesProcessed].
    set (st := crawl_run' crawl_fuel (initial_state searchUrl)).
    destruct (flush_rest_dataset st) as (_ & -> & _).
    destruct (flush_rest_counters st) as (_ & ->).
    destruct (pages_run searchUrl crawl_fuel) as (k & Hk & E & Hpend).
    fold st in E, Hpend.
    assert (Hend : pending st = []) by apply crawl_ends.
    rewrite Hend in Hpend. rewrite E, length_map, length_seq.
    assert (Hin : exists v, LIST v (Z.of_nat k) ∈ added st).
    { assert (Hk' : Z.of_nat k ∈ list_pages (added st)).
      { rewrite E. apply list_elem_of_fmap. exists k. split; [reflexivity|].
        apply list_elem_of_In, in_seq. lia. }
      apply list_elem_of_omap in Hk' as (r & Hr & Hpg).
      destruct r as [v pg|]; [|discriminate]. injection Hpg as ->. eauto. }
    destruct Hin as (v & Hv).
    assert (Hbound : forall N, (1 <= N)%Z -> (maxPages' <=? Z_to_float N)%float = true ->
                               (Z.of_nat k <= N)%Z).
    { intros N H1 HN.
      destruct (pages_within_invariant N searchUrl crawl_fuel H1 HN) as (_ & Hadd & _).
      apply (Hadd v). exact Hv. }
    assert (Hout : or_one (pagesProcessed st) = Z.of_nat k \/
                   exists v, LIST v (Z.of_nat k) ∈ added st /\
                     page_handled fetch_list v = false /\
                     or_one (pagesProcessed st) = Z.max 1 (Z.of_nat k - 1)).
    { destruct Hpend as [[_ Hpp]|[(_ & Hpp & w & Hw & Hh)|[Hl _]]]; [| |discriminate Hl].
      - left. rewrite Hpp. unfold or_one. destruct (Z.eqb_spec (Z.of_nat k) 0); lia.
      - right. exists w. split; [exact Hw|]. split; [exact Hh|].
        rewrite Hpp. unfold or_one. destruct (Z.eqb_spec (Z.of_nat k - 1) 0); lia. }
    split; [split; [lia | apply Hbound; [unfold PAGES_CEILING; lia | exact maxPages_ceiling]]|].
    split; [exact Hbound|].
    split.
    { intros M H1 HM. apply (Hbound M H1). rewrite <- HM.
      apply float_le_refl, maxPages_not_nan. }
    split; [destruct Hout as [->|(_ & _ & _ & ->)]; lia|].
    split; [exact Hout|].
    intros Hall. destruct Hout as [Ho|(w & Hw & Hh & _)]; [exact Ho|].
    rewrite (Hall w Hw) in Hh. discriminate.
Qed.
End CrawlProperties.

(** C3, counterexample.  The first results page has no card, both
    ceilings are still ahead (at most 50 records, at most 5 pages), and
    the handler queues page 2 all the same. *)
Lemma pagination_empty_page_counterexample :
  cards empty_list_page = [] /\
  option_map pending example_first_step
  = Some [LIST (example_search_url ++ str "&index=24&page=2") 2].
Proof. split; [reflexivity | vm_compute; reflexivity]. Qed.


(** X17. A run that does not collect details: no detail request is ever
    queued; every record of the dataset is a card, tagged [basic-card],
    whose URL is in the dedup set; and no URL is stored twice. *)
Theorem basic_card_run
    (url_get : jsstring -> jsstring -> option jsstring)
    (url_set : jsstring -> jsstring -> jsstring -> jsstring)
    (url_toString : jsstring -> jsstring)
    (NumberToString : float -> jsstring) (StringToNumber : jsstring -> float)
    (fetch_list : jsstring -> nat -> response list_page)
    (fetch_detail : jsstring -> nat -> response detail_page)
    (now : jsstring) (rawMaxResults rawMaxPages : js_input) (searchUrl : jsstring) :
  let st := crawl url_get url_set url_toString NumberToString StringToNumber
              fetch_list fetch_detail now false rawMaxResults rawMaxPages searchUrl in
  detail_urls (added st) = [] /\
  NoDup (map url (dataset st)) /\
  forall r, r ∈ dataset st ->
    extractionMethod r = Some (str "basic-card") /\
    exists u0, url r = Some u0 /\ u0 ∈ propertyUrls st.
Proof.
  cbv zeta.
  apply (basic_crawl url_get url_set url_toString NumberToString StringToNumber
           fetch_list fetch_detail now false rawMaxResults rawMaxPages searchUrl eq_refl).
Qed.
(* ====================================================================== *)
(** * Further properties of the helpers *)
(* ====================================================================== *)

(** *** [cleanText] *)

Lemma filter_dropWhile_ws (s : jsstring) :
  List.filter (fun c => negb (is_ws c)) (dropWhile is_ws s) = List.filter (fun c => negb (is_ws c)) s.
Proof.
  induction s as [|c s IH]; [reflexivity|]. simpl.
  destruct (is_ws c) eqn:E; simpl; [exact IH|].
  rewrite E. reflexivity.
Qed.

Lemma filter_trim_ws (s : jsstring) :
  List.filter (fun c => negb (is_ws c)) (trim s) = List.filter (fun c => negb (is_ws c)) s.
Proof.
  unfold trim. rewrite List.filter_rev, filter_dropWhile_ws, List.filter_rev, rev_involutive.
  apply filter_dropWhile_ws.
Qed.

Lemma filter_replace_ws (b : bool) (s : jsstring) :
  List.filter (fun c => negb (is_ws c)) (replace_ws_runs b s) = List.filter (fun c => negb (is_ws c)) s.
Proof.
  revert b. induction s as [|c s IH]; intros b; [reflexivity|]. simpl.
  destruct (is_ws c) eqn:E.
  - destruct b; simpl; apply IH.
  - simpl. rewrite E. simpl. f_equal. apply IH.
Qed.

Lemma replace_ws_length (b : bool) (s : jsstring) :
  (length (replace_ws_runs b s) <= length s)%nat.
Proof.
  revert b. induction s as [|c s IH]; intros b; simpl; [lia|].
  pose proof (IH true). pose proof (IH false).
  destruct (is_ws c); [destruct b|]; simpl; lia.
Qed.

Lemma dropWhile_length {A} (p : A -> bool) (l : list A) :
  (length (dropWhile p l) <= length l)%nat.
Proof. induction l as [|x l IH]; simpl; [lia|]. destruct (p x); simpl; lia. Qed.

Lemma trim_length (s : jsstring) : (length (trim s) <= length s)%nat.
Proof.
  unfold trim. rewrite length_rev.
  etransitivity; [apply dropWhile_length|]. rewrite length_rev. apply dropWhile_length.
Qed.

Lemma ws_head_rev_trim (s : jsstring) : ws_head (rev (trim s)) = false.
Proof. unfold trim. rewrite rev_involutive. apply ws_head_dropWhile. Qed.

Lemma ws_head_trim (s : jsstring) : ws_head (trim s) = false.
Proof. rewrite trim_rtrim. apply ws_head_rtrim, ws_head_dropWhile. Qed.

Lemma filter_nil_all_ws (s : jsstring) :
  List.filter (fun c => negb (is_ws c)) s = [] -> forallb is_ws s = true.
Proof.
  induction s as [|c s IH]; [reflexivity|]. simpl.
  destruct (is_ws c) eqn:E.
  - exact IH.
  - discriminate.
Qed.

(** X1. What [cleanText] returns for a string: a non-empty text that
    neither starts nor ends with whitespace, whose only whitespace is
    single spaces, that is no longer than the input and has the
    non-whitespace code units of the input, in order; and [null] exactly
    when the input has nothing but whitespace. *)
Theorem cleanText_shape (t : jsstring) :
  match cleanText (Some t) with
  | Some v =>
      v <> [] /\ ws_head v = false /\ ws_head (rev v) = false /\ spaced v /\
      (length v <= length t)%nat /\
      List.filter (fun c => negb (is_ws c)) v = List.filter (fun c => negb (is_ws c)) t
  | None => forallb is_ws t = true
  end.
Proof.
  unfold cleanText.
  pose proof (filter_trim_ws (replace_ws_runs false t)) as Hf.
  rewrite filter_replace_ws in Hf.
  destruct (Nat.ltb_spec 0 (length (trim (replace_ws_runs false t)))) as [Hl|Hl].
  - split; [intros E; rewrite E in Hl; simpl in Hl; lia|].
    split; [apply ws_head_trim|]. split; [apply ws_head_rev_trim|].
    split; [apply spaced_trim, spaced_replace|].
    split; [|exact Hf].
    etransitivity; [apply trim_length | apply replace_ws_length].
  - apply filter_nil_all_ws. rewrite <- Hf.
    destruct (trim (replace_ws_runs false t)); [reflexivity | simpl in Hl; lia].
Qed.

(** *** [uniqueArray] *)

Lemma keep_first_elem (l seen : list jsstring) (v : jsstring) :
  v ∈ l -> v ∉ seen -> v ∈ keep_first seen l.
Proof.
  revert seen. induction l as [|x l IH]; intros seen Hv Hs; [inversion Hv|].
  cbn [keep_first]. destruct (bool_decide (x ∈ seen)) eqn:E.
  - apply bool_decide_eq_true in E. apply elem_of_cons in Hv as [->|Hv]; [contradiction|].
    apply IH; assumption.
  - destruct (decide (v = x)) as [->|Hne]; [left|]. right.
    apply elem_of_cons in Hv as [->|Hv]; [contradiction|].
    apply IH; [exact Hv|]. intros H. apply elem_of_cons in H as [H|H]; auto.
Qed.

Lemma uniqueArray_keep_first (items : list (option jsstring)) :
  uniqueArray items = keep_first [] (omap cleanText items).
Proof.
  unfold uniqueArray. rewrite (uniqueArray_loop_keep_first _ ∅ [] []); [reflexivity|].
  intros v. rewrite elem_of_empty, elem_of_nil. tauto.
Qed.

Lemma uniqueArray_complete (items : list (option jsstring)) (item : option jsstring)
    (v : jsstring) :
  item ∈ items -> cleanText item = Some v -> v ∈ uniqueArray items.
Proof.
  intros Hin Hc. rewrite uniqueArray_keep_first.
  apply keep_first_elem; [|apply not_elem_of_nil].
  apply list_elem_of_omap. exists item. auto.
Qed.

(** X2. [uniqueArray] on strings gives the cleaned texts of the non-blank
    items, each once, in the order of their first occurrence; a second
    application changes nothing. *)
Theorem uniqueArray_first_occurrences (items : list (option jsstring)) :
  uniqueArray items = keep_first [] (omap cleanText items) /\
  NoDup (uniqueArray items) /\
  (forall v, v ∈ uniqueArray items <-> exists item, item ∈ items /\ cleanText item = Some v) /\
  uniqueArray (map Some (uniqueArray items)) = uniqueArray items.
Proof.
  split; [apply uniqueArray_keep_first|]. split; [apply uniqueArray_NoDup|].
  split; [|apply uniqueArray_idem].
  intros v. split; [apply uniqueArray_elem|].
  intros (item & Hin & Hc). eapply uniqueArray_complete; eassumption.
Qed.

(** *** [ensureAbsoluteUrl] *)

(** X3. Whatever non-empty string [ensureAbsoluteUrl] is given, the result
    starts with [http], ends with the input, and is left unchanged by a
    second application; the result is [null] exactly for [null] and the
    empty string. *)
Theorem ensureAbsoluteUrl_absolute (u : option jsstring) :
  match ensureAbsoluteUrl u with
  | Some a =>
      startsWith a (str "http") = true /\
      (exists pre, a = pre ++ default [] u) /\
      ensureAbsoluteUrl (Some a) = Some a
  | None => u = None \/ u = Some []
  end.
Proof.
  destruct (ensureAbsoluteUrl u) as [a|] eqn:E.
  - pose proof (ensureAbsoluteUrl_http u a E) as Hh.
    split; [exact Hh|]. split; [|apply ensureAbsoluteUrl_fix; exact Hh].
    destruct u as [[|c u]|]; cbn [ensureAbsoluteUrl] in E; try discriminate.
    cbn [default from_option id].
    destruct (startsWith (c :: u) (str "http")).
    { injection E as <-. exists []. reflexivity. }
    destruct (startsWith (c :: u) (str "//")).
    { injection E as <-. exists (str "https:"). reflexivity. }
    injection E as <-.
    exists (BASE_URL ++ (if startsWith (c :: u) (str "/") then [] else str "/")).
    rewrite <- app_assoc. reflexivity.
  - destruct u as [[|c u]|]; cbn [ensureAbsoluteUrl] in E; auto.
    destruct (startsWith (c :: u) (str "http")); [discriminate|].
    destruct (startsWith (c :: u) (str "//")); discriminate.
Qed.

(** *** [extractPropertyId] *)

Lemma star_chain_suffix (R : option ascii -> jsstring -> option ascii -> jsstring -> Prop) :
  (forall prev s p' s', R prev s p' s' -> exists m, s = m ++ s' /\ p' = before prev m) ->
  forall prev s p' s', star_chain R prev s p' s' -> exists m, s = m ++ s' /\ p' = before prev m.
Proof.
  intros HR prev s p' s' H.
  induction H as [prev s | prev s p1 s1 p2 s2 H1 _ _ (m2 & -> & ->)].
  - exists []. auto.
  - destruct (HR _ _ _ _ H1) as (m1 & -> & ->).
    exists (m1 ++ m2). rewrite before_app, app_assoc. auto.
Qed.

(** What a match consumes is a prefix of the text. *)
Lemma rsem_suffix (r : regex) :
  forall prev s p' s', rsem r prev s p' s' -> exists m, s = m ++ s' /\ p' = before prev m.
Proof.
  induction r as [p| |r1 IH1 r2 IH2|r1 IH1 r2 IH2|r IH|]; intros prev s p' s'; cbn [rsem].
  - intros (c & -> & _ & ->). exists [c]. auto.
  - intros [-> ->]. exists []. auto.
  - intros (pm & sm & H1 & H2).
    destruct (IH1 _ _ _ _ H1) as (m1 & -> & ->). destruct (IH2 _ _ _ _ H2) as (m2 & -> & ->).
    exists (m1 ++ m2). rewrite before_app, app_assoc. auto.
  - intros [H|H]; [apply (IH1 _ _ _ _ H) | apply (IH2 _ _ _ _ H)].
  - apply star_chain_suffix. exact IH.
  - intros (_ & -> & ->). exists []. auto.
Qed.

(** The text found by the search is matched where it stands. *)
Lemma re_find_from_text (r : regex) (s : jsstring) (prev : option ascii) (m : jsstring) :
  re_find_from r prev s = Some m ->
  exists pre s' p', s = pre ++ m ++ s' /\ rsem r (before prev pre) (m ++ s') p' s'.
Proof.
  assert (Hhere : forall prev s x,
             rmatch r prev s (fun _ s' => Some s') = Some x ->
             exists p', s = take (length s - length x) s ++ x /\
                        rsem r prev (take (length s - length x) s ++ x) p' x).
  { intros prev0 s0 x E. destruct (rmatch_sound _ _ _ _ _ E) as (p' & s' & H & Hk).
    injection Hk as ->. destruct (rsem_suffix _ _ _ _ _ H) as (m0 & -> & _).
    rewrite length_app, Nat.add_sub, take_app_length. eauto. }
  revert prev. induction s as [|c s IH]; intros prev; cbn [re_find_from].
  - destruct (rmatch r prev [] _) as [x|] eqn:E; [|discriminate].
    intros H; injection H as <-. destruct (Hhere _ _ _ E) as (p' & E1 & H).
    exists [], x, p'. split; [exact E1 | exact H].
  - destruct (rmatch r prev (c :: s) _) as [x|] eqn:E.
    + intros H; injection H as <-. destruct (Hhere _ _ _ E) as (p' & E1 & H).
      exists [], x, p'. split; [exact E1 | exact H].
    + intros H. destruct (IH _ H) as (pre & s' & p' & -> & Hs).
      exists (c :: pre), s', p'. split; [reflexivity|]. rewrite before_cons. exact Hs.
Qed.

Lemma rsem_literal_last (ci : bool) (w : jsstring) (x : ascii) :
  forall prev s p' s',
    rsem (RLit ci (w ++ [x])) prev s p' s' ->
    exists c, p' = Some c /\ (if ci then char_eq_ci x c else char_eqb x c) = true.
Proof.
  induction w as [|y w IH]; intros prev s p' s'; cbn [app RLit rsem].
  - intros (pm & sm & (c & -> & Hc & ->) & (-> & ->)). exists c.
    split; [reflexivity|]. destruct ci; exact Hc.
  - intros (pm & sm & _ & H). apply (IH _ _ _ _ H).
Qed.

Lemma ci_slash (c : ascii) : char_eq_ci (chr "/") c = true -> is_digit c = false.
Proof.
  destruct c as [[] [] [] [] [] [] [] []]; vm_compute; intros H;
    first [reflexivity | discriminate H].
Qed.

Lemma takeWhile_app_all {A} (p : A -> bool) (a b : list A) :
  forallb p a = true -> takeWhile p (a ++ b) = a ++ takeWhile p b.
Proof.
  induction a as [|x a IH]; simpl; [reflexivity|].
  intros [Hx Ha]%andb_prop. rewrite Hx, IH by exact Ha. reflexivity.
Qed.

Lemma forallb_rev {A} (p : A -> bool) (l : list A) : forallb p (rev l) = forallb p l.
Proof.
  induction l as [|x l IH]; [reflexivity|]. simpl.
  rewrite forallb_app, IH. simpl. rewrite andb_true_r, andb_comm. reflexivity.
Qed.

(** The digits at the end of a text whose part before them ends in a
    code unit that is not a digit. *)
Lemma trailing_digits (m : jsstring) (sep : ascii) (ds : jsstring) :
  is_digit sep = false -> forallb is_digit ds = true ->
  rev (takeWhile is_digit (rev ((m ++ [sep]) ++ ds))) = ds.
Proof.
  intros Hs Hd. rewrite !rev_app_distr. cbn [rev app].
  rewrite takeWhile_app_all by (rewrite forallb_rev; exact Hd).
  cbn [app takeWhile]. rewrite Hs, app_nil_r. apply rev_involutive.
Qed.

Lemma before_Some_snoc (prev : option ascii) (m : jsstring) (c : ascii) :
  before prev m = Some c -> prev = Some c /\ m = [] \/ exists m', m = m' ++ [c].
Proof.
  unfold before. destruct m as [|d m] using rev_ind.
  - simpl. auto.
  - rewrite last_snoc. intros H; injection H as ->. right. eauto.
Qed.

Lemma rsem_seq_class_shrinks (p : ascii -> bool) (Y : regex) (q : option ascii)
    (t : jsstring) (q' : option ascii) (t' : jsstring) :
  rsem (RSeq (RClass p) Y) q t q' t' -> (length t' < length t)%nat.
Proof.
  intros (pm & sm & (c & -> & _ & _) & H).
  apply rsem_suffix in H as (m & -> & _). simpl. rewrite length_app. lia.
Qed.

Lemma rsem_seq_then_class (X : regex) (p : ascii -> bool) (q : option ascii)
    (t : jsstring) (q' : option ascii) (t' : jsstring) :
  rsem (RSeq X (RClass p)) q t q' t' -> (length t' < length t)%nat.
Proof.
  intros (pm & sm & H & (c & -> & _ & _)).
  apply rsem_suffix in H as (m & -> & _). rewrite length_app. simpl. lia.
Qed.

(** The three alternatives of the pattern: a separator that is not a
    digit, then the digits of the group. *)
Lemma rsem_property_id (prev : option ascii) (s : jsstring) (p' : option ascii)
    (s' : jsstring) :
  rsem re_property_id prev s p' s' ->
  exists m sep ds, s = (m ++ [sep]) ++ ds ++ s' /\ is_digit sep = false /\
                   ds <> [] /\ forallb is_digit ds = true.
Proof.
  assert (Hfin : forall X pm sm sep,
             rsem X prev s pm sm -> pm = Some sep -> is_digit sep = false ->
             rsem (RPlus (RClass is_digit)) pm sm p' s' ->
             (forall q t q' t', rsem X q t q' t' -> (length t' < length t)%nat) ->
             exists m sep ds, s = (m ++ [sep]) ++ ds ++ s' /\ is_digit sep = false /\
                              ds <> [] /\ forallb is_digit ds = true).
  { intros X pm sm sep HX Hpm Hsep Hd Hne.
    pose proof (Hne _ _ _ _ HX) as Hlen.
    destruct (rsem_suffix _ _ _ _ _ HX) as (mX & -> & E).
    apply rsem_plus_class in Hd as (ds & Hds & -> & Hall & _).
    rewrite Hpm in E. symmetry in E.
    destruct (before_Some_snoc _ _ _ E) as [[Hprev ->]|[m' ->]].
    - simpl in Hlen. lia.
    - exists m', sep, ds. auto. }
  unfold re_property_id. cbv zeta. cbn [rsem].
  intros [H|[H|H]].
  - destruct H as (pm & sm & HX & Hd).
    destruct (rsem_literal_last true (str "/properties") (chr "/") _ _ _ _ HX) as (c & E & Hc).
    eapply Hfin; [exact HX | exact E | apply ci_slash; exact Hc | exact Hd |].
    intros q t q' t'. apply (rsem_seq_class_shrinks _ (RLit true (str "properties/"))).
  - destruct H as (pm & sm & HX & pm2 & sm2 & (c & -> & Hc & ->) & Hd).
    eapply (Hfin (RSeq (RLit true (str "propertyId"))
                    (RClass (fun c => char_eqb (chr "=") c || char_eqb (chr ":") c))));
      [exists pm, (c :: sm2); split; [exact HX | exists c; auto] | reflexivity | | exact Hd |].
    + apply orb_prop in Hc as [Hc|Hc]; apply Ascii.eqb_eq in Hc; subst c; reflexivity.
    + intros q t q' t'. apply rsem_seq_then_class.
  - destruct H as (pm & sm & HX & pm2 & sm2 & (c & -> & Hc & ->) & Hd).
    eapply (Hfin (RSeq (RLit true (str "#properties"))
                    (RClass (fun c => char_eqb (chr "=") c || char_eqb (chr "/") c))));
      [exists pm, (c :: sm2); split; [exact HX | exists c; auto] | reflexivity | | exact Hd |].
    + apply orb_prop in Hc as [Hc|Hc]; apply Ascii.eqb_eq in Hc; subst c; reflexivity.
    + intros q t q' t'. apply rsem_seq_then_class.
Qed.

Lemma re_find_from_step (r : regex) (prev : option ascii) (c : ascii) (s : jsstring) :
  rmatch r prev (c :: s) (fun _ s' => Some s') = None ->
  re_find_from r prev (c :: s) = re_find_from r (Some c) s.
Proof. intros H. cbn [re_find_from]. rewrite H. reflexivity. Qed.

Lemma re_find_from_here (r : regex) (prev : option ascii) (m rest : jsstring) :
  rmatch r prev (m ++ rest) (fun _ s' => Some s') = Some rest ->
  re_find_from r prev (m ++ rest) = Some m.
Proof.
  intros H. destruct (m ++ rest) as [|c s] eqn:E; cbn [re_find_from]; rewrite H; f_equal;
    rewrite <- E, length_app, Nat.add_sub, take_app_length; reflexivity.
Qed.

(** No match of the pattern starts with two code units that do not open
    one of its three markers. *)
Lemma property_id_no_start (c1 c2 : ascii) (s : jsstring) (prev : option ascii) :
  (char_eq_ci (chr "/") c1 && char_eq_ci (chr "p") c2)
  || (char_eq_ci (chr "p") c1 && char_eq_ci (chr "r") c2)
  || (char_eq_ci (chr "#") c1 && char_eq_ci (chr "p") c2) = false ->
  rmatch re_property_id prev (c1 :: c2 :: s) (fun _ s' => Some s') = None.
Proof.
  intros H. apply orb_false_elim in H as [H H3]. apply orb_false_elim in H as [H1 H2].
  unfold re_property_id. cbv zeta.
  cbn [rmatch RLit str list_ascii_of_string].
  change (char_eq_ci "/"%char c1) with (char_eq_ci (chr "/") c1).
  change (char_eq_ci "p"%char c2) with (char_eq_ci (chr "p") c2).
  change (char_eq_ci "p"%char c1) with (char_eq_ci (chr "p") c1).
  change (char_eq_ci "r"%char c2) with (char_eq_ci (chr "r") c2).
  change (char_eq_ci "#"%char c1) with (char_eq_ci (chr "#") c1).
  destruct (char_eq_ci (chr "/") c1), (char_eq_ci (chr "p") c2), (char_eq_ci (chr "p") c1),
    (char_eq_ci (chr "r") c2), (char_eq_ci (chr "#") c1);
    try discriminate; reflexivity.
Qed.

Lemma rmatch_literal_ci {A} (w m : jsstring) (prev : option ascii) (rest : jsstring)
    (k : option ascii -> jsstring -> option A) :
  Forall2 (fun x c => char_eq_ci x c = true) w m ->
  rmatch (RLit true w) prev (m ++ rest) k = k (before prev m) rest.
Proof.
  intros H. revert prev. induction H as [|x c w m Hxc _ IH]; intros prev.
  - reflexivity.
  - cbn [RLit rmatch app]. rewrite Hxc, IH, before_cons. reflexivity.
Qed.

Lemma rmatch_digits {A} (prev : option ascii) (d rest : jsstring)
    (k : option ascii -> jsstring -> option A) :
  d <> [] -> forallb is_digit d = true -> digit_head rest = false ->
  is_Some (k (before prev d) rest) ->
  rmatch (RPlus (RClass is_digit)) prev (d ++ rest) k = k (before prev d) rest.
Proof.
  intros Hne Hd Hr Hk. destruct d as [|d0 d]; [contradiction|].
  simpl in Hd. apply andb_prop in Hd as [Hd0 Hd].
  unfold RPlus. cbn [rmatch app]. rewrite Hd0.
  rewrite before_cons in *.
  apply rmatch_star_class; [exact Hd | apply digit_head_false; exact Hr | exact Hk].
Qed.

Lemma property_id_here (prev : option ascii) (d rest : jsstring) :
  d <> [] -> forallb is_digit d = true -> digit_head rest = false ->
  rmatch re_property_id prev ((str "/properties/" ++ d) ++ rest) (fun _ s' => Some s')
  = Some rest.
Proof.
  intros Hne Hd Hr. unfold re_property_id. cbv zeta. cbn [rmatch].
  rewrite <- app_assoc.
  rewrite (rmatch_literal_ci (str "/properties/") (str "/properties/")).
  - rewrite rmatch_digits; eauto.
  - repeat constructor.
Qed.

Lemma extractPropertyId_sound (u : option jsstring) (id : jsstring) :
  extractPropertyId u = Some id ->
  id <> [] /\ forallb is_digit id = true /\
  exists pre sep post, u = Some (pre ++ sep :: id ++ post) /\ is_digit sep = false.
Proof.
  unfold extractPropertyId.
  destruct u as [[|c u]|]; try discriminate.
  destruct (re_find re_property_id (c :: u)) as [m|] eqn:E; [|discriminate].
  intros H. injection H as <-.
  apply re_find_from_text in E as (pre & s' & p' & Eu & Hsem).
  apply rsem_property_id in Hsem as (m0 & sep & ds & Em & Hsep & Hne & Hds).
  rewrite app_assoc in Em. apply app_inv_tail in Em. subst m.
  rewrite trailing_digits by assumption.
  split; [exact Hne|]. split; [exact Hds|].
  exists (pre ++ m0), sep, s'. split; [|exact Hsep].
  rewrite Eu. f_equal. rewrite <- !app_assoc. reflexivity.
Qed.

(** X4. The identifier [extractPropertyId] finds is a non-empty run of
    digits of the URL that follows a code unit which is not a digit; a
    URL without a digit gives [null]; and a listing URL of the site,
    [<base>/properties/<digits>] followed by anything that does not start
    with a digit, gives exactly those digits. *)
Theorem extractPropertyId_digits :
  (forall u id,
     extractPropertyId u = Some id ->
     id <> [] /\ forallb is_digit id = true /\
     exists pre sep post, u = Some (pre ++ sep :: id ++ post) /\ is_digit sep = false) /\
  (forall s, no_digit s = true -> extractPropertyId (Some s) = None) /\
  (forall d rest,
     d <> [] -> forallb is_digit d = true -> digit_head rest = false ->
     extractPropertyId (Some (BASE_URL ++ str "/properties/" ++ d ++ rest)) = Some d).
Proof.
  pose proof extractPropertyId_sound as Hsound.
  split; [exact Hsound|]. split.
  - intros s Hs. destruct (extractPropertyId (Some s)) as [id|] eqn:E; [|reflexivity].
    exfalso. destruct (Hsound _ _ E) as (Hne & Hd & pre & sep & post & Eu & _).
    injection Eu as ->. destruct id as [|d id]; [contradiction|].
    unfold no_digit in Hs. rewrite forallb_app in Hs. simpl in Hs, Hd.
    apply andb_prop in Hd as [Hd _]. rewrite Hd in Hs. simpl in Hs.
    rewrite !andb_false_r in Hs. discriminate.
  - intros d rest Hne Hd Hr. unfold extractPropertyId.
    assert (E : re_find re_property_id (BASE_URL ++ str "/properties/" ++ d ++ rest)
                = Some (str "/properties/" ++ d)).
    { unfold re_find. cbn [BASE_URL str list_ascii_of_string app].
      do 27 (rewrite re_find_from_step by (apply property_id_no_start; reflexivity)).
      apply (re_find_from_here _ _ (str "/properties/" ++ d) rest).
      apply property_id_here; assumption. }
    rewrite E. cbn [BASE_URL str list_ascii_of_string app]. f_equal.
    apply (trailing_digits (str "/properties") (chr "/") d); [reflexivity | exact Hd].
Qed.

(** *** Embedded JSON *)

Ltac char_eval :=
  repeat match goal with
         | |- context [char_eqb ?a ?b] =>
             let v := eval vm_compute in (char_eqb a b) in
             match v with
             | true => change (char_eqb a b) with true
             | false => change (char_eqb a b) with false
             end
         end.

Lemma option_map_cons_app (c : ascii) (l : jsstring) (x : option jsstring) :
  option_map (cons c) (option_map (app l) x) = option_map (app (c :: l)) x.
Proof. destruct x; reflexivity. Qed.

Lemma option_map_app_app (a b : jsstring) (x : option jsstring) :
  option_map (app a) (option_map (app b) x) = option_map (app (a ++ b)) x.
Proof. destruct x; simpl; [rewrite app_assoc|]; reflexivity. Qed.

(** Inside a string literal the scan goes on to the closing quote. *)
Lemma scan_string_content (content : list schar) (depth : Z) (k : jsstring) :
  forallb schar_ok content = true ->
  balanced_scan depth true false (flat_map render_schar content ++ dquote :: k)
  = option_map (app (flat_map render_schar content ++ [dquote]))
      (balanced_scan depth false false k).
Proof.
  induction content as [|sc content IH]; intros Hok.
  - cbn [flat_map app balanced_scan]. char_eval. cbn [negb].
    destruct (balanced_scan depth false false k); reflexivity.
  - cbn [forallb] in Hok. apply andb_prop in Hok as [Hsc Hok].
    destruct sc as [c|c]; cbn [flat_map render_schar app balanced_scan].
    + cbn [schar_ok] in Hsc. apply andb_prop in Hsc as [H1 H2].
      apply negb_true_iff in H1, H2. rewrite H1, H2, (IH Hok).
      apply option_map_cons_app.
    + char_eval. cbn [option_map]. rewrite (IH Hok).
      rewrite option_map_cons_app. apply option_map_cons_app.
Qed.

(** Outside string literals the scan follows the depth of the braces. *)
Lemma scan_tokens (toks : list jtoken) :
  forall depth depth' k,
    forallb token_ok toks = true -> depth_after depth toks = Some depth' ->
    balanced_scan depth false false (render toks ++ k)
    = option_map (app (render toks)) (balanced_scan depth' false false k).
Proof.
  induction toks as [|t toks IH]; intros depth depth' k Hok Hd.
  - cbn in Hd. injection Hd as <-. cbn [render flat_map app].
    destruct (balanced_scan depth false false k); reflexivity.
  - cbn [forallb] in Hok. apply andb_prop in Hok as [Ht Hok].
    change (render (t :: toks)) with (render_token t ++ render toks).
    rewrite <- app_assoc.
    destruct t as [c|content| |]; cbn [depth_after] in Hd.
    + cbn [token_ok] in Ht. apply andb_prop in Ht as [Ht H3]. apply andb_prop in Ht as [H1 H2].
      apply negb_true_iff in H1, H2, H3.
      cbn [render_token app balanced_scan]. rewrite H1, H2, H3.
      destruct (char_eqb (chr "\") c); rewrite (IH _ _ _ Hok Hd); apply option_map_cons_app.
    + cbn [render_token app balanced_scan]. char_eval. cbn [negb].
      rewrite <- app_assoc. cbn [app].
      rewrite (scan_string_content content depth _ Ht), (IH _ _ _ Hok Hd).
      rewrite option_map_app_app, option_map_cons_app. reflexivity.
    + cbn [render_token app balanced_scan]. char_eval.
      rewrite (IH _ _ _ Hok Hd). apply option_map_cons_app.
    + cbn [render_token app balanced_scan]. char_eval.
      destruct (depth - 1 =? 0)%Z; [discriminate|].
      rewrite (IH _ _ _ Hok Hd). apply option_map_cons_app.
Qed.

Lemma scan_prefix (s : jsstring) :
  forall depth inString escape j,
    balanced_scan depth inString escape s = Some j ->
    exists rest, s = j ++ rest /\ last j = Some (chr "}").
Proof.
  assert (Hcons : forall (ch : ascii) (s' : jsstring) (x : option jsstring) (j : jsstring),
             (forall j', x = Some j' -> exists rest, s' = j' ++ rest /\ last j' = Some (chr "}")) ->
             option_map (cons ch) x = Some j ->
             exists rest, ch :: s' = j ++ rest /\ last j = Some (chr "}")).
  { intros ch s' x j Hx E. destruct x as [j'|]; [|discriminate]. injection E as <-.
    destruct (Hx j' eq_refl) as (rest & -> & Hl). exists rest. split; [reflexivity|].
    destruct j'; [discriminate | exact Hl]. }
  induction s as [|ch s IH]; intros depth inString escape j; cbn [balanced_scan];
    [discriminate|].
  destruct escape; [apply Hcons; intros j'; apply IH|].
  destruct (char_eqb (chr "\") ch); [apply Hcons; intros j'; apply IH|].
  destruct (char_eqb dquote ch); [apply Hcons; intros j'; apply IH|].
  destruct inString; [apply Hcons; intros j'; apply IH|].
  cbv zeta. destruct (char_eqb (chr "}") ch) eqn:E; [|apply Hcons; intros j'; apply IH].
  match goal with |- context [(?d =? 0)%Z] => destruct (d =? 0)%Z end;
    [|apply Hcons; intros j'; apply IH].
  intros H. injection H as <-. exists s. split; [reflexivity|].
  apply Ascii.eqb_eq in E. subst ch. reflexivity.
Qed.

Lemma balanced_object_slice (rest : jsstring) (body : list jtoken) :
  forallb token_ok body = true -> depth_after 1 body = Some 1%Z ->
  balanced_scan 0 false false (chr "{" :: render body ++ chr "}" :: rest)
  = Some (chr "{" :: render body ++ [chr "}"]).
Proof.
  intros Hok Hd.
  cbn [balanced_scan]. char_eval. cbv zeta. cbn [Z.add].
  rewrite (scan_tokens body 1 1 _ Hok Hd).
  cbn [balanced_scan]. char_eval. cbn. reflexivity.
Qed.

(** X5. [extractBalancedJson] returns a whole object text: when the text
    from [startIndex] on is an opening brace, pieces whose braces outside
    string literals are balanced, and a closing brace, the slice returned
    is exactly that object, whatever comes before and after it; braces
    and escaped quotes inside string literals do not end it early. *)
Theorem extractBalancedJson_object (pre rest : jsstring) (body : list jtoken) :
  forallb token_ok body = true -> depth_after 1 body = Some 1%Z ->
  extractBalancedJson (pre ++ chr "{" :: render body ++ chr "}" :: rest) (length pre)
  = Some (chr "{" :: render body ++ [chr "}"]).
Proof.
  intros Hok Hd. unfold extractBalancedJson. rewrite drop_app_length.
  apply balanced_object_slice; assumption.
Qed.

Lemma extractBalancedJson_object_witness :
  extractBalancedJson
    (str "x = " ++ chr "{" :: render example_body ++ chr "}" :: str "; y = {}") 4
  = Some (chr "{" :: render example_body ++ [chr "}"]).
Proof. apply (extractBalancedJson_object (str "x = ")); reflexivity. Defined.

(** X6. What [extractBalancedJson] never does, and when it gives up: a
    slice it returns starts at [startIndex] and ends with a closing brace;
    it returns [null] when [startIndex] is at or past the end of the
    text, and when the braces outside string literals never come back to
    depth zero at a closing brace (a text cut short, for one). *)
Theorem extractBalancedJson_edges :
  (forall text startIndex j,
     extractBalancedJson text startIndex = Some j ->
     (exists rest, drop startIndex text = j ++ rest) /\ last j = Some (chr "}")) /\
  (forall text startIndex,
     (length text <= startIndex)%nat -> extractBalancedJson text startIndex = None) /\
  (forall pre toks depth,
     forallb token_ok toks = true -> depth_after 0 toks = Some depth ->
     extractBalancedJson (pre ++ render toks) (length pre) = None).
Proof.
  split; [|split].
  - intros text startIndex j H. apply scan_prefix in H as (rest & E & Hl). eauto.
  - intros text startIndex H. unfold extractBalancedJson. rewrite drop_ge by exact H.
    reflexivity.
  - intros pre toks depth Hok Hd. unfold extractBalancedJson. rewrite drop_app_length.
    rewrite <- (app_nil_r (render toks)), (scan_tokens toks 0 depth [] Hok Hd). reflexivity.
Qed.

Lemma indexOf_at_found (n : nat) :
  forall s p i0,
    (n <= length s)%nat -> startsWith (drop n s) p = true ->
    (forall m, (m < n)%nat -> startsWith (drop m s) p = false) ->
    indexOf_at s p i0 = Some (i0 + n)%nat.
Proof.
  induction n as [|n IH]; intros s p i0 Hn Hat Hbefore.
  - rewrite drop_0 in Hat. rewrite Nat.add_0_r. destruct s; cbn [indexOf_at]; rewrite Hat;
      reflexivity.
  - destruct s as [|c s]; [simpl in Hn; lia|].
    cbn [indexOf_at]. pose proof (Hbefore 0%nat ltac:(lia)) as H0.
    rewrite drop_0 in H0. rewrite H0.
    rewrite (IH s p (S i0)).
    + f_equal. lia.
    + simpl in Hn. lia.
    + exact Hat.
    + intros m Hm. apply (Hbefore (S m)). lia.
Qed.

Lemma indexOf_at_includes (s p : jsstring) (i0 : nat) :
  includes s p = false -> indexOf_at s p i0 = None.
Proof.
  revert i0. induction s as [|c s IH]; intros i0; cbn [includes indexOf_at];
    intros [H1 H2]%orb_false_elim; rewrite H1; [reflexivity | apply IH; exact H2].
Qed.

Lemma startsWith_brace (c : ascii) (s : jsstring) :
  startsWith (c :: s) (str "{") = char_eqb (chr "{") c.
Proof. cbn [str list_ascii_of_string startsWith]. apply andb_true_r. Qed.

Lemma indexOf_at_brace (mid k : jsstring) (i0 : nat) :
  forallb (fun c => negb (char_eqb (chr "{") c)) mid = true ->
  indexOf_at (mid ++ chr "{" :: k) (str "{") i0 = Some (i0 + length mid)%nat.
Proof.
  revert i0. induction mid as [|c mid IH]; intros i0 H.
  - cbn [app indexOf_at]. rewrite startsWith_brace. char_eval.
    rewrite Nat.add_0_r. reflexivity.
  - cbn [forallb] in H. apply andb_prop in H as [Hc H]. apply negb_true_iff in Hc.
    cbn [app indexOf_at]. rewrite startsWith_brace, Hc.
    rewrite (IH (S i0) H). f_equal. simpl. lia.
Qed.

Lemma omap_length_le {A B} (f : A -> option B) (l : list A) :
  (length (omap f l) <= length l)%nat.
Proof.
  induction l as [|x l IH]; [simpl; lia|].
  cbn [omap list_omap]. destruct (f x); simpl; fold (omap f l); lia.
Qed.

Section EmbeddedJsonProperties.
Context {J : Type}.
Variable JSON_parse : jsstring -> option J.

(** X7. [extractJsonAfterMarker] hands to [JSON.parse] exactly the object
    that follows the first occurrence of the marker: when no opening
    brace stands between the marker and the object, and the braces of the
    object are balanced outside its string literals, the result is what
    [JSON.parse] gives for the text of that object, whatever follows. *)
Theorem extractJsonAfterMarker_object (pre marker mid rest : jsstring) (body : list jtoken) :
  (forall j, (j < length pre)%nat ->
     startsWith (drop j (pre ++ marker ++ mid ++ chr "{" :: render body ++ chr "}" :: rest))
       marker = false) ->
  forallb (fun c => negb (char_eqb (chr "{") c)) mid = true ->
  forallb token_ok body = true -> depth_after 1 body = Some 1%Z ->
  extractJsonAfterMarker JSON_parse
    (pre ++ marker ++ mid ++ chr "{" :: render body ++ chr "}" :: rest) marker
  = JSON_parse (chr "{" :: render body ++ [chr "}"]).
Proof.
  intros Hfirst Hmid Hok Hd. unfold extractJsonAfterMarker, indexOf.
  set (html := pre ++ marker ++ mid ++ chr "{" :: render body ++ chr "}" :: rest) in *.
  rewrite drop_0. cbn [Nat.min].
  rewrite (indexOf_at_found (length pre) html marker 0).
  - cbn [Nat.add].
    assert (Ed : drop (length pre + length marker) html
                 = mid ++ chr "{" :: render body ++ chr "}" :: rest).
    { unfold html. rewrite app_assoc, <- length_app. apply drop_app_length. }
    assert (Hlen : (length pre + length marker <= length html)%nat).
    { unfold html. rewrite !length_app. lia. }
    rewrite Ed, Nat.min_l by exact Hlen.
    rewrite indexOf_at_brace by exact Hmid.
    replace html with ((pre ++ marker ++ mid) ++ chr "{" :: render body ++ chr "}" :: rest)
      by (unfold html; rewrite <- !app_assoc; reflexivity).
    replace (length pre + length marker + length mid)%nat with (length (pre ++ marker ++ mid))
      by (rewrite !length_app; lia).
    unfold extractBalancedJson. rewrite drop_app_length.
    rewrite balanced_object_slice by assumption. reflexivity.
  - unfold html. rewrite length_app. lia.
  - unfold html. rewrite drop_app_length. apply startsWith_spec. eexists. reflexivity.
  - exact Hfirst.
Qed.

(** X8. When [extractJsonAfterMarker] gives [null] without parsing: the
    marker does not occur in the page, or no opening brace follows its
    first occurrence.  [extractEmbeddedJson] gives at most six blobs, and
    none for a page without the [__NEXT_DATA__] script in which none of
    its markers occurs. *)
Theorem extractJsonAfterMarker_absent :
  (forall html marker,
     includes html marker = false -> extractJsonAfterMarker JSON_parse html marker = None) /\
  (forall pre marker tail,
     (forall j, (j < length pre)%nat ->
        startsWith (drop j (pre ++ marker ++ tail)) marker = false) ->
     includes tail (str "{") = false ->
     extractJsonAfterMarker JSON_parse (pre ++ marker ++ tail) marker = None) /\
  (forall html nextData,
     (length (extractEmbeddedJson JSON_parse html nextData) <= 6)%nat) /\
  (forall html,
     (forall marker, marker ∈ EMBEDDED_MARKERS -> includes html marker = false) ->
     extractEmbeddedJson JSON_parse html None = []).
Proof.
  split; [|split; [|split]].
  - intros html marker H. unfold extractJsonAfterMarker, indexOf. rewrite drop_0.
    rewrite indexOf_at_includes by exact H. reflexivity.
  - intros pre marker tail Hfirst Htail. unfold extractJsonAfterMarker, indexOf.
    rewrite drop_0. cbn [Nat.min].
    rewrite (indexOf_at_found (length pre) (pre ++ marker ++ tail) marker 0).
    + cbn [Nat.add].
      replace (drop (length pre + length marker) (pre ++ marker ++ tail)) with tail
        by (rewrite app_assoc, <- length_app, drop_app_length; reflexivity).
      rewrite indexOf_at_includes by exact Htail. reflexivity.
    + rewrite length_app. lia.
    + rewrite drop_app_length. apply startsWith_spec. eexists. reflexivity.
    + exact Hfirst.
  - intros html nextData. unfold extractEmbeddedJson. destruct html as [|c html]; [simpl; lia|].
    rewrite length_app.
    pose proof (omap_length_le (extractJsonAfterMarker JSON_parse (c :: html))
                  EMBEDDED_MARKERS) as H.
    destruct nextData; simpl in *; lia.
  - intros html H. unfold extractEmbeddedJson. destruct html as [|c html]; [reflexivity|].
    cbn [option_list app].
    assert (E : forall l, (forall marker, marker ∈ l -> includes (c :: html) marker = false) ->
                          omap (extractJsonAfterMarker JSON_parse (c :: html)) l = []).
    { induction l as [|m l IH]; intros Hl; [reflexivity|].
      cbn [omap list_omap]. unfold extractJsonAfterMarker at 1, indexOf.
      rewrite drop_0, indexOf_at_includes by (apply Hl; left).
      apply IH. intros marker Hm. apply Hl. right. exact Hm. }
    apply E. exact H.
Qed.
End EmbeddedJsonProperties.

Lemma extractJsonAfterMarker_object_witness :
  extractJsonAfterMarker Some example_html (str "window.PAGE_MODEL")
  = Some (chr "{" :: render example_body ++ [chr "}"]).
Proof.
  apply (extractJsonAfterMarker_object Some (str "<script>") (str "window.PAGE_MODEL")
           (str " = ") (str ";</script>") example_body);
    [|reflexivity|reflexivity|reflexivity].
  intros j Hj. change (length (str "<script>")) with 8%nat in Hj.
  do 8 (destruct j as [|j]; [reflexivity|]). lia.
Defined.

(** *** The details mapping *)

Lemma lower_char_not_upper (c : ascii) : is_upper (lower_char c) = false.
Proof. destruct c as [[] [] [] [] [] [] [] []]; vm_compute; reflexivity. Qed.

Lemma existsb_key_matches (key : jsstring) (keywords : list jsstring) :
  existsb (fun keyword => includes (toLowerCase key) keyword) keywords = true
  <-> key_matches key keywords.
Proof.
  unfold key_matches. rewrite existsb_exists. split.
  - intros (kw & Hin & Hk). exists kw. split; [apply list_elem_of_In; exact Hin|].
    apply includes_spec. exact Hk.
  - intros (kw & Hin & Hk). exists kw. split; [apply list_elem_of_In; exact Hin|].
    apply includes_spec. exact Hk.
Qed.

(** X9. [getDetailValue] returns the value of the first entry whose
    lower-cased key contains one of the keywords, and [null] when there is
    none.  The keywords are compared as they are: a keyword with a capital
    letter never matches. *)
Theorem getDetailValue_first_match :
  (forall d keywords,
     match getDetailValue d keywords with
     | Some v =>
         exists before key after,
           d = before ++ (key, v) :: after /\ key_matches key keywords /\
           forall kv, kv ∈ before -> ~ key_matches (fst kv) keywords
     | None => forall kv, kv ∈ d -> ~ key_matches (fst kv) keywords
     end) /\
  (forall d keywords,
     (forall keyword, keyword ∈ keywords -> existsb is_upper keyword = true) ->
     getDetailValue d keywords = None).
Proof.
  assert (Hfirst : forall d keywords,
     match getDetailValue d keywords with
     | Some v =>
         exists before key after,
           d = before ++ (key, v) :: after /\ key_matches key keywords /\
           forall kv, kv ∈ before -> ~ key_matches (fst kv) keywords
     | None => forall kv, kv ∈ d -> ~ key_matches (fst kv) keywords
     end).
  { intros d keywords. induction d as [|[key value] d IH]; cbn [getDetailValue].
    - intros kv H. inversion H.
    - destruct (existsb _ keywords) eqn:E.
      + exists [], key, d. split; [reflexivity|]. split; [apply existsb_key_matches; exact E|].
        intros kv H. inversion H.
      + assert (Hkey : ~ key_matches key keywords).
        { intros H. apply existsb_key_matches in H. congruence. }
        destruct (getDetailValue d keywords) as [v|].
        * destruct IH as (before & k & after & -> & Hm & Hb).
          exists ((key, value) :: before), k, after. split; [reflexivity|].
          split; [exact Hm|]. intros kv [->|H]%elem_of_cons; [exact Hkey | apply Hb, H].
        * intros kv [->|H]%elem_of_cons; [exact Hkey | apply IH, H]. }
  split; [exact Hfirst|].
  intros d keywords Hup. specialize (Hfirst d keywords).
  destruct (getDetailValue d keywords) as [v|]; [|reflexivity].
  exfalso. destruct Hfirst as (_ & key & _ & _ & (kw & Hin & pre & post & E) & _).
  specialize (Hup kw Hin). apply existsb_exists in Hup as (c & Hc & Hu).
  assert (Hc' : In c (toLowerCase key)).
  { rewrite E. apply in_or_app. right. apply in_or_app. left. exact Hc. }
  unfold toLowerCase in Hc'. apply in_map_iff in Hc' as (c0 & <- & _).
  rewrite lower_char_not_upper in Hu. discriminate.
Qed.

Lemma last_clean_value_fold (k : jsstring) (l acc : jsobject) :
  obj_get k (fold_left clean_step l acc)
  = match last_clean_value k l with
    | Some v => Some v
    | None => obj_get k acc
    end.
Proof.
  revert acc. induction l as [|[key value] l IH]; intros acc; [reflexivity|].
  cbn [fold_left last_clean_value]. rewrite IH.
  destruct (last_clean_value k l) as [v|]; [reflexivity|].
  unfold clean_step. cbn [fst snd].
  destruct (cleanText (Some key)) as [ck|] eqn:Ek.
  - destruct (cleanText (Some value)) as [cv|] eqn:Ev.
    + rewrite obj_get_set. destruct (decide (ck = k)) as [->|Hne].
      * rewrite bool_decide_eq_true_2 by reflexivity. reflexivity.
      * rewrite bool_decide_eq_false_2 by congruence. reflexivity.
    + destruct (bool_decide (Some ck = Some k)); reflexivity.
  - rewrite bool_decide_eq_false_2 by discriminate. reflexivity.
Qed.

(** X10. The mapping [extractDetailsFromHtml] builds from the key/value
    texts of the page: its keys are pairwise distinct, keys and values
    are cleaned, non-empty texts, and looking a key up gives the cleaned
    value of the last pair with that cleaned key and a non-blank value (a
    later pair overwrites an earlier one, a pair with a blank key or
    value is ignored). *)
Theorem extractDetailsFromHtml_lookup (pairs : list (jsstring * jsstring)) :
  NoDup (map fst (extractDetailsFromHtml pairs)) /\
  Forall clean_entry (extractDetailsFromHtml pairs) /\
  forall k, obj_get k (extractDetailsFromHtml pairs) = last_clean_value k pairs.
Proof.
  unfold extractDetailsFromHtml. change clean_details with (fun d => fold_left clean_step d []).
  cbv beta. destruct (clean_details_fold pairs []) as [ND Hc]; [constructor | constructor |].
  split; [exact ND|]. split; [exact Hc|].
  intros k. rewrite last_clean_value_fold. destruct (last_clean_value k pairs); reflexivity.
Qed.

(** *** [normalizeProperty] *)

Lemma absolute_unique_entries (l : list jsstring) :
  NoDup (absolute_unique l) /\
  forall u, u ∈ absolute_unique l ->
            startsWith u (str "http") = true /\ cleanText (Some u) = Some u.
Proof.
  split; [apply uniqueArray_NoDup|].
  intros v Hv. destruct (uniqueArray_elem _ _ Hv) as (item & Hit & Hc).
  split; [|eapply cleanText_fix; exact Hc].
  apply list_elem_of_fmap in Hit as (u & -> & _).
  destruct (ensureAbsoluteUrl (Some u)) as [a|] eqn:Ha; [|discriminate].
  eapply cleanText_http; [|exact Hc]. eapply ensureAbsoluteUrl_http. exact Ha.
Qed.

Lemma unique_texts_entries (l : list jsstring) :
  NoDup (uniqueArray (map Some l)) /\
  forall v, v ∈ uniqueArray (map Some l) -> cleanText (Some v) = Some v.
Proof.
  split; [apply uniqueArray_NoDup|].
  intros v Hv. destruct (uniqueArray_elem _ _ Hv) as (item & _ & Hc).
  eapply cleanText_fix. exact Hc.
Qed.

Section NormalisedRecord.
(** [Number(s)] on strings belongs to the language runtime. *)
Variable StringToNumber : jsstring -> float.
Local Abbreviation normalizeProperty' := (normalizeProperty StringToNumber).

(** X11. The list fields of a normalised record: [images] and
    [floorplans] hold pairwise distinct URLs that all start with [http],
    [keyFeatures] and [features] hold pairwise distinct texts, every entry
    is a cleaned, non-empty text, and a list is present exactly when it
    was present before. *)
Theorem normalizeProperty_lists (p : property) :
  (forall l, images (normalizeProperty' p) = Some l ->
     NoDup l /\
     forall u, u ∈ l -> startsWith u (str "http") = true /\ cleanText (Some u) = Some u) /\
  (forall l, floorplans (normalizeProperty' p) = Some l ->
     NoDup l /\
     forall u, u ∈ l -> startsWith u (str "http") = true /\ cleanText (Some u) = Some u) /\
  (forall l, keyFeatures (normalizeProperty' p) = Some l ->
     NoDup l /\ forall v, v ∈ l -> cleanText (Some v) = Some v) /\
  (forall l, features (normalizeProperty' p) = Some l ->
     NoDup l /\ forall v, v ∈ l -> cleanText (Some v) = Some v) /\
  (is_Some (images (normalizeProperty' p)) <-> is_Some (images p)) /\
  (is_Some (floorplans (normalizeProperty' p)) <-> is_Some (floorplans p)) /\
  (is_Some (keyFeatures (normalizeProperty' p)) <-> is_Some (keyFeatures p)) /\
  (is_Some (features (normalizeProperty' p)) <-> is_Some (features p)).
Proof.
  cbn [normalizeProperty images floorplans keyFeatures features].
  split; [|split; [|split; [|split]]].
  - intros l. destruct (images p) as [l0|]; cbn [option_map]; [|discriminate].
    intros H; injection H as <-. apply absolute_unique_entries.
  - intros l. destruct (floorplans p) as [l0|]; cbn [option_map]; [|discriminate].
    intros H; injection H as <-. apply absolute_unique_entries.
  - intros l. destruct (keyFeatures p) as [l0|]; cbn [option_map]; [|discriminate].
    intros H; injection H as <-. apply unique_texts_entries.
  - intros l. destruct (features p) as [l0|]; cbn [option_map]; [|discriminate].
    intros H; injection H as <-. apply unique_texts_entries.
  - destruct (images p), (floorplans p), (keyFeatures p), (features p); cbn [option_map];
      repeat split; intros [x H]; first [discriminate H | eexists; reflexivity].
Qed.

Lemma or_str_clean (a b : option jsstring) (v : jsstring) :
  (forall w, a = Some w -> cleanText (Some w) = Some w) ->
  (forall w, b = Some w -> cleanText (Some w) = Some w) ->
  or_str a b = Some v -> cleanText (Some v) = Some v.
Proof.
  intros Ha Hb. unfold or_str. destruct (truthy_str a); [apply Ha | apply Hb].
Qed.

Lemma or_str_None (a b : option jsstring) :
  or_str a b = None -> b = None.
Proof.
  unfold or_str. destruct a as [[|c a]|]; cbn [truthy_str]; try discriminate; auto.
Qed.

Lemma clean_agent_fields (a a' : agent_t) :
  clean_agent a = Some a' ->
  a' = {| agent_name := cleanText (agent_name a);
          agent_phone := cleanText (agent_phone a);
          agent_address := cleanText (agent_address a);
          agent_website := cleanText (agent_website a) |} /\
  (is_Some (agent_name a') \/ is_Some (agent_phone a') \/
   is_Some (agent_address a') \/ is_Some (agent_website a')).
Proof.
  unfold clean_agent. cbn [agent_name agent_phone agent_address agent_website].
  destruct (cleanText (agent_name a)), (cleanText (agent_phone a)),
    (cleanText (agent_address a)), (cleanText (agent_website a));
    intros H; try discriminate H; injection H as <-;
    cbn [agent_name agent_phone agent_address agent_website];
    (split; [reflexivity|]); eauto 6.
Qed.

(** X12. The text fields of a normalised record: [address], [title],
    [description], [propertyType] and [agent] are [null] or cleaned,
    non-empty texts; a record with an address has a title (the address
    stands in for a missing one); a record whose agent object has a name
    has an agent; and the identifying fields are not touched. *)
Theorem normalizeProperty_texts (p : property) :
  (forall v, address (normalizeProperty' p) = Some v -> cleanText (Some v) = Some v) /\
  (forall v, title (normalizeProperty' p) = Some v -> cleanText (Some v) = Some v) /\
  (forall v, description (normalizeProperty' p) = Some v -> cleanText (Some v) = Some v) /\
  (forall v, propertyType (normalizeProperty' p) = Some v -> cleanText (Some v) = Some v) /\
  (forall v, agent (normalizeProperty' p) = Some v -> cleanText (Some v) = Some v) /\
  (title (normalizeProperty' p) = None -> address (normalizeProperty' p) = None) /\
  (forall a, agentDetails (normalizeProperty' p) = Some a ->
     is_Some (agent_name a) -> is_Some (agent (normalizeProperty' p))) /\
  propertyId (normalizeProperty' p) = propertyId p /\
  url (normalizeProperty' p) = url p /\
  scrapedAt (normalizeProperty' p) = scrapedAt p /\
  extractionMethod (normalizeProperty' p) = extractionMethod p.
Proof.
  assert (Hclean : forall x v, cleanText x = Some v -> cleanText (Some v) = Some v)
    by (intros x v; apply cleanText_fix).
  split; [intros v; rewrite normalize_address; apply Hclean|].
  split.
  { intros v. rewrite normalize_title. apply or_str_clean; intros w; apply Hclean. }
  split; [intros v; rewrite normalize_description; apply Hclean|].
  split.
  { intros v. rewrite normalize_propertyType.
    destruct (truthy_str (cleanText (propertyType p))); [apply Hclean|].
    apply inferPropertyType_clean. }
  split.
  { intros v. rewrite normalize_agent, normalize_agentDetails.
    apply or_str_clean; [intros w; apply Hclean|].
    destruct (agentDetails p) as [a|]; [|discriminate].
    destruct (clean_agent a) as [a'|] eqn:Ea; [|discriminate].
    intros w Hw. rewrite <- Hw. apply (clean_agent_name _ _ Ea). }
  split.
  { rewrite normalize_title, normalize_address. apply or_str_None. }
  split.
  { intros a Ha [n Hn]. rewrite normalize_agent, Ha, Hn.
    rewrite normalize_agentDetails in Ha.
    destruct (agentDetails p) as [a0|]; [|discriminate].
    pose proof (clean_agent_name _ _ Ha) as Hc. rewrite Hn in Hc.
    apply cleanText_truthy in Hc.
    unfold or_str. destruct (truthy_str (cleanText (agent p))) eqn:E.
    - destruct (cleanText (agent p)) as [w|]; [eexists; reflexivity | discriminate].
    - eexists; reflexivity. }
  repeat split; reflexivity.
Qed.

(** X13. The object fields of a normalised record: [details] is never an
    empty mapping (it is [null] then), its keys are pairwise distinct
    and its keys and values cleaned; [agentDetails] is never an object
    without any field; the price amount is [null] or a finite number, the
    currency is never missing ([GBP] stands in), and the display text is
    [null] or a cleaned text. *)
Theorem normalizeProperty_objects (p : property) :
  (forall d, details (normalizeProperty' p) = Some d ->
     d <> [] /\ NoDup (map fst d) /\ Forall clean_entry d) /\
  (forall a, agentDetails (normalizeProperty' p) = Some a ->
     (is_Some (agent_name a) \/ is_Some (agent_phone a) \/
      is_Some (agent_address a) \/ is_Some (agent_website a)) /\
     cleanText (agent_name a) = agent_name a /\ cleanText (agent_phone a) = agent_phone a /\
     cleanText (agent_address a) = agent_address a /\
     cleanText (agent_website a) = agent_website a) /\
  (forall q, price (normalizeProperty' p) = Some q ->
     amount_settled q /\ truthy_str (currency q) = true /\
     cleanText (displayPrice q) = displayPrice q) /\
  (is_Some (price (normalizeProperty' p)) <-> is_Some (price p)).
Proof.
  split; [|split; [|split]].
  - intros d. rewrite normalize_details. destruct (details p) as [d0|]; [|discriminate].
    destruct (clean_details_fold d0 []) as [ND Hc]; [constructor | constructor |].
    change (fold_left clean_step d0 []) with (clean_details d0) in ND, Hc.
    destruct (clean_details d0) as [|kv d'] eqn:E; [discriminate|].
    intros H; injection H as <-. split; [discriminate|]. split; assumption.
  - intros a. rewrite normalize_agentDetails. destruct (agentDetails p) as [a0|]; [|discriminate].
    intros H. destruct (clean_agent_fields _ _ H) as [-> Hsome].
    split; [exact Hsome|].
    cbn [agent_name agent_phone agent_address agent_website].
    rewrite !cleanText_idem. auto.
  - intros q. cbn [normalizeProperty price]. destruct (price p) as [q0|]; [|discriminate].
    cbn [option_map]. intros H; injection H as <-.
    split; [apply clean_price_settled|].
    unfold clean_price. cbn [currency displayPrice]. split.
    + unfold or_str. destruct (truthy_str (currency q0)) eqn:E; [exact E | reflexivity].
    + rewrite or_str_cleanText_None. apply cleanText_idem.
  - cbn [normalizeProperty price]. destruct (price p); cbn [option_map];
      split; intros [x H]; first [discriminate H | eexists; reflexivity].
Qed.

End NormalisedRecord.

(** *** [mergePropertyData]: merging a partial twice *)

Lemma setIfMissing_twice {A} (blank : A -> bool) (current value : option A) :
  setIfMissing blank (setIfMissing blank current value) value
  = setIfMissing blank current value.
Proof.
  unfold setIfMissing. destruct value as [v|]; [|reflexivity].
  destruct current as [c|].
  - destruct (blank c) eqn:E; [|rewrite E; reflexivity].
    destruct (blank v); reflexivity.
  - destruct (blank v); reflexivity.
Qed.

Lemma merge_price_twice (mine theirs : option price_t) :
  merge_price (merge_price mine theirs) theirs = merge_price mine theirs.
Proof.
  unfold merge_price. destruct theirs as [t|]; [|reflexivity].
  destruct (price_missing mine) eqn:E; [|rewrite E; reflexivity].
  destruct (price_missing (Some t)); reflexivity.
Qed.

Lemma uniqueArray_loop_seen (items : list (option jsstring)) (seen : gset jsstring)
    (result : list jsstring) :
  (forall item v, item ∈ items -> cleanText item = Some v -> v ∈ seen) ->
  uniqueArray_loop items seen result = result.
Proof.
  induction items as [|item items IH]; intros H; [reflexivity|].
  cbn [uniqueArray_loop].
  assert (IH' : uniqueArray_loop items seen result = result).
  { apply IH. intros it v Hit. apply H. right. exact Hit. }
  destruct (negb (truthy_str item)); [exact IH'|].
  destruct (cleanText item) as [v|] eqn:Ec; [|exact IH'].
  destruct (decide (v ∈ seen)) as [_|Hn]; [exact IH'|].
  exfalso. apply Hn. apply (H item v); [left | exact Ec].
Qed.

Lemma uniqueArray_loop_app (a b : list (option jsstring)) :
  forall seen result,
    uniqueArray_loop (a ++ b) seen result
    = uniqueArray_loop b
        (list_to_set (uniqueArray_loop a seen []) ∪ seen)
        (uniqueArray_loop a seen result).
Proof.
  assert (Hres : forall a seen result,
             uniqueArray_loop a seen result = result ++ uniqueArray_loop a seen []).
  { intros a0 seen result. destruct (uniqueArray_loop_spec a0 seen result) as (n1 & E1 & _).
    rewrite (uniqueArray_loop_keep_first a0 seen (elements seen) result),
            (uniqueArray_loop_keep_first a0 seen (elements seen) []);
      [reflexivity | |]; intros v; rewrite elem_of_elements; tauto. }
  induction a as [|item a IH]; intros seen result.
  - cbn [app uniqueArray_loop list_to_set]. f_equal. set_solver.
  - cbn [app uniqueArray_loop].
    destruct (negb (truthy_str item)); [apply IH|].
    destruct (cleanText item) as [v|]; [|apply IH].
    destruct (decide (v ∈ seen)); [apply IH|].
    rewrite IH. f_equal.
    rewrite (Hres a _ ([] ++ [v])). cbn [app list_to_set].
    apply leibniz_equiv. set_solver.
Qed.

Lemma union_lists_twice (mine : option (list jsstring)) (theirs : list jsstring) :
  union_lists (Some (union_lists mine theirs)) theirs = union_lists mine theirs.
Proof.
  set (U := union_lists mine theirs).
  unfold union_lists at 1. cbn [default from_option id]. unfold uniqueArray.
  rewrite map_app, uniqueArray_loop_app.
  assert (EU : uniqueArray_loop (map Some U) ∅ [] = U).
  { apply uniqueArray_idem. }
  rewrite EU. apply uniqueArray_loop_seen.
  intros item v Hit Hc. apply elem_of_union_l, elem_of_list_to_set.
  unfold U, union_lists.
  apply (uniqueArray_complete _ item); [|exact Hc].
  rewrite map_app. apply elem_of_app. right. exact Hit.
Qed.

Local Abbreviation set_entry := (fun (acc : jsobject) (kv : jsstring * jsstring) =>
                                   obj_set (fst kv) (snd kv) acc).

Lemma fold_set_keys (m acc : jsobject) :
  exists extra, map fst (fold_left set_entry m acc) = map fst acc ++ extra.
Proof.
  revert acc. induction m as [|[k v] m IH]; intros acc; cbn [fold_left].
  - exists []. rewrite app_nil_r. reflexivity.
  - destruct (IH (obj_set k v acc)) as [extra E]. cbn [fst snd]. rewrite E, obj_set_keys.
    destruct (bool_decide (k ∈ map fst acc)); [eauto|].
    exists (k :: extra). rewrite <- app_assoc. reflexivity.
Qed.

Lemma fold_set_NoDup (m acc : jsobject) :
  NoDup (map fst acc) -> NoDup (map fst (fold_left set_entry m acc)).
Proof.
  revert acc. induction m as [|[k v] m IH]; intros acc ND; cbn [fold_left]; [exact ND|].
  apply IH. apply obj_set_NoDup. exact ND.
Qed.

Lemma obj_set_middle (P ds : jsobject) (k v v0 : jsstring) :
  k ∉ map fst P -> obj_set k v (P ++ (k, v0) :: ds) = P ++ (k, v) :: ds.
Proof.
  induction P as [|[k' v'] P IH]; intros Hn; cbn [app obj_set].
  - destruct (decide (k = k)); [reflexivity | contradiction].
  - destruct (decide (k' = k)) as [->|_]; [exfalso; apply Hn; left|].
    rewrite IH; [reflexivity|]. intros H. apply Hn. right. exact H.
Qed.

Lemma fold_set_same_keys (X1 : jsobject) :
  forall P d, NoDup (map fst (P ++ d)) -> map fst X1 = map fst d ->
              fold_left set_entry X1 (P ++ d) = P ++ X1.
Proof.
  induction X1 as [|[k v] X1 IH]; intros P d ND E.
  - destruct d; [reflexivity | discriminate].
  - destruct d as [|[k0 v0] d]; [discriminate|]. cbn [map fst] in E. injection E as <- E.
    cbn [fold_left fst snd].
    assert (Hk : k ∉ map fst P).
    { rewrite map_app in ND. apply NoDup_app in ND as (_ & Hd & _).
      intros H. apply (Hd k H). left. }
    rewrite obj_set_middle by exact Hk.
    change (P ++ (k, v) :: d) with (P ++ [(k, v)] ++ d). rewrite app_assoc.
    rewrite IH; [rewrite <- app_assoc; reflexivity | | exact E].
    rewrite <- app_assoc. cbn [app]. rewrite !map_app in *. exact ND.
Qed.

Lemma fold_set_fresh (X2 acc : jsobject) :
  NoDup (map fst (acc ++ X2)) -> fold_left set_entry X2 acc = acc ++ X2.
Proof.
  revert acc. induction X2 as [|[k v] X2 IH]; intros acc ND; cbn [fold_left fst snd].
  - rewrite app_nil_r. reflexivity.
  - rewrite obj_set_fresh.
    + rewrite IH; [rewrite <- app_assoc; reflexivity|]. rewrite <- app_assoc. exact ND.
    + rewrite map_app in ND. apply NoDup_app in ND as (_ & Hd & _).
      intros H. apply (Hd k H). left.
Qed.

(** Spreading an object over a spread that started from it changes
    nothing. *)
Lemma obj_spread_absorb (d m : jsobject) :
  NoDup (map fst d) -> obj_spread d (obj_spread d m) = obj_spread d m.
Proof.
  intros ND. unfold obj_spread.
  change (fun acc kv => obj_set (fst kv) (snd kv) acc) with set_entry.
  set (X := fold_left set_entry m d).
  destruct (fold_set_keys m d) as [extra E]. fold X in E.
  pose proof (fold_set_NoDup m d ND) as NX. fold X in NX.
  assert (NX' : NoDup (map fst (take (length d) X ++ drop (length d) X)))
    by (rewrite take_drop; exact NX).
  assert (E1 : map fst (take (length d) X) = map fst d).
  { rewrite <- firstn_map, E, <- (length_map fst d), take_app_length. reflexivity. }
  pose proof (fold_set_same_keys (take (length d) X) [] d ND E1) as H1. cbn [app] in H1.
  rewrite <- (take_drop (length d) X) at 1.
  rewrite fold_left_app, H1, fold_set_fresh by exact NX'. apply take_drop.
Qed.

Lemma merge_list_twice (mine theirs : option (list jsstring)) :
  merge_list (merge_list mine theirs) theirs = merge_list mine theirs.
Proof.
  unfold merge_list. destruct theirs as [l|]; [|reflexivity].
  f_equal. apply union_lists_twice.
Qed.

Lemma merge_details_twice (mine theirs : option jsobject) :
  (forall d, theirs = Some d -> NoDup (map fst d)) ->
  merge_details (merge_details mine theirs) theirs = merge_details mine theirs.
Proof.
  intros H. unfold merge_details. destruct theirs as [d|]; [|reflexivity].
  cbn [default from_option id]. f_equal. apply obj_spread_absorb. apply H. reflexivity.
Qed.

(** X14. Merging the same partial a second time changes nothing: once a
    partial has been merged into the accumulator, nothing of it is left
    to add.  (The keys of the partial's details are pairwise distinct, as
    the keys of an object are.) *)
Theorem mergePropertyData_twice (base extra : property) :
  (forall d, details extra = Some d -> NoDup (map fst d)) ->
  mergePropertyData (mergePropertyData base (Some extra)) (Some extra)
  = mergePropertyData base (Some extra).
Proof.
  intros Hd. apply property_ext; cbn [mergePropertyData propertyId url address title
    description propertyType bedrooms bathrooms agent agentDetails price images floorplans
    keyFeatures features details image isNewHome scrapedAt extractionMethod];
    try reflexivity;
    first [apply setIfMissing_twice | apply merge_price_twice | apply merge_list_twice
          | apply merge_details_twice; exact Hd].
Qed.

Lemma mergePropertyData_twice_witness :
  mergePropertyData (mergePropertyData example_basicInfo (Some example_extra))
    (Some example_extra)
  = mergePropertyData example_basicInfo (Some example_extra).
Proof.
  apply mergePropertyData_twice.
  intros d H. injection H as <-. vm_compute.
  repeat constructor; intros H; repeat (apply elem_of_cons in H as [H|H]; [discriminate H|]);
    inversion H.
Defined.
(* ====================================================================== *)
(** * Further properties of the detail extraction *)
(* ====================================================================== *)

Lemma setIfMissing_truthy (current value : option jsstring) :
  truthy_str current = true -> setIfMissing is_nil current value = current.
Proof.
  destruct current as [[|c s]|]; try discriminate. intros _.
  unfold setIfMissing. destruct value; reflexivity.
Qed.

(** The embedded blobs leave the identifier alone, and a title or a
    description that is already there. *)
Lemma merge_embedded_keeps (blobs : list (option property)) :
  forall pd used,
    propertyId (fst (merge_embedded blobs pd used)) = propertyId pd /\
    (truthy_str (title pd) = true -> title (fst (merge_embedded blobs pd used)) = title pd) /\
    (truthy_str (description pd) = true ->
     description (fst (merge_embedded blobs pd used)) = description pd).
Proof.
  induction blobs as [|[e|] blobs IH]; intros pd used; cbn [merge_embedded];
    [auto| |apply IH].
  destruct (has_keys e); [|apply IH].
  destruct (IH (mergePropertyData pd (Some e)) true) as (-> & Ht & Hd).
  cbn [mergePropertyData propertyId title description] in *.
  split; [reflexivity|]. split.
  - intros H. rewrite Ht; rewrite (setIfMissing_truthy _ _ H); [reflexivity | exact H].
  - intros H. rewrite Hd; rewrite (setIfMissing_truthy _ _ H); [reflexivity | exact H].
Qed.

Lemma or_str_truthy_l (a b : option jsstring) : truthy_str a = true -> or_str a b = a.
Proof. intros H. unfold or_str. rewrite H. reflexivity. Qed.

(** X18. Which source wins in [extractPropertyDetails].  When the
    extraction throws, the record of the card comes back unchanged but
    for the tag [failed]: nothing of the page is used.  Otherwise the
    name and the description of the linked-data entry, when it has them,
    replace those of the card; a title or description present after that
    step is kept against the embedded blobs and the HTML; [images] is
    never an empty list; and the identifier and the URL of the card are
    never touched. *)
Theorem extractPropertyDetails_sources (pg : detail_page) (basicInfo : property) :
  (find_jsonld (jsonLdData pg) = LdThrows ->
   extractPropertyDetails pg basicInfo = failed_record basicInfo) /\
  (forall ld, find_jsonld (jsonLdData pg) = LdFound ld ->
     (truthy_str (ld_name ld) = true ->
      title (extractPropertyDetails pg basicInfo) = ld_name ld) /\
     (truthy_str (ld_description ld) = true ->
      description (extractPropertyDetails pg basicInfo) = ld_description ld) /\
     (truthy_str (ld_name ld) = false -> truthy_str (title basicInfo) = true ->
      title (extractPropertyDetails pg basicInfo) = title basicInfo) /\
     (truthy_str (ld_description ld) = false -> truthy_str (description basicInfo) = true ->
      description (extractPropertyDetails pg basicInfo) = description basicInfo)) /\
  (find_jsonld (jsonLdData pg) = LdNone ->
     (truthy_str (title basicInfo) = true ->
      title (extractPropertyDetails pg basicInfo) = title basicInfo) /\
     (truthy_str (description basicInfo) = true ->
      description (extractPropertyDetails pg basicInfo) = description basicInfo)) /\
  (find_jsonld (jsonLdData pg) <> LdThrows ->
   images (extractPropertyDetails pg basicInfo) <> Some []) /\
  propertyId (extractPropertyDetails pg basicInfo) = propertyId basicInfo /\
  url (extractPropertyDetails pg basicInfo) = url basicInfo.
Proof.
  assert (Hfinish : forall pd0 method,
     let pd := fst (merge_embedded (embeddedData pg) pd0 false) in
     (truthy_str (title pd0) = true -> title (finish_details pg pd method) = title pd0) /\
     (truthy_str (description pd0) = true ->
      description (finish_details pg pd method) = description pd0)).
  { intros pd0 method. cbv zeta.
    destruct (merge_embedded_keeps (embeddedData pg) pd0 false) as (_ & Ht & Hd).
    cbn [finish_details title description]. split; intros H.
    - rewrite (Ht H), (or_str_truthy_l (title pd0)) by exact H.
      apply or_str_truthy_l. exact H.
    - rewrite (Hd H), (or_str_truthy_l (description pd0)) by exact H.
      apply or_str_truthy_l. exact H. }
  split; [intros E; unfold extractPropertyDetails; rewrite E; reflexivity|].
  split.
  { intros ld E. unfold extractPropertyDetails. rewrite E.
    match goal with |- context [finish_details pg _ ?m] => set (method := m) end.
    destruct (Hfinish (apply_jsonld basicInfo ld) method) as [Ht Hd].
    cbv zeta in Ht, Hd. cbn [apply_jsonld title description] in Ht, Hd.
    split; [|split; [|split]].
    - intros H. rewrite H in Ht. apply Ht. exact H.
    - intros H. rewrite H in Hd. apply Hd. exact H.
    - intros H H'. rewrite H in Ht. apply Ht. exact H'.
    - intros H H'. rewrite H in Hd. apply Hd. exact H'. }
  split.
  { intros E. unfold extractPropertyDetails. rewrite E.
    match goal with |- context [finish_details pg _ ?m] => set (method := m) end.
    apply (Hfinish basicInfo method). }
  split.
  { unfold extractPropertyDetails.
    destruct (find_jsonld (jsonLdData pg)) as [|ld|]; [intros H; contradiction| |];
      intros _; cbn [finish_details images];
      match goal with |- nonempty_or ?l None <> _ => destruct l end;
      cbn [nonempty_or]; discriminate. }
  split.
  - unfold extractPropertyDetails.
    destruct (find_jsonld (jsonLdData pg)) as [|ld|]; [reflexivity| |];
      cbn [finish_details propertyId];
      rewrite (proj1 (merge_embedded_keeps _ _ _)); reflexivity.
  - apply extractPropertyDetails_url.
Qed.

(* ====================================================================== *)
(** * Blocked responses and the property API *)
(* ====================================================================== *)

(** X19. A response counts as blocked exactly when its status is 401,
    403, 429 or 503, or its body is not empty and contains, letter case
    ignored, one of [access denied], [captcha], [robot], [incapsula].  A
    response with another status and an empty or missing body is never
    blocked. *)
Theorem isBlockedResponse_spec (status : option Z) (body : option jsstring) :
  (isBlockedResponse status body = true <->
   (exists s, status = Some s /\ s ∈ BLOCK_STATUSES) \/
   (exists b marker, body = Some b /\ marker ∈ BLOCK_MARKERS /\ contains_ci b marker)) /\
  ((forall s, status = Some s -> s ∉ BLOCK_STATUSES) ->
   body = None \/ body = Some [] -> isBlockedResponse status body = false).
Proof.
  assert (Hst : match status with
                | Some s => existsb (Z.eqb s) [401; 403; 429; 503]%Z
                | None => false
                end = true <-> exists s, status = Some s /\ s ∈ BLOCK_STATUSES).
  { destruct status as [s|].
    - rewrite existsb_exists. split.
      + intros (x & Hx & E). apply Z.eqb_eq in E. subst x. exists s.
        split; [reflexivity | apply list_elem_of_In; exact Hx].
      + intros (s' & E & Hin). injection E as <-. exists s.
        split; [apply list_elem_of_In; exact Hin | apply Z.eqb_refl].
    - split; [discriminate | intros (s & E & _); discriminate]. }
  assert (Hbody : forall b,
             includes (toLowerCase b) (str "access denied")
             || includes (toLowerCase b) (str "captcha")
             || includes (toLowerCase b) (str "robot")
             || includes (toLowerCase b) (str "incapsula") = true
             <-> exists marker, marker ∈ BLOCK_MARKERS /\ contains_ci b marker).
  { intros b. rewrite !orb_true_iff, !includes_spec. unfold BLOCK_MARKERS, contains_ci, contains.
    split.
    - intros [[[H|H]|H]|H]; eexists; (split; [|exact H]);
        repeat first [left; reflexivity | right].
    - intros (marker & Hin & H).
      repeat (apply elem_of_cons in Hin as [->|Hin]; [tauto|]). inversion Hin. }
  assert (Hempty : forall marker, marker ∈ BLOCK_MARKERS -> ~ contains_ci [] marker).
  { intros marker Hin (pre & post & E).
    destruct pre; [|discriminate E].
    repeat (apply elem_of_cons in Hin as [->|Hin]; [discriminate E|]). inversion Hin. }
  split.
  - unfold isBlockedResponse.
    destruct (match status with Some s => _ | None => false end) eqn:Es.
    + split; [intros _; left; apply Hst; reflexivity | reflexivity].
    + split.
      * intros H. right. destruct body as [[|c b]|]; try discriminate H.
        apply Hbody in H as (marker & Hin & Hc). eauto.
      * intros [H|(b & marker & -> & Hin & Hc)].
        -- apply Hst in H. discriminate H.
        -- destruct b as [|c b]; [exfalso; exact (Hempty _ Hin Hc)|].
           apply Hbody. eauto.
  - intros Hs Hb. unfold isBlockedResponse.
    destruct (match status with Some s => _ | None => false end) eqn:Es.
    + destruct (proj1 Hst eq_refl) as (s & E & Hin). exfalso. exact (Hs s E Hin).
    + destruct Hb as [-> | ->]; reflexivity.
Qed.

Section PropertyApiProperties.
Context {J : Type}.
Variable gotScraping : api_request -> api_outcome J.

Lemma fetch_first_spec (requests : list api_request) :
  let r := fetch_first gotScraping requests in
  (exists n, snd r = take n requests) /\
  match fst r with
  | Some body =>
      exists tried req statusCode,
        snd r = tried ++ [req] /\
        gotScraping req = ApiResponse statusCode (Some body) /\
        (200 <= statusCode < 300)%Z
  | None => snd r = requests
  end.
Proof.
  induction requests as [|req rest IH]; cbv zeta.
  - cbn. split; [exists 0%nat; reflexivity | reflexivity].
  - cbv zeta in IH. destruct IH as [[n Hn] IH]. cbn [fetch_first].
    assert (Hgo : let r := (fst (fetch_first gotScraping rest),
                            req :: snd (fetch_first gotScraping rest)) in
                  (exists n, snd r = take n (req :: rest)) /\
                  match fst r with
                  | Some body =>
                      exists tried req0 statusCode,
                        snd r = tried ++ [req0] /\
                        gotScraping req0 = ApiResponse statusCode (Some body) /\
                        (200 <= statusCode < 300)%Z
                  | None => snd r = req :: rest
                  end).
    { cbv zeta. cbn [fst snd]. split; [exists (S n); rewrite Hn; reflexivity|].
      destruct (fst (fetch_first gotScraping rest)) as [body|].
      - destruct IH as (tried & req0 & sc & E & Hg & Hr).
        exists (req :: tried), req0, sc. rewrite E. auto.
      - rewrite IH. reflexivity. }
    destruct (gotScraping req) as [|statusCode [body|]] eqn:Eg; [exact Hgo| |exact Hgo].
    destruct (Z.leb_spec 200 statusCode); [|exact Hgo].
    destruct (Z.ltb_spec statusCode 300); [|exact Hgo].
    cbn [andb fst snd]. split; [exists 1%nat; reflexivity|].
    exists [], req, statusCode. split; [reflexivity|]. split; [exact Eg | lia].
Qed.

(** X20. The calls of [fetchPropertyApi].  Without an identifier it makes
    no call and gives [null].  Otherwise it calls the details endpoint
    for the identifier first.  If that call answers within 200..299 with
    a body, that body is returned and no other call is made.  If it
    threw, answered outside 200..299 or had no body, the legacy endpoint
    is called, and its body is returned when it answers within 200..299
    with one, [null] otherwise.  So it makes at most two calls, and a
    body it returns is the body of the last call made. *)
Theorem fetchPropertyApi_calls :
  (forall channel,
     fetchPropertyApi gotScraping None channel = (None, []) /\
     fetchPropertyApi gotScraping (Some []) channel = (None, [])) /\
  (forall c pid channel,
     let r := fetchPropertyApi gotScraping (Some (c :: pid)) channel in
     let details := details_request (c :: pid) channel in
     let legacy := legacy_request (c :: pid) channel in
     (forall body, api_body (gotScraping details) = Some body -> r = (Some body, [details])) /\
     (api_body (gotScraping details) = None ->
      r = (api_body (gotScraping legacy), [details; legacy])) /\
     (legacy ∈ snd r <-> api_body (gotScraping details) = None) /\
     (forall o : api_outcome J,
        is_Some (api_body o) <->
        exists statusCode body,
          o = ApiResponse statusCode (Some body) /\ (200 <= statusCode < 300)%Z) /\
     (1 <= length (snd r) <= 2)%nat /\
     (exists req, head (snd r) = Some req /\
                  api_url req = API_propertyDetails ++ str "/" ++ c :: pid) /\
     (forall req, snd r !! 1%nat = Some req -> api_url req = API_propertyDetailsLegacy) /\
     match fst r with
     | Some body =>
         exists req statusCode,
           last (snd r) = Some req /\
           gotScraping req = ApiResponse statusCode (Some body) /\
           (200 <= statusCode < 300)%Z
     | None => length (snd r) = 2%nat
     end).
Proof.
  split; [intros channel; split; reflexivity|].
  intros c pid channel. cbv zeta. unfold fetchPropertyApi.
  change {| api_url := API_propertyDetails ++ str "/" ++ c :: pid;
            api_searchParams :=
              if truthy_str channel then Some [(str "channel", channel)] else None |}
    with (details_request (c :: pid) channel).
  change {| api_url := API_propertyDetailsLegacy;
            api_searchParams := Some [(str "propertyId", Some (c :: pid));
                                      (str "channel", channel)] |}
    with (legacy_request (c :: pid) channel).
  set (r1 := details_request (c :: pid) channel).
  set (r2 := legacy_request (c :: pid) channel).
  assert (Hspec : forall o : api_outcome J,
            is_Some (api_body o) <->
            exists statusCode body,
              o = ApiResponse statusCode (Some body) /\ (200 <= statusCode < 300)%Z).
  { intros o. unfold api_body. destruct o as [|sc [body|]].
    - split; [intros [x Hx]; discriminate | intros (sc' & b & E & _); discriminate].
    - destruct (Z.leb_spec 200 sc), (Z.ltb_spec sc 300); cbn [andb];
        (split; [intros [x Hx];
                 first [discriminate Hx | exists sc, body; split; [reflexivity|lia]]
                | intros (sc' & b & E & Hr); injection E as -> ->; first [lia | eauto]]).
    - split; [intros [x Hx]; discriminate | intros (sc' & b & E & _); discriminate]. }
  assert (Hfirst : forall body, api_body (gotScraping r1) = Some body ->
            fetch_first gotScraping [r1; r2] = (Some body, [r1])).
  { intros body. cbn [fetch_first]. unfold api_body.
    destruct (gotScraping r1) as [|sc [b|]]; [discriminate| |discriminate].
    destruct ((200 <=? sc)%Z && (sc <? 300)%Z); [|discriminate].
    intros E. injection E as ->. reflexivity. }
  assert (Hsecond : api_body (gotScraping r1) = None ->
            fetch_first gotScraping [r1; r2] = (api_body (gotScraping r2), [r1; r2])).
  { assert (Hr2 : fetch_first gotScraping [r2] = (api_body (gotScraping r2), [r2])).
    { cbn [fetch_first]. unfold api_body.
      destruct (gotScraping r2) as [|sc [b|]]; [reflexivity| |reflexivity].
      destruct ((200 <=? sc)%Z && (sc <? 300)%Z); reflexivity. }
    intros Hnone. change (fetch_first gotScraping [r1; r2])
      with (match gotScraping r1 with
            | ApiResponse statusCode (Some body) =>
                if (200 <=? statusCode)%Z && (statusCode <? 300)%Z then (Some body, [r1])
                else let r := fetch_first gotScraping [r2] in (fst r, r1 :: snd r)
            | _ => let r := fetch_first gotScraping [r2] in (fst r, r1 :: snd r)
            end).
    rewrite Hr2. unfold api_body in Hnone. cbv zeta. cbn [fst snd].
    destruct (gotScraping r1) as [|sc [b|]]; [reflexivity| |reflexivity].
    destruct ((200 <=? sc)%Z && (sc <? 300)%Z); [discriminate | reflexivity]. }
  assert (Hneq : r2 <> r1).
  { unfold r1, r2, details_request, legacy_request. intros E.
    apply (f_equal api_url) in E. cbn [api_url] in E. vm_compute in E.
    discriminate E. }
  split; [exact Hfirst|]. split; [exact Hsecond|].
  split.
  { destruct (api_body (gotScraping r1)) as [body|] eqn:E1.
    - rewrite (Hfirst body eq_refl). cbn [snd]. split; [|discriminate].
      intros Hin. apply list_elem_of_singleton in Hin. contradiction.
    - rewrite (Hsecond eq_refl). cbn [snd]. split; [reflexivity|].
      intros _. apply list_elem_of_further, list_elem_of_here. }
  split; [exact Hspec|].
  destruct (api_body (gotScraping r1)) as [body|] eqn:E1.
  - rewrite (Hfirst body eq_refl). cbn [fst snd length head lookup list_lookup last].
    split; [lia|]. split; [exists r1; split; reflexivity|].
    split; [intros q Hq; discriminate Hq|].
    destruct (proj1 (Hspec (gotScraping r1))) as (sc & b & Eg & Hr);
      [rewrite E1; eauto|].
    exists r1, sc. split; [reflexivity|]. split; [|exact Hr].
    rewrite Eg in E1 |- *. unfold api_body in E1.
    destruct ((200 <=? sc)%Z && (sc <? 300)%Z); [|discriminate].
    injection E1 as ->. reflexivity.
  - rewrite (Hsecond eq_refl). cbn [fst snd length head lookup list_lookup].
    split; [lia|]. split; [exists r1; split; reflexivity|].
    split; [intros q Hq; injection Hq as <-; reflexivity|].
    destruct (api_body (gotScraping r2)) as [body|] eqn:E2; [|reflexivity].
    destruct (proj1 (Hspec (gotScraping r2))) as (sc & b & Eg & Hr);
      [rewrite E2; eauto|].
    exists r2, sc. split; [reflexivity|]. split; [|exact Hr].
    rewrite Eg in E2 |- *. unfold api_body in E2.
    destruct ((200 <=? sc)%Z && (sc <? 300)%Z); [|discriminate].
    injection E2 as ->. reflexivity.
Qed.
End PropertyApiProperties.

(* ====================================================================== *)
(** * The search URL *)
(* ====================================================================== *)

Section SearchUrlProperties.
Variable NumberToString : float -> jsstring.
Variable form_encode : jsstring -> jsstring.

Local Abbreviation main_searchUrl' := (main_searchUrl NumberToString form_encode).
Local Abbreviation params_toString' := (params_toString form_encode).

(** X21. The search URL of a run.  A truthy [startUrl] is used as it is
    and everything else is ignored.  Otherwise, when the input gives no
    [locationIdentifier], the default region (London) is searched
    whatever [searchLocation] says: the search location is used only
    when [locationIdentifier] is given and falsy.  Every built URL is the
    search page with a query that ends with [channel=NEW_HOME]. *)
Theorem main_searchUrl_location (input : search_input) :
  (truthy_input (in_startUrl input) = true -> main_searchUrl' input = in_startUrl input) /\
  (in_locationIdentifier input = JsUndefined ->
   forall v, main_searchUrl' (with_searchLocation input v) = main_searchUrl' input) /\
  (truthy_input (in_startUrl input) = false ->
   in_locationIdentifier input = JsUndefined ->
   exists rest,
     main_searchUrl' input
     = JsString (DEFAULT_SEARCH_URL ++ str "?"
                 ++ params_toString'
                      ((str "locationIdentifier", UK_REGIONS_london)
                       :: (str "useLocationIdentifier", str "true") :: rest))) /\
  (truthy_input (in_startUrl input) = false ->
   exists params,
     main_searchUrl' input
     = JsString (DEFAULT_SEARCH_URL ++ str "?"
                 ++ params_toString' (params ++ [(str "channel", str "NEW_HOME")]))).
Proof.
  assert (Hstart : forall b, truthy_input (in_startUrl input) = b ->
                             truthy_input (input_default (in_startUrl input) JsNull) = b).
  { intros b. destruct (in_startUrl input); exact (fun H => H). }
  split; [|split; [|split]].
  - intros H. unfold main_searchUrl, buildSearchUrl. cbn [in_startUrl].
    rewrite (Hstart _ H). destruct (in_startUrl input); try discriminate H; reflexivity.
  - intros Hli v. unfold main_searchUrl, buildSearchUrl, search_params.
    cbn [with_searchLocation in_startUrl in_searchLocation in_locationIdentifier in_radius
         in_minPrice in_maxPrice].
    rewrite Hli. cbn [input_default truthy_input]. reflexivity.
  - intros Hs Hli. unfold main_searchUrl, buildSearchUrl, search_params.
    cbn [in_startUrl in_searchLocation in_locationIdentifier in_radius in_minPrice
         in_maxPrice].
    rewrite (Hstart _ Hs), Hli. cbn [input_default truthy_input ToString app].
    eexists. reflexivity.
  - intros Hs. unfold main_searchUrl, buildSearchUrl, search_params.
    cbn [in_startUrl]. rewrite (Hstart _ Hs). rewrite !app_assoc.
    eexists. reflexivity.
Qed.
End SearchUrlProperties.

(* ====================================================================== *)
(** * Cards *)
(* ====================================================================== *)

Lemma card_address_clean (texts : list jsstring) (a : jsstring) :
  card_address texts = Some a -> cleanText (Some a) = Some a /\ (5 < length a)%nat.
Proof.
  induction texts as [|t texts IH]; cbn [card_address]; [discriminate|].
  destruct (cleanText (Some t)) as [text|] eqn:E; [|exact IH].
  destruct (Nat.ltb_spec 5 (length text)) as [Hl|_]; [|exact IH].
  intros H. injection H as <-. split; [eapply cleanText_fix; exact E | exact Hl].
Qed.

Lemma card_features_clean (texts : list jsstring) (f : jsstring) :
  f ∈ card_features texts -> cleanText (Some f) = Some f /\ (2 <= length f < 100)%nat.
Proof.
  induction texts as [|t texts IH]; cbn [card_features]; [intros H; inversion H|].
  destruct (cleanText (Some t)) as [v|] eqn:E; [|exact IH].
  destruct (Nat.ltb_spec 1 (length v)) as [H1|_]; [|exact IH].
  destruct (Nat.ltb_spec (length v) 100) as [H2|_]; [|exact IH].
  cbn [andb]. intros [->|H]%elem_of_cons; [|exact (IH H)].
  split; [eapply cleanText_fix; exact E | lia].
Qed.

Lemma card_image_truthy (attrs : list (option jsstring)) :
  card_image attrs = None \/ truthy_str (card_image attrs) = true.
Proof.
  induction attrs as [|a attrs IH]; cbn [card_image]; [left; reflexivity|].
  destruct (truthy_str a) eqn:E; [right; exact E | exact IH].
Qed.

Lemma parsePrice_display (t : option jsstring) (q : price_t) :
  parsePrice t = Some q -> currency q = Some (str "GBP") /\ displayPrice q = cleanText t.
Proof.
  unfold parsePrice. destruct t as [[|c t]|]; try discriminate.
  destruct (re_find re_number _); [|discriminate].
  intros H. injection H as <-. split; reflexivity.
Qed.

(** X22. What [extractPropertyCard] gives.  A card without a link, or
    whose link holds no listing identifier, gives [null].  Every card
    that comes out has a URL starting with [http] and an identifier, a
    non-empty run of digits of that URL; its address, if any, is a
    cleaned text; its price is present exactly when the price element
    has a non-blank text, and then shows that cleaned text with the
    currency [GBP]; its image, if any, starts with [http]; and its
    features are cleaned texts of 2 to 99 code units. *)
Theorem extractPropertyCard_fields (card : card_dom) :
  match extractPropertyCard card with
  | Some p =>
      (exists u id,
         url p = Some u /\ startsWith u (str "http") = true /\
         propertyId p = Some id /\ id <> [] /\ forallb is_digit id = true /\
         contains u id) /\
      (forall a, address p = Some a -> cleanText (Some a) = Some a) /\
      (match card_price_text card with
       | Some t =>
           match cleanText (Some t) with
           | Some text =>
               exists q, price p = Some q /\ currency q = Some (str "GBP") /\
                         displayPrice q = Some text
           | None => price p = None
           end
       | None => price p = None
       end) /\
      (forall i, image p = Some i -> startsWith i (str "http") = true) /\
      (exists fs, features p = Some fs /\
         forall f, f ∈ fs -> cleanText (Some f) = Some f /\ (2 <= length f < 100)%nat) /\
      isNewHome p = Some true
  | None => extractPropertyId (ensureAbsoluteUrl (card_link_href card)) = None
  end /\
  (card_link_href card = None -> extractPropertyCard card = None).
Proof.
  split; [|intros H; unfold extractPropertyCard; rewrite H; reflexivity].
  unfold extractPropertyCard.
  destruct (extractPropertyId (ensureAbsoluteUrl (card_link_href card))) as [id|] eqn:Eid;
    [|reflexivity].
  destruct (extractPropertyId_sound _ _ Eid) as (Hne & Hd & pre & sep & post & Eu & _).
  rewrite Eu. rewrite Eu in Eid.
  assert (Hid : truthy_str (Some id) = true) by (destruct id; [contradiction | reflexivity]).
  assert (Hu : truthy_str (Some (pre ++ sep :: id ++ post)) = true)
    by (destruct pre; reflexivity).
  rewrite Hid, Hu. cbn [negb orb].
  cbn [url propertyId address price image features isNewHome].
  split.
  { exists (pre ++ sep :: id ++ post), id.
    split; [reflexivity|].
    split; [apply (ensureAbsoluteUrl_http (card_link_href card)); exact Eu|].
    split; [reflexivity|]. split; [exact Hne|]. split; [exact Hd|].
    exists (pre ++ [sep]), post. rewrite <- app_assoc. reflexivity. }
  split.
  { intros a. apply or_str_clean; [|discriminate].
    intros w. destruct (truthy_str (card_address (card_address_texts card))).
    - intros H. apply (card_address_clean _ _ H).
    - apply cleanText_fix. }
  split.
  { destruct (card_price_text card) as [t|]; [|reflexivity].
    destruct (cleanText (Some t)) as [text|] eqn:Et; [|reflexivity].
    rewrite (cleanText_truthy _ _ Et).
    destruct (parsePrice (Some text)) as [q|] eqn:Eq.
    - exists q. split; [reflexivity|].
      destruct (parsePrice_display _ _ Eq) as [Hc Hdp].
      split; [exact Hc|]. rewrite Hdp. eapply cleanText_fix. exact Et.
    - eexists. split; [reflexivity|]. split; reflexivity. }
  split.
  { intros i. destruct (card_image_truthy (card_image_attrs card)) as [E|E]; rewrite E.
    - discriminate.
    - apply ensureAbsoluteUrl_http. }
  split; [|reflexivity].
  eexists. split; [reflexivity|]. apply card_features_clean.
Qed.

Lemma rmatch_count_nondigit {A} (word : jsstring) (prev : option ascii) (c : ascii)
    (s : jsstring) (k : option ascii -> jsstring -> option A) :
  is_digit c = false -> rmatch (re_count word) prev (c :: s) k = None.
Proof. intros H. unfold re_count, RPlus. cbn [rmatch]. rewrite H. reflexivity. Qed.

Lemma re_find_count_no_digit (word : jsstring) (prev : option ascii) (s : jsstring) :
  no_digit s = true -> re_find_from (re_count word) prev s = None.
Proof.
  revert prev. induction s as [|c s IH]; intros prev H.
  - reflexivity.
  - simpl in H. apply andb_prop in H as [Hc H]. apply negb_true_iff in Hc.
    cbn [re_find_from]. rewrite rmatch_count_nondigit by exact Hc. apply IH. exact H.
Qed.

Lemma takeWhile_digits_app (ds rest : jsstring) :
  forallb is_digit ds = true -> digit_head rest = false ->
  takeWhile is_digit (ds ++ rest) = ds.
Proof.
  intros Hd Hr. rewrite takeWhile_app_all by exact Hd.
  destruct rest as [|c rest]; cbn [takeWhile]; [apply app_nil_r|].
  cbn [digit_head] in Hr. rewrite Hr. apply app_nil_r.
Qed.

(** The count found when the first number of the text is followed by the
    word. *)
Lemma count_of_first_number (word pre ds ws w rest : jsstring) :
  no_digit pre = true -> ds <> [] -> forallb is_digit ds = true ->
  forallb is_ws ws = true ->
  Forall2 (fun x c => char_eq_ci x c = true) word w ->
  digit_head w = false -> ws_head w = false -> w <> [] ->
  count_of word (pre ++ ds ++ ws ++ w ++ rest)
  = Some (decimal_to_float (digits_value ds) 0).
Proof.
  intros Hpre Hne Hds Hws Hw Hwd Hww Hwne. unfold count_of, re_find.
  assert (Hhere : forall prev,
             rmatch (re_count word) prev ((ds ++ ws ++ w) ++ rest) (fun _ s' => Some s')
             = Some rest).
  { intros prev. rewrite <- !app_assoc.
    set (alt := RAlt (RLit true word) (RLit true (word ++ str "room"))).
    assert (Halt : forall p, rmatch alt p (w ++ rest) (fun _ s'' => Some s'') = Some rest).
    { intros p. unfold alt.
      change (rmatch (RAlt ?a ?b) p ?s ?k)
        with (match rmatch a p s k with Some x => Some x | None => rmatch b p s k end).
      rewrite (rmatch_literal_ci word w) by exact Hw. reflexivity. }
    set (K1 := fun (p : option ascii) (s : jsstring) =>
                 rmatch (RSeq (RStar (RClass is_ws)) alt) p s (fun _ s'' => Some s'')).
    assert (Hk : forall p, K1 p (ws ++ w ++ rest) = Some rest).
    { intros p. unfold K1.
      change (rmatch (RStar (RClass is_ws)) p (ws ++ w ++ rest)
                (fun p' s' => rmatch alt p' s' (fun _ s'' => Some s'')) = Some rest).
      rewrite rmatch_star_class.
      - apply Halt.
      - exact Hws.
      - intros c r E. destruct w as [|b w']; [contradiction|].
        cbn [app] in E. injection E as <- _. exact Hww.
      - rewrite Halt. eexists; reflexivity. }
    change (rmatch (RPlus (RClass is_digit)) prev (ds ++ ws ++ w ++ rest) K1 = Some rest).
    rewrite rmatch_digits; [apply Hk | exact Hne | exact Hds | | rewrite Hk; eexists; reflexivity].
    destruct ws as [|c ws]; cbn [app digit_head].
    - destruct w; [contradiction | exact Hwd].
    - cbn [forallb] in Hws. apply andb_prop in Hws as [Hc _].
      destruct c as [[] [] [] [] [] [] [] []]; vm_compute in Hc |- *;
        first [reflexivity | discriminate Hc]. }
  assert (Hfind : forall prev,
             re_find_from (re_count word) prev (pre ++ (ds ++ ws ++ w) ++ rest)
             = Some (ds ++ ws ++ w)).
  { induction pre as [|c pre IH]; intros prev.
    - apply (re_find_from_here _ _ (ds ++ ws ++ w) rest), Hhere.
    - simpl in Hpre. apply andb_prop in Hpre as [Hc Hpre]. apply negb_true_iff in Hc.
      cbn [app]. rewrite re_find_from_step by (apply rmatch_count_nondigit; exact Hc).
      apply IH. exact Hpre. }
  replace (pre ++ ds ++ ws ++ w ++ rest) with (pre ++ (ds ++ ws ++ w) ++ rest)
    by (rewrite <- !app_assoc; reflexivity).
  rewrite Hfind. do 3 f_equal. apply takeWhile_digits_app; [exact Hds|].
  destruct ws as [|c ws]; cbn [app digit_head].
  - destruct w; [contradiction | exact Hwd].
  - cbn [forallb] in Hws. apply andb_prop in Hws as [Hc _].
    destruct c as [[] [] [] [] [] [] [] []]; vm_compute in Hc |- *;
      first [reflexivity | discriminate Hc].
Qed.

Lemma ci_word_head (x : ascii) (word w : jsstring) :
  is_lower x = true ->
  Forall2 (fun x c => char_eq_ci x c = true) (x :: word) w ->
  digit_head w = false /\ ws_head w = false /\ w <> [].
Proof.
  intros Hx H. inversion H as [|? c ? w' Hc _]; subst.
  cbn [digit_head ws_head]. split; [|split; [|discriminate]].
  - destruct x as [[] [] [] [] [] [] [] []]; try discriminate Hx;
      destruct c as [[] [] [] [] [] [] [] []]; vm_compute in Hc |- *;
      first [reflexivity | discriminate Hc].
  - destruct x as [[] [] [] [] [] [] [] []]; try discriminate Hx;
      destruct c as [[] [] [] [] [] [] [] []]; vm_compute in Hc |- *;
      first [reflexivity | discriminate Hc].
Qed.

(** X23. The rooms of a card.  When the first number of the card text is
    followed, spaces allowed and letter case ignored, by [bed], that
    number is the bedroom count, and the same with [bath] for the
    bathrooms; a card text without a digit gives [null] for both. *)
Theorem extractPropertyCard_rooms (card : card_dom) :
  match extractPropertyCard card with
  | Some p =>
      (forall pre ds ws w rest,
         card_text card = pre ++ ds ++ ws ++ w ++ rest ->
         no_digit pre = true -> ds <> [] -> forallb is_digit ds = true ->
         forallb is_ws ws = true ->
         (toLowerCase w = str "bed" ->
          bedrooms p = Some (decimal_to_float (digits_value ds) 0)) /\
         (toLowerCase w = str "bath" ->
          bathrooms p = Some (decimal_to_float (digits_value ds) 0))) /\
      (no_digit (card_text card) = true -> bedrooms p = None /\ bathrooms p = None)
  | None => True
  end.
Proof.
  unfold extractPropertyCard.
  destruct (negb _ || negb _); [exact I|].
  cbn [bedrooms bathrooms]. split.
  - intros pre ds ws w rest E Hpre Hne Hds Hws. rewrite E. split; intros Hw.
    + assert (F : Forall2 (fun x c => char_eq_ci x c = true) (str "bed") w)
        by (apply lowered_literal; [exact Hw | reflexivity]).
      destruct (ci_word_head (chr "b") (str "ed") w eq_refl F) as (H1 & H2 & H3).
      apply count_of_first_number; assumption.
    + assert (F : Forall2 (fun x c => char_eq_ci x c = true) (str "bath") w)
        by (apply lowered_literal; [exact Hw | reflexivity]).
      destruct (ci_word_head (chr "b") (str "ath") w eq_refl F) as (H1 & H2 & H3).
      apply count_of_first_number; assumption.
  - intros H. unfold count_of, re_find. rewrite !re_find_count_no_digit by exact H.
    split; reflexivity.
Qed.

(* ====================================================================== *)
(** * Payload extraction *)
(* ====================================================================== *)

Section PayloadProperties.
Variable NumberToString : float -> jsstring.
Variable StringToNumber : jsstring -> float.
Variable findNestedAgent : json -> option json.

Local Abbreviation cleanText_json' := (cleanText_json NumberToString).
Local Abbreviation add_from_item' := (add_from_item NumberToString).
Local Abbreviation add_feature' := (add_feature NumberToString).
Local Abbreviation extractImagesFromPayload' := (extractImagesFromPayload NumberToString).
Local Abbreviation extractFloorplansFromPayload' :=
  (extractFloorplansFromPayload NumberToString).
Local Abbreviation extractKeyFeaturesFromPayload' :=
  (extractKeyFeaturesFromPayload NumberToString).
Local Abbreviation extractPropertyFromPayload' :=
  (extractPropertyFromPayload NumberToString StringToNumber findNestedAgent).

Lemma cleanText_json_clean (v : option json) (t : jsstring) :
  cleanText_json' v = Some t -> cleanText (Some t) = Some t.
Proof.
  unfold cleanText_json. destruct v as [[]|]; try discriminate; apply cleanText_fix.
Qed.

Lemma add_from_item_http (item : json) (u : jsstring) :
  u ∈ add_from_item' item -> startsWith u (str "http") = true.
Proof.
  unfold add_from_item.
  match goal with |- context [match ?x with Some _ => _ | None => [] end] => destruct x end;
    [|intros H; inversion H].
  destruct (ensureAbsoluteUrl _) as [n|] eqn:E; [|intros H; inversion H].
  intros H. apply list_elem_of_singleton in H as ->.
  eapply ensureAbsoluteUrl_http. exact E.
Qed.

Lemma flat_map_http (items : list json) (u : jsstring) :
  u ∈ flat_map add_from_item' items -> startsWith u (str "http") = true.
Proof.
  intros H. apply list_elem_of_In, in_flat_map in H as (item & _ & H).
  apply (add_from_item_http item). apply list_elem_of_In. exact H.
Qed.

Lemma add_items_http (v : option json) (u : jsstring) :
  u ∈ add_items_or_item NumberToString v -> startsWith u (str "http") = true.
Proof.
  unfold add_items_or_item. destruct (truthy_json v); [|intros H; inversion H].
  destruct v as [[]|]; first [apply flat_map_http | apply add_from_item_http
                             | intros H; inversion H].
Qed.

Lemma unique_urls (imgs : list jsstring) :
  (forall u, u ∈ imgs -> startsWith u (str "http") = true) ->
  NoDup (uniqueArray (map Some imgs)) /\
  forall u, u ∈ uniqueArray (map Some imgs) ->
            startsWith u (str "http") = true /\ cleanText (Some u) = Some u.
Proof.
  intros Hall. split; [apply uniqueArray_NoDup|].
  intros v Hv. destruct (uniqueArray_elem _ _ Hv) as (item & Hit & Hc).
  split; [|eapply cleanText_fix; exact Hc].
  apply list_elem_of_fmap in Hit as (u & -> & Hu).
  eapply cleanText_http; [apply Hall; exact Hu | exact Hc].
Qed.

Lemma add_feature_clean (value : json) (f : jsstring) :
  f ∈ add_feature' value -> cleanText (Some f) = Some f /\ (length f < 200)%nat.
Proof.
  unfold add_feature. destruct (cleanText_json _ _) as [text|] eqn:E; [|intros H; inversion H].
  destruct (Nat.ltb_spec (length text) 200) as [Hl|_]; [|intros H; inversion H].
  intros H. apply list_elem_of_singleton in H as ->.
  split; [eapply cleanText_json_clean; exact E | exact Hl].
Qed.

Lemma flat_map_feature (items : list json) (f : jsstring) :
  f ∈ flat_map add_feature' items -> cleanText (Some f) = Some f /\ (length f < 200)%nat.
Proof.
  intros H. apply list_elem_of_In, in_flat_map in H as (item & _ & H).
  apply (add_feature_clean item). apply list_elem_of_In. exact H.
Qed.

(** X24. The lists taken from a payload.  The images and the floorplans
    are pairwise distinct URLs that start with [http]; the key features
    are pairwise distinct cleaned texts of fewer than 200 code units; and
    a payload with none of the keys [images], [propertyImages], [image]
    has no image. *)
Theorem payload_lists (payload : json) :
  (NoDup (extractImagesFromPayload' payload) /\
   forall u, u ∈ extractImagesFromPayload' payload ->
             startsWith u (str "http") = true /\ cleanText (Some u) = Some u) /\
  (NoDup (extractFloorplansFromPayload' payload) /\
   forall u, u ∈ extractFloorplansFromPayload' payload ->
             startsWith u (str "http") = true /\ cleanText (Some u) = Some u) /\
  (NoDup (extractKeyFeaturesFromPayload' payload) /\
   forall f, f ∈ extractKeyFeaturesFromPayload' payload ->
             cleanText (Some f) = Some f /\ (length f < 200)%nat) /\
  (json_get payload "images" = None -> json_get payload "propertyImages" = None ->
   json_get payload "image" = None -> extractImagesFromPayload' payload = []).
Proof.
  split; [|split; [|split]].
  - apply unique_urls. intros u [H|[H|H]%elem_of_app]%elem_of_app.
    + apply (add_items_http _ _ H).
    + destruct (json_get payload "propertyImages") as [[]|];
        first [apply (flat_map_http _ _ H) | inversion H].
    + destruct (truthy_json (json_get payload "image")); [|inversion H].
      destruct (json_get payload "image"); [apply (add_from_item_http _ _ H) | inversion H].
  - apply unique_urls. intros u H. apply (add_items_http _ _ H).
  - split; [apply uniqueArray_NoDup|].
    intros f Hf. destruct (uniqueArray_elem _ _ Hf) as (item & Hit & Hc).
    apply list_elem_of_fmap in Hit as (t & -> & Ht).
    assert (Hclean : cleanText (Some t) = Some t /\ (length t < 200)%nat).
    { apply elem_of_app in Ht as [Ht|Ht].
      - destruct (json_get payload "keyFeatures") as [[]|];
          first [apply (flat_map_feature _ _ Ht) | inversion Ht].
      - destruct (json_get payload "features") as [[]|];
          first [apply (flat_map_feature _ _ Ht) | inversion Ht]. }
    destruct Hclean as [Hc' Hl]. rewrite Hc' in Hc. injection Hc as <-. auto.
  - intros H1 H2 H3. unfold extractImagesFromPayload. rewrite H1, H2, H3. reflexivity.
Qed.

Lemma extractAgentFromPayload_fields (payload : json) (a : agent_t) :
  extractAgentFromPayload NumberToString findNestedAgent payload = Some a ->
  (is_Some (agent_name a) \/ is_Some (agent_phone a) \/
   is_Some (agent_address a) \/ is_Some (agent_website a)) /\
  cleanText (agent_name a) = agent_name a /\ cleanText (agent_phone a) = agent_phone a /\
  cleanText (agent_address a) = agent_address a /\
  cleanText (agent_website a) = agent_website a.
Proof.
  unfold extractAgentFromPayload. cbv zeta.
  match goal with |- context [if is_plain_json ?d then ?d else _] =>
    destruct (if is_plain_json d then d else findNestedAgent payload) as [c|]
  end; [|discriminate].
  cbn [agent_name agent_phone agent_address agent_website].
  assert (Hfix : forall v, cleanText (cleanText_json' v) = cleanText_json' v).
  { intros v. destruct (cleanText_json _ v) as [t|] eqn:E; [|reflexivity].
    eapply cleanText_json_clean. exact E. }
  assert (Htr : forall v, truthy_str (cleanText_json' v) = false -> cleanText_json' v = None).
  { intros v. destruct (cleanText_json _ v) as [t|] eqn:E; [|reflexivity].
    apply cleanText_json_clean, cleanText_truthy in E. rewrite E. discriminate. }
  match goal with
  | |- (if negb (truthy_str ?n) && negb (truthy_str ?p) && negb (truthy_str ?ad)
           && negb (truthy_str ?w) then _ else _) = _ -> _ =>
      destruct (truthy_str n) eqn:En, (truthy_str p) eqn:Ep, (truthy_str ad) eqn:Ead,
        (truthy_str w) eqn:Ew; cbn [negb andb]; try discriminate;
      intros H; injection H as <-;
      cbn [agent_name agent_phone agent_address agent_website];
      (split; [|rewrite !Hfix; auto]);
      repeat match goal with
             | H : truthy_str ?x = true |- _ =>
                 destruct x as [[|? ?]|] eqn:?; try discriminate H; clear H
             end; eauto 6
  end.
Qed.

(** X25. The fields taken from a payload.  Every text field that is set
    (address, property type, description, title, agent) is a cleaned,
    non-empty text; a bedroom or bathroom count that is set is a finite
    number; a price that is set has a currency and a display text that
    is [null] or cleaned; lists that are set are not empty; an agent
    object that is set has at least one field, all of them cleaned; and
    a payload that is no object gives the empty object. *)
Theorem extractPropertyFromPayload_fields (payload : option json) :
  (forall v, ex_address (extractPropertyFromPayload' payload) = Some v ->
     cleanText (Some v) = Some v) /\
  (forall v, ex_propertyType (extractPropertyFromPayload' payload) = Some v ->
     cleanText (Some v) = Some v) /\
  (forall v, ex_description (extractPropertyFromPayload' payload) = Some v ->
     cleanText (Some v) = Some v) /\
  (forall v, ex_title (extractPropertyFromPayload' payload) = Some v ->
     cleanText (Some v) = Some v) /\
  (forall v, ex_agent (extractPropertyFromPayload' payload) = Some v ->
     cleanText (Some v) = Some v) /\
  (forall n, ex_bedrooms (extractPropertyFromPayload' payload) = Some n ->
     PrimFloat.is_finite n = true) /\
  (forall n, ex_bathrooms (extractPropertyFromPayload' payload) = Some n ->
     PrimFloat.is_finite n = true) /\
  (forall q, ex_price (extractPropertyFromPayload' payload) = Some q ->
     truthy_json (Some (pp_currency q)) = true /\
     cleanText (pp_displayPrice q) = pp_displayPrice q) /\
  ex_images (extractPropertyFromPayload' payload) <> Some [] /\
  ex_floorplans (extractPropertyFromPayload' payload) <> Some [] /\
  ex_keyFeatures (extractPropertyFromPayload' payload) <> Some [] /\
  (forall a, ex_agentDetails (extractPropertyFromPayload' payload) = Some a ->
     (is_Some (agent_name a) \/ is_Some (agent_phone a) \/
      is_Some (agent_address a) \/ is_Some (agent_website a)) /\
     cleanText (agent_name a) = agent_name a /\ cleanText (agent_phone a) = agent_phone a /\
     cleanText (agent_address a) = agent_address a /\
     cleanText (agent_website a) = agent_website a) /\
  (is_plain_json payload = false ->
   (forall items, payload <> Some (JsonArr items)) ->
   extractPropertyFromPayload' payload = empty_extracted).
Proof.
  assert (Hne : forall l, nonempty_list l <> Some [])
    by (intros [|x l]; discriminate).
  assert (Hfin : forall f n, finite_or_none f = Some n -> PrimFloat.is_finite n = true).
  { intros f n. unfold finite_or_none. destruct (PrimFloat.is_finite f) eqn:E; [|discriminate].
    intros H; injection H as <-. exact E. }
  assert (Hfix : forall v, cleanText (cleanText_json' v) = cleanText_json' v).
  { intros v. destruct (cleanText_json _ v) as [t|] eqn:E; [|reflexivity].
    eapply cleanText_json_clean. exact E. }
  assert (Hprice : forall p q, payload_price_of NumberToString StringToNumber p = Some q ->
             truthy_json (Some (pp_currency q)) = true /\
             cleanText (pp_displayPrice q) = pp_displayPrice q).
  { intros p q. unfold payload_price_of.
    assert (Hthird : forall priceText, cleanText priceText = priceText ->
      (if truthy_str priceText
       then match parsePrice priceText with
            | Some q0 => Some {| pp_amount := amount q0;
                                 pp_currency := JsonStr (default [] (currency q0));
                                 pp_displayPrice := displayPrice q0 |}
            | None => Some {| pp_amount := JsNull; pp_currency := JsonStr (str "GBP");
                              pp_displayPrice := priceText |}
            end
       else None) = Some q ->
      truthy_json (Some (pp_currency q)) = true /\
      cleanText (pp_displayPrice q) = pp_displayPrice q).
    { intros priceText Hpt. destruct (truthy_str _); [|discriminate].
      destruct (parsePrice _) as [q0|] eqn:Eq.
      - destruct (parsePrice_display _ _ Eq) as [Hc Hd].
        intros H; injection H as <-. cbn [pp_currency pp_displayPrice].
        rewrite Hc, Hd. split; [reflexivity|]. rewrite cleanText_idem. reflexivity.
      - intros H; injection H as <-. cbn [pp_currency pp_displayPrice].
        split; [reflexivity | exact Hpt]. }
    destruct (json_get p "price") as [[| | | | |fields]|];
      try (cbv zeta; apply Hthird, Hfix).
    - intros H; injection H as <-. split; reflexivity.
    - intros H. apply (inj Some) in H. rewrite <- H.
      cbn [pp_currency pp_displayPrice]. split; [|apply Hfix].
      cbn [or_chain].
      repeat match goal with
             | |- context [if truthy_json ?x then _ else _] =>
                 let E := fresh "E" in
                 destruct (truthy_json x) eqn:E;
                 [destruct x; [exact E | discriminate E]|]
             end.
      reflexivity. }
  destruct payload as [[| | | |items|fields]|];
    try (repeat split; first [discriminate | reflexivity
                             | intros ? H; discriminate H
                             | intros ? ? H; discriminate H
                             | intros ? ?; reflexivity]).
  - cbn [extractPropertyFromPayload ex_address ex_propertyType ex_description ex_title
         ex_agent ex_bedrooms ex_bathrooms ex_price ex_images ex_floorplans ex_keyFeatures
         ex_agentDetails].
    repeat (split; [first [intros v; apply cleanText_json_clean
                          | intros n; apply Hfin
                          | apply Hprice | apply Hne
                          | apply extractAgentFromPayload_fields
                          | idtac]|]).
    + intros v. destruct (extractAgentFromPayload _ _ _) as [a|] eqn:Ea; [|discriminate].
      destruct (extractAgentFromPayload_fields _ _ Ea) as (_ & Hn & _).
      intros H. apply or_str_clean in H; [exact H | | discriminate].
      intros w Hw. rewrite Hw in Hn. exact Hn.
    + intros _ H. exfalso. apply (H items). reflexivity.
  - cbn [extractPropertyFromPayload ex_address ex_propertyType ex_description ex_title
         ex_agent ex_bedrooms ex_bathrooms ex_price ex_images ex_floorplans ex_keyFeatures
         ex_agentDetails].
    repeat (split; [first [intros v; apply cleanText_json_clean
                          | intros n; apply Hfin
                          | apply Hprice | apply Hne
                          | apply extractAgentFromPayload_fields
                          | idtac]|]).
    + intros v. destruct (extractAgentFromPayload _ _ _) as [a|] eqn:Ea; [|discriminate].
      destruct (extractAgentFromPayload_fields _ _ Ea) as (_ & Hn & _).
      intros H. apply or_str_clean in H; [exact H | | discriminate].
      intros w Hw. rewrite Hw in Hn. exact Hn.
    + intros H. discriminate H.
Qed.
End PayloadProperties.
